(** * The scoutfs item cache (src/item.c): model and properties

    The cache is two search trees under one lock: the tree of
    [cached_item]s, augmented with the dirty bits of every subtree, and
    the tree of [cached_range]s.  The functions of item.c are embedded
    one by one, under their own names, as functions on an explicit
    [item_cache] value.  A pointer to an item that is linked in the tree
    is represented by the item's key; the kernel's rbtree routines are
    embedded as search-tree operations that call the augmentation
    callbacks [propagate] and [copy] where the kernel calls them.  The
    kernel's rebalancing is left out of these operations: no node is
    recoloured or rotated in them.  The trees here hold the kernel's
    items in the kernel's order, not in the kernel's shape; what is
    proved of the items, of their own dirty bit, of the counters and of
    the ranges does not depend on the shape.  The rotations and the
    [rotate] callback, which recomputes the subtree bits of the two
    rotated nodes, are embedded on their own further down, with an
    [erase_item] and a flush that rebalance by given rotations. *)

From Stdlib Require Import ZArith List Bool Lia Permutation.
From Stdlib Require Import Init.Byte.
Import ListNotations.
Open Scope Z_scope.

Set Implicit Arguments.

(** ** Machine integers *)

Definition INT_MAX : Z := 2147483647.

(** Conversion to [unsigned int], [int] and [unsigned long]. *)
Definition to_uint (x : Z) : Z := x mod 4294967296.
Definition to_int (x : Z) : Z :=
  let u := to_uint x in if u <? 2147483648 then u else u - 4294967296.
Definition to_ulong (x : Z) : Z := x mod 18446744073709551616.

(** ** Error numbers *)

Definition ENOENT : Z := 2.
Definition EIO : Z := 5.
Definition ENOMEM : Z := 12.
Definition EEXIST : Z := 17.
Definition EINVAL : Z := 22.
Definition ENODATA : Z := 61.

(** ** Outcomes

    A kernel function returns, or stops the machine in [BUG_ON].  The
    loops that wait for the segment reader are run with fuel. *)

Inductive outcome (A : Type) : Type :=
| Ret (a : A)
| Bug
| Starved.
Arguments Ret {A} a.
Arguments Bug {A}.
Arguments Starved {A}.

Definition bind {A B : Type} (m : outcome A) (f : A -> outcome B) : outcome B :=
  match m with
  | Ret a => f a
  | Bug => Bug
  | Starved => Starved
  end.

Notation "x <- m ;; k" := (bind m (fun x => k))
  (at level 61, m at next level, right associativity).

(** ** Keys

    Modelled from the spec: [struct scoutfs_key] and its primitives
    (compare, range compare, increment, decrement, zero) are declared in
    headers that are not part of the sources.  The spec takes them as
    primitives of a totally ordered key space; keys are integers here,
    and the wrap of increment and decrement at the two ends of the key
    space is not represented. *)

Definition scoutfs_key : Type := Z.

Definition scoutfs_key_compare (a b : scoutfs_key) : Z :=
  match Z.compare a b with
  | Lt => -1
  | Eq => 0
  | Gt => 1
  end.

(** -1 when the first range is entirely before the second, 1 when it is
    entirely after, 0 when they overlap. *)
Definition scoutfs_key_compare_ranges
    (a_start a_end b_start b_end : scoutfs_key) : Z :=
  if scoutfs_key_compare a_end b_start <? 0 then -1
  else if scoutfs_key_compare a_start b_end >? 0 then 1
  else 0.

Definition scoutfs_key_inc (k : scoutfs_key) : scoutfs_key := k + 1.
Definition scoutfs_key_dec (k : scoutfs_key) : scoutfs_key := k - 1.
Definition scoutfs_key_zeros : scoutfs_key := 0.

(** ** Values *)

Record kvec : Type := mk_kvec {
  iov_base : list byte;
  iov_len : Z
}.

(** ** Locks

    Modelled from the spec: [struct scoutfs_lock] is declared outside
    the sources; the spec gives it a mode and the two ends of the key
    range it covers. *)

Inductive lock_mode : Type :=
| SCOUTFS_LOCK_READ
| SCOUTFS_LOCK_WRITE
| SCOUTFS_LOCK_WRITE_ONLY.

Definition lock_mode_eqb (a b : lock_mode) : bool :=
  match a, b with
  | SCOUTFS_LOCK_READ, SCOUTFS_LOCK_READ => true
  | SCOUTFS_LOCK_WRITE, SCOUTFS_LOCK_WRITE => true
  | SCOUTFS_LOCK_WRITE_ONLY, SCOUTFS_LOCK_WRITE_ONLY => true
  | _, _ => false
  end.

Record scoutfs_lock : Type := mk_lock {
  mode : lock_mode;
  lock_start : scoutfs_key;
  lock_end : scoutfs_key
}.

(** ** Items *)

Record cached_item : Type := mk_item {
  dirty : Z;
  deletion : bool;
  persistent : bool;
  key : scoutfs_key;
  val : option (list byte);
  val_len : Z
}.

Definition set_dirty (it : cached_item) (d : Z) : cached_item :=
  mk_item d (deletion it) (persistent it) (key it) (val it) (val_len it).
Definition set_deletion (it : cached_item) (b : bool) : cached_item :=
  mk_item (dirty it) b (persistent it) (key it) (val it) (val_len it).
Definition set_persistent (it : cached_item) (b : bool) : cached_item :=
  mk_item (dirty it) (deletion it) b (key it) (val it) (val_len it).
Definition set_val (it : cached_item) (v : option (list byte)) (n : Z)
  : cached_item :=
  mk_item (dirty it) (deletion it) (persistent it) (key it) v n.

Record cached_range : Type := mk_range {
  start : scoutfs_key;
  end_ : scoutfs_key
}.

(** The two trees.  [INode l it r] is the [rb_node] embedded in [it]
    with its [rb_left] and [rb_right]. *)
Inductive item_tree : Type :=
| INil
| INode (l : item_tree) (it : cached_item) (r : item_tree).

Inductive range_tree : Type :=
| RNil
| RNode (l : range_tree) (rng : cached_range) (r : range_tree).

Record item_cache : Type := mk_cache {
  items : item_tree;
  ranges : range_tree;
  nr_dirty_items : Z;
  dirty_val_bytes : Z;
  lru_list : list scoutfs_key;
  lru_nr : Z
}.

Definition set_items (c : item_cache) (t : item_tree) : item_cache :=
  mk_cache t (ranges c) (nr_dirty_items c) (dirty_val_bytes c)
           (lru_list c) (lru_nr c).
Definition set_ranges (c : item_cache) (t : range_tree) : item_cache :=
  mk_cache (items c) t (nr_dirty_items c) (dirty_val_bytes c)
           (lru_list c) (lru_nr c).
Definition set_lru (c : item_cache) (l : list scoutfs_key) (n : Z)
  : item_cache :=
  mk_cache (items c) (ranges c) (nr_dirty_items c) (dirty_val_bytes c) l n.

(** The intrusive [entry] list of the items that are in the tree: the
    lru holds their keys, least recently referenced first. *)
Definition list_del (k : scoutfs_key) (l : list scoutfs_key)
  : list scoutfs_key :=
  filter (fun x => negb (x =? k)) l.
Definition list_add_tail (k : scoutfs_key) (l : list scoutfs_key)
  : list scoutfs_key := l ++ [k].
Definition list_move_tail (k : scoutfs_key) (l : list scoutfs_key)
  : list scoutfs_key := list_add_tail k (list_del k l).
Definition on_list (k : scoutfs_key) (l : list scoutfs_key) : bool :=
  existsb (fun x => x =? k) l.

(** ** item.c, top to bottom *)

Section ItemCache.

(** [SCOUTFS_MAX_VAL_SIZE] comes from format.h, which is not part of
    the sources; what matters is that it is a value length that fits an
    [int]. *)
Variable SCOUTFS_MAX_VAL_SIZE : Z.

Definition invalid_key_val (k : scoutfs_key) (v : option kvec) : bool :=
  match v with
  | Some kv => iov_len kv >? SCOUTFS_MAX_VAL_SIZE
  | None => false
  end.

Definition SCOUTFS_ITEM_FLAG_DELETION : Z := 1.

Definition item_flags (it : cached_item) : Z :=
  if deletion it then SCOUTFS_ITEM_FLAG_DELETION else 0.

(** [alloc_item]: a zeroed item with the key and a copy of the value.
    The allocation itself can fail; callers take that as an input. *)
Definition alloc_item (k : scoutfs_key) (v : option kvec) : cached_item :=
  match v with
  | Some kv =>
      mk_item 0 false false k
              (Some (firstn (Z.to_nat (iov_len kv)) (iov_base kv)))
              (to_uint (iov_len kv))
  | None => mk_item 0 false false k None 0
  end.

(** [copy_item_val]: the bytes copied and their count; a null vec
    copies nothing. *)
Definition item_bytes (it : cached_item) : list byte :=
  match val it with
  | Some b => b
  | None => []
  end.

Definition copy_item_val (v : option kvec) (it : cached_item)
  : Z * option kvec :=
  match v with
  | Some kv =>
      let ret := to_int (Z.min (val_len it) (iov_len kv)) in
      (ret,
       Some (mk_kvec (firstn (Z.to_nat ret) (item_bytes it)
                      ++ skipn (Z.to_nat ret) (iov_base kv))
                     (iov_len kv)))
  | None => (0, None)
  end.

(** [walk_items]: the item found, and the previous and next items met
    on the way down. *)
Fixpoint walk_items_from (node : item_tree) (k : scoutfs_key)
    (prev next : option cached_item)
  : option cached_item * option cached_item * option cached_item :=
  match node with
  | INil => (None, prev, next)
  | INode l it r =>
      let cmp := scoutfs_key_compare k (key it) in
      if cmp <? 0 then walk_items_from l k prev (Some it)
      else if cmp >? 0 then walk_items_from r k (Some it) next
      else (Some it, prev, next)
  end.

Definition walk_items (root : item_tree) (k : scoutfs_key) :=
  walk_items_from root k None None.

Definition walk_found (root : item_tree) (k : scoutfs_key)
  : option cached_item := fst (fst (walk_items root k)).

Definition find_item (root : item_tree) (k : scoutfs_key)
  : option cached_item :=
  match walk_found root k with
  | Some it => if deletion it then None else Some it
  | None => None
  end.

Definition next_item (root : item_tree) (k : scoutfs_key)
  : option cached_item :=
  match walk_items root k with
  | (Some it, _, _) => Some it
  | (None, _, next) => next
  end.

Definition prev_item (root : item_tree) (k : scoutfs_key)
  : option cached_item :=
  match walk_items root k with
  | (Some it, _, _) => Some it
  | (None, prev, _) => prev
  end.

Definition ITEM_DIRTY : Z := 1.
Definition LEFT_DIRTY : Z := 2.
Definition RIGHT_DIRTY : Z := 4.

Definition item_is_dirty (it : cached_item) : bool :=
  negb (Z.land (dirty it) ITEM_DIRTY =? 0).

Definition node_dirty_bit (node : item_tree) (bit : Z) : Z :=
  match node with
  | INil => 0
  | INode _ it _ => if dirty it =? 0 then 0 else bit
  end.

(** [compute_item_dirty] reads the item's two children; they are
    arguments here. *)
Definition compute_item_dirty (l : item_tree) (it : cached_item)
    (r : item_tree) : Z :=
  Z.lor (Z.lor (Z.land (dirty it) ITEM_DIRTY)
               (node_dirty_bit l LEFT_DIRTY))
        (node_dirty_bit r RIGHT_DIRTY).

(** One turn of the loop of [scoutfs_item_rb_propagate] at the node
    [INode l it r]: [going] says whether the walk up from below is
    still running; the result says whether it goes on to the parent. *)
Definition propagate_step (going : bool) (l : item_tree)
    (it : cached_item) (r : item_tree) : item_tree * bool :=
  if going then
    let d := compute_item_dirty l it r in
    if dirty it =? d then (INode l it r, false)
    else (INode l (set_dirty it d) r, true)
  else (INode l it r, false).

(** [scoutfs_item_rb_copy]. *)
Definition scoutfs_item_rb_copy (l : item_tree) (n : cached_item)
    (r : item_tree) : cached_item :=
  set_dirty n (compute_item_dirty l n r).

(** A store through a pointer to the item with key [k], followed, when
    [parents] is set, by [update_dirty_parents]: the propagation starts
    at the parent of the item and walks up. *)
Fixpoint store_item (t : item_tree) (k : scoutfs_key)
    (f : cached_item -> cached_item) (parents : bool) : item_tree * bool :=
  match t with
  | INil => (INil, false)
  | INode l it r =>
      let cmp := scoutfs_key_compare k (key it) in
      if cmp <? 0 then
        let '(l', going) := store_item l k f parents in
        propagate_step going l' it r
      else if cmp >? 0 then
        let '(r', going) := store_item r k f parents in
        propagate_step going l it r'
      else (INode l (f it) r, parents)
  end.

Definition update_dirty_item_counts (c : item_cache) (nr vals : Z)
  : item_cache :=
  mk_cache (items c) (ranges c)
           (nr_dirty_items c + to_int nr) (dirty_val_bytes c + to_int vals)
           (lru_list c) (lru_nr c).

Definition mark_item_dirty (c : item_cache) (k : scoutfs_key) : item_cache :=
  match walk_found (items c) k with
  | None => c
  | Some it =>
      if item_is_dirty it then c
      else
        let t := fst (store_item (items c) k
                        (fun i => set_dirty i (Z.lor (dirty i) ITEM_DIRTY))
                        true) in
        let c1 := set_lru (set_items c t) (list_del k (lru_list c))
                          (to_ulong (lru_nr c - 1)) in
        update_dirty_item_counts c1 1 (val_len it)
  end.

Definition clear_item_dirty (c : item_cache) (k : scoutfs_key) : item_cache :=
  match walk_found (items c) k with
  | None => c
  | Some it =>
      if negb (item_is_dirty it) then c
      else
        let t := fst (store_item (items c) k
                        (fun i => set_dirty i
                                    (Z.land (dirty i) (Z.lnot ITEM_DIRTY)))
                        true) in
        let c1 := set_lru (set_items c t) (list_add_tail k (lru_list c))
                          (to_ulong (lru_nr c + 1)) in
        update_dirty_item_counts c1 (-1) (to_uint (- val_len it))
  end.

Definition item_referenced (c : item_cache) (it : cached_item) : item_cache :=
  if dirty it =? 0 then
    set_lru c (list_move_tail (key it) (lru_list c)) (lru_nr c)
  else c.

(** The kernel's [rb_erase_augmented], without its recolouring.  The
    node to erase is [INode l it r]; a node with two children is
    replaced by its successor, the leftmost node under [r].  The
    callbacks run as in the kernel: [copy] on the successor while its
    left child is still null, [propagate] from the successor's old
    parent up to the successor, and a last [propagate] from the node
    that took the place. *)
Fixpoint erase_leftmost (l : item_tree) (it : cached_item) (r : item_tree)
  : cached_item * item_tree * bool :=
  match l with
  | INil => (it, r, true)
  | INode ll lit lr =>
      let '(m, l', going) := erase_leftmost ll lit lr in
      let '(n, going') := propagate_step going l' it r in
      (m, n, going')
  end.

Definition erase_node (l : item_tree) (it : cached_item) (r : item_tree)
  : item_tree * bool :=
  match l, r with
  | INil, _ => (r, true)
  | _, INil => (l, true)
  | _, INode rl rit rr =>
      let '(succ, r', _) := erase_leftmost rl rit rr in
      let copied :=
        scoutfs_item_rb_copy INil succ
          (match rl with INil => rr | _ => r end) in
      let d := compute_item_dirty l copied r' in
      (INode l (set_dirty copied d) r', negb (dirty copied =? d))
  end.

Fixpoint rb_erase_augmented (t : item_tree) (k : scoutfs_key)
  : item_tree * bool :=
  match t with
  | INil => (INil, false)
  | INode l it r =>
      let cmp := scoutfs_key_compare k (key it) in
      if cmp <? 0 then
        let '(l', going) := rb_erase_augmented l k in
        propagate_step going l' it r
      else if cmp >? 0 then
        let '(r', going) := rb_erase_augmented r k in
        propagate_step going l it r'
      else erase_node l it r
  end.

(** [unlink_item]: the item leaves the dirty accounting, the tree and
    the lru. *)
Definition unlink_item (c : item_cache) (k : scoutfs_key) : item_cache :=
  let c1 := clear_item_dirty c k in
  let c2 := set_items c1 (fst (rb_erase_augmented (items c1) k)) in
  if on_list k (lru_list c2) then
    set_lru c2 (list_del k (lru_list c2)) (to_ulong (lru_nr c2 - 1))
  else c2.

Definition erase_item (c : item_cache) (k : scoutfs_key) : item_cache :=
  unlink_item c k.

(** [delete_item]: an item that is not persistent is erased; a
    persistent one loses its value and stays as a dirty deletion item. *)
Definition delete_item (c : item_cache) (k : scoutfs_key) : item_cache :=
  match walk_found (items c) k with
  | None => c
  | Some it =>
      if negb (persistent it) then erase_item c k
      else
        let c1 := clear_item_dirty c k in
        let t := fst (store_item (items c1) k
                        (fun i => set_deletion (set_val i None 0) true)
                        false) in
        mark_item_dirty (set_items c1 t) k
  end.

(** [insert_item].  One descent from the root: every item passed on
    the way down gets the subtree bit of the side taken when the new
    item has any dirty bit; the descent ends at a null link, where the
    new item is linked, or at an item with the same key. *)
Inductive insert_walk : Type :=
| Linked (t : item_tree)
| Present (found : cached_item) (t : item_tree).

Definition lift_insert (w : insert_walk) (rebuild : item_tree -> item_tree)
  : insert_walk :=
  match w with
  | Linked t => Linked (rebuild t)
  | Present x t => Present x (rebuild t)
  end.

Fixpoint insert_descend (t : item_tree) (ins : cached_item) : insert_walk :=
  match t with
  | INil => Linked (INode INil ins INil)
  | INode l it r =>
      let cmp := scoutfs_key_compare (key ins) (key it) in
      if cmp <? 0 then
        let it' := if dirty ins =? 0 then it
                   else set_dirty it (Z.lor (dirty it) LEFT_DIRTY) in
        lift_insert (insert_descend l ins) (fun l' => INode l' it' r)
      else if cmp >? 0 then
        let it' := if dirty ins =? 0 then it
                   else set_dirty it (Z.lor (dirty it) RIGHT_DIRTY) in
        lift_insert (insert_descend r ins) (fun r' => INode l it' r')
      else Present it t
  end.

Fixpoint tree_size (t : item_tree) : nat :=
  match t with
  | INil => O
  | INode l _ r => S (tree_size l + tree_size r)
  end.

(** The [restart] loop.  The result carries the new item as the caller
    sees it afterwards, since the loop may set its [persistent] bit.
    The erased item's [persistent] is read after [erase_item] freed it;
    here the read finds the value the item had when it was erased.
    [insert_item_loop_freed] below leaves open what it finds. *)
Fixpoint insert_item_loop (fuel : nat) (c : item_cache) (ins : cached_item)
    (logical_overwrite cache_populate : bool)
  : outcome (Z * item_cache * cached_item) :=
  match fuel with
  | O => Starved
  | S fuel' =>
      match insert_descend (items c) ins with
      | Present it t =>
          let c1 := set_items c t in
          if cache_populate || (negb (deletion it) && negb logical_overwrite)
          then Ret (- EEXIST, c1, ins)
          else
            let c2 := erase_item c1 (key it) in
            let ins' := if persistent it then set_persistent ins true
                        else ins in
            insert_item_loop fuel' c2 ins' logical_overwrite cache_populate
      | Linked t =>
          if item_is_dirty ins then Bug
          else
            Ret (0,
                 set_lru (set_items c t)
                         (list_add_tail (key ins) (lru_list c))
                         (to_ulong (lru_nr c + 1)),
                 ins)
      end
  end.

Definition insert_item (c : item_cache) (ins : cached_item)
    (logical_overwrite cache_populate : bool)
  : outcome (Z * item_cache * cached_item) :=
  insert_item_loop (S (tree_size (items c))) c ins
                   logical_overwrite cache_populate.

(** [insert_item] with the heap in view.  [erase_item] ends in
    [free_item], which hands the item to [kfree]; the statement after
    it, [if (item->persistent)], reads the freed memory.
    [freed_persistent] is what that read finds in the item that was
    freed; [insert_item] above is the case of memory that still holds
    what the item held. *)
Fixpoint insert_item_loop_freed (freed_persistent : cached_item -> bool)
    (fuel : nat) (c : item_cache) (ins : cached_item)
    (logical_overwrite cache_populate : bool)
  : outcome (Z * item_cache * cached_item) :=
  match fuel with
  | O => Starved
  | S fuel' =>
      match insert_descend (items c) ins with
      | Present it t =>
          let c1 := set_items c t in
          if cache_populate || (negb (deletion it) && negb logical_overwrite)
          then Ret (- EEXIST, c1, ins)
          else
            let c2 := erase_item c1 (key it) in
            let ins' := if freed_persistent it then set_persistent ins true
                        else ins in
            insert_item_loop_freed freed_persistent fuel' c2 ins'
                                   logical_overwrite cache_populate
      | Linked t =>
          if item_is_dirty ins then Bug
          else
            Ret (0,
                 set_lru (set_items c t)
                         (list_add_tail (key ins) (lru_list c))
                         (to_ulong (lru_nr c + 1)),
                 ins)
      end
  end.

Definition insert_item_freed (freed_persistent : cached_item -> bool)
    (c : item_cache) (ins : cached_item)
    (logical_overwrite cache_populate : bool)
  : outcome (Z * item_cache * cached_item) :=
  insert_item_loop_freed freed_persistent (S (tree_size (items c))) c ins
                         logical_overwrite cache_populate.

(** ** Ranges *)

Fixpoint range_list (t : range_tree) : list cached_range :=
  match t with
  | RNil => []
  | RNode l rng r => range_list l ++ rng :: range_list r
  end.

Fixpoint range_size (t : range_tree) : nat :=
  match t with
  | RNil => O
  | RNode l _ r => S (range_size l + range_size r)
  end.

Definition rb_first_rng (root : range_tree) : option cached_range :=
  hd_error (range_list root).

Fixpoint walk_ranges_from (node : range_tree) (k : scoutfs_key)
    (prev next : option cached_range)
  : option cached_range * option cached_range * option cached_range :=
  match node with
  | RNil => (None, prev, next)
  | RNode l rng r =>
      let cmp := scoutfs_key_compare_ranges k k (start rng) (end_ rng) in
      if cmp <? 0 then walk_ranges_from l k prev (Some rng)
      else if cmp >? 0 then walk_ranges_from r k (Some rng) next
      else (Some rng, prev, next)
  end.

Definition walk_ranges (root : range_tree) (k : scoutfs_key) :=
  walk_ranges_from root k None None.

(** [check_range]: whether a range covers the key, and its two ends
    (zeros when there is none). *)
Definition check_range (c : item_cache) (k : scoutfs_key)
  : bool * scoutfs_key * scoutfs_key :=
  match fst (fst (walk_ranges (ranges c) k)) with
  | Some rng => (true, start rng, end_ rng)
  | None => (false, scoutfs_key_zeros, scoutfs_key_zeros)
  end.

Definition range_cached (c : item_cache) (k : scoutfs_key) : bool :=
  fst (fst (check_range c k)).

(** The kernel's [rb_erase] of the node [RNode l rng r]. *)
Fixpoint range_leftmost (l : range_tree) (rng : cached_range)
    (r : range_tree) : cached_range * range_tree :=
  match l with
  | RNil => (rng, r)
  | RNode ll lrng lr =>
      let '(m, l') := range_leftmost ll lrng lr in (m, RNode l' rng r)
  end.

Definition rb_erase_range (l : range_tree) (r : range_tree) : range_tree :=
  match l, r with
  | RNil, _ => r
  | _, RNil => l
  | _, RNode rl rrng rr =>
      let '(m, r') := range_leftmost rl rrng rr in RNode l m r'
  end.

(** One descent of [insert_range], up to its first overlap. *)
Inductive range_walk : Type :=
| Settled (t : range_tree)
| Restart (t : range_tree) (ins : cached_range).

Definition lift_range (w : range_walk) (rebuild : range_tree -> range_tree)
  : range_walk :=
  match w with
  | Settled t => Settled (rebuild t)
  | Restart t ins => Restart (rebuild t) ins
  end.

Fixpoint insert_range_descend (t : range_tree) (ins : cached_range)
  : range_walk :=
  match t with
  | RNil => Settled (RNode RNil ins RNil)
  | RNode l rng r =>
      let cmp := scoutfs_key_compare_ranges (start ins) (end_ ins)
                                            (start rng) (end_ rng) in
      if cmp <? 0 then
        lift_range (insert_range_descend l ins) (fun l' => RNode l' rng r)
      else if cmp >? 0 then
        lift_range (insert_range_descend r ins) (fun r' => RNode l rng r')
      else
        let start_cmp := scoutfs_key_compare (start ins) (start rng) in
        let end_cmp := scoutfs_key_compare (end_ ins) (end_ rng) in
        if (start_cmp >=? 0) && (end_cmp <=? 0) then Settled t
        else
          let ins' :=
            if (start_cmp <? 0) && (end_cmp <? 0)
            then mk_range (start ins) (end_ rng)
            else if (start_cmp >? 0) && (end_cmp >? 0)
            then mk_range (start rng) (end_ ins)
            else ins in
          Restart (rb_erase_range l r) ins'
  end.

Fixpoint insert_range_loop (fuel : nat) (t : range_tree) (ins : cached_range)
  : outcome range_tree :=
  match fuel with
  | O => Starved
  | S fuel' =>
      match insert_range_descend t ins with
      | Settled t' => Ret t'
      | Restart t' ins' => insert_range_loop fuel' t' ins'
      end
  end.

Definition insert_range (t : range_tree) (ins : cached_range)
  : outcome range_tree :=
  insert_range_loop (S (range_size t)) t ins.

(** One descent of [remove_range].  Every turn of the [while] loop
    takes one unit of fuel: a step down, or a second look at the same
    node after [continue]. *)
Inductive remove_walk : Type :=
| Bottom (t : range_tree)
| Again (t : range_tree) (rem : cached_range) (insert : bool)
| Stuck.

Definition lift_remove (w : remove_walk) (rebuild : range_tree -> range_tree)
  : remove_walk :=
  match w with
  | Bottom t => Bottom (rebuild t)
  | Again t rem insert => Again (rebuild t) rem insert
  | Stuck => Stuck
  end.

Fixpoint remove_range_descend (fuel : nat) (t : range_tree)
    (rem : cached_range) (insert : bool) : remove_walk :=
  match fuel with
  | O => Stuck
  | S fuel' =>
      match t with
      | RNil => Bottom (if insert then RNode RNil rem RNil else RNil)
      | RNode l rng r =>
          let cmp := scoutfs_key_compare_ranges (start rem) (end_ rem)
                                                (start rng) (end_ rng) in
          if cmp <? 0 then
            lift_remove (remove_range_descend fuel' l rem insert)
                        (fun l' => RNode l' rng r)
          else if cmp >? 0 then
            lift_remove (remove_range_descend fuel' r rem insert)
                        (fun r' => RNode l rng r')
          else
            let start_cmp := scoutfs_key_compare (start rem) (start rng) in
            let end_cmp := scoutfs_key_compare (end_ rem) (end_ rng) in
            if (start_cmp >? 0) && (end_cmp <? 0) then
              Again (RNode l (mk_range (start rng)
                                       (scoutfs_key_dec (start rem))) r)
                    (mk_range (scoutfs_key_inc (end_ rem)) (end_ rng))
                    true
            else if (start_cmp <? 0) && (end_cmp <? 0) then
              remove_range_descend fuel'
                (RNode l (mk_range (scoutfs_key_inc (end_ rem)) (end_ rng)) r)
                (mk_range (start rem) (start rng)) insert
            else if (start_cmp >? 0) && (end_cmp >? 0) then
              remove_range_descend fuel'
                (RNode l (mk_range (start rng)
                                   (scoutfs_key_dec (start rem))) r)
                (mk_range (end_ rng) (end_ rem)) insert
            else Again (rb_erase_range l r) rem insert
      end
  end.

Fixpoint remove_range_loop (fuel walk_fuel : nat) (t : range_tree)
    (rem : cached_range) (insert : bool) : outcome range_tree :=
  match fuel with
  | O => Starved
  | S fuel' =>
      match remove_range_descend walk_fuel t rem insert with
      | Bottom t' => Ret t'
      | Again t' rem' insert' =>
          remove_range_loop fuel' walk_fuel t' rem' insert'
      | Stuck => Starved
      end
  end.

(** A tree of [n] ranges is walked in at most [2 n + 1] turns, and
    restarted at most [n + 1] times. *)
Definition remove_range (t : range_tree) (rem : cached_range)
  : outcome range_tree :=
  remove_range_loop (2 + range_size t) (2 + 2 * range_size t) t rem false.

(** [lock_coverage]. *)
Definition lock_coverage (lock : scoutfs_lock) (k : scoutfs_key)
    (op_mode : lock_mode) : bool :=
  (lock_mode_eqb op_mode (mode lock)
   || (lock_mode_eqb op_mode SCOUTFS_LOCK_READ
       && lock_mode_eqb (mode lock) SCOUTFS_LOCK_WRITE))
  && (scoutfs_key_compare_ranges k k (lock_start lock) (lock_end lock) =? 0).

(** ** The segment reader

    Modelled from the spec: [scoutfs_manifest_read_items] lives outside
    the sources.  The spec has it read a sorted batch of items and the
    range it read, hand both to [scoutfs_item_insert_batch], and return
    0 or an error.  What one call of the reader did is an input of the
    model (a [fill]): the pairs it added to its batch, the range it
    inserted the batch with (if it got that far), and its return
    value.  A read-through call takes the list of the fills of the
    reader calls it will make. *)

Record fill : Type := mk_fill {
  fill_ret : Z;
  fill_items : list (scoutfs_key * option kvec);
  fill_range : option (scoutfs_key * scoutfs_key)
}.

(** [scoutfs_item_add_batch] *)
Definition scoutfs_item_add_batch (batch : list cached_item)
    (k : scoutfs_key) (v : option kvec) (mem : bool)
  : Z * list cached_item :=
  if invalid_key_val k v then (- EINVAL, batch)
  else if mem then (0, batch ++ [alloc_item k v])
  else (- ENOMEM, batch).

(** [scoutfs_item_insert_batch]: the range first, then every item of
    the batch that is not in the cache yet. *)
Fixpoint insert_batch_items (c : item_cache) (batch : list cached_item)
  : outcome item_cache :=
  match batch with
  | [] => Ret c
  | it :: rest =>
      match insert_item c (set_persistent it true) false true with
      | Ret (_, c', _) => insert_batch_items c' rest
      | Bug => Bug
      | Starved => Starved
      end
  end.

Definition scoutfs_item_insert_batch (c : item_cache)
    (batch : list cached_item) (s e : scoutfs_key) (mem : bool)
  : outcome (Z * item_cache) :=
  if scoutfs_key_compare s e >? 0 then Ret (- EINVAL, c)
  else if negb mem then Ret (- ENOMEM, c)
  else
    match insert_range (ranges c) (mk_range s e) with
    | Ret t =>
        match insert_batch_items (set_ranges c t) batch with
        | Ret c' => Ret (0, c')
        | Bug => Bug
        | Starved => Starved
        end
    | Bug => Bug
    | Starved => Starved
    end.

Definition fill_batch (f : fill) : list cached_item :=
  fold_left (fun l kv => snd (scoutfs_item_add_batch l (fst kv) (snd kv) true))
            (fill_items f) [].

Definition scoutfs_manifest_read_items (c : item_cache) (f : fill)
  : outcome (Z * item_cache) :=
  match fill_range f with
  | Some (s, e) =>
      match scoutfs_item_insert_batch c (fill_batch f) s e true with
      | Ret (_, c') => Ret (fill_ret f, c')
      | Bug => Bug
      | Starved => Starved
      end
  | None => Ret (fill_ret f, c)
  end.

(** ** Lookups *)

(** The body of the loops of the read-through calls: [body] is what
    the call does under the lock, returning its result and the new
    cache; on [-ENODATA] the reader is called and, if it returns 0, the
    body runs again. *)
Fixpoint read_through (A : Type) (body : item_cache -> outcome (Z * item_cache * A))
    (c : item_cache) (fills : list fill) : outcome (Z * item_cache * A) :=
  match body c with
  | Ret (ret, c1, a) =>
      if ret =? - ENODATA then
        match fills with
        | [] => Starved
        | f :: fills' =>
            match scoutfs_manifest_read_items c1 f with
            | Ret (ret', c2) =>
                if ret' =? 0 then read_through body c2 fills'
                else Ret (ret', c2, a)
            | Bug => Bug
            | Starved => Starved
            end
        end
      else Ret (ret, c1, a)
  | Bug => Bug
  | Starved => Starved
  end.

Definition lookup_locked (k : scoutfs_key) (v : option kvec) (c : item_cache)
  : outcome (Z * item_cache * option kvec) :=
  match find_item (items c) k with
  | Some it =>
      let c' := item_referenced c it in
      match v with
      | Some _ => let '(ret, out) := copy_item_val v it in Ret (ret, c', out)
      | None => Ret (0, c', v)
      end
  | None =>
      if range_cached c k then Ret (- ENOENT, c, v)
      else Ret (- ENODATA, c, v)
  end.

Definition scoutfs_item_lookup (c : item_cache) (k : scoutfs_key)
    (v : option kvec) (lock : scoutfs_lock) (fills : list fill)
  : outcome (Z * item_cache * option kvec) :=
  if negb (lock_coverage lock k SCOUTFS_LOCK_READ) then Ret (- EINVAL, c, v)
  else read_through (lookup_locked k v) c fills.

(** [scoutfs_item_lookup_exact]: for [ret == val->iov_len] the [int] is
    converted to [size_t]. *)
Definition scoutfs_item_lookup_exact (c : item_cache) (k : scoutfs_key)
    (v : kvec) (lock : scoutfs_lock) (fills : list fill)
  : outcome (Z * item_cache * option kvec) :=
  match scoutfs_item_lookup c k (Some v) lock fills with
  | Ret (ret, c', out) =>
      Ret (if to_ulong ret =? iov_len v then 0
           else if ret >=? 0 then - EIO else ret,
           c', out)
  | Bug => Bug
  | Starved => Starved
  end.

(** The items in tree order, and the chains of [rb_next] and [rb_prev]
    from the node that holds a key. *)
Fixpoint tree_items (t : item_tree) : list cached_item :=
  match t with
  | INil => []
  | INode l it r => tree_items l ++ it :: tree_items r
  end.

Fixpoint rb_next_chain_from (t : item_tree) (k : scoutfs_key)
    (above : list cached_item) : list cached_item :=
  match t with
  | INil => []
  | INode l it r =>
      let cmp := scoutfs_key_compare k (key it) in
      if cmp <? 0 then rb_next_chain_from l k (it :: tree_items r ++ above)
      else if cmp >? 0 then rb_next_chain_from r k above
      else tree_items r ++ above
  end.

Fixpoint rb_prev_chain_from (t : item_tree) (k : scoutfs_key)
    (above : list cached_item) : list cached_item :=
  match t with
  | INil => []
  | INode l it r =>
      let cmp := scoutfs_key_compare k (key it) in
      if cmp <? 0 then rb_prev_chain_from l k above
      else if cmp >? 0 then
        rb_prev_chain_from r k (it :: rev (tree_items l) ++ above)
      else rev (tree_items l) ++ above
  end.

Definition rb_next_item (root : item_tree) (k : scoutfs_key)
  : option cached_item := hd_error (rb_next_chain_from root k []).
Definition rb_prev_item (root : item_tree) (k : scoutfs_key)
  : option cached_item := hd_error (rb_prev_chain_from root k []).

(** [next_item_node] and [prev_item_node], along the chain. *)
Fixpoint next_item_node_in (chain : list cached_item) (last : scoutfs_key)
  : option cached_item :=
  match chain with
  | [] => None
  | it :: rest =>
      if scoutfs_key_compare (key it) last >? 0 then None
      else if negb (deletion it) then Some it
      else next_item_node_in rest last
  end.

Definition next_item_node (root : item_tree) (it : cached_item)
    (last : scoutfs_key) : option cached_item :=
  next_item_node_in (rb_next_chain_from root (key it) []) last.

Fixpoint prev_item_node_in (chain : list cached_item) (first : scoutfs_key)
  : option cached_item :=
  match chain with
  | [] => None
  | it :: rest =>
      if scoutfs_key_compare (key it) first <? 0 then None
      else if negb (deletion it) then Some it
      else prev_item_node_in rest first
  end.

Definition prev_item_node (root : item_tree) (it : cached_item)
    (first : scoutfs_key) : option cached_item :=
  prev_item_node_in (rb_prev_chain_from root (key it) []) first.

Definition item_for_next (root : item_tree) (k range_end last : scoutfs_key)
  : option cached_item :=
  let last := if scoutfs_key_compare range_end last <? 0 then range_end
              else last in
  match next_item root k with
  | Some it =>
      if scoutfs_key_compare (key it) last >? 0 then None
      else if deletion it then next_item_node root it last
      else Some it
  | None => None
  end.

Definition item_for_prev (root : item_tree) (k range_start first : scoutfs_key)
  : option cached_item :=
  let first := if scoutfs_key_compare range_start first >? 0 then range_start
               else first in
  match prev_item root k with
  | Some it =>
      if scoutfs_key_compare (key it) first <? 0 then None
      else if deletion it then prev_item_node root it first
      else Some it
  | None => None
  end.

(** [scoutfs_item_next].  The result is the return value, the cache,
    the caller's key and the caller's value vec.  [turns] bounds the
    turns of the [for] loop. *)
Fixpoint next_loop (turns : nat) (c : item_cache) (k pos last : scoutfs_key)
    (v : option kvec) (fills : list fill)
  : outcome (Z * item_cache * scoutfs_key * option kvec) :=
  match turns with
  | O => Starved
  | S turns' =>
      let '(cached, _, range_end) := check_range c pos in
      if negb cached then
        match fills with
        | [] => Starved
        | f :: fills' =>
            match scoutfs_manifest_read_items c f with
            | Ret (ret, c') =>
                if ret =? 0 then next_loop turns' c' k pos last v fills'
                else Ret (ret, c', k, v)
            | Bug => Bug
            | Starved => Starved
            end
        end
      else
        match item_for_next (items c) pos range_end last with
        | None =>
            if scoutfs_key_compare range_end last <? 0 then
              next_loop turns' c k (scoutfs_key_inc range_end) last v fills
            else Ret (- ENOENT, c, k, v)
        | Some it =>
            match v with
            | Some _ =>
                let '(ret, out) := copy_item_val v it in
                Ret (ret, item_referenced c it, key it, out)
            | None => Ret (0, c, key it, v)
            end
        end
  end.

Definition scoutfs_item_next (turns : nat) (c : item_cache)
    (k last : scoutfs_key) (v : option kvec) (lock : scoutfs_lock)
    (fills : list fill)
  : outcome (Z * item_cache * scoutfs_key * option kvec) :=
  let last := if scoutfs_key_compare (lock_end lock) last <? 0
              then lock_end lock else last in
  if scoutfs_key_compare k last >? 0 then Ret (- ENOENT, c, k, v)
  else if negb (lock_coverage lock k SCOUTFS_LOCK_READ)
  then Ret (- EINVAL, c, k, v)
  else next_loop turns c k k last v fills.

Fixpoint prev_loop (turns : nat) (c : item_cache) (k pos first : scoutfs_key)
    (v : option kvec) (fills : list fill)
  : outcome (Z * item_cache * scoutfs_key * option kvec) :=
  match turns with
  | O => Starved
  | S turns' =>
      let '(cached, range_start, _) := check_range c pos in
      if negb cached then
        match fills with
        | [] => Starved
        | f :: fills' =>
            match scoutfs_manifest_read_items c f with
            | Ret (ret, c') =>
                if ret =? 0 then prev_loop turns' c' k pos first v fills'
                else Ret (ret, c', k, v)
            | Bug => Bug
            | Starved => Starved
            end
        end
      else
        match item_for_prev (items c) pos range_start first with
        | None =>
            if scoutfs_key_compare range_start first >? 0 then
              prev_loop turns' c k (scoutfs_key_dec range_start) first v fills
            else Ret (- ENOENT, c, k, v)
        | Some it =>
            match v with
            | Some _ =>
                let '(ret, out) := copy_item_val v it in
                Ret (ret, item_referenced c it, key it, out)
            | None => Ret (0, c, key it, v)
            end
        end
  end.

Definition scoutfs_item_prev (turns : nat) (c : item_cache)
    (k first : scoutfs_key) (v : option kvec) (lock : scoutfs_lock)
    (fills : list fill)
  : outcome (Z * item_cache * scoutfs_key * option kvec) :=
  let first := if scoutfs_key_compare (lock_start lock) first >? 0
               then lock_start lock else first in
  if scoutfs_key_compare k first <? 0 then Ret (- ENOENT, c, k, v)
  else if negb (lock_coverage lock k SCOUTFS_LOCK_READ)
  then Ret (- EINVAL, c, k, v)
  else prev_loop turns c k k first v fills.

(** ** Writes *)

Definition create_locked (item : cached_item) (c : item_cache)
  : outcome (Z * item_cache * unit) :=
  if negb (range_cached c (key item)) then Ret (- ENODATA, c, tt)
  else
    match insert_item c item false false with
    | Ret (ret, c', _) =>
        if ret =? 0 then Ret (0, mark_item_dirty c' (key item), tt)
        else Ret (ret, c', tt)
    | Bug => Bug
    | Starved => Starved
    end.

Definition scoutfs_item_create (c : item_cache) (k : scoutfs_key)
    (v : option kvec) (lock : scoutfs_lock) (mem : bool) (fills : list fill)
  : outcome (Z * item_cache * unit) :=
  if invalid_key_val k v || negb (lock_coverage lock k SCOUTFS_LOCK_WRITE)
  then Ret (- EINVAL, c, tt)
  else if negb mem then Ret (- ENOMEM, c, tt)
  else read_through (create_locked (alloc_item k v)) c fills.

(** [scoutfs_item_create_force]: a nonzero return of [insert_item]
    is the corruption message and [BUG_ON]. *)
Definition scoutfs_item_create_force (c : item_cache) (k : scoutfs_key)
    (v : option kvec) (lock : scoutfs_lock) (mem : bool)
  : outcome (Z * item_cache) :=
  if invalid_key_val k v then Ret (- EINVAL, c)
  else if negb (lock_coverage lock k SCOUTFS_LOCK_WRITE_ONLY)
  then Ret (- EINVAL, c)
  else if negb mem then Ret (- ENOMEM, c)
  else
    let item := set_persistent (alloc_item k v) true in
    match insert_item c item true false with
    | Ret (ret, c', _) =>
        if ret =? 0 then Ret (ret, mark_item_dirty c' k) else Bug
    | Bug => Bug
    | Starved => Starved
    end.

Definition dirty_locked (k : scoutfs_key) (c : item_cache)
  : outcome (Z * item_cache * unit) :=
  match find_item (items c) k with
  | Some _ => Ret (0, mark_item_dirty c k, tt)
  | None =>
      if range_cached c k then Ret (- ENOENT, c, tt)
      else Ret (- ENODATA, c, tt)
  end.

Definition scoutfs_item_dirty (c : item_cache) (k : scoutfs_key)
    (lock : scoutfs_lock) (fills : list fill)
  : outcome (Z * item_cache * unit) :=
  if negb (lock_coverage lock k SCOUTFS_LOCK_WRITE) then Ret (- EINVAL, c, tt)
  else read_through (dirty_locked k) c fills.

(** [scoutfs_item_update]: the copy of the caller's value is swapped
    into the item between clearing and marking it dirty. *)
Definition update_locked (k : scoutfs_key) (v : option kvec) (c : item_cache)
  : outcome (Z * item_cache * unit) :=
  match find_item (items c) k with
  | Some _ =>
      let c1 := clear_item_dirty c k in
      let up_val :=
        match v with
        | Some kv => Some (firstn (Z.to_nat (iov_len kv)) (iov_base kv))
        | None => None
        end in
      let len := match v with Some kv => to_uint (iov_len kv) | None => 0 end in
      let t := fst (store_item (items c1) k (fun i => set_val i up_val len)
                               false) in
      Ret (0, mark_item_dirty (set_items c1 t) k, tt)
  | None =>
      if range_cached c k then Ret (- ENOENT, c, tt)
      else Ret (- ENODATA, c, tt)
  end.

Definition scoutfs_item_update (c : item_cache) (k : scoutfs_key)
    (v : option kvec) (lock : scoutfs_lock) (mem : bool) (fills : list fill)
  : outcome (Z * item_cache * unit) :=
  if invalid_key_val k v then Ret (- EINVAL, c, tt)
  else if negb (lock_coverage lock k SCOUTFS_LOCK_WRITE)
  then Ret (- EINVAL, c, tt)
  else if match v with Some _ => negb mem | None => false end
  then Ret (- ENOMEM, c, tt)
  else read_through (update_locked k v) c fills.

Definition delete_locked (k : scoutfs_key) (c : item_cache)
  : outcome (Z * item_cache * unit) :=
  match find_item (items c) k with
  | Some _ => Ret (0, delete_item c k, tt)
  | None =>
      if range_cached c k then Ret (- ENOENT, c, tt)
      else Ret (- ENODATA, c, tt)
  end.

Definition scoutfs_item_delete (c : item_cache) (k : scoutfs_key)
    (lock : scoutfs_lock) (fills : list fill)
  : outcome (Z * item_cache * unit) :=
  if negb (lock_coverage lock k SCOUTFS_LOCK_WRITE) then Ret (- EINVAL, c, tt)
  else read_through (delete_locked k) c fills.

Definition scoutfs_item_delete_force (c : item_cache) (k : scoutfs_key)
    (lock : scoutfs_lock) (mem : bool) : outcome (Z * item_cache) :=
  if negb (lock_coverage lock k SCOUTFS_LOCK_WRITE_ONLY)
  then Ret (- EINVAL, c)
  else if negb mem then Ret (- ENOMEM, c)
  else
    let item := set_persistent (alloc_item k None) true in
    match insert_item c item true false with
    | Ret (ret, c', _) =>
        if ret =? 0 then Ret (ret, delete_item (mark_item_dirty c' k) k)
        else Bug
    | Bug => Bug
    | Starved => Starved
    end.

(** [scoutfs_item_delete_save]: the item found leaves the cache for the
    caller's list with its dirty flag put back, and a deletion item
    takes its place. *)
Definition delete_save_locked (k : scoutfs_key) (saved : list cached_item)
    (c : item_cache) : outcome (Z * item_cache * list cached_item) :=
  match find_item (items c) k with
  | Some it =>
      let was_dirty := item_is_dirty it in
      let unlinked :=
        match walk_found (items (clear_item_dirty c k)) k with
        | Some i => i
        | None => it
        end in
      let c1 := unlink_item c k in
      let item := if was_dirty
                  then set_dirty unlinked (Z.lor (dirty unlinked) ITEM_DIRTY)
                  else unlinked in
      let del := set_persistent (alloc_item k None) (persistent item) in
      match insert_item c1 del false false with
      | Ret (ret, c2, _) =>
          if ret =? 0 then Ret (0, delete_item c2 k, saved ++ [item])
          else Bug
      | Bug => Bug
      | Starved => Starved
      end
  | None =>
      if range_cached c k then Ret (- ENOENT, c, saved)
      else Ret (- ENODATA, c, saved)
  end.

Definition scoutfs_item_delete_save (c : item_cache) (k : scoutfs_key)
    (saved : list cached_item) (lock : scoutfs_lock) (mem : bool)
    (fills : list fill) : outcome (Z * item_cache * list cached_item) :=
  if negb (lock_coverage lock k SCOUTFS_LOCK_WRITE)
  then Ret (- EINVAL, c, saved)
  else if negb mem then Ret (- ENOMEM, c, saved)
  else read_through (delete_save_locked k saved) c fills.

(** [scoutfs_item_restore]: nothing is restored unless every saved item
    is covered by the lock and by a cached range. *)
Definition restore_covered (c : item_cache) (lock : scoutfs_lock)
    (it : cached_item) : bool :=
  lock_coverage lock (key it)
                (if item_is_dirty it then SCOUTFS_LOCK_WRITE
                 else SCOUTFS_LOCK_READ)
  && range_cached c (key it).

Fixpoint restore_items (c : item_cache) (saved : list cached_item)
  : outcome item_cache :=
  match saved with
  | [] => Ret c
  | it :: rest =>
      let was_dirty := item_is_dirty it in
      let item := set_dirty it (Z.land (dirty it) (Z.lnot ITEM_DIRTY)) in
      let c1 := match find_item (items c) (key item) with
                | Some _ => erase_item c (key item)
                | None => c
                end in
      match insert_item c1 item false false with
      | Ret (ret, c2, _) =>
          restore_items
            (if (ret =? 0) && was_dirty then mark_item_dirty c2 (key item)
             else c2)
            rest
      | Bug => Bug
      | Starved => Starved
      end
  end.

Definition scoutfs_item_restore (c : item_cache) (saved : list cached_item)
    (lock : scoutfs_lock) : outcome (Z * item_cache) :=
  match saved with
  | [] => Ret (0, c)
  | _ =>
      if forallb (restore_covered c lock) saved then
        match restore_items c saved with
        | Ret c' => Ret (0, c')
        | Bug => Bug
        | Starved => Starved
        end
      else Ret (- EINVAL, c)
  end.

Definition scoutfs_item_delete_dirty (c : item_cache) (k : scoutfs_key)
  : item_cache :=
  match find_item (items c) k with
  | Some _ => delete_item c k
  | None => c
  end.

(** [scoutfs_item_update_dirty]: the value is overwritten in place and
    only the byte count of the dirty accounting moves. *)
Definition scoutfs_item_update_dirty (c : item_cache) (k : scoutfs_key)
    (v : option kvec) : outcome item_cache :=
  let new_len := match v with Some kv => to_uint (iov_len kv) | None => 0 end in
  match find_item (items c) k with
  | None => Bug
  | Some it =>
      if negb (item_is_dirty it) || (new_len >? val_len it) then Bug
      else
        let delta := to_uint (new_len - val_len it) in
        let bytes :=
          match v with
          | Some kv =>
              option_map
                (fun old => firstn (Z.to_nat new_len) (iov_base kv)
                            ++ skipn (Z.to_nat new_len) old)
                (val it)
          | None => val it
          end in
        let t := fst (store_item (items c) k (fun i => set_val i bytes new_len)
                                 false) in
        Ret (update_dirty_item_counts (set_items c t) 0 delta)
  end.

(** ** Dirty items in key order *)

Definition has_bit (d bit : Z) : bool := negb (Z.land d bit =? 0).

Fixpoint first_dirty (node : item_tree) : option cached_item :=
  match node with
  | INil => None
  | INode l it r =>
      if has_bit (dirty it) LEFT_DIRTY then first_dirty l
      else if item_is_dirty it then Some it
      else if has_bit (dirty it) RIGHT_DIRTY then first_dirty r
      else None
  end.

(** The way from the node with a key up to the root: for every
    ancestor, nearest first, whether the way comes up from its right
    child, the ancestor's item and its right subtree. *)
Definition ancestor : Type := (bool * cached_item * item_tree)%type.

Fixpoint path_to (t : item_tree) (k : scoutfs_key) (above : list ancestor)
  : option (cached_item * item_tree * list ancestor) :=
  match t with
  | INil => None
  | INode l it r =>
      let cmp := scoutfs_key_compare k (key it) in
      if cmp <? 0 then path_to l k ((false, it, r) :: above)
      else if cmp >? 0 then path_to r k ((true, it, r) :: above)
      else Some (it, r, above)
  end.

(** [next_dirty], after its first test: climb while the node is a right
    child; the first ancestor reached from its left is the next dirty
    item if it is dirty, and else the search goes on with it. *)
Fixpoint next_dirty_climb (above : list ancestor) : option cached_item :=
  match above with
  | [] => None
  | (from_right, p, pr) :: above' =>
      if from_right then next_dirty_climb above'
      else if item_is_dirty p then Some p
      else if has_bit (dirty p) RIGHT_DIRTY then first_dirty pr
      else next_dirty_climb above'
  end.

Definition next_dirty (root : item_tree) (k : scoutfs_key)
  : option cached_item :=
  match path_to root k [] with
  | None => None
  | Some (it, r, above) =>
      if has_bit (dirty it) RIGHT_DIRTY then first_dirty r
      else next_dirty_climb above
  end.

Definition dirty_item_within (root : item_tree) (from to : scoutfs_key)
  : bool :=
  let item :=
    match next_item root from with
    | Some it => if item_is_dirty it then Some it else next_dirty root (key it)
    | None => None
    end in
  match item with
  | Some it => scoutfs_key_compare (key it) to <=? 0
  | None => false
  end.

Definition scoutfs_item_has_dirty (c : item_cache) : bool :=
  negb (nr_dirty_items c =? 0).

Definition scoutfs_item_range_cached (c : item_cache) (s e : scoutfs_key)
    (with_dirty : bool) : bool :=
  if with_dirty then dirty_item_within (items c) s e
  else
    match walk_ranges (ranges c) s with
    | (Some _, _, _) => true
    | (None, _, Some next) => scoutfs_key_compare (start next) e <=? 0
    | (None, _, None) => false
    end.

(** ** The segment writer

    Modelled from the spec: [scoutfs_seg_append_item] lives outside the
    sources; the spec has it append one (key, value, flags) record and
    say whether it fitted.  A segment is the records appended so far
    and the number of records it still has room for. *)

Record seg_item : Type := mk_seg_item {
  seg_key : scoutfs_key;
  seg_val : list byte;
  seg_flags : Z
}.

Record scoutfs_segment : Type := mk_segment {
  seg_items : list seg_item;
  seg_room : nat
}.

Definition scoutfs_seg_append_item (seg : scoutfs_segment) (k : scoutfs_key)
    (v : list byte) (flags : Z) : option scoutfs_segment :=
  match seg_room seg with
  | O => None
  | S room => Some (mk_segment (seg_items seg ++ [mk_seg_item k v flags]) room)
  end.

(** [scoutfs_item_dirty_seg].  Every turn of the loop cleans one dirty
    item; [turns] bounds the turns. *)
Fixpoint dirty_seg_loop (turns : nat) (c : item_cache)
    (seg : scoutfs_segment) (item : option cached_item)
  : outcome (item_cache * scoutfs_segment) :=
  match item with
  | None => Ret (c, seg)
  | Some it =>
      match turns with
      | O => Starved
      | S turns' =>
          match scoutfs_seg_append_item seg (key it)
                  (firstn (Z.to_nat (val_len it)) (item_bytes it))
                  (item_flags it) with
          | None => Bug
          | Some seg' =>
              let c1 := clear_item_dirty c (key it) in
              let c2 := set_items c1
                          (fst (store_item (items c1) (key it)
                                  (fun i => set_persistent i true) false)) in
              let next := next_dirty (items c2) (key it) in
              let c3 := if deletion it then erase_item c2 (key it) else c2 in
              dirty_seg_loop turns' c3 seg' next
          end
      end
  end.

Definition scoutfs_item_dirty_seg (c : item_cache) (seg : scoutfs_segment)
  : outcome (Z * item_cache * scoutfs_segment) :=
  match dirty_seg_loop (tree_size (items c)) c seg (first_dirty (items c)) with
  | Ret (c', seg') => Ret (0, c', seg')
  | Bug => Bug
  | Starved => Starved
  end.

(** [scoutfs_item_writeback], up to its call of the transaction sync:
    whether a sync is wanted, and the count it would return. *)
Definition writeback_wanted (c : item_cache) (s e : scoutfs_key) : bool * Z :=
  if negb (nr_dirty_items c =? 0) && dirty_item_within (items c) s e
  then (true, to_int (nr_dirty_items c))
  else (false, 0).

(** ** Invalidation *)

Fixpoint invalidate_items (turns : nat) (c : item_cache)
    (item : option cached_item) (e : scoutfs_key) (count : Z)
  : item_cache * Z :=
  match turns, item with
  | S turns', Some it =>
      if scoutfs_key_compare (key it) e <=? 0 then
        let next := rb_next_item (items c) (key it) in
        invalidate_items turns' (erase_item c (key it)) next e
                         (to_int (count + 1))
      else (c, count)
  | _, _ => (c, count)
  end.

Definition scoutfs_item_invalidate (c : item_cache) (s e : scoutfs_key)
    (mem : bool) : outcome (Z * item_cache) :=
  if negb mem then Ret (- ENOMEM, c)
  else
    let '(c1, count) :=
      invalidate_items (tree_size (items c)) c (next_item (items c) s) e 0 in
    match remove_range (ranges c1) (mk_range s e) with
    | Ret t => Ret (count, set_ranges c1 t)
    | Bug => Bug
    | Starved => Starved
    end.

(** ** The shrinker *)

Definition BOUNDARY_MIN : Z := 32.
Definition BOUNDARY_MAX : nat := 300.

(** [shrink_boundary]: the item found and the neighbour that remains
    beyond it; [left] turns of the [for] loop are left, [i] is its
    counter. *)
Fixpoint shrink_boundary_loop (left : nat) (i : Z) (root : item_tree)
    (item : cached_item) (e : scoutfs_key) (right : bool)
    (found next_ret : option cached_item)
  : option cached_item * option cached_item :=
  match left with
  | O => (found, next_ret)
  | S left' =>
      let next := if right then rb_next_item root (key item)
                  else rb_prev_item root (key item) in
      match next with
      | None => (Some item, None)
      | Some nx =>
          if (if right then scoutfs_key_compare (key nx) e >? 0
              else scoutfs_key_compare (key nx) e <? 0)
          then (Some item, None)
          else
            let cmp :=
              if right
              then scoutfs_key_compare (scoutfs_key_inc (key item)) (key nx)
                   <=? 0
              else scoutfs_key_compare (scoutfs_key_dec (key item)) (key nx)
                   >=? 0 in
            let found' := if cmp then Some item else found in
            let next_ret' := if cmp then Some nx else next_ret in
            if cmp && (i >=? BOUNDARY_MIN) then (found', next_ret')
            else if item_is_dirty nx then (found', next_ret')
            else shrink_boundary_loop left' (i + 1) root nx e right
                                      found' next_ret'
      end
  end.

Definition shrink_boundary (root : item_tree) (item : cached_item)
    (e : scoutfs_key) (right : bool)
  : option cached_item * option cached_item :=
  shrink_boundary_loop BOUNDARY_MAX 0 root item e right None None.

(** A store through a pointer to the range that covers [k], and the
    kernel's [rb_erase] of that range. *)
Fixpoint store_range (t : range_tree) (k : scoutfs_key)
    (f : cached_range -> cached_range) : range_tree :=
  match t with
  | RNil => RNil
  | RNode l rng r =>
      let cmp := scoutfs_key_compare_ranges k k (start rng) (end_ rng) in
      if cmp <? 0 then RNode (store_range l k f) rng r
      else if cmp >? 0 then RNode l rng (store_range r k f)
      else RNode l (f rng) r
  end.

Fixpoint erase_range_at (t : range_tree) (k : scoutfs_key) : range_tree :=
  match t with
  | RNil => RNil
  | RNode l rng r =>
      let cmp := scoutfs_key_compare_ranges k k (start rng) (end_ rng) in
      if cmp <? 0 then RNode (erase_range_at l k) rng r
      else if cmp >? 0 then RNode l rng (erase_range_at r k)
      else rb_erase_range l r
  end.

Definition is_some (A : Type) (o : option A) : bool :=
  match o with Some _ => true | None => false end.

Fixpoint shrink_erase (turns : nat) (c : item_cache)
    (item : option cached_item) (last : option cached_item) (nr : Z)
  : item_cache * Z :=
  match turns, item with
  | S turns', Some it =>
      let next :=
        if match last with Some la => key it =? key la | None => false end
        then None else rb_next_item (items c) (key it) in
      shrink_erase turns' (erase_item c (key it)) next last (to_int (nr + 1))
  | _, _ => (c, nr)
  end.

(** [shrink_around]: [rng] is the range that covers the item's key. *)
Definition shrink_around (c : item_cache) (rng : cached_range)
    (item : cached_item) : outcome (Z * item_cache) :=
  let '(first, prev) := shrink_boundary (items c) item (start rng) false in
  let '(last, next) := shrink_boundary (items c) item (end_ rng) true in
  match first, last with
  | Some first, Some last =>
      if is_some next && is_some prev && (key first =? key last)
      then Ret (0, c)
      else
        let rng_end := end_ rng in
        let c1 :=
          if is_some prev then
            set_ranges c (store_range (ranges c) (key item)
                            (fun r => mk_range (start r)
                                        (scoutfs_key_dec (key first))))
          else c in
        let c2 :=
          if is_some next && negb (is_some prev) then
            set_ranges c1 (store_range (ranges c1) (key item)
                             (fun r => mk_range (scoutfs_key_inc (key last))
                                                (end_ r)))
          else c1 in
        split <-
          (if is_some next && is_some prev then
             let last' := rb_prev_item (items c2) (key last) in
             let c' := unlink_item c2 (key last) in
             t <- insert_range (ranges c')
                    (mk_range (scoutfs_key_inc (key last)) rng_end) ;;
             Ret (set_ranges c' t, last', 1)
           else Ret (c2, Some last, 0)) ;;
        let '(c3, last', nr) := split in
        let c4 :=
          if negb (is_some prev) && negb (is_some next)
          then set_ranges c3 (erase_range_at (ranges c3) (key item))
          else c3 in
        let '(c5, nr') :=
          shrink_erase (tree_size (items c4)) c4 (Some first) last' nr in
        Ret (nr', c5)
  | _, _ => Ret (0, c)
  end.

(** [item_lru_shrink].  An entry of the lru is embedded in an item of
    the tree; the model stops where an lru key has no item. *)
Fixpoint lru_shrink_loop (turns : nat) (c : item_cache) (nr : Z)
    (first_moved : option scoutfs_key) : outcome item_cache :=
  match turns with
  | O => Starved
  | S turns' =>
      if nr =? 0 then Ret c
      else
        match lru_list c with
        | [] => Ret c
        | k :: _ =>
            match walk_found (items c) k with
            | None => Bug
            | Some it =>
                if item_is_dirty it then Bug
                else
                  match fst (fst (walk_ranges (ranges c) k)) with
                  | None =>
                      lru_shrink_loop turns' (erase_item c k)
                                      (to_ulong (nr - 1)) first_moved
                  | Some rng =>
                      r <- shrink_around c rng it ;;
                      let '(ret, c') := r in
                      if ret =? 0 then
                        if match first_moved with
                           | Some m => m =? k
                           | None => false
                           end
                        then Ret c'
                        else
                          lru_shrink_loop turns'
                            (set_lru c' (list_move_tail k (lru_list c'))
                                     (lru_nr c'))
                            nr
                            (match first_moved with
                             | Some m => Some m
                             | None => Some k
                             end)
                      else
                        lru_shrink_loop turns' c'
                          (nr - Z.min nr (to_ulong ret)) first_moved
                  end
            end
        end
  end.

Fixpoint erase_empty_ranges (turns : nat) (t : range_tree) : range_tree :=
  match turns, t with
  | S turns', RNode l rng r =>
      erase_empty_ranges turns' (snd (range_leftmost l rng r))
  | _, _ => t
  end.

Definition item_lru_shrink (turns : nat) (c : item_cache) (nr_to_scan : Z)
  : outcome (Z * item_cache) :=
  let nr := to_ulong nr_to_scan in
  if nr =? 0 then Ret (to_int (Z.min (lru_nr c) INT_MAX), c)
  else
    c1 <- lru_shrink_loop turns c nr None ;;
    let c2 :=
      match items c1 with
      | INil =>
          set_ranges c1 (erase_empty_ranges (range_size (ranges c1))
                                            (ranges c1))
      | INode _ _ _ => c1
      end in
    Ret (to_int (Z.min (lru_nr c2) INT_MAX), c2).

Definition scoutfs_item_setup : item_cache :=
  mk_cache INil RNil 0 0 [] 0.

End ItemCache.

(** ** Every public call as one value

    [run_op] runs a call on a cache and keeps the cache it leaves. *)

Inductive cache_op : Type :=
| OpLookup (k : scoutfs_key) (v : option kvec) (lock : scoutfs_lock)
           (fills : list fill)
| OpNext (turns : nat) (k last : scoutfs_key) (v : option kvec)
         (lock : scoutfs_lock) (fills : list fill)
| OpPrev (turns : nat) (k first : scoutfs_key) (v : option kvec)
         (lock : scoutfs_lock) (fills : list fill)
| OpCreate (k : scoutfs_key) (v : option kvec) (lock : scoutfs_lock)
           (mem : bool) (fills : list fill)
| OpCreateForce (k : scoutfs_key) (v : option kvec) (lock : scoutfs_lock)
                (mem : bool)
| OpInsertBatch (pairs : list (scoutfs_key * option kvec))
                (s e : scoutfs_key) (mem : bool)
| OpDirty (k : scoutfs_key) (lock : scoutfs_lock) (fills : list fill)
| OpUpdate (k : scoutfs_key) (v : option kvec) (lock : scoutfs_lock)
           (mem : bool) (fills : list fill)
| OpDelete (k : scoutfs_key) (lock : scoutfs_lock) (fills : list fill)
| OpDeleteForce (k : scoutfs_key) (lock : scoutfs_lock) (mem : bool)
| OpDeleteSave (k : scoutfs_key) (saved : list cached_item)
               (lock : scoutfs_lock) (mem : bool) (fills : list fill)
| OpRestore (saved : list cached_item) (lock : scoutfs_lock)
| OpDeleteDirty (k : scoutfs_key)
| OpUpdateDirty (k : scoutfs_key) (v : option kvec)
| OpDirtySeg (seg : scoutfs_segment)
| OpInvalidate (s e : scoutfs_key) (mem : bool)
| OpShrink (turns : nat) (nr_to_scan : Z).

Definition cache_of (A : Type) (get : A -> item_cache) (o : outcome A)
  : outcome item_cache :=
  match o with
  | Ret a => Ret (get a)
  | Bug => Bug
  | Starved => Starved
  end.

Definition run_op (SCOUTFS_MAX_VAL_SIZE : Z) (c : item_cache) (op : cache_op)
  : outcome item_cache :=
  match op with
  | OpLookup k v lock fills =>
      cache_of (fun r => snd (fst r))
        (scoutfs_item_lookup SCOUTFS_MAX_VAL_SIZE c k v lock fills)
  | OpNext turns k last v lock fills =>
      cache_of (fun r => snd (fst (fst r)))
        (scoutfs_item_next SCOUTFS_MAX_VAL_SIZE turns c k last v lock fills)
  | OpPrev turns k first v lock fills =>
      cache_of (fun r => snd (fst (fst r)))
        (scoutfs_item_prev SCOUTFS_MAX_VAL_SIZE turns c k first v lock fills)
  | OpCreate k v lock mem fills =>
      cache_of (fun r => snd (fst r))
        (scoutfs_item_create SCOUTFS_MAX_VAL_SIZE c k v lock mem fills)
  | OpCreateForce k v lock mem =>
      cache_of snd
        (scoutfs_item_create_force SCOUTFS_MAX_VAL_SIZE c k v lock mem)
  | OpInsertBatch pairs s e mem =>
      cache_of snd
        (scoutfs_item_insert_batch c
           (fill_batch SCOUTFS_MAX_VAL_SIZE (mk_fill 0 pairs None)) s e mem)
  | OpDirty k lock fills =>
      cache_of (fun r => snd (fst r))
        (scoutfs_item_dirty SCOUTFS_MAX_VAL_SIZE c k lock fills)
  | OpUpdate k v lock mem fills =>
      cache_of (fun r => snd (fst r))
        (scoutfs_item_update SCOUTFS_MAX_VAL_SIZE c k v lock mem fills)
  | OpDelete k lock fills =>
      cache_of (fun r => snd (fst r))
        (scoutfs_item_delete SCOUTFS_MAX_VAL_SIZE c k lock fills)
  | OpDeleteForce k lock mem =>
      cache_of snd (scoutfs_item_delete_force c k lock mem)
  | OpDeleteSave k saved lock mem fills =>
      cache_of (fun r => snd (fst r))
        (scoutfs_item_delete_save SCOUTFS_MAX_VAL_SIZE c k saved lock mem
                                  fills)
  | OpRestore saved lock => cache_of snd (scoutfs_item_restore c saved lock)
  | OpDeleteDirty k => Ret (scoutfs_item_delete_dirty c k)
  | OpUpdateDirty k v => scoutfs_item_update_dirty c k v
  | OpDirtySeg seg =>
      cache_of (fun r => snd (fst r)) (scoutfs_item_dirty_seg c seg)
  | OpInvalidate s e mem => cache_of snd (scoutfs_item_invalidate c s e mem)
  | OpShrink turns nr => cache_of snd (item_lru_shrink turns c nr)
  end.

(** * What the properties speak of *)

Unset Implicit Arguments.

(** ** The items of the tree

    The two subtree bits of an item describe the shape of the tree
    around it; [strip] keeps what belongs to the item itself. *)

Definition keys (t : item_tree) : list scoutfs_key := map key (tree_items t).

Fixpoint bst (t : item_tree) : Prop :=
  match t with
  | INil => True
  | INode l it r =>
      bst l /\ bst r
      /\ Forall (fun x => x < key it) (keys l)
      /\ Forall (fun x => key it < x) (keys r)
  end.

Definition strip (it : cached_item) : cached_item :=
  set_dirty it (Z.land (dirty it) ITEM_DIRTY).

Definition contents (t : item_tree) : list cached_item :=
  map strip (tree_items t).

Definition at_key (k : scoutfs_key) (g : cached_item -> cached_item)
    (c : cached_item) : cached_item :=
  if key c =? k then g c else c.

Definition without (k : scoutfs_key) (l : list cached_item)
  : list cached_item :=
  filter (fun c => negb (key c =? k)) l.

(** ** Well-formed caches *)

Definition len_ok (it : cached_item) : Prop := 0 <= val_len it <= INT_MAX.

(** The item tree is a search tree on the keys and every value length
    fits an [int]. *)
Definition cache_wf (c : item_cache) : Prop :=
  bst (items c) /\ Forall len_ok (tree_items (items c)).

(** The tree holds the item [it] at the key [k]: the item found there
    has the fields of [it], its own dirty bit included.  The two subtree
    bits say where the item sits in the tree and are left aside. *)
Definition holds_item (t : item_tree) (k : scoutfs_key) (it : cached_item)
  : Prop :=
  exists x, walk_found t k = Some x /\ strip x = strip it.

(** ** Invariants of the cache

    An invariant of the cache that speaks of the items (without their
    subtree bits) and of the two dirty counters.  [list_invariant]
    lists what it must survive: each line is what one of the stores of
    item.c does to the items and to the counters. *)

Definition mark_dirty (c : cached_item) : cached_item := set_dirty c ITEM_DIRTY.
Definition mark_clean (c : cached_item) : cached_item := set_dirty c 0.
Definition make_deletion (c : cached_item) : cached_item :=
  set_deletion (set_val c None 0) true.
Definition make_persistent (c : cached_item) : cached_item :=
  set_persistent c true.

Record list_invariant (I : list cached_item -> Z -> Z -> Prop) : Prop := {
  inv_perm : forall l l' n b, Permutation l l' -> I l n b -> I l' n b;
  inv_mark : forall l n b c,
      NoDup (map key l) -> In c l -> item_is_dirty c = false -> I l n b ->
      I (map (at_key (key c) mark_dirty) l) (n + 1) (b + val_len c);
  inv_clear : forall l n b c,
      NoDup (map key l) -> In c l -> item_is_dirty c = true -> I l n b ->
      I (map (at_key (key c) mark_clean) l) (n - 1) (b - val_len c);
  inv_without : forall l n b c,
      NoDup (map key l) -> In c l -> item_is_dirty c = false -> I l n b ->
      I (without (key c) l) n b;
  inv_add : forall l n b c,
      item_is_dirty c = false -> deletion c = false -> I l n b ->
      I (c :: l) n b;
  inv_persist : forall l n b c,
      NoDup (map key l) -> In c l -> I l n b ->
      I (map (at_key (key c) make_persistent) l) n b;
  inv_deletion : forall l n b c,
      NoDup (map key l) -> In c l -> item_is_dirty c = false ->
      persistent c = true -> I l n b ->
      I (map (at_key (key c) make_deletion) l) n b;
  inv_val : forall l n b c v len,
      NoDup (map key l) -> In c l -> item_is_dirty c = false ->
      deletion c = false -> I l n b ->
      I (map (at_key (key c) (fun i => set_val i v len)) l) n b;
  inv_val_dirty : forall l n b c v len,
      NoDup (map key l) -> In c l -> item_is_dirty c = true ->
      deletion c = false -> I l n b ->
      I (map (at_key (key c) (fun i => set_val i v len)) l) n
        (b + (len - val_len c))
}.

Definition holds (I : list cached_item -> Z -> Z -> Prop) (c : item_cache)
  : Prop :=
  I (contents (items c)) (nr_dirty_items c) (dirty_val_bytes c).

Definition good (I : list cached_item -> Z -> Z -> Prop) (c : item_cache)
  : Prop := cache_wf c /\ holds I c.

(** An item that may enter the cache: its value length fits and it is
    not a deletion item. *)
Definition enters (it : cached_item) : Prop :=
  len_ok it /\ deletion it = false.

(** ** Inputs of their C types

    A length is a [size_t]; the items handed to [scoutfs_item_restore]
    are items that [scoutfs_item_delete_save] took out of a cache. *)

Definition vec_ok (v : option kvec) : Prop :=
  match v with
  | Some kv => 0 <= iov_len kv
  | None => True
  end.

Definition pairs_ok (pairs : list (scoutfs_key * option kvec)) : Prop :=
  Forall (fun kv => vec_ok (snd kv)) pairs.

Definition fill_ok (f : fill) : Prop := pairs_ok (fill_items f).

Definition op_ok (op : cache_op) : Prop :=
  match op with
  | OpLookup _ _ _ fills => Forall fill_ok fills
  | OpNext _ _ _ _ _ fills => Forall fill_ok fills
  | OpPrev _ _ _ _ _ fills => Forall fill_ok fills
  | OpCreate _ v _ _ fills => vec_ok v /\ Forall fill_ok fills
  | OpCreateForce _ v _ _ => vec_ok v
  | OpInsertBatch pairs _ _ _ => pairs_ok pairs
  | OpDirty _ _ fills => Forall fill_ok fills
  | OpUpdate _ v _ _ fills => vec_ok v /\ Forall fill_ok fills
  | OpDelete _ _ fills => Forall fill_ok fills
  | OpDeleteForce _ _ _ => True
  | OpDeleteSave _ _ _ _ fills => Forall fill_ok fills
  | OpRestore saved _ => Forall enters saved
  | OpDeleteDirty _ => True
  | OpUpdateDirty _ _ => True
  | OpDirtySeg _ => True
  | OpInvalidate _ _ _ => True
  | OpShrink _ _ => True
  end.

(** ** The tombstone invariant and the dirty accounting *)

(** A deletion item is persistent and has no value. *)
Definition tomb_ok (it : cached_item) : Prop :=
  deletion it = true ->
  persistent it = true /\ val it = None /\ val_len it = 0.

Definition tombstone_invariant (c : item_cache) : Prop :=
  Forall tomb_ok (tree_items (items c)).

(** The counters are the number of dirty items and the sum of their
    value lengths. *)
Definition dirty_count (l : list cached_item) : Z :=
  Z.of_nat (length (filter item_is_dirty l)).

Definition dirty_bytes (l : list cached_item) : Z :=
  fold_right Z.add 0 (map val_len (filter item_is_dirty l)).

Definition dirty_accounting (c : item_cache) : Prop :=
  nr_dirty_items c = dirty_count (tree_items (items c))
  /\ dirty_val_bytes c = dirty_bytes (tree_items (items c)).

Definition I_tombstone (l : list cached_item) (n b : Z) : Prop :=
  Forall tomb_ok l.

(** The counters keep their distance to the count and the sum: the
    accounting is right when both distances are zero. *)
Definition I_drift (D E : Z) (l : list cached_item) (n b : Z) : Prop :=
  n - dirty_count l = D /\ b - dirty_bytes l = E.

Definition I_accounting : list cached_item -> Z -> Z -> Prop := I_drift 0 0.

(** The sum of a measure of the items. *)
Definition total (m : cached_item -> Z) (l : list cached_item) : Z :=
  fold_right (fun c a => m c + a) 0 l.

Definition one_if_dirty (c : cached_item) : Z :=
  if item_is_dirty c then 1 else 0.

Definition len_if_dirty (c : cached_item) : Z :=
  if item_is_dirty c then val_len c else 0.

(** ** Well-formed range stores

    The ranges are closed intervals, pairwise apart, in a search tree. *)

Fixpoint ranges_wf (t : range_tree) : Prop :=
  match t with
  | RNil => True
  | RNode l rng r =>
      ranges_wf l /\ ranges_wf r
      /\ start rng <= end_ rng
      /\ Forall (fun x => end_ x < start rng) (range_list l)
      /\ Forall (fun x => end_ rng < start x) (range_list r)
  end.

Definition covers (rng : cached_range) (k : scoutfs_key) : Prop :=
  start rng <= k <= end_ rng.

Definition range_found (t : range_tree) (k : scoutfs_key)
  : option cached_range := fst (fst (walk_ranges t k)).

(** The invariant that asks nothing: what is left of [good] is the
    well-formed cache. *)
Definition I_any (l : list cached_item) (n b : Z) : Prop := True.

(** The item as [scoutfs_item_restore] inserts it: without its own
    dirty bit. *)
Definition without_self_bit (it : cached_item) : cached_item :=
  set_dirty it (Z.land (dirty it) (Z.lnot ITEM_DIRTY)).

(** ** Sample inputs

    A value for [SCOUTFS_MAX_VAL_SIZE], locks over the keys 0 to 100
    in the three modes, a read lock elsewhere, and two values. *)

Definition sample_max_val_size : Z := 1024.

Definition read_lock : scoutfs_lock := mk_lock SCOUTFS_LOCK_READ 0 100.
Definition write_lock : scoutfs_lock := mk_lock SCOUTFS_LOCK_WRITE 0 100.
Definition write_only_lock : scoutfs_lock :=
  mk_lock SCOUTFS_LOCK_WRITE_ONLY 0 100.
Definition far_read_lock : scoutfs_lock := mk_lock SCOUTFS_LOCK_READ 200 300.

Definition value_abc : kvec := mk_kvec ["a"%byte; "b"%byte; "c"%byte] 3.
Definition value_de : kvec := mk_kvec ["d"%byte; "e"%byte] 2.

(** The cache after [scoutfs_item_create_force] of key 5 with "abc" on
    an empty cache: one dirty persistent item, nothing on the lru. *)
Definition cache_forced_5 : item_cache :=
  mk_cache
    (INode INil (mk_item 1 false true 5 (Some ["a"%byte; "b"%byte; "c"%byte]) 3)
           INil)
    RNil 1 3 [] 0.

(** The same item, clean and on the lru, as a flush leaves it, with the
    keys 0 to 10 cached. *)
Definition cache_clean_5 : item_cache :=
  mk_cache
    (INode INil (mk_item 0 false true 5 (Some ["a"%byte; "b"%byte; "c"%byte]) 3)
           INil)
    (RNode RNil (mk_range 0 10) RNil) 0 0 [5] 1.


(** [cache_forced_5] after [scoutfs_item_delete_save] of key 5: the
    deletion item that took the item's place. *)
Definition cache_saved_5 : item_cache :=
  mk_cache (INode INil (mk_item 1 true true 5 None 0) INil) RNil 1 0 [] 0.

(** The dirty item of [cache_forced_5] with the keys 0 to 10 cached. *)
Definition cache_dirty_5 : item_cache :=
  mk_cache
    (INode INil (mk_item 1 false true 5 (Some ["a"%byte; "b"%byte; "c"%byte]) 3)
           INil)
    (RNode RNil (mk_range 0 10) RNil) 1 3 [] 0.

(** The items 5 and 7 read into an empty cache with the keys 0 to 10,
    then item 3 created: item 5 is clean, on the lru before item 7, and
    carries [LEFT_DIRTY] for the dirty item 3 below it. *)
Definition cache_3_5_7 : item_cache :=
  mk_cache
    (INode
       (INode INil (mk_item 1 false false 3 (Some ["d"%byte; "e"%byte]) 2) INil)
       (mk_item 2 false true 5 (Some ["a"%byte; "b"%byte; "c"%byte]) 3)
       (INode INil (mk_item 0 false true 7 (Some ["d"%byte; "e"%byte]) 2) INil))
    (RNode RNil (mk_range 0 10) RNil) 1 2 [5; 7] 2.

(** The calls that lead to a dirty item the flush does not find: the
    keys 0 to 10 are cached, items 5 and 3 are created, item 5 is saved
    away and restored. *)
Definition restored_cache : outcome item_cache :=
  r0 <- scoutfs_item_insert_batch scoutfs_item_setup [] 0 10 true ;;
  r1 <- scoutfs_item_create_force sample_max_val_size (snd r0) 5
          (Some value_abc) write_only_lock true ;;
  r2 <- scoutfs_item_create_force sample_max_val_size (snd r1) 3
          (Some value_de) write_only_lock true ;;
  r3 <- scoutfs_item_delete_save sample_max_val_size (snd r2) 5 []
          write_lock true [] ;;
  r4 <- scoutfs_item_restore (snd (fst r3)) (snd r3) write_lock ;;
  Ret (snd r4).

(** The cache these calls leave: item 5, a leaf, still carries the
    [LEFT_DIRTY] bit it had as the parent of item 3. *)
Definition cache_restored_3_5 : item_cache :=
  mk_cache
    (INode INil
       (mk_item 5 false true 3 (Some ["d"%byte; "e"%byte]) 2)
       (INode INil
          (mk_item 3 false true 5 (Some ["a"%byte; "b"%byte; "c"%byte]) 3)
          INil))
    (RNode RNil (mk_range 0 10) RNil) 2 5 [] 0.

(** The cache and the segment after the flush of [cache_restored_3_5]
    into an empty segment with room for ten items. *)
Definition cache_flushed_3_5 : item_cache :=
  mk_cache
    (INode INil
       (mk_item 4 false true 3 (Some ["d"%byte; "e"%byte]) 2)
       (INode INil
          (mk_item 3 false true 5 (Some ["a"%byte; "b"%byte; "c"%byte]) 3)
          INil))
    (RNode RNil (mk_range 0 10) RNil) 1 3 [3] 1.

Definition segment_flushed_3 : scoutfs_segment :=
  mk_segment [mk_seg_item 3 ["d"%byte; "e"%byte] 0] 9.

(** The item of [cache_forced_5] and [cache_dirty_5], the same item
    clean, and a clean item to insert at its key. *)
Definition item_dirty_5 : cached_item :=
  mk_item 1 false true 5 (Some ["a"%byte; "b"%byte; "c"%byte]) 3.

Definition item_clean_5 : cached_item :=
  mk_item 0 false true 5 (Some ["a"%byte; "b"%byte; "c"%byte]) 3.

Definition item_new_5 : cached_item :=
  mk_item 0 false false 5 (Some ["d"%byte; "e"%byte]) 2.


(** The calls that bring [insert_item] to a deletion item: the keys 0
    to 10 are cached, item 5 is created by force, which makes it
    persistent, and deleted, which leaves its deletion item behind.
    [cache_tombstone_5] is the cache these calls leave. *)
Definition tombstone_cache : outcome item_cache :=
  r0 <- scoutfs_item_insert_batch scoutfs_item_setup [] 0 10 true ;;
  r1 <- scoutfs_item_create_force sample_max_val_size (snd r0) 5
          (Some value_abc) write_only_lock true ;;
  r2 <- scoutfs_item_delete sample_max_val_size (snd r1) 5 write_lock [] ;;
  Ret (snd (fst r2)).

Definition item_tombstone_5 : cached_item := mk_item 1 true true 5 None 0.

Definition cache_tombstone_5 : item_cache :=
  mk_cache (INode INil item_tombstone_5 INil)
           (RNode RNil (mk_range 0 10) RNil) 1 0 [] 0.
(** * More of item.c *)

(** ** Copying keys out

    [scoutfs_item_copy_keys] and [scoutfs_item_copy_range_keys] fill the
    caller's array from its start; the result is the count returned and
    the keys written, in the order of the array.  The count is an [int]
    that never passes the array size [nr]; it is written here without
    wrap-around, which is what the code does for array sizes within
    [INT_MAX]. *)

Fixpoint copy_keys_from (chain : list cached_item) (nr ret : Z)
    (out : list scoutfs_key) : Z * list scoutfs_key :=
  match chain with
  | [] => (ret, out)
  | it :: rest =>
      if ret =? nr then (ret, out)
      else if deletion it then copy_keys_from rest nr ret out
      else copy_keys_from rest nr (ret + 1) (out ++ [key it])
  end.

Definition scoutfs_item_copy_keys (c : item_cache) (k : scoutfs_key)
    (nr : Z) : Z * list scoutfs_key :=
  match next_item (items c) k with
  | Some it =>
      copy_keys_from (it :: rb_next_chain_from (items c) (key it) []) nr 0 []
  | None => (0, [])
  end.

(** The walk of [scoutfs_item_copy_range_keys]: the range that holds
    the key, or else the first range after it. *)
Fixpoint first_range_from (node : range_tree) (k : scoutfs_key)
    (next : option cached_range) : option cached_range :=
  match node with
  | RNil => next
  | RNode l rng r =>
      let cmp := scoutfs_key_compare_ranges k k (start rng) (end_ rng) in
      if cmp <? 0 then first_range_from l k (Some rng)
      else if cmp >? 0 then first_range_from r k next
      else Some rng
  end.

(** The chain of [rb_next_rng] from the range that holds [k]. *)
Fixpoint rb_next_rng_chain (t : range_tree) (k : scoutfs_key)
    (above : list cached_range) : list cached_range :=
  match t with
  | RNil => []
  | RNode l rng r =>
      let cmp := scoutfs_key_compare_ranges k k (start rng) (end_ rng) in
      if cmp <? 0 then rb_next_rng_chain l k (rng :: range_list r ++ above)
      else if cmp >? 0 then rb_next_rng_chain r k above
      else range_list r ++ above
  end.

Fixpoint copy_range_keys_from (chain : list cached_range) (nr ret : Z)
    (out : list scoutfs_key) : Z * list scoutfs_key :=
  match chain with
  | [] => (ret, out)
  | rng :: rest =>
      if ret + 2 >? nr then (ret, out)
      else copy_range_keys_from rest nr (ret + 2)
                                (out ++ [start rng; end_ rng])
  end.

Definition scoutfs_item_copy_range_keys (c : item_cache) (k : scoutfs_key)
    (nr : Z) : Z * list scoutfs_key :=
  match first_range_from (ranges c) k None with
  | Some rng =>
      copy_range_keys_from
        (rng :: rb_next_rng_chain (ranges c) (start rng) []) nr 0 []
  | None => (0, [])
  end.

(** ** The rotate callback

    The kernel's [rb_insert_augmented] and [rb_erase_augmented] end by
    rebalancing the tree: nodes are recoloured, which the items do not
    see, and pairs of nodes are rotated.  After each rotation the kernel
    calls the [rotate] callback with the old top of the pair and the
    new one, the links being those after the rotation. *)

(** [scoutfs_item_rb_rotate (old, new)].  It runs when the links are
    those after the rotation: [old], with the children [ol] and [or_],
    is a child of [new], the left one when [old_is_left], and [sibling]
    is the other child of [new].  The bits of [old] are computed first,
    then those of [new], which depend on them.  The result is the
    subtree under [new]. *)
Definition scoutfs_item_rb_rotate (ol : item_tree) (old : cached_item)
    (or_ : item_tree) (new : cached_item) (sibling : item_tree)
    (old_is_left : bool) : item_tree :=
  let o := set_dirty old (compute_item_dirty ol old or_) in
  if old_is_left then
    let n := set_dirty new
               (compute_item_dirty (INode ol o or_) new sibling) in
    INode (INode ol o or_) n sibling
  else
    let n := set_dirty new
               (compute_item_dirty sibling new (INode ol o or_)) in
    INode sibling n (INode ol o or_).

(** The two rotations at the top of a tree.  To the left: the right
    child of the top becomes the top, the old top its left child.  To
    the right: the left child becomes the top, the old top its right
    child.  A tree that has no such child is left alone. *)
Definition rotate_left (t : item_tree) : item_tree :=
  match t with
  | INode a x (INode b y c) => scoutfs_item_rb_rotate a x b y c true
  | _ => t
  end.

Definition rotate_right (t : item_tree) : item_tree :=
  match t with
  | INode (INode a x b) y c => scoutfs_item_rb_rotate b y c x a false
  | _ => t
  end.

(** A rotation somewhere in the tree: [rot_path] leads from the root to
    the top of the pair, [true] being a step to the left, and
    [rot_left] is the direction. *)
Record rotation : Type := mk_rotation {
  rot_path : list bool;
  rot_left : bool
}.

Fixpoint rotate_at (path : list bool) (to_left : bool) (t : item_tree)
  : item_tree :=
  match path with
  | [] => if to_left then rotate_left t else rotate_right t
  | step :: path' =>
      match t with
      | INil => INil
      | INode l it r =>
          if step then INode (rotate_at path' to_left l) it r
          else INode l it (rotate_at path' to_left r)
      end
  end.

(** A rebalancing, as far as the items see it: rotations, one after the
    other.  Which rotations the kernel makes depends on the colours of
    the nodes; here they are given. *)
Definition rebalance (moves : list rotation) (t : item_tree) : item_tree :=
  fold_left (fun t' m => rotate_at (rot_path m) (rot_left m) t') moves t.

(** [erase_item] with the rebalancing in view: the rotations [moves]
    follow the unlinking inside [rb_erase_augmented]. *)
Definition erase_item_rebalanced (moves : list rotation) (c : item_cache)
    (k : scoutfs_key) : item_cache :=
  let c1 := clear_item_dirty c k in
  let c2 := set_items c1
              (rebalance moves (fst (rb_erase_augmented (items c1) k))) in
  if on_list k (lru_list c2) then
    set_lru c2 (list_del k (lru_list c2)) (to_ulong (lru_nr c2 - 1))
  else c2.

(** [scoutfs_item_dirty_seg] with the rebalancing in view.  [moves]
    gives, for every item the flush erases, the rotations that follow
    its unlinking; with none left no rotation is made, as in
    [dirty_seg_loop]. *)
Fixpoint dirty_seg_loop_rebalanced (moves : list (list rotation))
    (turns : nat) (c : item_cache) (seg : scoutfs_segment)
    (item : option cached_item)
  : outcome (item_cache * scoutfs_segment) :=
  match item with
  | None => Ret (c, seg)
  | Some it =>
      match turns with
      | O => Starved
      | S turns' =>
          match scoutfs_seg_append_item seg (key it)
                  (firstn (Z.to_nat (val_len it)) (item_bytes it))
                  (item_flags it) with
          | None => Bug
          | Some seg' =>
              let c1 := clear_item_dirty c (key it) in
              let c2 := set_items c1
                          (fst (store_item (items c1) (key it)
                                  (fun i => set_persistent i true) false)) in
              let next := next_dirty (items c2) (key it) in
              if deletion it then
                dirty_seg_loop_rebalanced
                  (tl moves) turns'
                  (erase_item_rebalanced (hd [] moves) c2 (key it))
                  seg' next
              else dirty_seg_loop_rebalanced moves turns' c2 seg' next
          end
      end
  end.

Definition scoutfs_item_dirty_seg_rebalanced (moves : list (list rotation))
    (c : item_cache) (seg : scoutfs_segment)
  : outcome (Z * item_cache * scoutfs_segment) :=
  match dirty_seg_loop_rebalanced moves (tree_size (items c)) c seg
                                  (first_dirty (items c)) with
  | Ret (c', seg') => Ret (0, c', seg')
  | Bug => Bug
  | Starved => Starved
  end.

(** ** What the further properties speak of *)

(** The items with a key from [k] on, and those of them that are not
    deletion items and lie within [last]. *)
Definition items_from (k : scoutfs_key) (l : list cached_item)
  : list cached_item :=
  filter (fun it => k <=? key it) l.

Definition live_within (k last : scoutfs_key) (l : list cached_item)
  : list cached_item :=
  filter (fun it => negb (deletion it) && (k <=? key it) && (key it <=? last))
         l.

(** Items in strictly increasing key order. *)
Fixpoint ascending (l : list cached_item) : Prop :=
  match l with
  | [] => True
  | x :: r => Forall (fun y => key x < key y) r /\ ascending r
  end.

(** The items with a key up to [k], and items in strictly decreasing
    key order. *)
Definition items_upto (k : scoutfs_key) (l : list cached_item)
  : list cached_item :=
  filter (fun it => key it <=? k) l.

Fixpoint descending (l : list cached_item) : Prop :=
  match l with
  | [] => True
  | x :: r => Forall (fun y => key y < key x) r /\ descending r
  end.

(** What [scoutfs_item_next] and [scoutfs_item_prev] hand back for the
    item they found: the count copied, the cache after
    [item_referenced], the item's key and the caller's value vec. *)
Definition iteration_answer (c : item_cache) (v : option kvec)
    (it : cached_item)
  : outcome (Z * item_cache * scoutfs_key * option kvec) :=
  match v with
  | Some _ =>
      Ret (fst (copy_item_val v it), item_referenced c it, key it,
           snd (copy_item_val v it))
  | None => Ret (0, c, key it, v)
  end.

(** The item cached at a key, and the items cached at the other keys,
    both without the subtree bits. *)
Definition item_at (c : item_cache) (k : scoutfs_key) : option cached_item :=
  option_map strip (walk_found (items c) k).

Definition others (c : item_cache) (k : scoutfs_key) : list cached_item :=
  without k (contents (items c)).

(** The deletion item that stands for a deleted persistent item. *)
Definition tombstone (k : scoutfs_key) : cached_item :=
  mk_item ITEM_DIRTY true true k None 0.

(** The item after [scoutfs_item_update] with the value [v]: the value
    and its length are those of a fresh item made of [v], and the item
    is dirty. *)
Definition updated (it : cached_item) (v : option kvec) : cached_item :=
  mark_dirty (set_val it (val (alloc_item (key it) v))
                      (val_len (alloc_item (key it) v))).

(** Ranges in increasing order, none empty, no two meeting. *)
Fixpoint disjoint_ascending (l : list cached_range) : Prop :=
  match l with
  | [] => True
  | x :: r =>
      start x <= end_ x
      /\ Forall (fun y => end_ x < start y) r
      /\ disjoint_ascending r
  end.

(** Some cached range of the store holds the key. *)
Definition covered (t : range_tree) (k : scoutfs_key) : Prop :=
  exists r, In r (range_list t) /\ covers r k.

(** No range of the list holds the interval [rem] strictly inside. *)
Definition no_strict (l : list cached_range) (rem : cached_range) : Prop :=
  Forall (fun r => ~ (start r < start rem /\ end_ rem < end_ r)) l.

(** What one descent of [remove_range] has done when it restarts with
    [rem'] on [t'], and when it ends at the bottom with [t']: the store
    is in order and covers nothing new, the keys of [rem] that are
    still covered lie in [rem'], and the ranges that do not meet [rem]
    are all there.  Both speak of an interval that lies strictly inside
    no range: no range is split then, and the store does not grow. *)
Definition apart (y rem : cached_range) : Prop :=
  end_ y < start rem \/ end_ rem < start y.

Definition removal_step (t : range_tree) (rem : cached_range)
    (t' : range_tree) (rem' : cached_range) : Prop :=
  disjoint_ascending (range_list t')
  /\ start rem' <= end_ rem'
  /\ no_strict (range_list t') rem'
  /\ (forall k, covered t' k -> covered t k)
  /\ (forall k, covers rem k -> covered t' k -> covers rem' k)
  /\ start rem <= start rem' /\ end_ rem' <= end_ rem
  /\ (range_size t' < range_size t)%nat
  /\ (forall y, In y (range_list t) -> apart y rem -> In y (range_list t')).

Definition removal_done (t : range_tree) (rem : cached_range)
    (t' : range_tree) : Prop :=
  disjoint_ascending (range_list t')
  /\ (forall k, covered t' k -> covered t k)
  /\ (forall k, covers rem k -> ~ covered t' k)
  /\ (range_size t' <= range_size t)%nat
  /\ (forall y, In y (range_list t) -> apart y rem -> In y (range_list t')).

(** ** The subtree bits and the flush

    The augmented value of every item is what [compute_item_dirty]
    makes of the item and its two children: the rbtree callbacks keep
    it so. *)
Fixpoint bits_ok (t : item_tree) : Prop :=
  match t with
  | INil => True
  | INode l it r =>
      bits_ok l /\ bits_ok r /\ dirty it = compute_item_dirty l it r
  end.

Definition any_dirty (t : item_tree) : bool :=
  existsb item_is_dirty (tree_items t).

(** The dirty items in key order, without their subtree bits. *)
Definition dirty_contents (t : item_tree) : list cached_item :=
  filter item_is_dirty (contents t).

(** The record that [scoutfs_item_dirty_seg] appends for an item. *)
Definition seg_item_of (it : cached_item) : seg_item :=
  mk_seg_item (key it) (firstn (Z.to_nat (val_len it)) (item_bytes it))
              (item_flags it).

(** An item after the flush: a dirty item is clean and persistent, a
    clean item is as it was; dirty deletion items are gone. *)
Definition flushed (x : cached_item) : cached_item :=
  if item_is_dirty x then set_persistent (mark_clean x) true else x.

Definition survives_flush (x : cached_item) : bool :=
  negb (item_is_dirty x && deletion x).

(** The ancestors that [next_dirty] reaches from their left child, each
    with its right subtree: the items after the subtree the path
    leaves, in key order. *)
Fixpoint after (above : list ancestor) : list cached_item :=
  match above with
  | [] => []
  | (from_right, p, pr) :: above' =>
      if from_right then after above'
      else p :: tree_items pr ++ after above'
  end.

Fixpoint above_ok (above : list ancestor) : Prop :=
  match above with
  | [] => True
  | (from_right, p, pr) :: above' =>
      (from_right = false ->
       bits_ok pr /\ has_bit (dirty p) RIGHT_DIRTY = any_dirty pr)
      /\ above_ok above'
  end.

(** ** The shrinker *)

(** What [shrink_boundary] hands back, walking right from [item0] up to
    the key [e] and walking left down to it: the item [la] where it
    stopped is cached between [item0] and [e], every item from [item0]
    to it is clean, and [nx] is the cached neighbour of [la] on the far
    side, when it has a key within [e]. *)
Definition boundary_right (l : list cached_item) (item0 : cached_item)
    (e : scoutfs_key) (la : cached_item) (nx : option cached_item) : Prop :=
  In la l /\ key item0 <= key la <= e
  /\ (forall x, In x l -> key item0 <= key x <= key la ->
                item_is_dirty x = false)
  /\ match nx with
     | Some n =>
         In n l /\ key la < key n <= e
         /\ forall x, In x l -> key la < key x -> key n <= key x
     | None => forall x, In x l -> key la < key x -> e < key x
     end.

Definition boundary_left (l : list cached_item) (item0 : cached_item)
    (e : scoutfs_key) (fi : cached_item) (pv : option cached_item) : Prop :=
  In fi l /\ e <= key fi <= key item0
  /\ (forall x, In x l -> key fi <= key x <= key item0 ->
                item_is_dirty x = false)
  /\ match pv with
     | Some p =>
         In p l /\ e <= key p < key fi
         /\ forall x, In x l -> key x < key fi -> key x <= key p
     | None => forall x, In x l -> key x < key fi -> key x < e
     end.

(** What the shrinker may do to a cache [c], leaving [c']: what is
    covered was covered and has the item it had, dirty items stay, and
    no item is new. *)
Definition shrunk (c c' : item_cache) : Prop :=
  (forall k, covered (ranges c') k ->
             covered (ranges c) k /\ item_at c' k = item_at c k)
  /\ (forall k x, item_at c k = Some x -> item_is_dirty x = true ->
                  item_at c' k = Some x)
  /\ (forall k x, item_at c' k = Some x -> item_at c k = Some x).

(** The cached ranges are in order; and a call whose interval is in
    order: [scoutfs_item_invalidate] does not compare its two keys. *)
Definition ordered (c : item_cache) : Prop := ranges_wf (ranges c).

Definition interval_ok (op : cache_op) : Prop :=
  match op with
  | OpInvalidate s e _ => s <= e
  | _ => True
  end.

(** ** More sample inputs

    A clean item to read in at key 7, and [cache_clean_5] after a batch
    was inserted with the keys 0 to 20: the cached range has grown. *)

Definition item_new_7 : cached_item := mk_item 0 false false 7 None 0.

Definition cache_clean_5_to_20 : item_cache :=
  mk_cache
    (INode INil (mk_item 0 false true 5 (Some ["a"%byte; "b"%byte; "c"%byte]) 3)
           INil)
    (RNode RNil (mk_range 0 20) RNil) 0 0 [5] 1.

(** [cache_3_5_7] after [scoutfs_item_delete] of key 3: the item was
    not persistent and is gone, and item 5 has lost its [LEFT_DIRTY]. *)
Definition cache_5_7 : item_cache :=
  mk_cache
    (INode INil
       (mk_item 0 false true 5 (Some ["a"%byte; "b"%byte; "c"%byte]) 3)
       (INode INil (mk_item 0 false true 7 (Some ["d"%byte; "e"%byte]) 2) INil))
    (RNode RNil (mk_range 0 10) RNil) 0 0 [5; 7] 2.

(** Item 5 of [cache_3_5_7], and that cache after the shrinker was
    called for it: the items 5 and 7 are freed and the cached range
    ends before key 5; the dirty item 3 is still there. *)
Definition item_5_above_3 : cached_item :=
  mk_item 2 false true 5 (Some ["a"%byte; "b"%byte; "c"%byte]) 3.

Definition cache_3_to_4 : item_cache :=
  mk_cache
    (INode INil (mk_item 1 false false 3 (Some ["d"%byte; "e"%byte]) 2) INil)
    (RNode RNil (mk_range 0 4) RNil) 1 2 [] 0.

(** [cache_clean_5] after [scoutfs_item_invalidate] of the keys 4 to 6:
    item 5 is gone and the cached range is split around the keys. *)
Definition cache_0_3_and_7_10 : item_cache :=
  mk_cache INil
    (RNode RNil (mk_range 0 3) (RNode RNil (mk_range 7 10) RNil)) 0 0 [] 0.

(** What the reader brings for a miss at key 15: the item 15 with the
    value "de" and the keys 11 to 20. *)
(** The items 5, 3 and 7 read into an empty cache with the keys 0 to 10,
    then item 3 deleted and item 7 made dirty: a dirty deletion item at
    3, a dirty item at 7, and above them the clean item 5 with both
    subtree bits. *)
Definition cache_deleted_3 : item_cache :=
  mk_cache
    (INode
       (INode INil (mk_item 1 true true 3 None 0) INil)
       (mk_item 6 false true 5 (Some ["a"%byte; "b"%byte; "c"%byte]) 3)
       (INode INil (mk_item 1 false true 7 (Some ["d"%byte; "e"%byte]) 2)
              INil))
    (RNode RNil (mk_range 0 10) RNil) 2 2 [5] 1.

(** That cache after a flush in which the erase of item 3 was followed
    by a rotation to the left at the root: item 7 is the root. *)
Definition cache_flushed_5_7 : item_cache :=
  mk_cache
    (INode
       (INode INil
              (mk_item 0 false true 5 (Some ["a"%byte; "b"%byte; "c"%byte]) 3)
              INil)
       (mk_item 0 false true 7 (Some ["d"%byte; "e"%byte]) 2)
       INil)
    (RNode RNil (mk_range 0 10) RNil) 0 0 [5; 7] 2.

Definition fill_15 : fill := mk_fill 0 [(15, Some value_de)] (Some (11, 20)).
(** * Properties *)

(** ** Key comparison *)

Lemma key_compare_cases (a b : scoutfs_key) :
  (a < b /\ scoutfs_key_compare a b = -1)
  \/ (a = b /\ scoutfs_key_compare a b = 0)
  \/ (b < a /\ scoutfs_key_compare a b = 1).
Proof.
  unfold scoutfs_key_compare.
  destruct (Z.compare_spec a b); [right; left | left | right; right]; auto.
Qed.

Ltac key_cases a b :=
  let H := fresh "Hk" in
  let E := fresh "Ek" in
  destruct (key_compare_cases a b) as [[H E] | [[H E] | [H E]]];
  rewrite ?E in *; cbn [Z.ltb Z.gtb Z.leb Z.geb Z.eqb Z.compare Pos.compare
                        Pos.compare_cont Z.opp CompOpp] in *.

Lemma keys_node l it r : keys (INode l it r) = keys l ++ key it :: keys r.
Proof. unfold keys; cbn. now rewrite map_app. Qed.

Lemma walk_found_node l it r k :
  walk_found (INode l it r) k =
  if scoutfs_key_compare k (key it) <? 0 then walk_found l k
  else if scoutfs_key_compare k (key it) >? 0 then walk_found r k
  else Some it.
Proof.
  assert (G : forall t p n p' n',
             fst (fst (walk_items_from t k p n))
             = fst (fst (walk_items_from t k p' n'))).
  { induction t as [| tl IHl x tr IHr]; intros; cbn; auto.
    destruct (_ <? 0); [apply IHl |].
    destruct (_ >? 0); [apply IHr | reflexivity]. }
  unfold walk_found, walk_items; cbn.
  destruct (_ <? 0); [apply G |].
  destruct (_ >? 0); [apply G | reflexivity].
Qed.

Lemma walk_found_nil k : walk_found INil k = None.
Proof. reflexivity. Qed.

Lemma walk_found_key t k it : walk_found t k = Some it -> key it = k.
Proof.
  induction t as [| l IHl x r IHr]; [discriminate |].
  rewrite walk_found_node. key_cases k (key x); auto.
  intros [= <-]; auto.
Qed.

Lemma walk_found_in t k it : walk_found t k = Some it -> In it (tree_items t).
Proof.
  induction t as [| l IHl x r IHr]; [discriminate |].
  rewrite walk_found_node; cbn. rewrite in_app_iff; cbn.
  key_cases k (key x); auto.
  intros [= <-]; auto.
Qed.

Lemma in_keys t it : In it (tree_items t) -> In (key it) (keys t).
Proof. apply in_map. Qed.

Lemma bst_found t k it :
  bst t -> In it (tree_items t) -> key it = k -> walk_found t k = Some it.
Proof.
  induction t as [| l IHl x r IHr]; cbn [bst tree_items]; [intros _ [] |].
  intros (Bl & Br & Fl & Fr) Hin Hk. rewrite walk_found_node.
  rewrite Forall_forall in Fl, Fr.
  apply in_app_or in Hin. destruct Hin as [Hin | [-> | Hin]].
  - specialize (Fl _ (in_keys _ _ Hin)). key_cases k (key x); try lia; auto.
  - key_cases k (key it); try lia; auto.
  - specialize (Fr _ (in_keys _ _ Hin)). key_cases k (key x); try lia; auto.
Qed.

Lemma bst_absent t k :
  bst t -> walk_found t k = None -> ~ In k (keys t).
Proof.
  induction t as [| l IHl x r IHr]; cbn [bst]; [intros _ _ [] |].
  intros (Bl & Br & Fl & Fr). rewrite walk_found_node, keys_node.
  rewrite Forall_forall in Fl, Fr.
  intros Hw Hin. apply in_app_or in Hin.
  key_cases k (key x); try discriminate.
  - destruct Hin as [Hin | [E | Hin]]; [now apply IHl | lia |].
    specialize (Fr _ Hin); lia.
  - destruct Hin as [Hin | [E | Hin]]; [| lia | now apply IHr].
    specialize (Fl _ Hin); lia.
Qed.

(** ** Items without their subtree bits

    The two subtree bits of an item describe the shape of the tree
    around it; [strip] keeps what belongs to the item itself. *)

Lemma contents_node l it r :
  contents (INode l it r) = contents l ++ strip it :: contents r.
Proof. unfold contents; cbn. now rewrite map_app. Qed.

Lemma keys_contents t : map key (contents t) = keys t.
Proof. unfold contents, keys. rewrite map_map. reflexivity. Qed.

Lemma land_item_dirty d :
  Z.land d ITEM_DIRTY = 0 \/ Z.land d ITEM_DIRTY = 1.
Proof.
  unfold ITEM_DIRTY.
  assert (E : Z.land d 1 = d mod 2) by (apply (Z.land_ones d 1); lia).
  rewrite E.
  assert (0 <= d mod 2 < 2) by (apply Z.mod_pos_bound; lia). lia.
Qed.

Lemma self_bit_compute l it r :
  Z.land (compute_item_dirty l it r) ITEM_DIRTY = Z.land (dirty it) ITEM_DIRTY.
Proof.
  unfold compute_item_dirty, node_dirty_bit.
  destruct (land_item_dirty (dirty it)) as [E | E]; rewrite E;
    destruct l as [| ? x ?]; destruct r as [| ? y ?];
    try destruct (dirty x =? 0); try destruct (dirty y =? 0); reflexivity.
Qed.

Lemma strip_set_dirty it d :
  Z.land d ITEM_DIRTY = Z.land (dirty it) ITEM_DIRTY ->
  strip (set_dirty it d) = strip it.
Proof. unfold strip, set_dirty; cbn. now intros ->. Qed.

Lemma strip_compute l it r :
  strip (set_dirty it (compute_item_dirty l it r)) = strip it.
Proof. apply strip_set_dirty, self_bit_compute. Qed.

Lemma item_is_dirty_strip it : item_is_dirty (strip it) = item_is_dirty it.
Proof.
  unfold item_is_dirty, strip; cbn.
  now rewrite <- Z.land_assoc, Z.land_diag.
Qed.

Lemma strip_key it : key (strip it) = key it.
Proof. reflexivity. Qed.

Lemma strip_idem it : strip (strip it) = strip it.
Proof.
  unfold strip at 1 2. unfold set_dirty; cbn.
  now rewrite <- Z.land_assoc, Z.land_diag.
Qed.

(** What one turn of the propagation can change. *)
Lemma propagate_step_shape going l it r :
  exists it', fst (propagate_step going l it r) = INode l it' r
              /\ strip it' = strip it /\ key it' = key it.
Proof.
  unfold propagate_step. destruct going; [| now exists it].
  destruct (_ =? _); [now exists it |].
  eexists; split; [reflexivity |]. split; [apply strip_compute | reflexivity].
Qed.

Lemma propagate_step_contents going l it r :
  contents (fst (propagate_step going l it r)) = contents (INode l it r).
Proof.
  destruct (propagate_step_shape going l it r) as (it' & -> & E & _).
  now rewrite !contents_node, E.
Qed.

Lemma propagate_step_bst going l it r :
  bst (INode l it r) -> bst (fst (propagate_step going l it r)).
Proof.
  destruct (propagate_step_shape going l it r) as (it' & -> & _ & E).
  cbn. now rewrite E.
Qed.

Lemma keys_of_contents t t' : contents t = contents t' -> keys t = keys t'.
Proof. intros E. now rewrite <- !keys_contents, E. Qed.

(** ** Stores through an item pointer *)

Section Store.

Variable k : scoutfs_key.
Variables f g : cached_item -> cached_item.
Hypothesis f_key : forall i, key (f i) = key i.
Hypothesis f_strip : forall i, strip (f i) = g (strip i).

Lemma at_key_ne c : key c <> k -> at_key k g c = c.
Proof. unfold at_key. destruct (Z.eqb_spec (key c) k); tauto. Qed.

Lemma at_key_eq c : key c = k -> at_key k g c = g c.
Proof. unfold at_key. destruct (Z.eqb_spec (key c) k); tauto. Qed.

Lemma at_key_other l :
  Forall (fun x => x <> k) (map key l) -> map (at_key k g) l = l.
Proof.
  induction l as [| c l IH]; cbn; [reflexivity |].
  intros F. inversion_clear F as [| ? ? Hc Hl].
  unfold at_key at 1. destruct (Z.eqb_spec (key c) k); [contradiction |].
  now rewrite IH.
Qed.

Lemma store_item_keys t parents :
  keys (fst (store_item t k f parents)) = keys t.
Proof.
  induction t as [| l IHl x r IHr]; cbn [store_item]; [reflexivity |].
  key_cases k (key x).
  - destruct (store_item l k f parents) as [l' going]; cbn [fst] in *.
    destruct (propagate_step_shape going l' x r) as (x' & -> & _ & E).
    now rewrite !keys_node, IHl, E.
  - cbn [fst]. now rewrite !keys_node, f_key.
  - destruct (store_item r k f parents) as [r' going]; cbn [fst] in *.
    destruct (propagate_step_shape going l x r') as (x' & -> & _ & E).
    now rewrite !keys_node, IHr, E.
Qed.

Lemma store_item_bst t parents :
  bst t -> bst (fst (store_item t k f parents)).
Proof.
  induction t as [| l IHl x r IHr]; cbn [bst store_item]; [tauto |].
  intros (Bl & Br & Fl & Fr).
  key_cases k (key x).
  - pose proof (store_item_keys l parents) as Ek'.
    destruct (store_item l k f parents) as [l' going]; cbn [fst] in *.
    apply propagate_step_bst; cbn [bst]. rewrite Ek'. auto.
  - cbn [fst bst]. rewrite f_key. auto.
  - pose proof (store_item_keys r parents) as Ek'.
    destruct (store_item r k f parents) as [r' going]; cbn [fst] in *.
    apply propagate_step_bst; cbn [bst]. rewrite Ek'. auto.
Qed.

Lemma Forall_lt_ne (l : list Z) :
  Forall (fun x => x < k) l -> Forall (fun x => x <> k) l.
Proof. apply Forall_impl; intros; lia. Qed.

Lemma Forall_gt_ne (l : list Z) :
  Forall (fun x => k < x) l -> Forall (fun x => x <> k) l.
Proof. apply Forall_impl; intros; lia. Qed.

Lemma Forall_lt_trans (a b : Z) (l : list Z) :
  a <= b -> Forall (fun x => x < a) l -> Forall (fun x => x < b) l.
Proof. intros H. apply Forall_impl; intros; lia. Qed.

Lemma Forall_gt_trans (a b : Z) (l : list Z) :
  b <= a -> Forall (fun x => a < x) l -> Forall (fun x => b < x) l.
Proof. intros H. apply Forall_impl; intros; lia. Qed.

Lemma store_item_contents t parents :
  bst t ->
  contents (fst (store_item t k f parents)) = map (at_key k g) (contents t).
Proof.
  induction t as [| l IHl x r IHr]; cbn [bst store_item]; [reflexivity |].
  intros (Bl & Br & Fl & Fr).
  rewrite contents_node, map_app; cbn [map].
  key_cases k (key x).
  - specialize (IHl Bl).
    destruct (store_item l k f parents) as [l' going]; cbn [fst] in *.
    rewrite propagate_step_contents, contents_node, IHl.
    rewrite (at_key_other (contents r)).
    + rewrite at_key_ne; [reflexivity | rewrite strip_key; lia].
    + rewrite keys_contents. apply Forall_gt_ne.
      eapply Forall_gt_trans; [| eassumption]. lia.
  - cbn [fst]. rewrite contents_node, f_strip.
    rewrite (at_key_other (contents l)), (at_key_other (contents r)).
    + rewrite at_key_eq; [reflexivity | now rewrite strip_key].
    + rewrite keys_contents. apply Forall_gt_ne. now rewrite Hk.
    + rewrite keys_contents. apply Forall_lt_ne. now rewrite Hk.
  - specialize (IHr Br).
    destruct (store_item r k f parents) as [r' going]; cbn [fst] in *.
    rewrite propagate_step_contents, contents_node, IHr.
    rewrite (at_key_other (contents l)).
    + rewrite at_key_ne; [reflexivity | rewrite strip_key; lia].
    + rewrite keys_contents. apply Forall_lt_ne.
      eapply Forall_lt_trans; [| eassumption]. lia.
Qed.

End Store.

Lemma without_other k l :
  Forall (fun x => x <> k) (map key l) -> without k l = l.
Proof.
  unfold without.
  induction l as [| c l IH]; cbn; [reflexivity |].
  intros F. inversion_clear F as [| ? ? Hc Hl].
  destruct (Z.eqb_spec (key c) k); [contradiction |].
  cbn. now rewrite IH.
Qed.

Lemma without_app k l1 l2 :
  without k (l1 ++ l2) = without k l1 ++ without k l2.
Proof. apply filter_app. Qed.

Lemma erase_leftmost_spec l it r :
  forall m t' going,
    erase_leftmost l it r = (m, t', going) ->
    contents (INode l it r) = strip m :: contents t'
    /\ (bst (INode l it r) ->
        bst t' /\ Forall (fun x => key m < x) (keys t')).
Proof.
  revert it r.
  induction l as [| ll IHl lit lr _]; intros it r m t' going; cbn [erase_leftmost].
  - intros [= <- <- <-]. split; [reflexivity |].
    cbn [bst]. tauto.
  - destruct (erase_leftmost ll lit lr) as [[m0 l'] g0] eqn:E.
    destruct (IHl _ _ _ _ _ E) as (Hc & Hb).
    destruct (propagate_step_shape g0 l' it r) as (it' & Es & Est & Eit).
    destruct (propagate_step g0 l' it r) as [n g1]; cbn [fst] in Es.
    intros [= <- <- <-]. subst n. split.
    + rewrite (contents_node (INode ll lit lr)), Hc, contents_node, Est.
      reflexivity.
    + cbn [bst]. intros (Bl & Br & Fl & Fr).
      destruct (Hb Bl) as (Bl' & Fm).
      assert (Ekl : keys (INode ll lit lr) = key m0 :: keys l').
      { rewrite <- !keys_contents, Hc. reflexivity. }
      rewrite Ekl in Fl. inversion_clear Fl as [| ? ? Hm Fl'].
      rewrite Eit. repeat split; auto.
      rewrite keys_node. apply Forall_app. split; [assumption |].
      constructor; [now rewrite Eit |].
      eapply Forall_gt_trans; [| eassumption]. lia.
Qed.

Lemma erase_node_spec l it r :
  bst (INode l it r) ->
  contents (fst (erase_node l it r)) = contents l ++ contents r
  /\ bst (fst (erase_node l it r)).
Proof.
  cbn [bst]. intros (Bl & Br & Fl & Fr).
  unfold erase_node.
  destruct l as [| ll lit lr].
  { cbn. auto. }
  destruct r as [| rl rit rr].
  { cbn [fst]. rewrite app_nil_r. auto. }
  destruct (erase_leftmost rl rit rr) as [[succ r'] g] eqn:E.
  destruct (erase_leftmost_spec _ _ _ _ _ _ E) as (Hc & Hb).
  destruct (Hb Br) as (Br' & Fm).
  cbn [fst]. split.
  - rewrite contents_node, Hc. f_equal. f_equal.
    rewrite strip_compute. unfold scoutfs_item_rb_copy.
    apply strip_compute.
  - assert (Ekr : keys (INode rl rit rr) = key succ :: keys r').
    { rewrite <- !keys_contents, Hc. reflexivity. }
    rewrite Ekr in Fr. inversion_clear Fr as [| ? ? Hs Fr'].
    change (bst (INode ll lit lr) /\ bst r'
            /\ Forall (fun x => x < key succ) (keys (INode ll lit lr))
            /\ Forall (fun x => key succ < x) (keys r')).
    split; [assumption | split; [assumption | split; [| assumption]]].
    eapply Forall_lt_trans; [| eassumption]. lia.
Qed.

Lemma rb_erase_augmented_spec t k :
  bst t ->
  contents (fst (rb_erase_augmented t k)) = without k (contents t)
  /\ bst (fst (rb_erase_augmented t k)).
Proof.
  induction t as [| l IHl x r IHr]; cbn [bst rb_erase_augmented].
  { cbn. auto. }
  intros (Bl & Br & Fl & Fr).
  rewrite contents_node, without_app. cbn [without filter].
  rewrite strip_key.
  key_cases k (key x).
  - destruct (IHl Bl) as (Hc & Hb).
    destruct (rb_erase_augmented l k) as [l' going]; cbn [fst] in *.
    split.
    + rewrite propagate_step_contents, contents_node, Hc.
      fold (without k (contents r)).
      rewrite (@without_other k (contents r)).
      * destruct (Z.eqb_spec (key x) k); [lia | reflexivity].
      * rewrite keys_contents. apply Forall_gt_ne.
        eapply Forall_gt_trans; [| eassumption]. lia.
    + apply propagate_step_bst. cbn [bst].
      assert (Ekl : keys l' = map key (without k (contents l))).
      { rewrite <- Hc. symmetry. apply keys_contents. }
      repeat split; auto.
      rewrite Ekl. rewrite <- keys_contents in Fl.
      clear - Fl. induction (contents l) as [| c cl IH]; cbn; [constructor |].
      inversion_clear Fl. destruct (negb _); cbn; auto.
  - destruct (erase_node_spec l x r) as (Hc & Hb); [cbn [bst]; auto |].
    split; [| assumption].
    rewrite Hc. fold (without k (contents l)) (without k (contents r)).
    rewrite (@without_other k (contents l)), (@without_other k (contents r)).
    + rewrite Hk, Z.eqb_refl. reflexivity.
    + rewrite keys_contents. apply Forall_gt_ne. now rewrite Hk.
    + rewrite keys_contents. apply Forall_lt_ne. now rewrite Hk.
  - destruct (IHr Br) as (Hc & Hb).
    destruct (rb_erase_augmented r k) as [r' going]; cbn [fst] in *.
    split.
    + rewrite propagate_step_contents, contents_node, Hc.
      fold (without k (contents l)).
      rewrite (@without_other k (contents l)).
      * destruct (Z.eqb_spec (key x) k); [lia | reflexivity].
      * rewrite keys_contents. apply Forall_lt_ne.
        eapply Forall_lt_trans; [| eassumption]. lia.
    + apply propagate_step_bst. cbn [bst].
      assert (Ekr : keys r' = map key (without k (contents r))).
      { rewrite <- Hc. symmetry. apply keys_contents. }
      repeat split; auto.
      rewrite Ekr. rewrite <- keys_contents in Fr.
      clear - Fr. induction (contents r) as [| c cl IH]; cbn; [constructor |].
      inversion_clear Fr. destruct (negb _); cbn; auto.
Qed.

(** ** Linking a new item *)

Lemma strip_or_bit it bit :
  Z.land bit ITEM_DIRTY = 0 ->
  strip (set_dirty it (Z.lor (dirty it) bit)) = strip it.
Proof.
  intros H. apply strip_set_dirty.
  now rewrite Z.land_lor_distr_l, H, Z.lor_0_r.
Qed.

Lemma lift_insert_linked w rebuild t' :
  lift_insert w rebuild = Linked t' ->
  exists t0, w = Linked t0 /\ t' = rebuild t0.
Proof. destruct w; cbn; intros [= <-]; eauto. Qed.

Lemma lift_insert_present w rebuild x t' :
  lift_insert w rebuild = Present x t' ->
  exists t0, w = Present x t0 /\ t' = rebuild t0.
Proof. destruct w; cbn; [discriminate |]. intros [= <- <-]; eauto. Qed.

Lemma passed_item_strip (ins it : cached_item) (bit : Z) :
  Z.land bit ITEM_DIRTY = 0 ->
  strip (if dirty ins =? 0 then it else set_dirty it (Z.lor (dirty it) bit))
  = strip it.
Proof. intros H. destruct (_ =? _); [reflexivity | now apply strip_or_bit]. Qed.

Lemma passed_item_key (ins it : cached_item) (bit : Z) :
  key (if dirty ins =? 0 then it else set_dirty it (Z.lor (dirty it) bit))
  = key it.
Proof. destruct (_ =? _); reflexivity. Qed.

Lemma Permutation_keys_Forall (Q : Z -> Prop) (l l' : list cached_item) :
  Permutation l l' -> Forall Q (map key l) -> Forall Q (map key l').
Proof.
  intros Hp. apply Permutation_Forall. now apply Permutation_map.
Qed.

Lemma insert_descend_linked t ins t' :
  insert_descend t ins = Linked t' ->
  walk_found t (key ins) = None
  /\ Permutation (contents t') (strip ins :: contents t)
  /\ (bst t -> bst t')
  /\ tree_size t' = S (tree_size t).
Proof.
  revert t'. induction t as [| l IHl x r IHr]; intros t'; cbn [insert_descend].
  - intros [= <-]. cbn. repeat split; auto.
  - rewrite walk_found_node. key_cases (key ins) (key x).
    + intros Hl. apply lift_insert_linked in Hl. destruct Hl as (l' & El & ->).
      destruct (IHl _ El) as (Hw & Hp & Hb & Hs).
      split; [assumption |]. split; [| split].
      * rewrite !contents_node, passed_item_strip by reflexivity.
        rewrite Hp. cbn. reflexivity.
      * cbn [bst]. rewrite passed_item_key.
        intros (Bl & Br & Fl & Fr). repeat split; auto.
        rewrite <- keys_contents.
        apply (Permutation_keys_Forall _ _ _ (Permutation_sym Hp)).
        cbn. constructor; [assumption |]. now rewrite keys_contents.
      * cbn. now rewrite Hs.
    + discriminate.
    + intros Hr. apply lift_insert_linked in Hr. destruct Hr as (r' & Er & ->).
      destruct (IHr _ Er) as (Hw & Hp & Hb & Hs).
      split; [assumption |]. split; [| split].
      * rewrite !contents_node, passed_item_strip by reflexivity.
        rewrite Hp.
        change (strip x :: strip ins :: contents r)
          with ([strip x] ++ strip ins :: contents r).
        rewrite app_assoc, <- Permutation_middle, <- app_assoc.
        reflexivity.
      * cbn [bst]. rewrite passed_item_key.
        intros (Bl & Br & Fl & Fr). repeat split; auto.
        rewrite <- keys_contents.
        apply (Permutation_keys_Forall _ _ _ (Permutation_sym Hp)).
        cbn. constructor; [assumption |]. now rewrite keys_contents.
      * cbn. rewrite Hs. lia.
Qed.

Lemma insert_descend_present t ins x t' :
  insert_descend t ins = Present x t' ->
  walk_found t (key ins) = Some x
  /\ walk_found t' (key ins) = Some x
  /\ contents t' = contents t
  /\ (bst t -> bst t')
  /\ tree_size t' = tree_size t.
Proof.
  revert t'. induction t as [| l IHl y r IHr]; intros t'; cbn [insert_descend].
  - discriminate.
  - rewrite walk_found_node. key_cases (key ins) (key y).
    + intros Hl. apply lift_insert_present in Hl.
      destruct Hl as (l' & El & ->).
      destruct (IHl _ El) as (Hw & Hw' & Hc & Hb & Hs).
      split; [assumption |].
      rewrite walk_found_node, passed_item_key, Ek.
      cbn [Z.ltb Z.gtb Z.compare].
      split; [assumption |]. split; [| split].
      * now rewrite !contents_node, passed_item_strip, Hc by reflexivity.
      * cbn [bst]. rewrite passed_item_key.
        intros (Bl & Br & Fl & Fr). repeat split; auto.
        now rewrite (keys_of_contents _ _ Hc).
      * cbn [tree_size]. now rewrite Hs.
    + intros [= <- <-]. rewrite walk_found_node, Ek.
      cbn [Z.ltb Z.gtb Z.compare]. auto.
    + intros Hr. apply lift_insert_present in Hr.
      destruct Hr as (r' & Er & ->).
      destruct (IHr _ Er) as (Hw & Hw' & Hc & Hb & Hs).
      split; [assumption |].
      rewrite walk_found_node, passed_item_key, Ek.
      cbn [Z.ltb Z.gtb Z.compare].
      split; [assumption |]. split; [| split].
      * now rewrite !contents_node, passed_item_strip, Hc by reflexivity.
      * cbn [bst]. rewrite passed_item_key.
        intros (Bl & Br & Fl & Fr). repeat split; auto.
        now rewrite (keys_of_contents _ _ Hc).
      * cbn [tree_size]. now rewrite Hs.
Qed.

Lemma tree_size_contents t : length (contents t) = tree_size t.
Proof.
  induction t as [| l IHl x r IHr]; [reflexivity |].
  rewrite contents_node, length_app. cbn. lia.
Qed.

Lemma Forall_contents (Q : cached_item -> Prop) t :
  (forall i, Q (strip i) <-> Q i) ->
  Forall Q (contents t) <-> Forall Q (tree_items t).
Proof.
  intros HQ. unfold contents. rewrite Forall_map.
  split; apply Forall_impl; intros i; apply HQ.
Qed.

Lemma len_ok_contents t :
  Forall len_ok (contents t) <-> Forall len_ok (tree_items t).
Proof. apply Forall_contents. intros i; reflexivity. Qed.

Lemma bst_nodup t : bst t -> NoDup (keys t).
Proof.
  induction t as [| l IHl x r IHr]; cbn [bst]; [constructor |].
  intros (Bl & Br & Fl & Fr). rewrite keys_node.
  rewrite Forall_forall in Fl, Fr.
  apply NoDup_app; auto.
  - constructor; auto. intros Hin. specialize (Fr _ Hin). lia.
  - intros a Ha [<- | Hin].
    + specialize (Fl _ Ha). lia.
    + specialize (Fl _ Ha). specialize (Fr _ Hin). lia.
Qed.

Lemma contents_nodup t : bst t -> NoDup (map key (contents t)).
Proof. rewrite keys_contents. apply bst_nodup. Qed.

Lemma found_in_contents t k it :
  walk_found t k = Some it -> In (strip it) (contents t).
Proof. intros H. apply in_map. eapply walk_found_in; eauto. Qed.

Lemma found_holds t k it : walk_found t k = Some it -> holds_item t k it.
Proof. intros H. exists it. split; [exact H | reflexivity]. Qed.

Lemma absent_in_contents t k :
  bst t -> walk_found t k = None ->
  Forall (fun x => x <> k) (map key (contents t)).
Proof.
  intros B H. rewrite keys_contents. apply Forall_forall.
  intros x Hx ->. eapply bst_absent; eauto.
Qed.

Lemma Forall_at_key (Q : cached_item -> Prop) k g l :
  (forall c, Q c -> Q (g c)) -> Forall Q l -> Forall Q (map (at_key k g) l).
Proof.
  intros Hg F. rewrite Forall_map. revert F. apply Forall_impl.
  intros c Hc. unfold at_key. destruct (_ =? _); auto.
Qed.

Lemma Forall_without (Q : cached_item -> Prop) k l :
  Forall Q l -> Forall Q (without k l).
Proof.
  intros F. apply Forall_forall. intros x Hx.
  apply filter_In in Hx. rewrite Forall_forall in F. now apply F.
Qed.

(** The conversions of the dirty accounting are exact on lengths that
    fit an [int]. *)
Lemma to_int_small x : - 2147483648 <= x <= INT_MAX -> to_int (to_uint x) = x.
Proof.
  unfold INT_MAX, to_int, to_uint. intros H.
  rewrite Z.mod_mod by lia.
  destruct (Z_lt_le_dec x 0) as [Hn | Hp].
  - replace (x mod 4294967296) with (x + 4294967296).
    + destruct (Z.ltb_spec (x + 4294967296) 2147483648); lia.
    + apply Z.mod_unique with (q := -1); lia.
  - rewrite Z.mod_small by lia.
    destruct (Z.ltb_spec x 2147483648); lia.
Qed.

Lemma to_int_len x : 0 <= x <= INT_MAX -> to_int x = x.
Proof.
  unfold INT_MAX, to_int, to_uint. intros H.
  rewrite Z.mod_small by lia.
  destruct (Z.ltb_spec x 2147483648); lia.
Qed.

Lemma to_int_neg_len x : 0 <= x <= INT_MAX -> to_int (to_uint (- x)) = - x.
Proof. unfold INT_MAX. intros H. apply to_int_small. unfold INT_MAX. lia. Qed.

Lemma strip_mark i :
  strip (set_dirty i (Z.lor (dirty i) ITEM_DIRTY)) = mark_dirty (strip i).
Proof.
  unfold strip, mark_dirty, set_dirty; cbn. f_equal.
  rewrite Z.land_lor_distr_l. change (Z.land ITEM_DIRTY ITEM_DIRTY) with 1.
  destruct (land_item_dirty (dirty i)) as [-> | ->]; reflexivity.
Qed.

Lemma strip_clear i :
  strip (set_dirty i (Z.land (dirty i) (Z.lnot ITEM_DIRTY)))
  = mark_clean (strip i).
Proof.
  unfold strip, mark_clean, set_dirty; cbn. f_equal.
  rewrite <- Z.land_assoc. change (Z.land (Z.lnot ITEM_DIRTY) ITEM_DIRTY) with 0.
  apply Z.land_0_r.
Qed.

Lemma store_wf c k f g parents :
  (forall i, key (f i) = key i) ->
  (forall i, strip (f i) = g (strip i)) ->
  (forall i, len_ok i -> len_ok (g i)) ->
  cache_wf c ->
  cache_wf (set_items c (fst (store_item (items c) k f parents))).
Proof.
  intros Hk Hs Hl (B & L). split; cbn [items set_items].
  - now apply store_item_bst.
  - apply len_ok_contents. rewrite (store_item_contents k f g Hs) by easy.
    apply Forall_at_key; [assumption |]. now apply len_ok_contents.
Qed.

(** The item a pointer points to takes the store; the propagation
    starts above it. *)
Lemma store_item_found t k f parents :
  (forall i, key (f i) = key i) ->
  walk_found (fst (store_item t k f parents)) k = option_map f (walk_found t k).
Proof.
  intros Hf. induction t as [| l IHl x r IHr]; cbn [store_item]; [reflexivity |].
  rewrite (walk_found_node l x r).
  key_cases k (key x).
  - destruct (store_item l k f parents) as [l' going]; cbn [fst] in *.
    destruct (propagate_step_shape going l' x r) as (x' & -> & _ & E).
    rewrite walk_found_node, E, Ek. exact IHl.
  - cbn [fst]. rewrite walk_found_node, Hf, Ek. reflexivity.
  - destruct (store_item r k f parents) as [r' going]; cbn [fst] in *.
    destruct (propagate_step_shape going l x r') as (x' & -> & _ & E).
    rewrite walk_found_node, E, Ek. exact IHr.
Qed.

Lemma clear_item_dirty_found c k it :
  walk_found (items c) k = Some it ->
  exists it1,
    walk_found (items (clear_item_dirty c k)) k = Some it1
    /\ strip it1 = mark_clean (strip it)
    /\ item_is_dirty it1 = false.
Proof.
  intros Ef. unfold clear_item_dirty. rewrite Ef.
  destruct (item_is_dirty it) eqn:Ed; cbn [negb].
  - cbn [items set_items update_dirty_item_counts set_lru].
    rewrite store_item_found by reflexivity. rewrite Ef. cbn [option_map].
    eexists; split; [reflexivity |]. split; [apply strip_clear |].
    rewrite <- item_is_dirty_strip, strip_clear. reflexivity.
  - exists it. split; [assumption |]. split; [| assumption].
    unfold item_is_dirty in Ed. apply negb_false_iff, Z.eqb_eq in Ed.
    unfold strip, mark_clean, set_dirty; cbn. now rewrite Ed.
Qed.

Section Preservation.

Variable I : list cached_item -> Z -> Z -> Prop.
Hypothesis HI : list_invariant I.

Lemma found_len_ok c k it :
  cache_wf c -> walk_found (items c) k = Some it -> len_ok it.
Proof.
  intros (_ & L) H. rewrite Forall_forall in L.
  apply L. eapply walk_found_in; eauto.
Qed.

Lemma good_set_ranges c t : good I c -> good I (set_ranges c t).
Proof. intros H; exact H. Qed.

Lemma good_set_lru c l n : good I c -> good I (set_lru c l n).
Proof. intros H; exact H. Qed.

Lemma good_mark c k : good I c -> good I (mark_item_dirty c k).
Proof.
  intros (W & H). unfold mark_item_dirty.
  destruct (walk_found (items c) k) as [it |] eqn:Ef; [| now split].
  destruct (item_is_dirty it) eqn:Ed; [now split |].
  pose proof (walk_found_key _ _ _ Ef) as Ekey.
  split.
  - apply (store_wf c k _ mark_dirty true); auto using strip_mark.
  - unfold holds; cbn [items nr_dirty_items dirty_val_bytes
                        update_dirty_item_counts set_lru set_items].
    destruct W as (B & L).
    rewrite (store_item_contents k _ mark_dirty) by auto using strip_mark.
    rewrite (to_int_len (val_len it)) by (eapply found_len_ok; eauto; now split).
    change (to_int 1) with 1.
    replace k with (key (strip it)) by (now rewrite strip_key).
    change (val_len it) with (val_len (strip it)).
    apply (inv_mark _ HI); auto using contents_nodup.
    + eapply found_in_contents; eauto.
    + now rewrite item_is_dirty_strip.
Qed.

Lemma good_clear c k : good I c -> good I (clear_item_dirty c k).
Proof.
  intros (W & H). unfold clear_item_dirty.
  destruct (walk_found (items c) k) as [it |] eqn:Ef; [| now split].
  destruct (item_is_dirty it) eqn:Ed; cbn [negb]; [| now split].
  pose proof (walk_found_key _ _ _ Ef) as Ekey.
  split.
  - apply (store_wf c k _ mark_clean true); auto using strip_clear.
  - unfold holds; cbn [items nr_dirty_items dirty_val_bytes
                        update_dirty_item_counts set_lru set_items].
    destruct W as (B & L).
    rewrite (store_item_contents k _ mark_clean) by auto using strip_clear.
    rewrite (to_int_neg_len (val_len it))
      by (eapply found_len_ok; eauto; now split).
    change (to_int (-1)) with (-1).
    replace k with (key (strip it)) by (now rewrite strip_key).
    change (val_len it) with (val_len (strip it)).
    apply (inv_clear _ HI); auto using contents_nodup.
    + eapply found_in_contents; eauto.
    + now rewrite item_is_dirty_strip.
Qed.

(** After [clear_item_dirty] the item with the key is clean. *)
Lemma clear_item_dirty_clean c k :
  bst (items c) ->
  match walk_found (items (clear_item_dirty c k)) k with
  | Some it => item_is_dirty it = false
  | None => walk_found (items c) k = None
  end.
Proof.
  intros B. unfold clear_item_dirty.
  destruct (walk_found (items c) k) as [it |] eqn:Ef.
  2: { now rewrite Ef. }
  destruct (item_is_dirty it) eqn:Ed; cbn [negb].
  2: { now rewrite Ef. }
  cbn [items set_items update_dirty_item_counts set_lru].
  set (f := fun i => set_dirty i (Z.land (dirty i) (Z.lnot ITEM_DIRTY))).
  set (t' := fst (store_item (items c) k f true)).
  assert (B' : bst t') by (apply store_item_bst; auto).
  assert (Hc : contents t' = map (at_key k mark_clean) (contents (items c)))
    by (apply store_item_contents; [intros i; apply strip_clear | assumption]).
  destruct (walk_found t' k) as [it' |] eqn:Ef'.
  - pose proof (found_in_contents _ _ _ Ef') as Hin.
    rewrite Hc in Hin. apply in_map_iff in Hin.
    destruct Hin as (c0 & Ec0 & _).
    pose proof (walk_found_key _ _ _ Ef') as Ek'.
    unfold at_key in Ec0. destruct (Z.eqb_spec (key c0) k) as [E | N].
    + rewrite <- item_is_dirty_strip, <- Ec0. reflexivity.
    + exfalso. apply N. rewrite Ec0. now rewrite strip_key.
  - exfalso. eapply (bst_absent _ _ B' Ef').
    rewrite <- keys_contents, Hc, map_map.
    pose proof (found_in_contents _ _ _ Ef) as Hin.
    apply in_map_iff. exists (strip it). split; [| assumption].
    pose proof (walk_found_key _ _ _ Ef) as Ek.
    rewrite at_key_eq by (now rewrite strip_key). exact Ek.
Qed.

Lemma good_erase_tree c k :
  good I c ->
  match walk_found (items c) k with
  | Some it => item_is_dirty it = false
  | None => True
  end ->
  good I (set_items c (fst (rb_erase_augmented (items c) k))).
Proof.
  intros ((B & L) & H) Hclean.
  destruct (rb_erase_augmented_spec (items c) k B) as (Hc & B').
  split; [split |]; cbn [items set_items].
  - assumption.
  - apply len_ok_contents. rewrite Hc. apply Forall_without.
    now apply len_ok_contents.
  - unfold holds; cbn [items set_items nr_dirty_items dirty_val_bytes].
    rewrite Hc.
    destruct (walk_found (items c) k) as [it |] eqn:Ef.
    + replace k with (key (strip it))
        by (rewrite strip_key; eapply walk_found_key; eauto).
      apply (inv_without _ HI); auto using contents_nodup.
      * eapply found_in_contents; eauto.
      * now rewrite item_is_dirty_strip.
    + rewrite without_other; [assumption |].
      now apply absent_in_contents.
Qed.

Lemma good_unlink c k : good I c -> good I (unlink_item c k).
Proof.
  intros G. unfold unlink_item.
  pose proof (good_clear c k G) as G1.
  assert (G2 : good I (set_items (clear_item_dirty c k)
                       (fst (rb_erase_augmented
                               (items (clear_item_dirty c k)) k)))).
  { apply good_erase_tree; [assumption |].
    pose proof (clear_item_dirty_clean c k (proj1 (proj1 G))) as Hcl.
    destruct (walk_found (items (clear_item_dirty c k)) k); auto. }
  destruct (on_list _ _); [apply good_set_lru |]; assumption.
Qed.

Lemma good_erase c k : good I c -> good I (erase_item c k).
Proof. apply good_unlink. Qed.

Lemma good_store c k f g :
  (forall i, key (f i) = key i) ->
  (forall i, strip (f i) = g (strip i)) ->
  (forall i, len_ok i -> len_ok (g i)) ->
  good I c ->
  (forall it, walk_found (items c) k = Some it ->
     I (map (at_key (key (strip it)) g) (contents (items c)))
       (nr_dirty_items c) (dirty_val_bytes c)) ->
  good I (set_items c (fst (store_item (items c) k f false))).
Proof.
  intros Hk Hs Hl (W & H) Hstep. split.
  - now apply (store_wf c k f g).
  - unfold holds; cbn [items set_items nr_dirty_items dirty_val_bytes].
    destruct W as (B & L).
    rewrite (store_item_contents k f g Hs) by assumption.
    destruct (walk_found (items c) k) as [it |] eqn:Ef.
    + specialize (Hstep it eq_refl).
      rewrite strip_key, (walk_found_key _ _ _ Ef) in Hstep. exact Hstep.
    + rewrite at_key_other; [assumption |]. now apply absent_in_contents.
Qed.

Lemma good_persist c k :
  good I c ->
  good I (set_items c (fst (store_item (items c) k
                            (fun i => set_persistent i true) false))).
Proof.
  intros G. apply (good_store c k _ make_persistent); auto.
  intros it Ef. destruct G as ((B & L) & H).
  apply (inv_persist _ HI); auto using contents_nodup.
  eapply found_in_contents; eauto.
Qed.

Lemma good_delete c k : good I c -> good I (delete_item c k).
Proof.
  intros G. unfold delete_item.
  destruct (walk_found (items c) k) as [it |] eqn:Ef; [| assumption].
  destruct (persistent it) eqn:Ep; cbn [negb]; [| now apply good_erase].
  apply good_mark.
  pose proof (good_clear c k G) as G1.
  destruct (clear_item_dirty_found c k it Ef) as (it1 & Ef1 & Es1 & Ed1).
  apply (good_store (clear_item_dirty c k) k _ make_deletion); auto.
  - intros i _. unfold len_ok, make_deletion, INT_MAX; cbn. lia.
  - intros it2 Ef2. rewrite Ef1 in Ef2. injection Ef2 as <-.
    destruct G1 as ((B1 & L1) & H1).
    apply (inv_deletion _ HI); auto using contents_nodup.
    + eapply found_in_contents; eauto.
    + now rewrite item_is_dirty_strip.
    + rewrite Es1. exact Ep.
Qed.

Lemma good_insert_loop fuel :
  forall c ins lo cp ret c' ins',
    good I c -> enters ins ->
    insert_item_loop fuel c ins lo cp = Ret (ret, c', ins') ->
    good I c'.
Proof.
  induction fuel as [| fuel IH]; intros c ins lo cp ret c' ins' G E;
    cbn [insert_item_loop]; [discriminate |].
  destruct (insert_descend (items c) ins) as [t | x t] eqn:Ed.
  - destruct (item_is_dirty ins) eqn:Edirty; [discriminate |].
    intros [= <- <- <-].
    destruct (insert_descend_linked _ _ _ Ed) as (_ & Hp & Hb & _).
    destruct G as ((B & L) & H). destruct E as (El & Edel).
    split; [split |]; cbn [items set_items set_lru].
    + auto.
    + apply len_ok_contents.
      apply (Permutation_Forall (Permutation_sym Hp)).
      constructor; [exact El | now apply len_ok_contents].
    + unfold holds; cbn [items set_items set_lru nr_dirty_items
                          dirty_val_bytes].
      apply (inv_perm _ HI _ _ _ _ (Permutation_sym Hp)).
      apply (inv_add _ HI); auto.
      now rewrite item_is_dirty_strip.
  - destruct (insert_descend_present _ _ _ _ Ed) as (_ & _ & Hc & Hb & _).
    assert (G1 : good I (set_items c t)).
    { destruct G as ((B & L) & H). split; [split |]; cbn [items set_items].
      - auto.
      - apply len_ok_contents. rewrite Hc. now apply len_ok_contents.
      - unfold holds; cbn [items set_items nr_dirty_items dirty_val_bytes].
        now rewrite Hc. }
    destruct (cp || (negb (deletion x) && negb lo)).
    + intros [= <- <- <-]. exact G1.
    + apply IH; [now apply good_erase |].
      destruct (persistent x); [| assumption].
      destruct E; split; assumption.
Qed.

Lemma good_insert c ins lo cp ret c' ins' :
  good I c -> enters ins ->
  insert_item c ins lo cp = Ret (ret, c', ins') -> good I c'.
Proof. apply good_insert_loop. Qed.

End Preservation.

(** ** Every call keeps a well-formed cache and its invariants *)

Section Operations.

Variable I : list cached_item -> Z -> Z -> Prop.
Hypothesis HI : list_invariant I.
Variable SCOUTFS_MAX_VAL_SIZE : Z.
Hypothesis max_val_fits : SCOUTFS_MAX_VAL_SIZE <= INT_MAX.

Lemma to_uint_len x : 0 <= x <= INT_MAX -> to_uint x = x.
Proof. unfold to_uint, INT_MAX. intros H. apply Z.mod_small. lia. Qed.

Lemma alloc_item_enters k v :
  vec_ok v -> invalid_key_val SCOUTFS_MAX_VAL_SIZE k v = false ->
  enters (alloc_item k v).
Proof.
  unfold vec_ok, invalid_key_val, alloc_item, enters, len_ok.
  destruct v as [kv |]; cbn; [| unfold INT_MAX; lia].
  intros Hp Hv. rewrite Z.gtb_ltb in Hv. apply Z.ltb_ge in Hv.
  rewrite to_uint_len by lia. split; [lia | reflexivity].
Qed.

Lemma enters_set_persistent it b : enters it -> enters (set_persistent it b).
Proof. intros H; exact H. Qed.

Lemma good_update_locked k v c ret c' u :
  vec_ok v -> invalid_key_val SCOUTFS_MAX_VAL_SIZE k v = false ->
  good I c -> update_locked k v c = Ret (ret, c', u) -> good I c'.
Proof.
  intros Hv Hinv G. unfold update_locked, find_item.
  destruct (walk_found (items c) k) as [it |] eqn:Ef.
  2: { destruct (range_cached c k); intros [= <- <- <-]; exact G. }
  destruct (deletion it) eqn:Edel.
  { destruct (range_cached c k); intros [= <- <- <-]; exact G. }
  intros [= <- <- <-]. apply good_mark; [assumption |].
  pose proof (good_clear I HI c k G) as G1.
  destruct (clear_item_dirty_found c k it Ef) as (it1 & Ef1 & Es1 & Ed1).
  pose proof (alloc_item_enters k v Hv Hinv) as (Hlen & _).
  set (up_val := match v with
                 | Some kv => Some (firstn (Z.to_nat (iov_len kv)) (iov_base kv))
                 | None => None
                 end).
  set (len := match v with Some kv => to_uint (iov_len kv) | None => 0 end).
  assert (Hlen' : 0 <= len <= INT_MAX)
    by (unfold len_ok in Hlen; destruct v; exact Hlen).
  apply (good_store I (clear_item_dirty c k) k _
           (fun i => set_val i up_val len)); auto.
  - intros it2 Ef2. rewrite Ef1 in Ef2. injection Ef2 as <-.
    destruct G1 as ((B1 & L1) & H1).
    apply (inv_val _ HI); auto using contents_nodup.
    + eapply found_in_contents; eauto.
    + now rewrite item_is_dirty_strip.
    + rewrite Es1. exact Edel.
Qed.

Lemma good_update_dirty c k v c' :
  good I c -> scoutfs_item_update_dirty c k v = Ret c' -> good I c'.
Proof.
  intros G. unfold scoutfs_item_update_dirty, find_item.
  destruct (walk_found (items c) k) as [it |] eqn:Ef; [| discriminate].
  destruct (deletion it) eqn:Edel; [discriminate |].
  set (new_len := match v with
                  | Some kv => to_uint (iov_len kv)
                  | None => 0
                  end).
  destruct (item_is_dirty it) eqn:Ed; cbn [negb orb]; [| discriminate].
  destruct (Z.gtb_spec new_len (val_len it)) as [| Hle]; [discriminate |].
  intros [= <-].
  assert (Hnn : 0 <= new_len).
  { unfold new_len. destruct v; [| lia]. unfold to_uint.
    apply Z.mod_pos_bound. lia. }
  pose proof (found_len_ok c k it (proj1 G) Ef) as Hlen.
  unfold len_ok in Hlen.
  set (bytes := match v with
                | Some kv => option_map _ (val it)
                | None => val it
                end).
  destruct G as (W & H). split.
  - apply (store_wf c k _ (fun i => set_val i bytes new_len) false); auto.
    intros i _. unfold len_ok; cbn. lia.
  - unfold holds; cbn [items set_items nr_dirty_items dirty_val_bytes
                        update_dirty_item_counts ranges lru_list lru_nr].
    destruct W as (B & L).
    rewrite (store_item_contents k _ (fun i => set_val i bytes new_len))
      by auto.
    rewrite to_int_small by (unfold INT_MAX in *; lia).
    change (to_int 0) with 0. rewrite Z.add_0_r.
    replace k with (key (strip it))
      by (rewrite strip_key; eapply walk_found_key; eauto).
    change (val_len it) with (val_len (strip it)).
    apply (inv_val_dirty _ HI); auto using contents_nodup.
    + eapply found_in_contents; eauto.
    + now rewrite item_is_dirty_strip.
Qed.

Lemma fill_batch_enters pairs acc :
  pairs_ok pairs -> Forall enters acc ->
  Forall enters
    (fold_left
       (fun l kv => snd (scoutfs_item_add_batch SCOUTFS_MAX_VAL_SIZE l (fst kv)
                                                (snd kv) true))
       pairs acc).
Proof.
  revert acc. induction pairs as [| [k v] pairs IH]; intros acc Hp Ha;
    cbn [fold_left]; [assumption |].
  inversion_clear Hp as [| ? ? Hv Hrest]. apply IH; [assumption |].
  unfold scoutfs_item_add_batch; cbn [fst snd].
  destruct (invalid_key_val SCOUTFS_MAX_VAL_SIZE k v) eqn:Einv; cbn [snd];
    [assumption |].
  apply Forall_app. split; [assumption |].
  constructor; [| constructor]. now apply alloc_item_enters.
Qed.

Lemma good_insert_batch_items batch :
  forall c c', Forall enters batch -> good I c ->
               insert_batch_items c batch = Ret c' -> good I c'.
Proof.
  induction batch as [| it rest IH]; intros c c' Hb G;
    cbn [insert_batch_items].
  - intros [= <-]; assumption.
  - inversion_clear Hb as [| ? ? Hit Hrest].
    destruct (insert_item c (set_persistent it true) false true)
      as [[[ret c1] ins1] | |] eqn:Ei; try discriminate.
    apply IH; [assumption |].
    exact (good_insert I HI _ _ _ _ _ _ _ G
             (enters_set_persistent it true Hit) Ei).
Qed.

Lemma good_insert_batch c batch s e mem ret c' :
  Forall enters batch -> good I c ->
  scoutfs_item_insert_batch c batch s e mem = Ret (ret, c') -> good I c'.
Proof.
  intros Hb G. unfold scoutfs_item_insert_batch.
  destruct (_ >? 0); [intros [= <- <-]; assumption |].
  destruct mem; cbn [negb]; [| intros [= <- <-]; assumption].
  destruct (insert_range (ranges c) (mk_range s e)) as [t | |];
    try discriminate.
  destruct (insert_batch_items (set_ranges c t) batch) as [c1 | |] eqn:Eb;
    try discriminate.
  intros [= <- <-].
  eapply good_insert_batch_items; [eassumption | | eassumption].
  exact G.
Qed.

Lemma good_read_items c f ret c' :
  fill_ok f -> good I c ->
  scoutfs_manifest_read_items SCOUTFS_MAX_VAL_SIZE c f = Ret (ret, c') ->
  good I c'.
Proof.
  intros Hf G. unfold scoutfs_manifest_read_items.
  destruct (fill_range f) as [[s e] |]; [| intros [= <- <-]; assumption].
  destruct (scoutfs_item_insert_batch _ _ _ _ _) as [[r c1] | |] eqn:Eb;
    try discriminate.
  intros [= <- <-].
  eapply good_insert_batch; [| eassumption | eassumption].
  apply fill_batch_enters; [assumption | constructor].
Qed.

Lemma good_read_through (A : Type)
    (body : item_cache -> outcome (Z * item_cache * A)) :
  (forall c r c1 a, good I c -> body c = Ret (r, c1, a) -> good I c1) ->
  forall fills c ret c' a,
    Forall fill_ok fills -> good I c ->
    read_through SCOUTFS_MAX_VAL_SIZE body c fills = Ret (ret, c', a) ->
    good I c'.
Proof.
  intros Hbody fills.
  induction fills as [| f fills IH]; intros c ret c' a Hf G;
    cbn [read_through];
    destruct (body c) as [[[r c1] a1] | |] eqn:Eb; try discriminate;
    pose proof (Hbody _ _ _ _ G Eb) as G1;
    destruct (r =? - ENODATA); try discriminate;
    try (intros [= <- <- <-]; assumption).
  inversion_clear Hf as [| ? ? Hf1 Hrest].
  destruct (scoutfs_manifest_read_items _ c1 f) as [[r2 c2] | |] eqn:Er;
    try discriminate.
  pose proof (good_read_items _ _ _ _ Hf1 G1 Er) as G2.
  destruct (r2 =? 0); [now apply IH | intros [= <- <- <-]; assumption].
Qed.

Lemma good_item_referenced c it : good I c -> good I (item_referenced c it).
Proof. intros G. unfold item_referenced. destruct (_ =? _); exact G. Qed.

Lemma good_lookup_locked k v c ret c' out :
  good I c -> lookup_locked k v c = Ret (ret, c', out) -> good I c'.
Proof.
  intros G. unfold lookup_locked.
  destruct (find_item (items c) k) as [it |].
  - destruct v as [kv |].
    + destruct (copy_item_val (Some kv) it) as [r o].
      intros [= <- <- <-]. now apply good_item_referenced.
    + intros [= <- <- <-]. now apply good_item_referenced.
  - destruct (range_cached c k); intros [= <- <- <-]; exact G.
Qed.

Lemma good_next_loop turns :
  forall c k pos last v fills ret c' k' out,
    Forall fill_ok fills -> good I c ->
    next_loop SCOUTFS_MAX_VAL_SIZE turns c k pos last v fills
    = Ret (ret, c', k', out) ->
    good I c'.
Proof.
  induction turns as [| turns IH]; intros c k pos last v fills ret c' k' out
    Hf G; cbn [next_loop]; [discriminate |].
  destruct (check_range c pos) as [[cached rs] range_end].
  destruct cached; cbn [negb].
  - destruct (item_for_next (items c) pos range_end last) as [it |].
    + destruct v as [kv |].
      * destruct (copy_item_val (Some kv) it) as [r o].
        intros [= <- <- <- <-]. now apply good_item_referenced.
      * intros [= <- <- <- <-]. exact G.
    + destruct (_ <? 0); [now apply IH |].
      intros [= <- <- <- <-]. exact G.
  - destruct fills as [| f fills]; [discriminate |].
    inversion_clear Hf as [| ? ? Hf1 Hrest].
    destruct (scoutfs_manifest_read_items _ c f) as [[r2 c2] | |] eqn:Er;
      try discriminate.
    pose proof (good_read_items _ _ _ _ Hf1 G Er) as G2.
    destruct (r2 =? 0); [now apply IH |].
    intros [= <- <- <- <-]. exact G2.
Qed.

Lemma good_prev_loop turns :
  forall c k pos first v fills ret c' k' out,
    Forall fill_ok fills -> good I c ->
    prev_loop SCOUTFS_MAX_VAL_SIZE turns c k pos first v fills
    = Ret (ret, c', k', out) ->
    good I c'.
Proof.
  induction turns as [| turns IH]; intros c k pos first v fills ret c' k' out
    Hf G; cbn [prev_loop]; [discriminate |].
  destruct (check_range c pos) as [[cached range_start] re].
  destruct cached; cbn [negb].
  - destruct (item_for_prev (items c) pos range_start first) as [it |].
    + destruct v as [kv |].
      * destruct (copy_item_val (Some kv) it) as [r o].
        intros [= <- <- <- <-]. now apply good_item_referenced.
      * intros [= <- <- <- <-]. exact G.
    + destruct (_ >? 0); [now apply IH |].
      intros [= <- <- <- <-]. exact G.
  - destruct fills as [| f fills]; [discriminate |].
    inversion_clear Hf as [| ? ? Hf1 Hrest].
    destruct (scoutfs_manifest_read_items _ c f) as [[r2 c2] | |] eqn:Er;
      try discriminate.
    pose proof (good_read_items _ _ _ _ Hf1 G Er) as G2.
    destruct (r2 =? 0); [now apply IH |].
    intros [= <- <- <- <-]. exact G2.
Qed.

Lemma good_create_locked item c ret c' u :
  enters item -> good I c ->
  create_locked item c = Ret (ret, c', u) -> good I c'.
Proof.
  intros He G. unfold create_locked.
  destruct (range_cached c (key item)); cbn [negb];
    [| intros [= <- <- <-]; exact G].
  destruct (insert_item c item false false) as [[[r c1] ins1] | |] eqn:Ei;
    try discriminate.
  pose proof (good_insert I HI _ _ _ _ _ _ _ G He Ei) as G1.
  destruct (r =? 0); intros [= <- <- <-]; [now apply good_mark | exact G1].
Qed.

Lemma good_dirty_locked k c ret c' u :
  good I c -> dirty_locked k c = Ret (ret, c', u) -> good I c'.
Proof.
  intros G. unfold dirty_locked.
  destruct (find_item (items c) k).
  - intros [= <- <- <-]. now apply good_mark.
  - destruct (range_cached c k); intros [= <- <- <-]; exact G.
Qed.

Lemma good_delete_locked k c ret c' u :
  good I c -> delete_locked k c = Ret (ret, c', u) -> good I c'.
Proof.
  intros G. unfold delete_locked.
  destruct (find_item (items c) k).
  - intros [= <- <- <-]. now apply good_delete.
  - destruct (range_cached c k); intros [= <- <- <-]; exact G.
Qed.

Lemma enters_fresh k b : enters (set_persistent (alloc_item k None) b).
Proof. split; [unfold len_ok, INT_MAX; cbn; lia | reflexivity]. Qed.

Lemma good_delete_save_locked k saved c ret c' out :
  good I c -> delete_save_locked k saved c = Ret (ret, c', out) -> good I c'.
Proof.
  intros G. unfold delete_save_locked.
  destruct (find_item (items c) k) as [it |].
  2: { destruct (range_cached c k); intros [= <- <- <-]; exact G. }
  match goal with
  | |- context [insert_item ?c1 ?del false false] =>
      destruct (insert_item c1 del false false) as [[[r c2] ins2] | |] eqn:Ei;
        try discriminate;
        assert (G2 : good I c2)
          by (eapply (good_insert I HI); [| | exact Ei];
              [now apply good_unlink | apply enters_fresh])
  end.
  destruct (r =? 0); [| discriminate].
  intros [= <- <- <-]. now apply good_delete.
Qed.

Lemma good_restore_items saved :
  forall c c', Forall enters saved -> good I c ->
               restore_items c saved = Ret c' -> good I c'.
Proof.
  induction saved as [| it rest IH]; intros c c' Hs G; cbn [restore_items].
  - intros [= <-]; exact G.
  - inversion_clear Hs as [| ? ? Hit Hrest].
    set (item := set_dirty it (Z.land (dirty it) (Z.lnot ITEM_DIRTY))).
    set (c1 := match find_item (items c) (key item) with
               | Some _ => erase_item c (key item)
               | None => c
               end).
    assert (G1 : good I c1).
    { unfold c1. destruct (find_item _ _); [now apply good_erase | exact G]. }
    destruct (insert_item c1 item false false) as [[[r c2] ins2] | |] eqn:Ei;
      try discriminate.
    assert (G2 : good I c2)
      by exact (good_insert I HI c1 item _ _ _ _ _ G1 Hit Ei).
    apply IH; [assumption |].
    destruct ((r =? 0) && item_is_dirty it); [now apply good_mark | exact G2].
Qed.

Lemma good_dirty_seg_loop turns :
  forall c seg item c' seg',
    good I c -> dirty_seg_loop turns c seg item = Ret (c', seg') -> good I c'.
Proof.
  induction turns as [| turns IH]; intros c seg item c' seg' G;
    cbn [dirty_seg_loop]; destruct item as [it |];
    try discriminate; try (intros [= <- <-]; exact G).
  destruct (scoutfs_seg_append_item _ _ _ _) as [seg1 |]; [| discriminate].
  apply IH.
  assert (G2 : good I
                 (set_items (clear_item_dirty c (key it))
                    (fst (store_item (items (clear_item_dirty c (key it)))
                            (key it) (fun i => set_persistent i true) false))))
    by (apply good_persist; [assumption | now apply good_clear]).
  destruct (deletion it); [now apply good_erase | exact G2].
Qed.

Lemma good_invalidate_items turns :
  forall c item e count c' count',
    good I c -> invalidate_items turns c item e count = (c', count') ->
    good I c'.
Proof.
  induction turns as [| turns IH]; intros c item e count c' count' G;
    cbn [invalidate_items]; destruct item as [it |];
    try (intros [= <- <-]; exact G).
  destruct (_ <=? 0); [| intros [= <- <-]; exact G].
  apply IH. now apply good_erase.
Qed.

Lemma good_shrink_erase turns :
  forall c item last nr c' nr',
    good I c -> shrink_erase turns c item last nr = (c', nr') -> good I c'.
Proof.
  induction turns as [| turns IH]; intros c item last nr c' nr' G;
    cbn [shrink_erase]; destruct item as [it |];
    try (intros [= <- <-]; exact G).
  apply IH. now apply good_erase.
Qed.

Lemma good_shrink_around c rng item ret c' :
  good I c -> shrink_around c rng item = Ret (ret, c') -> good I c'.
Proof.
  intros G. unfold shrink_around.
  destruct (shrink_boundary (items c) item (start rng) false) as [first prev].
  destruct (shrink_boundary (items c) item (end_ rng) true) as [last next].
  destruct first as [first |]; [| intros [= <- <-]; exact G].
  destruct last as [last |]; [| intros [= <- <-]; exact G].
  destruct (is_some next && is_some prev && (key first =? key last));
    [intros [= <- <-]; exact G |].
  match goal with
  | |- context [bind ?m _] =>
      assert (Hm : forall c3 la nr, m = Ret (c3, la, nr) -> good I c3)
  end.
  { intros c3 la nr.
    destruct (is_some next && is_some prev).
    - destruct (insert_range _ _) as [t | |]; cbn [bind]; try discriminate.
      intros [= <- <- <-]. apply good_set_ranges. apply good_unlink; auto.
      destruct (is_some next && negb (is_some prev)), (is_some prev); exact G.
    - intros [= <- <- <-].
      destruct (is_some next && negb (is_some prev)), (is_some prev); exact G. }
  match goal with
  | |- context [bind ?m _] => destruct m as [[[c3 la] nr] | |]
  end; cbn [bind]; try discriminate.
  specialize (Hm _ _ _ eq_refl).
  match goal with
  | |- context [shrink_erase ?n ?c4 ?f ?l ?x] =>
      destruct (shrink_erase n c4 f l x) as [c5 nr5] eqn:Ee;
        assert (G5 : good I c5)
          by (eapply good_shrink_erase; [| exact Ee];
              destruct (negb (is_some prev) && negb (is_some next)); exact Hm)
  end.
  intros [= <- <-]. exact G5.
Qed.

Lemma good_lru_shrink_loop turns :
  forall c nr first_moved c',
    good I c -> lru_shrink_loop turns c nr first_moved = Ret c' -> good I c'.
Proof.
  induction turns as [| turns IH]; intros c nr first_moved c' G;
    cbn [lru_shrink_loop]; [discriminate |].
  destruct (nr =? 0); [intros [= <-]; exact G |].
  destruct (lru_list c) as [| k rest]; [intros [= <-]; exact G |].
  destruct (walk_found (items c) k) as [it |]; [| discriminate].
  destruct (item_is_dirty it); [discriminate |].
  destruct (fst (fst (walk_ranges (ranges c) k))) as [rng |].
  2: { apply IH. now apply good_erase. }
  destruct (shrink_around c rng it) as [[ret c1] | |] eqn:Es; cbn [bind];
    try discriminate.
  pose proof (good_shrink_around _ _ _ _ _ G Es) as G1.
  destruct (ret =? 0); [| now apply IH].
  destruct (match first_moved with Some m => m =? k | None => false end);
    [intros [= <-]; exact G1 | apply IH; exact G1].
Qed.

(** The main statement: a call that returns leaves a well-formed cache
    on which the invariant holds. *)
Lemma run_op_good op c c' :
  op_ok op -> good I c ->
  run_op SCOUTFS_MAX_VAL_SIZE c op = Ret c' -> good I c'.
Proof.
  intros Hop G.
  destruct op; cbn [run_op op_ok] in *.
  - (* lookup *)
    unfold scoutfs_item_lookup.
    destruct (negb _); cbn [cache_of]; [intros [= <-]; exact G |].
    destruct (read_through _ _ _ _) as [[[r c1] a] | |] eqn:E;
      cbn [cache_of]; try discriminate.
    intros [= <-]; cbn [fst snd].
    eapply (good_read_through _ (lookup_locked k v)); eauto.
    intros; eapply good_lookup_locked; eauto.
  - (* next *)
    unfold scoutfs_item_next.
    destruct (_ >? 0); cbn [cache_of]; [intros [= <-]; exact G |].
    destruct (negb _); cbn [cache_of]; [intros [= <-]; exact G |].
    destruct (next_loop _ _ _ _ _ _ _ _) as [[[[r c1] k1] a] | |] eqn:E;
      cbn [cache_of]; try discriminate.
    intros [= <-]; cbn [fst snd]. eapply good_next_loop; eauto.
  - (* prev *)
    unfold scoutfs_item_prev.
    destruct (_ <? 0); cbn [cache_of]; [intros [= <-]; exact G |].
    destruct (negb _); cbn [cache_of]; [intros [= <-]; exact G |].
    destruct (prev_loop _ _ _ _ _ _ _ _) as [[[[r c1] k1] a] | |] eqn:E;
      cbn [cache_of]; try discriminate.
    intros [= <-]; cbn [fst snd]. eapply good_prev_loop; eauto.
  - (* create *)
    destruct Hop as (Hv & Hf). unfold scoutfs_item_create.
    destruct (invalid_key_val _ k v) eqn:Einv; cbn [orb cache_of];
      [intros [= <-]; exact G |].
    destruct (negb (lock_coverage _ _ _)); cbn [cache_of];
      [intros [= <-]; exact G |].
    destruct mem; cbn [negb cache_of]; [| intros [= <-]; exact G].
    destruct (read_through _ _ _ _) as [[[r c1] a] | |] eqn:E;
      cbn [cache_of]; try discriminate.
    intros [= <-]; cbn [fst snd].
    eapply (good_read_through _ (create_locked (alloc_item k v))); eauto.
    intros; eapply good_create_locked; eauto.
    now apply alloc_item_enters.
  - (* create_force *)
    unfold scoutfs_item_create_force.
    destruct (invalid_key_val _ k v) eqn:Einv; cbn [cache_of];
      [intros [= <-]; exact G |].
    destruct (negb _); cbn [cache_of]; [intros [= <-]; exact G |].
    destruct mem; cbn [negb cache_of]; [| intros [= <-]; exact G].
    destruct (insert_item _ _ _ _) as [[[r c1] i1] | |] eqn:Ei;
      cbn [cache_of]; try discriminate.
    assert (G1 : good I c1).
    { eapply (good_insert I HI); [exact G | | exact Ei].
      apply enters_set_persistent. now apply alloc_item_enters. }
    destruct (r =? 0); cbn [cache_of]; [| discriminate].
    intros [= <-]; cbn [snd]. now apply good_mark.
  - (* insert_batch *)
    destruct (scoutfs_item_insert_batch _ _ _ _ _) as [[r c1] | |] eqn:E;
      cbn [cache_of]; try discriminate.
    intros [= <-]; cbn [snd].
    eapply good_insert_batch; [| exact G | exact E].
    apply fill_batch_enters; [exact Hop | constructor].
  - (* dirty *)
    unfold scoutfs_item_dirty.
    destruct (negb _); cbn [cache_of]; [intros [= <-]; exact G |].
    destruct (read_through _ _ _ _) as [[[r c1] a] | |] eqn:E;
      cbn [cache_of]; try discriminate.
    intros [= <-]; cbn [fst snd].
    eapply (good_read_through _ (dirty_locked k)); eauto.
    intros; eapply good_dirty_locked; eauto.
  - (* update *)
    destruct Hop as (Hv & Hf). unfold scoutfs_item_update.
    destruct (invalid_key_val _ k v) eqn:Einv; cbn [cache_of];
      [intros [= <-]; exact G |].
    destruct (negb _); cbn [cache_of]; [intros [= <-]; exact G |].
    destruct (match v with Some _ => negb mem | None => false end);
      cbn [cache_of]; [intros [= <-]; exact G |].
    destruct (read_through _ _ _ _) as [[[r c1] a] | |] eqn:E;
      cbn [cache_of]; try discriminate.
    intros [= <-]; cbn [fst snd].
    eapply (good_read_through _ (update_locked k v)); eauto.
    intros; eapply good_update_locked; eauto.
  - (* delete *)
    unfold scoutfs_item_delete.
    destruct (negb _); cbn [cache_of]; [intros [= <-]; exact G |].
    destruct (read_through _ _ _ _) as [[[r c1] a] | |] eqn:E;
      cbn [cache_of]; try discriminate.
    intros [= <-]; cbn [fst snd].
    eapply (good_read_through _ (delete_locked k)); eauto.
    intros; eapply good_delete_locked; eauto.
  - (* delete_force *)
    unfold scoutfs_item_delete_force.
    destruct (negb _); cbn [cache_of]; [intros [= <-]; exact G |].
    destruct mem; cbn [negb cache_of]; [| intros [= <-]; exact G].
    destruct (insert_item _ _ _ _) as [[[r c1] i1] | |] eqn:Ei;
      cbn [cache_of]; try discriminate.
    assert (G1 : good I c1)
      by (eapply (good_insert I HI); [exact G | apply enters_fresh | exact Ei]).
    destruct (r =? 0); cbn [cache_of]; [| discriminate].
    intros [= <-]; cbn [snd]. apply good_delete; auto. now apply good_mark.
  - (* delete_save *)
    unfold scoutfs_item_delete_save.
    destruct (negb _); cbn [cache_of]; [intros [= <-]; exact G |].
    destruct mem; cbn [negb cache_of]; [| intros [= <-]; exact G].
    destruct (read_through _ _ _ _) as [[[r c1] a] | |] eqn:E;
      cbn [cache_of]; try discriminate.
    intros [= <-]; cbn [fst snd].
    eapply (good_read_through _ (delete_save_locked k saved)); eauto.
    intros; eapply good_delete_save_locked; eauto.
  - (* restore *)
    unfold scoutfs_item_restore.
    destruct saved as [| s0 saved]; cbn [cache_of]; [intros [= <-]; exact G |].
    destruct (forallb _ _); cbn [cache_of]; [| intros [= <-]; exact G].
    destruct (restore_items c (s0 :: saved)) as [c1 | |] eqn:E;
      cbn [cache_of]; try discriminate.
    intros [= <-]; cbn [snd]. eapply good_restore_items; eauto.
  - (* delete_dirty *)
    intros [= <-]. unfold scoutfs_item_delete_dirty.
    destruct (find_item _ _); [now apply good_delete | exact G].
  - (* update_dirty *)
    apply good_update_dirty; exact G.
  - (* dirty_seg *)
    unfold scoutfs_item_dirty_seg.
    destruct (dirty_seg_loop _ _ _ _) as [[c1 seg1] | |] eqn:E;
      cbn [cache_of]; try discriminate.
    intros [= <-]; cbn [fst snd]. eapply good_dirty_seg_loop; eauto.
  - (* invalidate *)
    unfold scoutfs_item_invalidate.
    destruct mem; cbn [negb cache_of]; [| intros [= <-]; exact G].
    destruct (invalidate_items _ _ _ _ _) as [c1 count] eqn:E.
    pose proof (good_invalidate_items _ _ _ _ _ _ _ G E) as G1.
    destruct (remove_range _ _) as [t | |]; cbn [cache_of]; try discriminate.
    intros [= <-]; cbn [snd]. now apply good_set_ranges.
  - (* shrink *)
    unfold item_lru_shrink.
    destruct (_ =? 0); cbn [cache_of]; [intros [= <-]; exact G |].
    destruct (lru_shrink_loop _ _ _ _) as [c1 | |] eqn:E; cbn [bind cache_of];
      try discriminate.
    pose proof (good_lru_shrink_loop _ _ _ _ _ G E) as G1.
    intros [= <-]; cbn [snd].
    destruct (items c1); [apply good_set_ranges |]; exact G1.
Qed.

End Operations.

(** ** The tombstone invariant is a [list_invariant] *)

Lemma key_unique (l : list cached_item) (a b : cached_item) :
  NoDup (map key l) -> In a l -> In b l -> key a = key b -> a = b.
Proof.
  induction l as [| x l IH]; cbn; [tauto |].
  intros N Ha Hb E. inversion_clear N as [| ? ? Hx Hl].
  destruct Ha as [<- | Ha], Hb as [<- | Hb]; auto.
  - exfalso. apply Hx. rewrite E. now apply in_map.
  - exfalso. apply Hx. rewrite <- E. now apply in_map.
Qed.

Lemma Forall_at_key_unique (Q : cached_item -> Prop) l c g :
  NoDup (map key l) -> In c l -> Q (g c) -> Forall Q l ->
  Forall Q (map (at_key (key c) g) l).
Proof.
  intros N Hc Hg F. rewrite Forall_map. rewrite Forall_forall in *.
  intros x Hx. unfold at_key. destruct (Z.eqb_spec (key x) (key c)) as [E |].
  - now rewrite (key_unique l x c N Hx Hc E).
  - now apply F.
Qed.

Lemma tombstone_list_invariant : list_invariant I_tombstone.
Proof.
  unfold I_tombstone. constructor.
  - intros l l' _ _ Hp. now apply Permutation_Forall.
  - intros l _ _ c _ _ _. apply Forall_at_key. intros x Hx; exact Hx.
  - intros l _ _ c _ _ _. apply Forall_at_key. intros x Hx; exact Hx.
  - intros l _ _ c _ _ _. apply Forall_without.
  - intros l _ _ c _ Hd F. constructor; [| assumption].
    intros E. congruence.
  - intros l _ _ c _ _. apply Forall_at_key.
    intros x Hx E. destruct (Hx E) as (_ & Hv & Hl). auto.
  - intros l _ _ c N Hin _ Hp. apply Forall_at_key_unique; auto.
    intros _. cbn. auto.
  - intros l _ _ c v len N Hin _ Hd. apply Forall_at_key_unique; auto.
    intros E. cbn in E. congruence.
  - intros l _ _ c v len N Hin _ Hd. apply Forall_at_key_unique; auto.
    intros E. cbn in E. congruence.
Qed.

Lemma tomb_ok_strip i : tomb_ok (strip i) <-> tomb_ok i.
Proof. reflexivity. Qed.

Lemma holds_tombstone c : holds I_tombstone c <-> tombstone_invariant c.
Proof. apply Forall_contents, tomb_ok_strip. Qed.

(** ** The dirty accounting is a [list_invariant] *)

Lemma dirty_count_total l : dirty_count l = total one_if_dirty l.
Proof.
  unfold dirty_count, one_if_dirty.
  induction l as [| c l IH]; [reflexivity |].
  cbn [filter total fold_right]. fold (total one_if_dirty l).
  unfold total in IH at 1. unfold one_if_dirty in IH. 
  destruct (item_is_dirty c); cbn [length]; unfold total, one_if_dirty; lia.
Qed.

Lemma dirty_bytes_total l : dirty_bytes l = total len_if_dirty l.
Proof.
  unfold dirty_bytes, len_if_dirty, total.
  induction l as [| c l IH]; [reflexivity |].
  cbn [filter fold_right].
  destruct (item_is_dirty c); cbn [map fold_right]; lia.
Qed.

Lemma total_app m l1 l2 : total m (l1 ++ l2) = total m l1 + total m l2.
Proof.
  unfold total. induction l1 as [| c l1 IH]; cbn; [reflexivity |]. lia.
Qed.

Lemma total_cons m c l : total m (c :: l) = m c + total m l.
Proof. reflexivity. Qed.

Lemma total_perm m l l' : Permutation l l' -> total m l = total m l'.
Proof.
  unfold total. induction 1; cbn; lia.
Qed.

Lemma total_at_key m l c g :
  NoDup (map key l) -> In c l ->
  total m (map (at_key (key c) g) l) = total m l - m c + m (g c).
Proof.
  unfold total.
  induction l as [| x l IH]; cbn [map fold_right In]; [tauto |].
  intros N Hin. inversion_clear N as [| ? ? Hx Hl].
  destruct Hin as [-> | Hin].
  - rewrite at_key_eq by reflexivity.
    rewrite at_key_other; [lia |].
    apply Forall_forall. intros y Hy E. apply Hx. now rewrite <- E.
  - rewrite at_key_ne.
    + rewrite IH by assumption. lia.
    + intros E. apply Hx. rewrite E. now apply in_map.
Qed.

Lemma total_without m l c :
  NoDup (map key l) -> In c l ->
  total m (without (key c) l) = total m l - m c.
Proof.
  unfold total, without.
  induction l as [| x l IH]; cbn [filter fold_right In map]; [tauto |].
  intros N Hin. inversion_clear N as [| ? ? Hx Hl].
  destruct Hin as [-> | Hin].
  - rewrite Z.eqb_refl. cbn [negb].
    fold (without (key c) l). rewrite without_other; [lia |].
    apply Forall_forall. intros y Hy E. apply Hx. now rewrite <- E.
  - destruct (Z.eqb_spec (key x) (key c)) as [E | Hne]; cbn [negb fold_right].
    + exfalso. apply Hx. rewrite E. now apply in_map.
    + rewrite IH by assumption. lia.
Qed.

Lemma drift_list_invariant D E : list_invariant (I_drift D E).
Proof.
  unfold I_drift. constructor.
  - intros l l' n b Hp. rewrite !dirty_count_total, !dirty_bytes_total.
    now rewrite (total_perm _ _ _ Hp), (total_perm _ _ _ Hp).
  - intros l n b c N Hin Hd (Hn & Hb).
    rewrite !dirty_count_total, !dirty_bytes_total in *.
    rewrite !total_at_key by assumption.
    unfold one_if_dirty, len_if_dirty in *.
    rewrite Hd. cbn. lia.
  - intros l n b c N Hin Hd (Hn & Hb).
    rewrite !dirty_count_total, !dirty_bytes_total in *.
    rewrite !total_at_key by assumption.
    unfold one_if_dirty, len_if_dirty in *.
    rewrite Hd. cbn. lia.
  - intros l n b c N Hin Hd (Hn & Hb).
    rewrite !dirty_count_total, !dirty_bytes_total in *.
    rewrite !total_without by assumption.
    unfold one_if_dirty, len_if_dirty in *. rewrite Hd. lia.
  - intros l n b c Hd _ (Hn & Hb).
    rewrite !dirty_count_total, !dirty_bytes_total in *.
    assert (E1 : one_if_dirty c = 0) by (unfold one_if_dirty; now rewrite Hd).
    assert (E2 : len_if_dirty c = 0) by (unfold len_if_dirty; now rewrite Hd).
    rewrite !total_cons, E1, E2. lia.
  - intros l n b c N Hin (Hn & Hb).
    rewrite !dirty_count_total, !dirty_bytes_total in *.
    rewrite !total_at_key by assumption.
    unfold one_if_dirty, len_if_dirty in *.
    change (item_is_dirty (make_persistent c)) with (item_is_dirty c).
    cbn [val_len make_persistent set_persistent]. lia.
  - intros l n b c N Hin Hd _ (Hn & Hb).
    rewrite !dirty_count_total, !dirty_bytes_total in *.
    rewrite !total_at_key by assumption.
    unfold one_if_dirty, len_if_dirty in *.
    change (item_is_dirty (make_deletion c)) with (item_is_dirty c).
    rewrite Hd. lia.
  - intros l n b c v len N Hin Hd _ (Hn & Hb).
    rewrite !dirty_count_total, !dirty_bytes_total in *.
    rewrite !total_at_key by assumption.
    unfold one_if_dirty, len_if_dirty in *.
    change (item_is_dirty (set_val c v len)) with (item_is_dirty c).
    rewrite Hd. lia.
  - intros l n b c v len N Hin Hd _ (Hn & Hb).
    rewrite !dirty_count_total, !dirty_bytes_total in *.
    rewrite !total_at_key by assumption.
    unfold one_if_dirty, len_if_dirty in *.
    change (item_is_dirty (set_val c v len)) with (item_is_dirty c).
    rewrite Hd. cbn [val_len set_val]. lia.
Qed.

Lemma accounting_list_invariant : list_invariant I_accounting.
Proof. apply drift_list_invariant. Qed.

Lemma total_contents m t :
  (forall i, m (strip i) = m i) ->
  total m (contents t) = total m (tree_items t).
Proof.
  intros Hm. unfold contents, total.
  induction (tree_items t) as [| c l IH]; cbn; [reflexivity |].
  now rewrite Hm, IH.
Qed.

Lemma holds_accounting c : holds I_accounting c <-> dirty_accounting c.
Proof.
  unfold holds, I_accounting, I_drift, dirty_accounting.
  rewrite !dirty_count_total, !dirty_bytes_total.
  rewrite !total_contents; [lia | |].
  - intros i. unfold len_if_dirty. now rewrite item_is_dirty_strip.
  - intros i. unfold one_if_dirty. now rewrite item_is_dirty_strip.
Qed.

(** ** C3 and C4 *)

(** C3.  Every cache operation preserves the tombstone invariant: in
    a well-formed cache where every item with [deletion] set is
    persistent and has no value ([val] null, [val_len] zero), any
    public call of item.c that returns leaves a well-formed cache
    where that still holds. *)
Theorem tombstone_invariant_preserved :
  forall (SCOUTFS_MAX_VAL_SIZE : Z) (op : cache_op) (c c' : item_cache),
    SCOUTFS_MAX_VAL_SIZE <= INT_MAX ->
    op_ok op ->
    cache_wf c ->
    tombstone_invariant c ->
    run_op SCOUTFS_MAX_VAL_SIZE c op = Ret c' ->
    cache_wf c' /\ tombstone_invariant c'.
Proof.
  intros M op c c' HM Hop W T R.
  destruct (run_op_good I_tombstone tombstone_list_invariant M HM op c c' Hop)
    as (W' & T'); auto.
  - split; [exact W | now apply holds_tombstone].
  - split; [exact W' | now apply holds_tombstone].
Qed.

(** C4.  Every cache operation preserves the dirty accounting: in a
    well-formed cache where [nr_dirty_items] is the number of items
    with the [ITEM_DIRTY] bit and [dirty_val_bytes] is the sum of their
    [val_len], any public call of item.c that returns leaves a
    well-formed cache where that still holds. *)
Theorem dirty_accounting_preserved :
  forall (SCOUTFS_MAX_VAL_SIZE : Z) (op : cache_op) (c c' : item_cache),
    SCOUTFS_MAX_VAL_SIZE <= INT_MAX ->
    op_ok op ->
    cache_wf c ->
    dirty_accounting c ->
    run_op SCOUTFS_MAX_VAL_SIZE c op = Ret c' ->
    cache_wf c' /\ dirty_accounting c'.
Proof.
  intros M op c c' HM Hop W A R.
  destruct (run_op_good I_accounting accounting_list_invariant M HM op c c' Hop)
    as (W' & A'); auto.
  - split; [exact W | now apply holds_accounting].
  - split; [exact W' | now apply holds_accounting].
Qed.

(** ** C8 *)

(** C8.  [scoutfs_item_next] called with a key past [last] returns
    -ENOENT at once: the cache it leaves is the cache it was given
    (items, ranges, lru and counters), the caller's key and value are
    untouched and no answer of the reader is consumed, whatever the
    lock is. *)
Theorem next_past_last_is_enoent :
  forall (SCOUTFS_MAX_VAL_SIZE : Z) (turns : nat) (c : item_cache)
         (k last : scoutfs_key) (v : option kvec) (lock : scoutfs_lock)
         (fills : list fill),
    last < k ->
    scoutfs_item_next SCOUTFS_MAX_VAL_SIZE turns c k last v lock fills
    = Ret (- ENOENT, c, k, v).
Proof.
  intros M turns c k last v lock fills Hlt. unfold scoutfs_item_next.
  key_cases (lock_end lock) last.
  - key_cases k (lock_end lock); try lia; reflexivity.
  - key_cases k last; try lia; reflexivity.
  - key_cases k last; try lia; reflexivity.
Qed.

(** ** Sizes, and the end of the restart loop of [insert_item] *)

Lemma propagate_step_size going l it r :
  tree_size (fst (propagate_step going l it r)) = tree_size (INode l it r).
Proof.
  destruct (propagate_step_shape going l it r) as (it' & -> & _). reflexivity.
Qed.

Lemma store_item_size t k f parents :
  tree_size (fst (store_item t k f parents)) = tree_size t.
Proof.
  induction t as [| l IHl x r IHr]; cbn [store_item]; [reflexivity |].
  destruct (_ <? 0).
  - destruct (store_item l k f parents) as [l' going]; cbn [fst] in *.
    rewrite propagate_step_size. cbn. now rewrite IHl.
  - destruct (_ >? 0); [| reflexivity].
    destruct (store_item r k f parents) as [r' going]; cbn [fst] in *.
    rewrite propagate_step_size. cbn. now rewrite IHr.
Qed.

Lemma erase_leftmost_size l :
  forall it r m t' going,
    erase_leftmost l it r = (m, t', going) ->
    S (tree_size t') = tree_size (INode l it r).
Proof.
  induction l as [| ll IHl lit lr _]; intros it r m t' going;
    cbn [erase_leftmost].
  - intros [= <- <- <-]. reflexivity.
  - destruct (erase_leftmost ll lit lr) as [[m0 l'] g0] eqn:E.
    pose proof (IHl _ _ _ _ _ E) as Hs.
    pose proof (propagate_step_size g0 l' it r) as Hp.
    destruct (propagate_step g0 l' it r) as [n g1]; cbn [fst] in Hp.
    intros [= <- <- <-]. rewrite Hp. cbn [tree_size] in *. lia.
Qed.

Lemma erase_node_size l it r :
  S (tree_size (fst (erase_node l it r))) = tree_size (INode l it r).
Proof.
  unfold erase_node.
  destruct l as [| ll lit lr]; [reflexivity |].
  destruct r as [| rl rit rr]; [cbn; lia |].
  destruct (erase_leftmost rl rit rr) as [[succ r'] g] eqn:E.
  pose proof (erase_leftmost_size _ _ _ _ _ _ E) as Hs.
  cbn [fst tree_size] in *. lia.
Qed.

Lemma rb_erase_size t k x :
  walk_found t k = Some x ->
  S (tree_size (fst (rb_erase_augmented t k))) = tree_size t.
Proof.
  induction t as [| l IHl y r IHr]; [discriminate |].
  rewrite walk_found_node. cbn [rb_erase_augmented].
  key_cases k (key y).
  - intros Hw. specialize (IHl Hw).
    destruct (rb_erase_augmented l k) as [l' going]; cbn [fst] in *.
    rewrite propagate_step_size. cbn [tree_size]. lia.
  - intros _. apply erase_node_size.
  - intros Hw. specialize (IHr Hw).
    destruct (rb_erase_augmented r k) as [r' going]; cbn [fst] in *.
    rewrite propagate_step_size. cbn [tree_size]. lia.
Qed.

Lemma clear_item_dirty_size c k :
  tree_size (items (clear_item_dirty c k)) = tree_size (items c).
Proof.
  unfold clear_item_dirty.
  destruct (walk_found (items c) k); [| reflexivity].
  destruct (negb _); [reflexivity |].
  cbn [items set_items update_dirty_item_counts set_lru].
  apply store_item_size.
Qed.

Lemma unlink_item_size c k x :
  walk_found (items c) k = Some x ->
  S (tree_size (items (unlink_item c k))) = tree_size (items c).
Proof.
  intros Hw. unfold unlink_item.
  destruct (clear_item_dirty_found c k x Hw) as (x1 & Hw1 & _).
  pose proof (rb_erase_size _ _ _ Hw1) as Hs.
  rewrite clear_item_dirty_size in Hs.
  destruct (on_list _ _); cbn [items set_items set_lru]; exact Hs.
Qed.

Lemma insert_descend_linked_found t ins t' :
  insert_descend t ins = Linked t' -> walk_found t' (key ins) = Some ins.
Proof.
  revert t'. induction t as [| l IHl x r IHr]; intros t'; cbn [insert_descend].
  - intros [= <-]. rewrite walk_found_node.
    key_cases (key ins) (key ins); try lia. reflexivity.
  - key_cases (key ins) (key x).
    + intros Hl. apply lift_insert_linked in Hl. destruct Hl as (l' & El & ->).
      rewrite walk_found_node, passed_item_key, Ek.
      cbn [Z.ltb Z.gtb Z.compare]. auto.
    + discriminate.
    + intros Hr. apply lift_insert_linked in Hr. destruct Hr as (r' & Er & ->).
      rewrite walk_found_node, passed_item_key, Ek.
      cbn [Z.ltb Z.gtb Z.compare]. auto.
Qed.

(** With [logical_overwrite] and without [cache_populate] the loop of
    [insert_item] ends by linking the item: every restart follows an
    erase, which takes one item out of the tree. *)
Lemma insert_overwrite_loop fuel :
  forall c ins,
    (tree_size (items c) < fuel)%nat ->
    match insert_item_loop fuel c ins true false with
    | Ret (ret, c', ins') =>
        ret = 0 /\ walk_found (items c') (key ins) = Some ins'
    | Bug => item_is_dirty ins = true
    | Starved => False
    end.
Proof.
  induction fuel as [| fuel IH]; intros c ins Hlt; [lia |].
  cbn [insert_item_loop].
  destruct (insert_descend (items c) ins) as [t | x t] eqn:Ed.
  - destruct (item_is_dirty ins) eqn:Edirty; [reflexivity |].
    split; [reflexivity |]. cbn [items set_items set_lru].
    eapply insert_descend_linked_found; eauto.
  - cbn [orb andb negb].
    rewrite Bool.andb_false_r.
    destruct (insert_descend_present _ _ _ _ Ed) as (_ & Hw & _ & _ & Hs).
    pose proof (walk_found_key _ _ _ Hw) as Hkx.
    assert (Hsz : (tree_size (items (erase_item (set_items c t) (key x)))
                   < fuel)%nat).
    { pose proof (unlink_item_size (set_items c t) (key x) x) as Hu.
      cbn [items set_items] in Hu. rewrite Hkx in Hu. specialize (Hu Hw).
      unfold erase_item. rewrite Hkx. lia. }
    specialize (IH (erase_item (set_items c t) (key x))
                   (if persistent x then set_persistent ins true else ins)
                   Hsz).
    assert (Ek : key (if persistent x then set_persistent ins true else ins)
                 = key ins) by (destruct (persistent x); reflexivity).
    assert (Edd : item_is_dirty
                    (if persistent x then set_persistent ins true else ins)
                  = item_is_dirty ins) by (destruct (persistent x); reflexivity).
    rewrite Ek, Edd in IH. exact IH.
Qed.

(** ** C9 *)

(** C9.  [insert_item] with [logical_overwrite] and without
    [cache_populate] never returns an error, in any cache state: it
    returns 0 with the item linked in the tree, unless it stops in its
    own [BUG_ON] because the item given is dirty.  So the corruption
    branches of [scoutfs_item_create_force] and
    [scoutfs_item_delete_force], which follow a nonzero return, are
    never taken: both calls always return. *)
Theorem overwrite_insert_never_fails :
  (forall (c : item_cache) (ins : cached_item),
      match insert_item c ins true false with
      | Ret (ret, c', ins') =>
          ret = 0 /\ holds_item (items c') (key ins) ins'
      | Bug => item_is_dirty ins = true
      | Starved => False
      end)
  /\ (forall (SCOUTFS_MAX_VAL_SIZE : Z) (c : item_cache) (k : scoutfs_key)
             (v : option kvec) (lock : scoutfs_lock) (mem : bool),
         exists r,
           scoutfs_item_create_force SCOUTFS_MAX_VAL_SIZE c k v lock mem
           = Ret r)
  /\ (forall (c : item_cache) (k : scoutfs_key) (lock : scoutfs_lock)
             (mem : bool),
         exists r, scoutfs_item_delete_force c k lock mem = Ret r).
Proof.
  assert (H1 : forall c ins,
             match insert_item c ins true false with
             | Ret (ret, c', ins') =>
                 ret = 0 /\ holds_item (items c') (key ins) ins'
             | Bug => item_is_dirty ins = true
             | Starved => False
             end).
  { intros c ins.
    pose proof (insert_overwrite_loop (S (tree_size (items c))) c ins) as H.
    unfold insert_item.
    destruct (insert_item_loop _ c ins true false) as [[[ret c'] ins'] | |];
      try (apply H; lia).
    destruct H as (-> & Hw); [lia |]. split; [reflexivity |].
    exact (found_holds _ _ _ Hw). }
  split; [exact H1 |]. split.
  - intros M c k v lock mem. unfold scoutfs_item_create_force.
    destruct (invalid_key_val M k v); [eauto |].
    destruct (negb (lock_coverage _ _ _)); [eauto |].
    destruct (negb mem); [eauto |].
    specialize (H1 c (set_persistent (alloc_item k v) true)).
    destruct (insert_item c (set_persistent (alloc_item k v) true) true false)
      as [[[ret c'] ins'] | |].
    + destruct H1 as (-> & _). cbn. eauto.
    + destruct v; discriminate.
    + contradiction.
  - intros c k lock mem. unfold scoutfs_item_delete_force.
    destruct (negb (lock_coverage _ _ _)); [eauto |].
    destruct (negb mem); [eauto |].
    specialize (H1 c (set_persistent (alloc_item k None) true)).
    destruct (insert_item c (set_persistent (alloc_item k None) true)
                          true false) as [[[ret c'] ins'] | |].
    + destruct H1 as (-> & _). cbn. eauto.
    + discriminate.
    + contradiction.
Qed.

(** ** C1 *)

Lemma walk_found_absent t k : ~ In k (keys t) -> walk_found t k = None.
Proof.
  intros Hn. destruct (walk_found t k) as [it |] eqn:E; [| reflexivity].
  exfalso. apply Hn. rewrite <- (walk_found_key _ _ _ E).
  apply in_keys. eapply walk_found_in; eauto.
Qed.

Lemma insert_descend_total t ins :
  match walk_found t (key ins) with
  | Some x => exists t', insert_descend t ins = Present x t'
  | None => exists t', insert_descend t ins = Linked t'
  end.
Proof.
  induction t as [| l IHl y r IHr]; cbn [insert_descend].
  - cbn. eauto.
  - rewrite walk_found_node. key_cases (key ins) (key y).
    + destruct (walk_found l (key ins)); destruct IHl as (t' & ->);
        cbn [lift_insert]; eauto.
    + eauto.
    + destruct (walk_found r (key ins)); destruct IHr as (t' & ->);
        cbn [lift_insert]; eauto.
Qed.

Lemma without_at_key k g l :
  (forall c, key (g c) = key c) ->
  without k (map (at_key k g) l) = without k l.
Proof.
  intros Hg. unfold without.
  induction l as [| c l IH]; cbn [map filter]; [reflexivity |].
  unfold at_key at 1 2.
  destruct (Z.eqb_spec (key c) k) as [E | N].
  - rewrite Hg. destruct (Z.eqb_spec (key c) k); [| contradiction].
    cbn [negb]. exact IH.
  - destruct (Z.eqb_spec (key c) k); [contradiction |].
    cbn [negb]. now rewrite IH.
Qed.

Lemma clear_item_dirty_contents c k :
  bst (items c) ->
  bst (items (clear_item_dirty c k))
  /\ (contents (items (clear_item_dirty c k)) = contents (items c)
      \/ contents (items (clear_item_dirty c k))
         = map (at_key k mark_clean) (contents (items c))).
Proof.
  intros B. unfold clear_item_dirty.
  destruct (walk_found (items c) k); [| auto].
  destruct (negb _); [auto |].
  cbn [items set_items update_dirty_item_counts set_lru]. split.
  - now apply store_item_bst.
  - right. apply store_item_contents; [apply strip_clear | assumption].
Qed.

Lemma unlink_item_contents c k :
  bst (items c) ->
  contents (items (unlink_item c k)) = without k (contents (items c))
  /\ bst (items (unlink_item c k)).
Proof.
  intros B. destruct (clear_item_dirty_contents c k B) as (B1 & Hc1).
  destruct (rb_erase_augmented_spec _ k B1) as (Hc2 & B2).
  unfold unlink_item.
  assert (E : contents (fst (rb_erase_augmented
                               (items (clear_item_dirty c k)) k))
              = without k (contents (items c))).
  { rewrite Hc2. destruct Hc1 as [-> | ->]; [reflexivity |].
    now apply without_at_key. }
  destruct (on_list _ _); cbn [items set_items set_lru]; auto.
Qed.

Lemma without_no_key k l : ~ In k (map key (without k l)).
Proof.
  unfold without. intros Hin. apply in_map_iff in Hin.
  destruct Hin as (c & Ek & Hc). apply filter_In in Hc.
  destruct Hc as (_ & Hc). rewrite Ek, Z.eqb_refl in Hc. discriminate.
Qed.

Lemma insert_item_success_found fuel :
  forall c ins lo cp c' ins',
    insert_item_loop fuel c ins lo cp = Ret (0, c', ins') ->
    walk_found (items c') (key ins) = Some ins'
    /\ item_is_dirty ins = false.
Proof.
  induction fuel as [| fuel IH]; intros c ins lo cp c' ins';
    cbn [insert_item_loop]; [discriminate |].
  destruct (insert_descend (items c) ins) as [t | x t] eqn:Ed.
  - destruct (item_is_dirty ins); [discriminate |].
    intros [= <- <-]. cbn [items set_items set_lru]. split; [| reflexivity].
    eapply insert_descend_linked_found; eauto.
  - destruct (cp || _); [discriminate |].
    intros H. apply IH in H.
    destruct (persistent x); exact H.
Qed.

(** What [insert_item] does at a key that holds an item. *)
Lemma insert_item_present c ins lo cp old :
  bst (items c) ->
  item_is_dirty ins = false ->
  In old (tree_items (items c)) -> key old = key ins ->
  if cp || (negb (deletion old) && negb lo)
  then exists c',
         insert_item c ins lo cp = Ret (- EEXIST, c', ins)
         /\ contents (items c') = contents (items c)
  else exists c',
         insert_item c ins lo cp
         = Ret (0, c', set_persistent ins (persistent ins || persistent old))
         /\ Permutation (contents (items c'))
              (strip (set_persistent ins (persistent ins || persistent old))
               :: without (key ins) (contents (items c))).
Proof.
  intros B Hd Hin Hk.
  pose proof (bst_found _ _ _ B Hin Hk) as Hw.
  unfold insert_item. cbn [insert_item_loop].
  pose proof (insert_descend_total (items c) ins) as Ht. rewrite Hw in Ht.
  destruct Ht as (t & Ed). rewrite Ed.
  destruct (insert_descend_present _ _ _ _ Ed) as (_ & Hw' & Hc & Hb & Hs).
  destruct (cp || (negb (deletion old) && negb lo)).
  { eexists; split; [reflexivity | exact Hc]. }
  destruct (unlink_item_contents (set_items c t) (key old) (Hb B))
    as (Hc2 & B2).
  cbn [items set_items] in Hc2.
  set (c2 := erase_item (set_items c t) (key old)) in *.
  set (ins' := if persistent old then set_persistent ins true else ins).
  assert (Eins : ins' = set_persistent ins (persistent ins || persistent old)).
  { unfold ins'. destruct ins as [d del p kk vv vl]; cbn.
    destruct (persistent old), p; reflexivity. }
  assert (Hw2 : walk_found (items c2) (key ins') = None).
  { apply walk_found_absent. rewrite <- keys_contents.
    unfold c2, erase_item. rewrite Hc2.
    replace (key ins') with (key old)
      by (unfold ins'; destruct (persistent old); now rewrite Hk).
    apply without_no_key. }
  pose proof (insert_descend_total (items c2) ins') as Ht2.
  rewrite Hw2 in Ht2. destruct Ht2 as (t2 & Ed2).
  destruct (tree_size (items c)) as [| n] eqn:En.
  { exfalso. destruct (items c); [destruct Hin | discriminate]. }
  cbn [insert_item_loop]. fold c2. rewrite Ed2.
  assert (Hd' : item_is_dirty ins' = false)
    by (unfold ins'; destruct (persistent old); exact Hd).
  rewrite Hd'. rewrite <- Eins.
  eexists; split; [reflexivity |].
  cbn [items set_items set_lru].
  destruct (insert_descend_linked _ _ _ Ed2) as (_ & Hp & _ & _).
  rewrite Hp. constructor.
  unfold c2, erase_item. rewrite Hc2, Hc, Hk. reflexivity.
Qed.

(** The three modes of [insert_item], for a clean new item and a
    search tree, when the read of the erased item's [persistent] finds
    what the item held.  With [cache_populate] an item at the key,
    deletion item or not, makes it return -EEXIST and leave the items
    as they are.  With [logical_overwrite] the item at the key is
    erased and the new one inserted, persistent if it or the erased
    item was.  In the default mode that happens when the item at the
    key is a deletion item, and -EEXIST is returned when it is not.
    Without an item at the key the new item is inserted.  Whenever 0 is
    returned the item returned to the caller is the item found at its
    key. *)
Lemma insert_item_modes :
  forall (c : item_cache) (ins : cached_item),
    bst (items c) ->
    item_is_dirty ins = false ->
    (forall lo old,
        In old (tree_items (items c)) -> key old = key ins ->
        exists c',
          insert_item c ins lo true = Ret (- EEXIST, c', ins)
          /\ contents (items c') = contents (items c))
    /\ (forall old,
           In old (tree_items (items c)) -> key old = key ins ->
           exists c',
             insert_item c ins true false
             = Ret (0, c',
                    set_persistent ins (persistent ins || persistent old))
             /\ Permutation (contents (items c'))
                  (strip (set_persistent ins
                            (persistent ins || persistent old))
                   :: without (key ins) (contents (items c))))
    /\ (forall old,
           In old (tree_items (items c)) -> key old = key ins ->
           deletion old = true ->
           exists c',
             insert_item c ins false false
             = Ret (0, c',
                    set_persistent ins (persistent ins || persistent old))
             /\ Permutation (contents (items c'))
                  (strip (set_persistent ins
                            (persistent ins || persistent old))
                   :: without (key ins) (contents (items c))))
    /\ (forall old,
           In old (tree_items (items c)) -> key old = key ins ->
           deletion old = false ->
           exists c',
             insert_item c ins false false = Ret (- EEXIST, c', ins)
             /\ contents (items c') = contents (items c))
    /\ (forall lo cp,
           ~ In (key ins) (keys (items c)) ->
           exists c',
             insert_item c ins lo cp = Ret (0, c', ins)
             /\ Permutation (contents (items c'))
                  (strip ins :: contents (items c)))
    /\ (forall lo cp c' ins',
           insert_item c ins lo cp = Ret (0, c', ins') ->
           holds_item (items c') (key ins) ins'
           /\ In (strip ins') (contents (items c'))).
Proof.
  intros c ins B Hd. repeat split.
  - intros lo old Hin Hk.
    exact (insert_item_present c ins lo true old B Hd Hin Hk).
  - intros old Hin Hk.
    pose proof (insert_item_present c ins true false old B Hd Hin Hk) as H.
    cbn [orb negb] in H. rewrite Bool.andb_false_r in H. exact H.
  - intros old Hin Hk Hdel.
    pose proof (insert_item_present c ins false false old B Hd Hin Hk) as H.
    rewrite Hdel in H. exact H.
  - intros old Hin Hk Hdel.
    pose proof (insert_item_present c ins false false old B Hd Hin Hk) as H.
    rewrite Hdel in H. exact H.
  - intros lo cp Hn. unfold insert_item. cbn [insert_item_loop].
    pose proof (insert_descend_total (items c) ins) as Ht.
    rewrite (walk_found_absent _ _ Hn) in Ht. destruct Ht as (t & Ed).
    rewrite Ed, Hd. eexists; split; [reflexivity |].
    cbn [items set_items set_lru].
    now destruct (insert_descend_linked _ _ _ Ed) as (_ & Hp & _).
  - apply found_holds. eapply insert_item_success_found; eauto.
  - apply (found_in_contents _ (key ins)).
    eapply insert_item_success_found; eauto.
Qed.

(** The loop with the heap in view is the loop above when the freed
    memory still holds the item. *)
Lemma insert_item_loop_freed_intact fuel :
  forall c ins lo cp,
    insert_item_loop_freed persistent fuel c ins lo cp
    = insert_item_loop fuel c ins lo cp.
Proof.
  induction fuel as [| fuel IH]; intros c ins lo cp;
    cbn [insert_item_loop_freed insert_item_loop]; [reflexivity |].
  destruct (insert_descend (items c) ins) as [t | it t]; [reflexivity |].
  destruct (cp || (negb (deletion it) && negb lo)); [reflexivity |].
  apply IH.
Qed.

(** C1 does not hold of the code.  The new item should inherit
    [persistent] from the item it takes the place of.  [insert_item]
    erases that item first, [erase_item] frees it, and the bit is read
    afterwards, from the freed memory.  [cache_tombstone_5] is the
    cache left by the public calls of [tombstone_cache]: a persistent
    deletion item at key 5.  Inserting a new item that is not
    persistent at key 5 in the default mode returns 0 with the new item
    linked, and its [persistent] bit is whatever the read finds in the
    freed item: for memory that reads as zero the new item is not
    persistent, though the item it replaced was.  The bit is inherited
    only when the freed memory still holds the item, which is the case
    that [insert_item] stands for. *)
Theorem insert_item_reads_freed_item :
  tombstone_cache = Ret cache_tombstone_5
  /\ walk_found (items cache_tombstone_5) 5 = Some item_tombstone_5
  /\ deletion item_tombstone_5 = true
  /\ persistent item_tombstone_5 = true
  /\ persistent item_new_5 = false
  /\ (forall freed_persistent : cached_item -> bool,
        insert_item_freed freed_persistent cache_tombstone_5 item_new_5
                          false false
        = Ret (0,
               mk_cache
                 (INode INil
                    (set_persistent item_new_5
                       (freed_persistent item_tombstone_5))
                    INil)
                 (RNode RNil (mk_range 0 10) RNil) 0 0 [5] 1,
               set_persistent item_new_5
                 (freed_persistent item_tombstone_5)))
  /\ insert_item_freed (fun _ => false) cache_tombstone_5 item_new_5
                       false false
     = Ret (0,
            mk_cache (INode INil item_new_5 INil)
                     (RNode RNil (mk_range 0 10) RNil) 0 0 [5] 1,
            item_new_5)
  /\ (forall c ins lo cp,
        insert_item_freed persistent c ins lo cp = insert_item c ins lo cp).
Proof.
  split; [reflexivity |]. split; [reflexivity |]. split; [reflexivity |].
  split; [reflexivity |]. split; [reflexivity |].
  split; [| split; [reflexivity |]].
  - intros f. unfold insert_item_freed. cbn.
    destruct (f item_tombstone_5); reflexivity.
  - intros c ins lo cp. apply insert_item_loop_freed_intact.
Qed.

(** ** Covering ranges *)

Lemma compare_ranges_point k s e :
  (k < s /\ scoutfs_key_compare_ranges k k s e = -1)
  \/ (s <= k /\ e < k /\ scoutfs_key_compare_ranges k k s e = 1)
  \/ (s <= k <= e /\ scoutfs_key_compare_ranges k k s e = 0).
Proof.
  unfold scoutfs_key_compare_ranges.
  key_cases k s; [left; auto | |]; key_cases k e;
    first [ right; right; split; [lia | reflexivity]
          | right; left; repeat split; (lia || reflexivity) ].
Qed.

Lemma range_found_node l rng r k :
  range_found (RNode l rng r) k =
  let cmp := scoutfs_key_compare_ranges k k (start rng) (end_ rng) in
  if cmp <? 0 then range_found l k
  else if cmp >? 0 then range_found r k
  else Some rng.
Proof.
  assert (G : forall t p n p' n',
             fst (fst (walk_ranges_from t k p n))
             = fst (fst (walk_ranges_from t k p' n'))).
  { induction t as [| tl IHl x tr IHr]; intros; cbn; auto.
    destruct (_ <? 0); [apply IHl |].
    destruct (_ >? 0); [apply IHr | reflexivity]. }
  unfold range_found, walk_ranges; cbn.
  destruct (_ <? 0); [apply G |].
  destruct (_ >? 0); [apply G | reflexivity].
Qed.

Lemma range_found_covers t k rng :
  range_found t k = Some rng -> In rng (range_list t) /\ covers rng k.
Proof.
  induction t as [| l IHl x r IHr]; [discriminate |].
  rewrite range_found_node. cbn [range_list]. rewrite in_app_iff. cbn [In].
  destruct (compare_ranges_point k (start x) (end_ x))
    as [(H & ->) | [(H1 & H2 & ->) | (H & ->)]]; cbn.
  - intros Hf. destruct (IHl Hf). auto.
  - intros Hf. destruct (IHr Hf). auto.
  - intros [= <-]. auto.
Qed.

Lemma ranges_wf_found t k rng :
  ranges_wf t -> In rng (range_list t) -> covers rng k ->
  range_found t k = Some rng.
Proof.
  unfold covers.
  induction t as [| l IHl x r IHr]; cbn [ranges_wf range_list]; [intros _ [] |].
  intros (Wl & Wr & Hx & Fl & Fr) Hin Hc. rewrite range_found_node.
  rewrite Forall_forall in Fl, Fr.
  apply in_app_or in Hin.
  destruct (compare_ranges_point k (start x) (end_ x))
    as [(H & ->) | [(H1 & H2 & ->) | (H & ->)]]; cbn;
    destruct Hin as [Hin | [-> | Hin]]; auto; try lia;
    try (specialize (Fl _ Hin); lia); try (specialize (Fr _ Hin); lia).
Qed.

Lemma range_cached_found c k :
  range_cached c k = is_some (range_found (ranges c) k).
Proof.
  unfold range_cached, check_range, range_found.
  destruct (fst (fst (walk_ranges (ranges c) k))); reflexivity.
Qed.

Lemma range_cached_true c k rng :
  ranges_wf (ranges c) -> In rng (range_list (ranges c)) -> covers rng k ->
  range_cached c k = true.
Proof.
  intros W Hin Hc. rewrite range_cached_found.
  now rewrite (ranges_wf_found _ _ _ W Hin Hc).
Qed.

Lemma range_cached_false c k :
  (forall rng, In rng (range_list (ranges c)) -> ~ covers rng k) ->
  range_cached c k = false.
Proof.
  intros Hn. rewrite range_cached_found.
  destruct (range_found (ranges c) k) as [rng |] eqn:E; [| reflexivity].
  destruct (range_found_covers _ _ _ E) as (Hin & Hc).
  exfalso. exact (Hn _ Hin Hc).
Qed.

(** ** Point lookup: C2 and C10 *)

Lemma find_item_present t k it :
  bst t -> In it (tree_items t) -> key it = k -> deletion it = false ->
  find_item t k = Some it.
Proof.
  intros B Hin Hk Hd. unfold find_item.
  now rewrite (bst_found _ _ _ B Hin Hk), Hd.
Qed.

Lemma find_item_hidden t k :
  (forall it, In it (tree_items t) -> key it = k -> deletion it = true) ->
  find_item t k = None.
Proof.
  intros H. unfold find_item.
  destruct (walk_found t k) as [it |] eqn:E; [| reflexivity].
  now rewrite (H it (walk_found_in _ _ _ E) (walk_found_key _ _ _ E)).
Qed.

Lemma read_through_unfold (A : Type) M
    (body : item_cache -> outcome (Z * item_cache * A)) c fills :
  read_through M body c fills =
  match body c with
  | Ret (ret, c1, a) =>
      if ret =? - ENODATA then
        match fills with
        | [] => Starved
        | f :: fills' =>
            match scoutfs_manifest_read_items M c1 f with
            | Ret (ret', c2) =>
                if ret' =? 0 then read_through M body c2 fills'
                else Ret (ret', c2, a)
            | Bug => Bug
            | Starved => Starved
            end
        end
      else Ret (ret, c1, a)
  | Bug => Bug
  | Starved => Starved
  end.
Proof. destruct fills; reflexivity. Qed.

Lemma copy_item_val_count v it :
  len_ok it -> vec_ok v ->
  fst (copy_item_val v it)
  = match v with
    | Some kv => Z.min (val_len it) (iov_len kv)
    | None => 0
    end
  /\ 0 <= fst (copy_item_val v it).
Proof.
  unfold len_ok, vec_ok, copy_item_val. intros Hl Hv.
  destruct v as [kv |]; cbn [fst]; [| lia].
  rewrite to_int_len by lia. lia.
Qed.

Lemma any_list_invariant : list_invariant I_any.
Proof. constructor; intros; exact Logic.I. Qed.

Lemma good_any c : good I_any c <-> cache_wf c.
Proof. unfold good, holds, I_any. tauto. Qed.

Lemma lookup_locked_not_enodata k v c ret c' out :
  cache_wf c -> vec_ok v ->
  lookup_locked k v c = Ret (ret, c', out) ->
  ret = - ENODATA ->
  c' = c /\ out = v /\ find_item (items c) k = None
  /\ range_cached c k = false.
Proof.
  intros W Hv. unfold lookup_locked, find_item.
  destruct (walk_found (items c) k) as [it |] eqn:Ef.
  - destruct (deletion it) eqn:Ed.
    + destruct (range_cached c k); intros [= <- <- <-]; [discriminate | auto].
    + pose proof (copy_item_val_count v it (found_len_ok c k it W Ef) Hv)
        as (_ & Hnn).
      destruct v as [kv |].
      * destruct (copy_item_val (Some kv) it) as [r o]; cbn [fst] in Hnn.
        intros [= <- <- <-]. unfold ENODATA. lia.
      * intros [= <- <- <-]. discriminate.
  - destruct (range_cached c k); intros [= <- <- <-]; [discriminate | auto].
Qed.

(** The code that asks for a fill leaves [scoutfs_item_lookup] only
    when the reader itself returned it. *)
Lemma lookup_enodata_is_the_readers M k v fills :
  M <= INT_MAX -> vec_ok v ->
  forall c ret c' out,
    cache_wf c -> Forall fill_ok fills ->
    read_through M (lookup_locked k v) c fills = Ret (ret, c', out) ->
    ret = - ENODATA ->
    exists f, In f fills /\ fill_ret f = - ENODATA.
Proof.
  intros HM Hv.
  induction fills as [| f fills IH]; intros c ret c' out W Hf;
    rewrite read_through_unfold;
    destruct (lookup_locked k v c) as [[[r c1] a] | |] eqn:El;
    try discriminate;
    destruct (Z.eqb_spec r (- ENODATA)) as [E | N];
    try discriminate; try (intros [= <- <- <-] Hr; contradiction).
  destruct (lookup_locked_not_enodata _ _ _ _ _ _ W Hv El E) as (-> & _).
  inversion_clear Hf as [| ? ? Hf1 Hrest].
  unfold scoutfs_manifest_read_items at 1.
  destruct (scoutfs_manifest_read_items M c f) as [[r2 c2] | |] eqn:Er;
    unfold scoutfs_manifest_read_items in Er; rewrite Er; try discriminate.
  assert (W2 : cache_wf c2).
  { apply good_any.
    eapply (good_read_items I_any any_list_invariant M HM c f r2 c2); auto.
    now apply good_any. }
  assert (Er2 : r2 = fill_ret f).
  { destruct (fill_range f) as [[s e] |].
    - destruct (scoutfs_item_insert_batch _ _ _ _ _) as [[r3 c3] | |];
        try discriminate. now injection Er as <- _.
    - now injection Er as <- _. }
  destruct (r2 =? 0).
  - intros Hl Hr. destruct (IH _ _ _ _ W2 Hrest Hl Hr) as (g & Hg & Eg).
    exists g. split; [now right | exact Eg].
  - intros [= <- <- <-] Hr. exists f. split; [now left |].
    now rewrite <- Er2.
Qed.

(** C2, as the code has it.  Point lookup under a lock that covers the
    key, in a well-formed cache.  A non-deletion item at the key: the
    call returns the number of bytes copied, the item's length cut to
    the caller's buffer (0 for a null buffer), and the buffer then
    starts with that many bytes of the value, its other bytes and its
    length being as they were.  No such item (none, or a deletion
    item) and a cached range over the key: -ENOENT, cache untouched.
    No such item and no such range: the reader is asked once and, when
    it returns 0, the lookup starts again on the cache it left; when it
    returns an error that error is returned.  So the fill-needed code
    -ENODATA reaches the caller only when the reader returned it. *)
Theorem lookup_results :
  forall (SCOUTFS_MAX_VAL_SIZE : Z) (c : item_cache) (k : scoutfs_key)
         (v : option kvec) (lock : scoutfs_lock) (fills : list fill),
    SCOUTFS_MAX_VAL_SIZE <= INT_MAX ->
    cache_wf c -> ranges_wf (ranges c) -> vec_ok v ->
    lock_coverage lock k SCOUTFS_LOCK_READ = true ->
    (forall it,
        In it (tree_items (items c)) -> key it = k -> deletion it = false ->
        scoutfs_item_lookup SCOUTFS_MAX_VAL_SIZE c k v lock fills
        = Ret (match v with
               | Some kv => Z.min (val_len it) (iov_len kv)
               | None => 0
               end,
               item_referenced c it,
               match v with
               | Some kv =>
                   let n := Z.to_nat (Z.min (val_len it) (iov_len kv)) in
                   Some (mk_kvec (firstn n (item_bytes it)
                                  ++ skipn n (iov_base kv))
                                 (iov_len kv))
               | None => None
               end))
    /\ ((forall it, In it (tree_items (items c)) -> key it = k ->
                    deletion it = true) ->
        (exists rng, In rng (range_list (ranges c)) /\ covers rng k) ->
        scoutfs_item_lookup SCOUTFS_MAX_VAL_SIZE c k v lock fills
        = Ret (- ENOENT, c, v))
    /\ ((forall it, In it (tree_items (items c)) -> key it = k ->
                    deletion it = true) ->
        (forall rng, In rng (range_list (ranges c)) -> ~ covers rng k) ->
        scoutfs_item_lookup SCOUTFS_MAX_VAL_SIZE c k v lock fills
        = match fills with
          | [] => Starved
          | f :: fills' =>
              match scoutfs_manifest_read_items SCOUTFS_MAX_VAL_SIZE c f with
              | Ret (ret, c1) =>
                  if ret =? 0
                  then scoutfs_item_lookup SCOUTFS_MAX_VAL_SIZE c1 k v lock
                                           fills'
                  else Ret (ret, c1, v)
              | Bug => Bug
              | Starved => Starved
              end
          end)
    /\ (forall ret c' out,
           Forall fill_ok fills ->
           scoutfs_item_lookup SCOUTFS_MAX_VAL_SIZE c k v lock fills
           = Ret (ret, c', out) ->
           ret = - ENODATA ->
           exists f, In f fills /\ fill_ret f = - ENODATA).
Proof.
  intros M c k v lock fills HM W Wr Hv Hlock.
  unfold scoutfs_item_lookup. rewrite Hlock. cbn [negb].
  repeat split.
  - intros it Hin Hk Hd. rewrite read_through_unfold.
    unfold lookup_locked.
    rewrite (find_item_present _ _ _ (proj1 W) Hin Hk Hd).
    assert (Hlen : len_ok it).
    { destruct W as (_ & L). rewrite Forall_forall in L. now apply L. }
    destruct (copy_item_val_count v it Hlen Hv) as (Hc & Hnn).
    destruct v as [kv |].
    + assert (Eo : snd (copy_item_val (Some kv) it)
                   = Some (mk_kvec
                             (firstn (Z.to_nat (Z.min (val_len it)
                                                      (iov_len kv)))
                                     (item_bytes it)
                              ++ skipn (Z.to_nat (Z.min (val_len it)
                                                        (iov_len kv)))
                                       (iov_base kv))
                             (iov_len kv))).
      { rewrite <- Hc. reflexivity. }
      destruct (copy_item_val (Some kv) it) as [r o] eqn:Ec.
      cbn [fst snd] in *. subst r o.
      destruct (Z.eqb_spec (Z.min (val_len it) (iov_len kv)) (- ENODATA));
        [unfold ENODATA in *; lia | reflexivity].
    + reflexivity.
  - intros Hnone (rng & Hin & Hc). rewrite read_through_unfold.
    unfold lookup_locked. rewrite (find_item_hidden _ _ Hnone).
    now rewrite (range_cached_true c k rng Wr Hin Hc).
  - intros Hnone Hnr. rewrite read_through_unfold.
    unfold lookup_locked. rewrite (find_item_hidden _ _ Hnone).
    rewrite (range_cached_false c k Hnr), Z.eqb_refl.
    destruct fills as [| f fills']; [reflexivity |].
    destruct (scoutfs_manifest_read_items M c f) as [[r c1] | |];
      reflexivity.
  - intros ret c' out Hf Hl Hr.
    exact (@lookup_enodata_is_the_readers M k v fills HM Hv c ret c' out W Hf Hl Hr).
Qed.

(** C2 as it is written fails.  On the empty cache a lookup of key 5
    asks the reader; a reader that fails with -ENODATA has that code
    returned to the caller, like any other error of the reader. *)
Lemma lookup_returns_reader_enodata :
  lock_coverage read_lock 5 SCOUTFS_LOCK_READ = true
  /\ scoutfs_item_lookup sample_max_val_size scoutfs_item_setup 5 None
                         read_lock [mk_fill (- ENODATA) [] None]
     = Ret (- ENODATA, scoutfs_item_setup, None).
Proof. split; reflexivity. Qed.

Lemma cache_forced_5_reached :
  scoutfs_item_create_force sample_max_val_size scoutfs_item_setup 5
                            (Some value_abc) write_only_lock true
  = Ret (0, cache_forced_5).
Proof. reflexivity. Qed.

(** Point lookup with a null value buffer.  For a key covered by the
    caller's read lock at which a non-deletion item is cached it
    returns 0, not the item's value length, after [item_referenced]: an
    item with none of its three dirty bits set is moved to the tail of
    the lru, and for an item with one of them set (dirty itself, or
    above a dirty item) the cache and its lru are left as they are. *)
Lemma lookup_null_buffer :
  forall (SCOUTFS_MAX_VAL_SIZE : Z) (c : item_cache) (k : scoutfs_key)
         (lock : scoutfs_lock) (fills : list fill) (it : cached_item),
    bst (items c) ->
    In it (tree_items (items c)) -> key it = k -> deletion it = false ->
    lock_coverage lock k SCOUTFS_LOCK_READ = true ->
    scoutfs_item_lookup SCOUTFS_MAX_VAL_SIZE c k None lock fills
    = Ret (0, item_referenced c it, None)
    /\ (dirty it = 0 ->
        item_referenced c it
        = set_lru c (list_del k (lru_list c) ++ [k]) (lru_nr c))
    /\ (dirty it <> 0 -> item_referenced c it = c).
Proof.
  intros M c k lock fills it B Hin Hk Hd Hlock.
  unfold scoutfs_item_lookup. rewrite Hlock. cbn [negb].
  rewrite read_through_unfold. unfold lookup_locked.
  rewrite (find_item_present _ _ _ B Hin Hk Hd). cbn [Z.eqb Z.opp ENODATA].
  split; [reflexivity |]. unfold item_referenced. split.
  - intros ->. rewrite Hk. reflexivity.
  - intros Hdirty. destruct (Z.eqb_spec (dirty it) 0) as [E |];
      [contradiction | reflexivity].
Qed.

Lemma cache_3_5_7_reached :
  (c <- run_op sample_max_val_size scoutfs_item_setup
          (OpInsertBatch [(5, Some value_abc); (7, Some value_de)] 0 10 true) ;;
   run_op sample_max_val_size c
          (OpCreate 3 (Some value_de) write_lock true []))
  = Ret cache_3_5_7.
Proof. reflexivity. Qed.

(** C10 does not hold of the code.  [cache_3_5_7] is the cache left
    by reading the items 5 and 7 in and creating item 3.  Its item 5 is
    a non-deletion item that is not dirty ([item_is_dirty] is false);
    it is on the lru, before item 7, and carries [LEFT_DIRTY] for the
    dirty item 3 below it.  Its lookup with a null buffer under a
    covering lock returns 0 and leaves the cache as it was, item 5
    still before item 7 on the lru: [item_referenced] tests the whole
    [dirty] field where [mark_item_dirty] and [clear_item_dirty], which
    take the item off the lru and put it back, test [ITEM_DIRTY] alone.
    In [cache_5_7], the same cache before item 3 was created, the same
    lookup moves item 5 behind item 7. *)
Theorem lookup_null_buffer_skips_lru :
  (c <- run_op sample_max_val_size scoutfs_item_setup
          (OpInsertBatch [(5, Some value_abc); (7, Some value_de)] 0 10 true) ;;
   run_op sample_max_val_size c
          (OpCreate 3 (Some value_de) write_lock true []))
  = Ret cache_3_5_7
  /\ find_item (items cache_3_5_7) 5 = Some item_5_above_3
  /\ item_is_dirty item_5_above_3 = false
  /\ deletion item_5_above_3 = false
  /\ lock_coverage read_lock 5 SCOUTFS_LOCK_READ = true
  /\ lru_list cache_3_5_7 = [5; 7]
  /\ scoutfs_item_lookup sample_max_val_size cache_3_5_7 5 None read_lock []
     = Ret (0, cache_3_5_7, None)
  /\ run_op sample_max_val_size scoutfs_item_setup
          (OpInsertBatch [(5, Some value_abc); (7, Some value_de)] 0 10 true)
     = Ret cache_5_7
  /\ lru_list cache_5_7 = [5; 7]
  /\ scoutfs_item_lookup sample_max_val_size cache_5_7 5 None read_lock []
     = Ret (0, set_lru cache_5_7 [7; 5] 2, None).
Proof. repeat split. Qed.

(** ** Removing the middle of a range: C5 *)

Lemma compare_ranges_cases a b :
  (end_ a < start b
   /\ scoutfs_key_compare_ranges (start a) (end_ a) (start b) (end_ b) = -1)
  \/ (start b <= end_ a /\ end_ b < start a
      /\ scoutfs_key_compare_ranges (start a) (end_ a) (start b) (end_ b) = 1)
  \/ (start b <= end_ a /\ start a <= end_ b
      /\ scoutfs_key_compare_ranges (start a) (end_ a) (start b) (end_ b) = 0).
Proof.
  unfold scoutfs_key_compare_ranges.
  key_cases (end_ a) (start b); [left; auto | |];
    key_cases (start a) (end_ b);
    first [ right; right; repeat split; (lia || reflexivity)
          | right; left; repeat split; (lia || reflexivity) ].
Qed.

Lemma split_at_node (A : Type) (l r l1 l2 : list A) (x y : A) :
  l ++ x :: r = l1 ++ y :: l2 ->
  (exists m, l = l1 ++ y :: m /\ l2 = m ++ x :: r)
  \/ (l1 = l /\ x = y /\ l2 = r)
  \/ (exists m, l1 = l ++ x :: m /\ r = m ++ y :: l2).
Proof.
  intros E. apply app_eq_app in E. destruct E as (m & [(E1 & E2) | (E1 & E2)]).
  - destruct m as [| z m]; cbn in E2.
    + injection E2 as -> ->. right; left. rewrite app_nil_r in E1. auto.
    + injection E2 as <- ->. left. eauto.
  - destruct m as [| z m]; cbn in E2.
    + injection E2 as -> ->. right; left. rewrite app_nil_r in E1. auto.
    + injection E2 as <- ->. right; right. eauto.
Qed.

(** The first descent: down to the range that holds [rem], which is
    cut back to end before it, and a restart with what will be the
    second half. *)
Lemma remove_descend_middle t :
  forall fuel rem rng l1 l2 insert,
    ranges_wf t ->
    (range_size t < fuel)%nat ->
    range_list t = l1 ++ rng :: l2 ->
    start rng < start rem -> start rem <= end_ rem -> end_ rem < end_ rng ->
    exists t1,
      remove_range_descend fuel t rem insert
      = Again t1 (mk_range (scoutfs_key_inc (end_ rem)) (end_ rng)) true
      /\ range_list t1
         = l1 ++ mk_range (start rng) (scoutfs_key_dec (start rem)) :: l2
      /\ range_size t1 = range_size t.
Proof.
  induction t as [| l IHl x r IHr]; intros fuel rem rng l1 l2 insert W Hf E
    H1 H2 H3.
  { destruct l1; discriminate. }
  cbn [ranges_wf] in W. destruct W as (Wl & Wr & Hx & Fl & Fr).
  cbn [range_list range_size] in *.
  destruct fuel as [| fuel]; [lia |]. cbn [remove_range_descend].
  rewrite Forall_forall in Fl, Fr.
  apply split_at_node in E.
  destruct E as [(m & El & ->) | [(-> & -> & ->) | (m & -> & Er)]].
  - assert (Hin : In rng (range_list l)) by (rewrite El; apply in_elt).
    specialize (Fl _ Hin).
    destruct (compare_ranges_cases rem x) as [(H & ->) | [(Ha & Hb & ->) |
                                                         (Ha & Hb & ->)]];
      try lia. cbn.
    destruct (IHl fuel rem rng l1 m insert Wl ltac:(lia) El H1 H2 H3)
      as (t1 & -> & Hl1 & Hs1).
    cbn [lift_remove]. eexists; split; [reflexivity |].
    cbn [range_list range_size]. rewrite Hl1, Hs1, <- app_assoc. auto.
  - destruct (compare_ranges_cases rem rng) as [(H & ->) | [(Ha & Hb & ->) |
                                                           (Ha & Hb & ->)]];
      try lia. cbn.
    key_cases (start rem) (start rng); try lia.
    key_cases (end_ rem) (end_ rng); try lia. cbn.
    eexists; split; [reflexivity |]. auto.
  - assert (Hin : In rng (range_list r)) by (rewrite Er; apply in_elt).
    specialize (Fr _ Hin).
    destruct (compare_ranges_cases rem x) as [(H & ->) | [(Ha & Hb & ->) |
                                                         (Ha & Hb & ->)]];
      try lia. cbn.
    destruct (IHr fuel rem rng m l2 insert Wr ltac:(lia) Er H1 H2 H3)
      as (t1 & -> & Hl1 & Hs1).
    cbn [lift_remove]. eexists; split; [reflexivity |].
    cbn [range_list range_size]. rewrite Hl1, Hs1, <- app_assoc. auto.
Qed.

(** The second descent meets no overlap and links the new range in
    its place. *)
Lemma remove_descend_link t :
  forall fuel n la lb,
    (range_size t < fuel)%nat ->
    start n <= end_ n ->
    range_list t = la ++ lb ->
    Forall (fun x => start x <= end_ x) (range_list t) ->
    Forall (fun x => end_ x < start n) la ->
    Forall (fun x => end_ n < start x) lb ->
    exists t2,
      remove_range_descend fuel t n true = Bottom t2
      /\ range_list t2 = la ++ n :: lb.
Proof.
  induction t as [| l IHl x r IHr]; intros fuel n la lb Hf Hn E Hwf Ha Hb;
    (destruct fuel as [| fuel]; [cbn in Hf; lia |]);
    cbn [remove_range_descend].
  { cbn in E. symmetry in E. apply app_eq_nil in E. destruct E as (-> & ->).
    eexists; split; reflexivity. }
  cbn [range_list range_size] in *.
  apply Forall_app in Hwf. destruct Hwf as (Hwl & Hwr).
  inversion_clear Hwr as [| ? ? Hx Hwr'].
  rewrite Forall_forall in Ha, Hb.
  assert (Hside : end_ x < start n \/ end_ n < start x).
  { assert (Hin : In x (la ++ lb)) by (rewrite <- E; apply in_elt).
    apply in_app_or in Hin. destruct Hin as [Hin | Hin]; auto. }
  apply app_eq_app in E.
  destruct (compare_ranges_cases n x) as [(H & ->) | [(Hc1 & Hc2 & ->) |
                                                     (Hc1 & Hc2 & ->)]];
    try lia; cbn.
  - (* the new range is before x: x and its right subtree are in lb *)
    assert (El : exists m, range_list l = la ++ m
                           /\ lb = m ++ x :: range_list r).
    { destruct E as (m & [(E1 & E2) | (E1 & E2)]); [eauto |].
      destruct m as [| z m]; cbn in E2.
      - exists []. rewrite app_nil_r in *. subst. auto.
      - injection E2 as <- E2. exfalso.
        assert (Hin : In x la) by (rewrite E1; apply in_elt).
        specialize (Ha _ Hin). lia. }
    destruct El as (m & El & ->).
    destruct (IHl fuel n la m ltac:(lia) Hn El Hwl) as (t2 & -> & Hl2).
    + apply Forall_forall. exact Ha.
    + apply Forall_forall. intros y Hy. apply Hb. apply in_or_app. auto.
    + cbn [lift_remove]. eexists; split; [reflexivity |].
      cbn [range_list]. rewrite Hl2, <- app_assoc. reflexivity.
  - (* the new range is after x: x and its left subtree are in la *)
    assert (Er : exists m, la = range_list l ++ x :: m
                           /\ range_list r = m ++ lb).
    { destruct E as (m & [(E1 & E2) | (E1 & E2)]).
      - destruct m as [| z m]; cbn in E2.
        + exfalso. assert (Hin : In x lb) by (rewrite E2; left; reflexivity).
          specialize (Hb _ Hin). lia.
        + exfalso.
          assert (Hin : In x lb) by (rewrite E2; apply (in_elt x (z :: m))).
          specialize (Hb _ Hin). lia.
      - destruct m as [| z m]; cbn in E2.
        + exfalso. assert (Hin : In x lb) by (rewrite <- E2; left; reflexivity).
          specialize (Hb _ Hin). lia.
        + injection E2 as <- E2. eauto. }
    destruct Er as (m & -> & Er).
    destruct (IHr fuel n m lb ltac:(lia) Hn Er Hwr') as (t2 & -> & Hr2).
    + apply Forall_forall. intros y Hy. apply Ha. apply in_or_app.
      right. right. exact Hy.
    + apply Forall_forall. exact Hb.
    + cbn [lift_remove]. eexists; split; [reflexivity |].
      cbn [range_list]. rewrite Hr2, <- app_assoc. reflexivity.
Qed.

Lemma ranges_wf_bounds t :
  ranges_wf t -> Forall (fun x => start x <= end_ x) (range_list t).
Proof.
  induction t as [| l IHl x r IHr]; cbn [ranges_wf range_list];
    [constructor |].
  intros (Wl & Wr & Hx & _). apply Forall_app. auto.
Qed.

(** In a well-formed store the ranges are in increasing order. *)
Lemma ranges_wf_sorted t :
  ranges_wf t ->
  forall l1 x l2, range_list t = l1 ++ x :: l2 ->
    Forall (fun y => end_ y < start x) l1
    /\ Forall (fun y => end_ x < start y) l2.
Proof.
  induction t as [| l IHl z r IHr]; cbn [ranges_wf range_list].
  { intros _ l1 x l2 E. destruct l1; discriminate. }
  intros (Wl & Wr & Hz & Fl & Fr) l1 x l2 E.
  pose proof (ranges_wf_bounds _ Wl) as Bl.
  pose proof (ranges_wf_bounds _ Wr) as Br.
  rewrite Forall_forall in Fl, Fr, Bl, Br.
  apply split_at_node in E.
  destruct E as [(m & El & ->) | [(-> & -> & ->) | (m & -> & Er)]].
  - destruct (IHl Wl _ _ _ El) as (F1 & F2). split; [assumption |].
    assert (Hin : In x (range_list l)) by (rewrite El; apply in_elt).
    apply Forall_app. split; [assumption |].
    constructor; [specialize (Fl _ Hin); specialize (Bl _ Hin) |].
    + pose proof (Fl) as Fl'. lia.
    + apply Forall_forall. intros y Hy.
      specialize (Fl _ Hin). specialize (Fr _ Hy). lia.
  - split; apply Forall_forall; auto.
  - destruct (IHr Wr _ _ _ Er) as (F1 & F2). split; [| assumption].
    assert (Hin : In x (range_list r)) by (rewrite Er; apply in_elt).
    apply Forall_app. split.
    + apply Forall_forall. intros y Hy.
      specialize (Fl _ Hy). specialize (Fr _ Hin). lia.
    + constructor; [specialize (Fr _ Hin); lia | assumption].
Qed.

(** C5.  In a well-formed range store that holds [rng], removing an
    interval [rem] that lies strictly inside [rng] returns a store with
    the same ranges in the same order, but for [rng], which is replaced
    by the two ranges from [rng]'s start to the key before [rem] and
    from the key after [rem] to [rng]'s end. *)
Theorem remove_range_splits :
  forall (t : range_tree) (rem rng : cached_range)
         (l1 l2 : list cached_range),
    ranges_wf t ->
    range_list t = l1 ++ rng :: l2 ->
    start rng < start rem -> start rem <= end_ rem -> end_ rem < end_ rng ->
    exists t',
      remove_range t rem = Ret t'
      /\ range_list t'
         = l1 ++ mk_range (start rng) (scoutfs_key_dec (start rem))
              :: mk_range (scoutfs_key_inc (end_ rem)) (end_ rng)
              :: l2.
Proof.
  intros t rem rng l1 l2 W E H1 H2 H3.
  unfold remove_range.
  change (2 + range_size t)%nat with (S (S (range_size t))).
  cbn [remove_range_loop].
  destruct (remove_descend_middle t (2 + 2 * range_size t) rem rng l1 l2 false
              W ltac:(lia) E H1 H2 H3) as (t1 & -> & E1 & S1).
  destruct (ranges_wf_sorted t W l1 rng l2 E) as (F1 & F2).
  pose proof (ranges_wf_bounds t W) as Hb. rewrite E in Hb.
  apply Forall_app in Hb. destruct Hb as (Hb1 & Hb2).
  inversion_clear Hb2 as [| ? ? Hrng Hb2'].
  unfold scoutfs_key_inc, scoutfs_key_dec in *.
  destruct (remove_descend_link t1 (2 + 2 * range_size t)
              (mk_range (end_ rem + 1) (end_ rng))
              (l1 ++ [mk_range (start rng) (start rem - 1)]) l2)
    as (t2 & -> & E2).
  - lia.
  - cbn. lia.
  - rewrite E1, <- app_assoc. reflexivity.
  - rewrite E1. apply Forall_app. split; [assumption |].
    constructor; [cbn; lia | assumption].
  - apply Forall_app. split.
    + revert F1. apply Forall_impl. intros y Hy. cbn. lia.
    + constructor; [cbn; lia | constructor].
  - revert F2. apply Forall_impl. intros y Hy. cbn. lia.
  - eexists; split; [reflexivity |].
    rewrite E2, <- app_assoc. reflexivity.
Qed.

(** ** Saving and restoring an item: C7 *)

Lemma testbit_one n : 0 <= n -> Z.testbit 1 n = (n =? 0).
Proof.
  intros Hn. destruct (Z.eqb_spec n 0) as [-> | N]; [reflexivity |].
  apply Z.bits_above_log2; cbn; lia.
Qed.

Lemma self_bit_clear d : Z.land d ITEM_DIRTY = 0 -> Z.testbit d 0 = false.
Proof.
  intros H. pose proof (Z.land_spec d ITEM_DIRTY 0) as Hs.
  rewrite H in Hs. cbn in Hs. now rewrite andb_true_r in Hs.
Qed.

Lemma self_bit_set d : Z.land d ITEM_DIRTY <> 0 -> Z.testbit d 0 = true.
Proof.
  intros H. destruct (Z.testbit d 0) eqn:E; [reflexivity |].
  exfalso. apply H. apply Z.bits_inj'. intros n Hn.
  rewrite Z.land_spec, Z.bits_0. unfold ITEM_DIRTY. rewrite testbit_one by lia.
  destruct (Z.eqb_spec n 0) as [-> | _]; [now rewrite E | apply andb_false_r].
Qed.

Lemma clear_then_set d :
  Z.land d ITEM_DIRTY <> 0 ->
  Z.lor (Z.land d (Z.lnot ITEM_DIRTY)) ITEM_DIRTY = d.
Proof.
  intros H. apply self_bit_set in H. apply Z.bits_inj'. intros n Hn.
  rewrite Z.lor_spec, Z.land_spec, Z.lnot_spec by lia.
  unfold ITEM_DIRTY. rewrite testbit_one by lia.
  destruct (Z.eqb_spec n 0) as [-> | _]; cbn [negb].
  - now rewrite H, andb_false_r.
  - now rewrite andb_true_r, orb_false_r.
Qed.

Lemma clear_when_clean d :
  Z.land d ITEM_DIRTY = 0 -> Z.land d (Z.lnot ITEM_DIRTY) = d.
Proof.
  intros H. apply self_bit_clear in H. apply Z.bits_inj'. intros n Hn.
  rewrite Z.land_spec, Z.lnot_spec by lia.
  unfold ITEM_DIRTY. rewrite testbit_one by lia.
  destruct (Z.eqb_spec n 0) as [-> | _]; cbn [negb].
  - now rewrite H.
  - apply andb_true_r.
Qed.

Lemma set_dirty_same it : set_dirty it (dirty it) = it.
Proof. now destruct it. Qed.

Lemma restore_dirty_bits it :
  item_is_dirty it = true ->
  set_dirty (without_self_bit it)
            (Z.lor (dirty (without_self_bit it)) ITEM_DIRTY) = it.
Proof.
  unfold item_is_dirty, without_self_bit. intros H.
  apply negb_true_iff, Z.eqb_neq in H.
  cbn [dirty set_dirty]. rewrite (clear_then_set _ H).
  now destruct it.
Qed.

Lemma restore_clean_bits it :
  item_is_dirty it = false -> without_self_bit it = it.
Proof.
  unfold item_is_dirty, without_self_bit. intros H.
  apply negb_false_iff, Z.eqb_eq in H.
  rewrite (clear_when_clean _ H). apply set_dirty_same.
Qed.

Lemma without_self_bit_clean it : item_is_dirty (without_self_bit it) = false.
Proof.
  rewrite <- item_is_dirty_strip. unfold without_self_bit.
  rewrite strip_clear. reflexivity.
Qed.

Lemma clear_item_dirty_found_exact c k it :
  walk_found (items c) k = Some it ->
  walk_found (items (clear_item_dirty c k)) k
  = Some (if item_is_dirty it then without_self_bit it else it).
Proof.
  intros Ef. unfold clear_item_dirty. rewrite Ef.
  destruct (item_is_dirty it); cbn [negb]; [| exact Ef].
  cbn [items set_items update_dirty_item_counts set_lru].
  rewrite store_item_found by reflexivity. now rewrite Ef.
Qed.

Lemma without_perm k l l' :
  Permutation l l' -> Permutation (without k l) (without k l').
Proof.
  unfold without. induction 1; cbn [filter].
  - constructor.
  - destruct (negb _); [now constructor | assumption].
  - destruct (negb (key y =? k)), (negb (key x =? k));
      try apply Permutation_refl; apply perm_swap.
  - etransitivity; eauto.
Qed.

Lemma without_idem k l : without k (without k l) = without k l.
Proof.
  apply without_other. apply Forall_forall. intros x Hx ->.
  exact (without_no_key _ _ Hx).
Qed.

Lemma perm_without_back l c :
  NoDup (map key l) -> In c l -> Permutation (c :: without (key c) l) l.
Proof.
  induction l as [| x l IH]; cbn [In map]; [tauto |].
  intros N Hin. inversion_clear N as [| ? ? Hx Hl].
  unfold without. cbn [filter]. fold (without (key c) l).
  destruct Hin as [-> | Hin].
  - rewrite Z.eqb_refl. cbn [negb].
    rewrite without_other; [reflexivity |].
    apply Forall_forall. intros y Hy E. apply Hx. now rewrite <- E.
  - destruct (Z.eqb_spec (key x) (key c)) as [E | Hne]; cbn [negb].
    + exfalso. apply Hx. rewrite E. now apply in_map.
    + rewrite perm_swap. constructor. now apply IH.
Qed.

(** The calls on items leave the ranges alone. *)
Lemma ranges_mark c k : ranges (mark_item_dirty c k) = ranges c.
Proof.
  unfold mark_item_dirty. destruct (walk_found _ _); [| reflexivity].
  destruct (item_is_dirty _); reflexivity.
Qed.

Lemma ranges_clear c k : ranges (clear_item_dirty c k) = ranges c.
Proof.
  unfold clear_item_dirty. destruct (walk_found _ _); [| reflexivity].
  destruct (negb _); reflexivity.
Qed.

Lemma ranges_unlink c k : ranges (unlink_item c k) = ranges c.
Proof.
  unfold unlink_item. destruct (on_list _ _); cbn; apply ranges_clear.
Qed.

Lemma ranges_delete_item c k : ranges (delete_item c k) = ranges c.
Proof.
  unfold delete_item. destruct (walk_found _ _); [| reflexivity].
  destruct (negb _); [apply ranges_unlink |].
  rewrite ranges_mark. cbn. apply ranges_clear.
Qed.

Lemma ranges_insert_loop fuel :
  forall c ins lo cp ret c' ins',
    insert_item_loop fuel c ins lo cp = Ret (ret, c', ins') ->
    ranges c' = ranges c.
Proof.
  induction fuel as [| fuel IH]; intros c ins lo cp ret c' ins';
    cbn [insert_item_loop]; [discriminate |].
  destruct (insert_descend (items c) ins) as [t | x t].
  - destruct (item_is_dirty ins); [discriminate |].
    intros [= <- <- <-]. reflexivity.
  - destruct (cp || _).
    + intros [= <- <- <-]. reflexivity.
    + intros H. apply IH in H. rewrite H. unfold erase_item.
      now rewrite ranges_unlink.
Qed.

Lemma insert_item_absent c ins lo cp :
  bst (items c) -> item_is_dirty ins = false ->
  ~ In (key ins) (keys (items c)) ->
  exists c',
    insert_item c ins lo cp = Ret (0, c', ins)
    /\ Permutation (contents (items c')) (strip ins :: contents (items c))
    /\ bst (items c')
    /\ walk_found (items c') (key ins) = Some ins
    /\ ranges c' = ranges c
    /\ nr_dirty_items c' = nr_dirty_items c
    /\ dirty_val_bytes c' = dirty_val_bytes c.
Proof.
  intros B Hd Hn. unfold insert_item. cbn [insert_item_loop].
  pose proof (insert_descend_total (items c) ins) as Ht.
  rewrite (walk_found_absent _ _ Hn) in Ht. destruct Ht as (t & Ed).
  rewrite Ed, Hd. eexists; split; [reflexivity |].
  cbn [items set_items set_lru ranges nr_dirty_items dirty_val_bytes].
  destruct (insert_descend_linked _ _ _ Ed) as (_ & Hp & Hb & _).
  repeat split; auto.
  eapply insert_descend_linked_found; eauto.
Qed.

Lemma without_cons_key k c l :
  key c = k -> without k (c :: l) = without k l.
Proof. intros E. unfold without; cbn [filter]. now rewrite E, Z.eqb_refl. Qed.

(** What [scoutfs_item_delete_save] does under the lock to a cached
    item: the item, as it was, goes to the caller's list; at its key
    the cache has a persistent deletion item when the item was
    persistent and nothing when it was not; the other items stay. *)
Lemma delete_save_locked_spec c k it saved :
  bst (items c) ->
  In it (tree_items (items c)) -> key it = k -> deletion it = false ->
  exists c1,
    delete_save_locked k saved c = Ret (0, c1, saved ++ [it])
    /\ bst (items c1)
    /\ ranges c1 = ranges c
    /\ Permutation (without k (contents (items c1)))
                   (without k (contents (items c)))
    /\ match walk_found (items c1) k with
       | Some x => deletion x = true /\ persistent x = true
                   /\ persistent it = true
       | None => True
       end.
Proof.
  intros B Hin Hk Hdel.
  pose proof (bst_found _ _ _ B Hin Hk) as Hw.
  unfold delete_save_locked.
  rewrite (find_item_present _ _ _ B Hin Hk Hdel).
  rewrite (clear_item_dirty_found_exact c k it Hw).
  assert (Eitem :
            (if item_is_dirty it
             then set_dirty (if item_is_dirty it then without_self_bit it
                             else it)
                    (Z.lor (dirty (if item_is_dirty it
                                   then without_self_bit it else it))
                           ITEM_DIRTY)
             else if item_is_dirty it then without_self_bit it else it)
            = it).
  { destruct (item_is_dirty it) eqn:Ed; [| reflexivity].
    now apply restore_dirty_bits. }
  rewrite Eitem.
  destruct (unlink_item_contents c k B) as (Hc1 & B1).
  set (del := set_persistent (alloc_item k None) (persistent it)).
  assert (Hkd : key del = k) by reflexivity.
  destruct (insert_item_absent (unlink_item c k) del false false B1 eq_refl)
    as (c2 & -> & Hp2 & B2 & Hw2 & Hr2 & _).
  { rewrite <- keys_contents, Hc1, Hkd. apply without_no_key. }
  cbn [Z.eqb]. eexists; split; [reflexivity |].
  rewrite Hkd in Hw2.
  assert (Hp2' : Permutation (without k (contents (items c2)))
                             (without k (contents (items c)))).
  { rewrite (without_perm k _ _ Hp2), without_cons_key by reflexivity.
    now rewrite Hc1, without_idem. }
  unfold delete_item. rewrite Hw2.
  change (persistent del) with (persistent it).
  destruct (persistent it) eqn:Ep; cbn [negb].
  - (* persistent: a dirty deletion item stays *)
    assert (Ec : clear_item_dirty c2 k = c2).
    { unfold clear_item_dirty. now rewrite Hw2. }
    rewrite Ec.
    set (t3 := fst (store_item (items c2) k
                      (fun i => set_deletion (set_val i None 0) true) false)).
    assert (Hw3 : walk_found t3 k = Some (make_deletion del)).
    { unfold t3. rewrite store_item_found by reflexivity. now rewrite Hw2. }
    assert (B3 : bst t3) by (apply store_item_bst; auto).
    assert (Hc3 : contents t3 = map (at_key k make_deletion)
                                    (contents (items c2)))
      by (apply store_item_contents; auto).
    unfold mark_item_dirty. cbn [items set_items]. rewrite Hw3.
    change (item_is_dirty (make_deletion del)) with false. cbv iota.
    cbn [items set_items update_dirty_item_counts set_lru ranges].
    repeat split.
    + apply store_item_bst; auto.
    + rewrite Hr2. apply ranges_unlink.
    + rewrite (store_item_contents k _ mark_dirty) by auto using strip_mark.
      rewrite Hc3, !without_at_key by reflexivity. exact Hp2'.
    + rewrite store_item_found by reflexivity. rewrite Hw3. cbn. auto.
  - (* not persistent: the new item is erased again *)
    destruct (unlink_item_contents c2 k B2) as (Hc4 & B4).
    unfold erase_item. repeat split.
    + exact B4.
    + rewrite ranges_unlink, Hr2. apply ranges_unlink.
    + rewrite Hc4, without_idem. exact Hp2'.
    + rewrite walk_found_absent; [exact Logic.I |].
      rewrite <- keys_contents, Hc4. apply without_no_key.
Qed.

Lemma insert_item_bst fuel :
  forall c ins lo cp ret c' ins',
    bst (items c) ->
    insert_item_loop fuel c ins lo cp = Ret (ret, c', ins') ->
    bst (items c').
Proof.
  induction fuel as [| fuel IH]; intros c ins lo cp ret c' ins' B;
    cbn [insert_item_loop]; [discriminate |].
  destruct (insert_descend (items c) ins) as [t | x t] eqn:Ed.
  - destruct (item_is_dirty ins); [discriminate |].
    intros [= <- <- <-]. cbn [items set_items set_lru].
    destruct (insert_descend_linked _ _ _ Ed) as (_ & _ & Hb & _). auto.
  - destruct (insert_descend_present _ _ _ _ Ed) as (_ & _ & _ & Hb & _).
    destruct (cp || _).
    + intros [= <- <- <-]. cbn [items set_items]. auto.
    + apply IH. unfold erase_item.
      apply unlink_item_contents. cbn [items set_items]. auto.
Qed.

Lemma lock_write_covers_read lock k :
  lock_coverage lock k SCOUTFS_LOCK_WRITE = true ->
  lock_coverage lock k SCOUTFS_LOCK_READ = true.
Proof.
  unfold lock_coverage. destruct (mode lock); cbn; auto; discriminate.
Qed.

Lemma mark_after_insert c k item X :
  bst (items c) ->
  walk_found (items c) k = Some item -> item_is_dirty item = false ->
  Permutation (contents (items c)) (strip item :: without k X) ->
  walk_found (items (mark_item_dirty c k)) k
  = Some (set_dirty item (Z.lor (dirty item) ITEM_DIRTY))
  /\ Permutation (contents (items (mark_item_dirty c k)))
                 (mark_dirty (strip item) :: without k X).
Proof.
  intros B Hw Hd Hp. unfold mark_item_dirty. rewrite Hw, Hd.
  cbn [items set_items update_dirty_item_counts set_lru]. split.
  - rewrite store_item_found by reflexivity. now rewrite Hw.
  - rewrite (store_item_contents k _ mark_dirty) by auto using strip_mark.
    rewrite (Permutation_map (at_key k mark_dirty) Hp). cbn [map].
    rewrite at_key_eq
      by (rewrite strip_key; eapply walk_found_key; eauto).
    rewrite at_key_other; [reflexivity |].
    apply Forall_forall. intros x Hx ->. exact (without_no_key _ _ Hx).
Qed.

Lemma strip_dirty_item it :
  item_is_dirty it = true -> mark_dirty (strip (without_self_bit it)) = strip it.
Proof.
  unfold item_is_dirty. intros H. apply negb_true_iff, Z.eqb_neq in H.
  unfold mark_dirty, strip, without_self_bit, set_dirty; cbn.
  destruct (land_item_dirty (dirty it)) as [E | E]; [contradiction |].
  now rewrite E.
Qed.

(** What [scoutfs_item_restore] does with one saved item whose key is
    locked and cached, when the cache has at that key nothing or the
    deletion item that [scoutfs_item_delete_save] left. *)
Lemma restore_one_spec c it lock k :
  bst (items c) -> key it = k -> deletion it = false ->
  match walk_found (items c) k with
  | Some x => deletion x = true /\ persistent x = true /\ persistent it = true
  | None => True
  end ->
  lock_coverage lock k SCOUTFS_LOCK_WRITE = true ->
  range_cached c k = true ->
  exists c2,
    scoutfs_item_restore c [it] lock = Ret (0, c2)
    /\ restore_items c [it] = Ret c2
    /\ walk_found (items c2) k = Some it
    /\ Permutation (contents (items c2))
                   (strip it :: without k (contents (items c)))
    /\ ranges c2 = ranges c.
Proof.
  intros B Hk Hdel Hat Hlock Hrange.
  unfold scoutfs_item_restore. cbn [forallb].
  assert (Hcov : restore_covered c lock it = true).
  { unfold restore_covered. rewrite Hk, Hrange, andb_true_r.
    destruct (item_is_dirty it); [exact Hlock |].
    now apply lock_write_covers_read. }
  rewrite Hcov. cbn [andb restore_items].
  change (set_dirty it (Z.land (dirty it) (Z.lnot ITEM_DIRTY)))
    with (without_self_bit it).
  change (key (without_self_bit it)) with (key it). rewrite Hk.
  assert (Hfind : find_item (items c) k = None).
  { unfold find_item. destruct (walk_found (items c) k) as [x |];
      [| reflexivity]. destruct Hat as (-> & _). reflexivity. }
  rewrite Hfind.
  assert (Hins : exists c3,
             insert_item c (without_self_bit it) false false
             = Ret (0, c3, without_self_bit it)
             /\ walk_found (items c3) k = Some (without_self_bit it)
             /\ bst (items c3)
             /\ Permutation (contents (items c3))
                  (strip (without_self_bit it)
                   :: without k (contents (items c)))
             /\ ranges c3 = ranges c).
  { destruct (walk_found (items c) k) as [x |] eqn:Hw.
    - destruct Hat as (Hxd & Hxp & Hip).
      pose proof (insert_item_present c (without_self_bit it) false false x B
                    (without_self_bit_clean it) (walk_found_in _ _ _ Hw)
                    (eq_trans (walk_found_key _ _ _ Hw) (eq_sym Hk))) as H.
      rewrite Hxd, Hxp in H. cbn [orb andb negb] in H.
      assert (E : set_persistent (without_self_bit it)
                    (persistent (without_self_bit it) || true)
                  = without_self_bit it).
      { rewrite orb_true_r. destruct it as [d dl p kk vv vl]; cbn in *.
        now subst p. }
      rewrite E in H. destruct H as (c3 & Ei & Hp).
      exists c3. split; [exact Ei |].
      change (key (without_self_bit it)) with (key it) in Hp.
      rewrite Hk in Hp.
      destruct (insert_item_success_found _ _ _ _ _ _ _ Ei) as (Hw3 & _).
      change (key (without_self_bit it)) with (key it) in Hw3.
      rewrite Hk in Hw3. repeat split; auto.
      + eapply insert_item_bst; eauto.
      + eapply ranges_insert_loop; eauto.
    - destruct (insert_item_absent c (without_self_bit it) false false B
                  (without_self_bit_clean it)) as (c3 & Ei & Hp & B3 & Hw3 & Hr3 & _).
      { change (key (without_self_bit it)) with (key it). rewrite Hk.
        eapply bst_absent; eauto. }
      change (key (without_self_bit it)) with (key it) in Hw3.
      rewrite Hk in Hw3.
      exists c3. repeat split; auto.
      rewrite without_other; [exact Hp |].
      now apply absent_in_contents. }
  destruct Hins as (c3 & -> & Hw3 & B3 & Hp3 & Hr3).
  cbn [Z.eqb andb].
  destruct (item_is_dirty it) eqn:Ed.
  - destruct (mark_after_insert c3 k (without_self_bit it)
                (contents (items c)) B3 Hw3 (without_self_bit_clean it) Hp3)
      as (Hw4 & Hp4).
    eexists; split; [reflexivity |]. split; [reflexivity |].
    rewrite restore_dirty_bits in Hw4 by assumption.
    rewrite strip_dirty_item in Hp4 by assumption.
    repeat split; auto. now rewrite ranges_mark.
  - eexists; split; [reflexivity |]. split; [reflexivity |].
    rewrite restore_clean_bits in Hw3, Hp3 by assumption.
    repeat split; auto.
Qed.

Lemma range_cached_ranges c c' k :
  ranges c' = ranges c -> range_cached c' k = range_cached c k.
Proof. intros E. unfold range_cached, check_range. now rewrite E. Qed.

Lemma drift_counters D E c c' :
  holds (I_drift D E) c -> holds (I_drift D E) c' ->
  Permutation (contents (items c')) (contents (items c)) ->
  nr_dirty_items c' = nr_dirty_items c
  /\ dirty_val_bytes c' = dirty_val_bytes c.
Proof.
  unfold holds, I_drift. intros (Hn & Hb) (Hn' & Hb') Hp.
  rewrite !dirty_count_total, !dirty_bytes_total in *.
  rewrite (total_perm one_if_dirty _ _ Hp) in Hn'.
  rewrite (total_perm len_if_dirty _ _ Hp) in Hb'. lia.
Qed.

(** [scoutfs_item_restore] of one saved item whose key no cached range
    contains: -EINVAL, and the cache is the one it was given. *)
Lemma restore_one_uncached c it lock :
  range_cached c (key it) = false ->
  scoutfs_item_restore c [it] lock = Ret (- EINVAL, c).
Proof.
  intros Hr. unfold scoutfs_item_restore, restore_covered. cbn [forallb].
  now rewrite Hr, !andb_false_r.
Qed.

(** C7, as the code has it.  Let a live item be cached at a key that
    the caller's lock covers for writing.  Then
    [scoutfs_item_delete_save] hands out the item.  When a cached range
    contains the key, [scoutfs_item_restore] of the saved list succeeds
    and puts the item back: the item then found at the key has the key,
    the value, the length, the flags and the dirty bit of the original;
    the cache holds the items it held before, and [nr_dirty_items] and
    [dirty_val_bytes] are what they were, whether the item was dirty or
    clean.  When no cached range contains the key,
    [scoutfs_item_restore] returns -EINVAL and leaves the cache as
    [scoutfs_item_delete_save] left it, with no live item at the key. *)
Theorem delete_save_restore_round_trip MAX c k it lock fills :
  cache_wf c ->
  In it (tree_items (items c)) -> key it = k -> deletion it = false ->
  lock_coverage lock k SCOUTFS_LOCK_WRITE = true ->
  exists c1,
    scoutfs_item_delete_save MAX c k [] lock true fills = Ret (0, c1, [it])
    /\ (range_cached c k = true ->
        exists c2,
          scoutfs_item_restore c1 [it] lock = Ret (0, c2)
          /\ holds_item (items c2) k it
          /\ Permutation (contents (items c2)) (contents (items c))
          /\ nr_dirty_items c2 = nr_dirty_items c
          /\ dirty_val_bytes c2 = dirty_val_bytes c)
    /\ (range_cached c k = false ->
        scoutfs_item_restore c1 [it] lock = Ret (- EINVAL, c1)
        /\ find_item (items c1) k = None).
Proof.
  intros W Hin Hk Hdel Hlock.
  destruct W as (B & L).
  destruct (delete_save_locked_spec c k it [] B Hin Hk Hdel)
    as (c1 & E1 & B1 & R1 & P1 & Hat).
  cbn [app] in E1.
  exists c1.
  split.
  { unfold scoutfs_item_delete_save. rewrite Hlock. cbn [negb].
    rewrite read_through_unfold, E1. reflexivity. }
  split; cycle 1.
  { intros Hrange. split.
    - apply restore_one_uncached.
      now rewrite Hk, (range_cached_ranges c c1 k R1).
    - unfold find_item. destruct (walk_found (items c1) k) as [x |];
        [| reflexivity]. destruct Hat as (-> & _). reflexivity. }
  intros Hrange.
  destruct (restore_one_spec c1 it lock k B1 Hk Hdel Hat Hlock)
    as (c2 & E2 & E2' & Hw2 & P2 & R2).
  { now rewrite (range_cached_ranges c c1 k R1). }
  exists c2.
  assert (Hp : Permutation (contents (items c2)) (contents (items c))).
  { rewrite P2, P1, <- Hk. rewrite <- (strip_key it).
    apply perm_without_back.
    - now apply contents_nodup.
    - now apply in_map. }
  split; [exact E2 |]. split; [exact (found_holds _ _ _ Hw2) |].
  split; [exact Hp |].
  set (D := nr_dirty_items c - dirty_count (contents (items c))).
  set (E := dirty_val_bytes c - dirty_bytes (contents (items c))).
  assert (G : good (I_drift D E) c).
  { split; [split; assumption |]. split; reflexivity. }
  assert (G1 : good (I_drift D E) c1).
  { exact (good_delete_save_locked _ (drift_list_invariant D E)
             k [] c 0 c1 [it] G E1). }
  assert (G2 : good (I_drift D E) c2).
  { refine (good_restore_items _ (drift_list_invariant D E)
              [it] c1 c2 _ G1 E2').
    constructor; [| constructor]. split; [| exact Hdel].
    exact (proj1 (Forall_forall _ _) L it Hin). }
  exact (drift_counters D E c c2 (proj2 G) (proj2 G2) Hp).
Qed.

(** C7 as it is written fails.  [cache_forced_5] holds a dirty item at
    key 5 and no cached range, as [scoutfs_item_create_force] leaves it.
    [scoutfs_item_delete_save] of key 5 succeeds and hands out the item;
    [scoutfs_item_restore] of the saved list then returns -EINVAL and
    changes nothing: no item is found at key 5 and [dirty_val_bytes],
    3 before the two calls, is 0 after them. *)
Lemma delete_save_restore_counterexample :
  find_item (items cache_forced_5) 5 = Some item_dirty_5
  /\ scoutfs_item_delete_save sample_max_val_size cache_forced_5 5 []
                              write_lock true []
     = Ret (0, cache_saved_5, [item_dirty_5])
  /\ scoutfs_item_restore cache_saved_5 [item_dirty_5] write_lock
     = Ret (- EINVAL, cache_saved_5)
  /\ find_item (items cache_saved_5) 5 = None
  /\ dirty_val_bytes cache_forced_5 = 3
  /\ dirty_val_bytes cache_saved_5 = 0.
Proof. repeat split. Qed.

(** ** The flush: C6 *)

(** C6 does not hold of the code.  After [scoutfs_item_dirty_seg]
    every item that was dirty should be clean and [nr_dirty_items]
    zero.  [cache_restored_3_5] is the cache left by the public calls of
    [restored_cache]; its counters are right and its two items are
    dirty.  Its flush into an empty segment with room returns 0 having
    appended item 3 only: item 5 is still dirty, not a deletion item,
    and [nr_dirty_items] is 1.  A second flush changes nothing and
    appends nothing, with the dirty item still there. *)
Theorem flush_skips_restored_item :
  restored_cache = Ret cache_restored_3_5
  /\ dirty_accounting cache_restored_3_5
  /\ scoutfs_item_dirty_seg cache_restored_3_5 (mk_segment [] 10)
     = Ret (0, cache_flushed_3_5, segment_flushed_3)
  /\ walk_found (items cache_flushed_3_5) 5
     = Some (mk_item 3 false true 5 (Some ["a"%byte; "b"%byte; "c"%byte]) 3)
  /\ item_is_dirty
       (mk_item 3 false true 5 (Some ["a"%byte; "b"%byte; "c"%byte]) 3)
     = true
  /\ nr_dirty_items cache_flushed_3_5 = 1
  /\ map seg_key (seg_items segment_flushed_3) = [3]
  /\ scoutfs_item_dirty_seg cache_flushed_3_5 segment_flushed_3
     = Ret (0, cache_flushed_3_5, segment_flushed_3).
Proof. repeat split. Qed.

(** ** The theorems at sample inputs *)

Lemma sample_max_val_size_fits : sample_max_val_size <= INT_MAX.
Proof. unfold sample_max_val_size, INT_MAX. lia. Defined.

Lemma cache_forced_5_bst : bst (items cache_forced_5).
Proof. cbn. repeat constructor. Defined.

Lemma cache_clean_5_wf : cache_wf cache_clean_5.
Proof.
  split; cbn; repeat constructor; unfold len_ok, INT_MAX; cbn; lia.
Defined.

Lemma cache_dirty_5_wf : cache_wf cache_dirty_5.
Proof.
  split; cbn; repeat constructor; unfold len_ok, INT_MAX; cbn; lia.
Defined.

Lemma lookup_results_witness :
  sample_max_val_size <= INT_MAX
  /\ cache_wf cache_5_7
  /\ ranges_wf (ranges cache_5_7)
  /\ vec_ok (Some value_de)
  /\ lock_coverage read_lock 5 SCOUTFS_LOCK_READ = true
  /\ lru_list cache_5_7 = [5; 7]
  /\ scoutfs_item_lookup sample_max_val_size cache_5_7 5 (Some value_de)
                         read_lock []
     = Ret (2, set_lru cache_5_7 [7; 5] 2,
            Some (mk_kvec ["a"%byte; "b"%byte] 2)).
Proof.
  assert (W : cache_wf cache_5_7).
  { split; cbn; [repeat split; repeat constructor; lia |].
    repeat constructor; unfold len_ok, INT_MAX; cbn; lia. }
  assert (R : ranges_wf (ranges cache_5_7))
    by (cbn; repeat constructor; lia).
  assert (V : vec_ok (Some value_de)) by (cbn; lia).
  split; [exact sample_max_val_size_fits |].
  split; [exact W |]. split; [exact R |].
  split; [exact V |]. split; [reflexivity |]. split; [reflexivity |].
  exact (proj1 (lookup_results sample_max_val_size cache_5_7 5
                  (Some value_de) read_lock [] sample_max_val_size_fits
                  W R V eq_refl)
           (mk_item 0 false true 5 (Some ["a"%byte; "b"%byte; "c"%byte]) 3)
           (or_introl eq_refl) eq_refl eq_refl).
Defined.

Lemma tombstone_invariant_preserved_witness :
  sample_max_val_size <= INT_MAX
  /\ op_ok (OpDelete 5 write_lock [])
  /\ cache_wf cache_dirty_5
  /\ tombstone_invariant cache_dirty_5
  /\ exists c',
      run_op sample_max_val_size cache_dirty_5 (OpDelete 5 write_lock [])
      = Ret c'
      /\ find_item (items c') 5 = None
      /\ keys (items c') = [5]
      /\ cache_wf c' /\ tombstone_invariant c'.
Proof.
  assert (T : tombstone_invariant cache_dirty_5).
  { unfold tombstone_invariant, tomb_ok. cbn. repeat constructor.
    all: discriminate. }
  split; [exact sample_max_val_size_fits |]. split; [constructor |].
  split; [exact cache_dirty_5_wf |]. split; [exact T |].
  eexists. split; [reflexivity |]. split; [reflexivity |].
  split; [reflexivity |].
  exact (tombstone_invariant_preserved sample_max_val_size
           (OpDelete 5 write_lock []) cache_dirty_5 _
           sample_max_val_size_fits (Forall_nil _) cache_dirty_5_wf T
           eq_refl).
Defined.

Lemma dirty_accounting_preserved_witness :
  sample_max_val_size <= INT_MAX
  /\ op_ok (OpUpdate 5 (Some value_de) write_lock true [])
  /\ cache_wf cache_dirty_5
  /\ dirty_accounting cache_dirty_5
  /\ exists c',
      run_op sample_max_val_size cache_dirty_5
             (OpUpdate 5 (Some value_de) write_lock true [])
      = Ret c'
      /\ dirty_val_bytes c' = 2
      /\ cache_wf c' /\ dirty_accounting c'.
Proof.
  assert (O : op_ok (OpUpdate 5 (Some value_de) write_lock true [])).
  { split; [cbn; lia | constructor]. }
  assert (A : dirty_accounting cache_dirty_5) by (split; reflexivity).
  split; [exact sample_max_val_size_fits |]. split; [exact O |].
  split; [exact cache_dirty_5_wf |]. split; [exact A |].
  eexists. split; [reflexivity |]. split; [reflexivity |].
  exact (dirty_accounting_preserved sample_max_val_size
           (OpUpdate 5 (Some value_de) write_lock true []) cache_dirty_5 _
           sample_max_val_size_fits O cache_dirty_5_wf A eq_refl).
Defined.

Lemma next_past_last_is_enoent_witness :
  5 < 7
  /\ scoutfs_item_next sample_max_val_size 4 cache_clean_5 7 5 None
                       read_lock []
     = Ret (- ENOENT, cache_clean_5, 7, None).
Proof.
  assert (H : 5 < 7) by lia.
  split; [exact H |].
  exact (next_past_last_is_enoent sample_max_val_size 4 cache_clean_5 7 5
           None read_lock [] H).
Defined.

Lemma remove_range_splits_witness :
  ranges_wf (RNode RNil (mk_range 0 10) RNil)
  /\ exists t',
      remove_range (RNode RNil (mk_range 0 10) RNil) (mk_range 3 6) = Ret t'
      /\ range_list t' = [mk_range 0 2; mk_range 7 10].
Proof.
  assert (R : ranges_wf (RNode RNil (mk_range 0 10) RNil))
    by (cbn; repeat constructor; lia).
  split; [exact R |].
  refine (remove_range_splits (RNode RNil (mk_range 0 10) RNil)
            (mk_range 3 6) (mk_range 0 10) [] [] R eq_refl _ _ _);
    cbn; lia.
Defined.

Lemma delete_save_restore_round_trip_witness :
  cache_wf cache_dirty_5
  /\ In item_dirty_5 (tree_items (items cache_dirty_5))
  /\ lock_coverage write_lock 5 SCOUTFS_LOCK_WRITE = true
  /\ range_cached cache_dirty_5 5 = true
  /\ (exists c1,
      scoutfs_item_delete_save sample_max_val_size cache_dirty_5 5 []
                               write_lock true []
      = Ret (0, c1, [item_dirty_5])
      /\ (range_cached cache_dirty_5 5 = true ->
          exists c2,
            scoutfs_item_restore c1 [item_dirty_5] write_lock = Ret (0, c2)
            /\ holds_item (items c2) 5 item_dirty_5
            /\ Permutation (contents (items c2))
                           (contents (items cache_dirty_5))
            /\ nr_dirty_items c2 = nr_dirty_items cache_dirty_5
            /\ dirty_val_bytes c2 = dirty_val_bytes cache_dirty_5)
      /\ (range_cached cache_dirty_5 5 = false ->
          scoutfs_item_restore c1 [item_dirty_5] write_lock
          = Ret (- EINVAL, c1)
          /\ find_item (items c1) 5 = None))
  /\ cache_wf cache_forced_5
  /\ In item_dirty_5 (tree_items (items cache_forced_5))
  /\ range_cached cache_forced_5 5 = false
  /\ (exists c1,
      scoutfs_item_delete_save sample_max_val_size cache_forced_5 5 []
                               write_lock true []
      = Ret (0, c1, [item_dirty_5])
      /\ (range_cached cache_forced_5 5 = true ->
          exists c2,
            scoutfs_item_restore c1 [item_dirty_5] write_lock = Ret (0, c2)
            /\ holds_item (items c2) 5 item_dirty_5
            /\ Permutation (contents (items c2))
                           (contents (items cache_forced_5))
            /\ nr_dirty_items c2 = nr_dirty_items cache_forced_5
            /\ dirty_val_bytes c2 = dirty_val_bytes cache_forced_5)
      /\ (range_cached cache_forced_5 5 = false ->
          scoutfs_item_restore c1 [item_dirty_5] write_lock
          = Ret (- EINVAL, c1)
          /\ find_item (items c1) 5 = None)).
Proof.
  assert (W : cache_wf cache_forced_5).
  { split; cbn; repeat constructor; unfold len_ok, INT_MAX; cbn; lia. }
  split; [exact cache_dirty_5_wf |]. split; [left; reflexivity |].
  split; [reflexivity |]. split; [reflexivity |].
  split.
  { exact (delete_save_restore_round_trip sample_max_val_size cache_dirty_5
             5 item_dirty_5 write_lock [] cache_dirty_5_wf
             (or_introl eq_refl) eq_refl eq_refl eq_refl). }
  split; [exact W |]. split; [left; reflexivity |].
  split; [reflexivity |].
  exact (delete_save_restore_round_trip sample_max_val_size cache_forced_5 5
           item_dirty_5 write_lock [] W (or_introl eq_refl) eq_refl eq_refl
           eq_refl).
Defined.

(** * Further properties *)

(** ** The items in key order *)

Lemma filter_all (A : Type) (f : A -> bool) (l : list A) :
  Forall (fun x => f x = true) l -> filter f l = l.
Proof.
  induction 1 as [| x l Hx _ IH]; cbn; [reflexivity |].
  now rewrite Hx, IH.
Qed.

Lemma filter_none (A : Type) (f : A -> bool) (l : list A) :
  Forall (fun x => f x = false) l -> filter f l = [].
Proof.
  induction 1 as [| x l Hx _ IH]; cbn; [reflexivity |].
  now rewrite Hx, IH.
Qed.

Lemma Forall_keys (Q : Z -> Prop) (t : item_tree) :
  Forall Q (keys t) -> Forall (fun it => Q (key it)) (tree_items t).
Proof. unfold keys. intros H. exact (proj1 (Forall_map _ _ _) H). Qed.

Lemma items_from_node l it r k :
  bst (INode l it r) ->
  items_from k (tree_items (INode l it r))
  = if k <? key it then items_from k (tree_items l) ++ it :: tree_items r
    else if key it <? k then items_from k (tree_items r)
    else it :: tree_items r.
Proof.
  intros (_ & _ & Fl & Fr). apply Forall_keys in Fl, Fr.
  unfold items_from. cbn [tree_items]. rewrite filter_app. cbn [filter].
  destruct (Z.ltb_spec k (key it)) as [H | H].
  - replace (k <=? key it) with true by (symmetry; apply Z.leb_le; lia).
    f_equal. f_equal. apply filter_all.
    eapply Forall_impl; [| exact Fr]. cbn. intros x Hx. apply Z.leb_le. lia.
  - destruct (Z.ltb_spec (key it) k) as [H' | H'].
    + replace (k <=? key it) with false by (symmetry; apply Z.leb_gt; lia).
      rewrite filter_none; [reflexivity |].
      eapply Forall_impl; [| exact Fl]. cbn. intros x Hx. apply Z.leb_gt. lia.
    + replace (k <=? key it) with true by (symmetry; apply Z.leb_le; lia).
      rewrite filter_none.
      * cbn [app]. f_equal. apply filter_all.
        eapply Forall_impl; [| exact Fr]. cbn. intros x Hx.
        apply Z.leb_le. lia.
      * eapply Forall_impl; [| exact Fl]. cbn. intros x Hx.
        apply Z.leb_gt. lia.
Qed.

Lemma next_item_from t k :
  bst t ->
  forall prev next,
    match walk_items_from t k prev next with
    | (Some it, _, _) => Some it
    | (None, _, nx) => nx
    end
    = match items_from k (tree_items t) with
      | x :: _ => Some x
      | [] => next
      end.
Proof.
  induction t as [| l IHl it r IHr]; intros B prev next; [reflexivity |].
  rewrite (items_from_node l it r k B). destruct B as (Bl & Br & _).
  cbn [walk_items_from]. key_cases k (key it).
  - replace (k <? key it) with true by (symmetry; apply Z.ltb_lt; lia).
    rewrite (IHl Bl). destruct (items_from k (tree_items l)); reflexivity.
  - subst k. rewrite Z.ltb_irrefl. reflexivity.
  - replace (k <? key it) with false by (symmetry; apply Z.ltb_ge; lia).
    replace (key it <? k) with true by (symmetry; apply Z.ltb_lt; lia).
    apply (IHr Br).
Qed.

Lemma next_item_first t k :
  bst t -> next_item t k = hd_error (items_from k (tree_items t)).
Proof.
  intros B. unfold next_item, walk_items.
  pose proof (next_item_from t k B None None) as H.
  destruct (walk_items_from t k None None) as [[[f |] p] n];
    rewrite H; destruct (items_from k (tree_items t)); reflexivity.
Qed.

Lemma rb_next_chain_after t k :
  bst t -> In k (keys t) ->
  forall above,
    rb_next_chain_from t k above
    = filter (fun it => k <? key it) (tree_items t) ++ above.
Proof.
  induction t as [| l IHl it r IHr]; intros B Hin above; [destruct Hin |].
  pose proof B as (Bl & Br & Fl & Fr).
  rewrite keys_node in Hin. apply in_app_or in Hin.
  assert (Fl' := Forall_keys _ _ Fl). assert (Fr' := Forall_keys _ _ Fr).
  cbn [rb_next_chain_from tree_items]. rewrite filter_app. cbn [filter].
  key_cases k (key it).
  - assert (Hl : In k (keys l)).
    { destruct Hin as [H | [H | H]]; [exact H | lia |].
      rewrite Forall_forall in Fr. specialize (Fr _ H). lia. }
    rewrite (IHl Bl Hl).
    replace (k <? key it) with true by (symmetry; apply Z.ltb_lt; lia).
    rewrite (filter_all _ _ (tree_items r)).
    + now rewrite <- app_assoc.
    + eapply Forall_impl; [| exact Fr']. cbn. intros x Hx.
      apply Z.ltb_lt. lia.
  - subst k. rewrite Z.ltb_irrefl. rewrite filter_none.
    + cbn [app]. f_equal. symmetry. apply filter_all.
      eapply Forall_impl; [| exact Fr']. cbn. intros x Hx.
      apply Z.ltb_lt. lia.
    + eapply Forall_impl; [| exact Fl']. cbn. intros x Hx.
      apply Z.ltb_ge. lia.
  - assert (Hr : In k (keys r)).
    { destruct Hin as [H | [H | H]]; [| lia | exact H].
      rewrite Forall_forall in Fl. specialize (Fl _ H). lia. }
    rewrite (IHr Br Hr).
    replace (k <? key it) with false by (symmetry; apply Z.ltb_ge; lia).
    rewrite (filter_none _ _ (tree_items l)); [reflexivity |].
    eapply Forall_impl; [| exact Fl']. cbn. intros x Hx.
    apply Z.ltb_ge. lia.
Qed.

Lemma ascending_app l x r :
  ascending l -> ascending r ->
  Forall (fun y => key y < key x) l -> Forall (fun y => key x < key y) r ->
  ascending (l ++ x :: r).
Proof.
  intros Al Ar Fl Fr. induction l as [| a l IH]; cbn; [auto |].
  destruct Al as (Fa & Al). inversion_clear Fl as [| ? ? Ha Fl'].
  split; [| auto]. apply Forall_app. split; [exact Fa |].
  constructor; [exact Ha |].
  eapply Forall_impl; [| exact Fr]. cbn. intros; lia.
Qed.

Lemma bst_ascending t : bst t -> ascending (tree_items t).
Proof.
  induction t as [| l IHl it r IHr]; cbn [bst tree_items]; [cbn; auto |].
  intros (Bl & Br & Fl & Fr).
  apply ascending_app; auto.
  - exact (Forall_keys (fun x => x < key it) l Fl).
  - exact (Forall_keys (fun x => key it < x) r Fr).
Qed.

Lemma items_from_rest k l it rest :
  ascending l -> items_from k l = it :: rest ->
  rest = filter (fun x => key it <? key x) l.
Proof.
  unfold items_from. induction l as [| x l IH]; cbn [filter ascending];
    [discriminate |].
  intros (Fx & Al). destruct (Z.leb_spec k (key x)) as [H | H].
  - intros [= <- <-]. rewrite Z.ltb_irrefl.
    rewrite !filter_all; [reflexivity | |].
    + eapply Forall_impl; [| exact Fx]. cbn. intros y Hy.
      apply Z.ltb_lt. lia.
    + eapply Forall_impl; [| exact Fx]. cbn. intros y Hy.
      apply Z.leb_le. lia.
  - intros E. assert (Hin : In it (filter (fun y => k <=? key y) l))
      by (rewrite E; left; reflexivity).
    apply filter_In in Hin. destruct Hin as (_ & Hk). apply Z.leb_le in Hk.
    replace (key it <? key x) with false by (symmetry; apply Z.ltb_ge; lia).
    now apply IH.
Qed.

Lemma ascending_filter f l : ascending l -> ascending (filter f l).
Proof.
  induction l as [| x l IH]; cbn [filter ascending]; [auto |].
  intros (Fx & Al). destruct (f x); cbn [ascending]; auto.
  split; [| auto]. apply Forall_forall. intros y Hy.
  apply filter_In in Hy. rewrite Forall_forall in Fx. now apply Fx.
Qed.

Lemma filter_filter (A : Type) (f g : A -> bool) (l : list A) :
  filter f (filter g l) = filter (fun x => g x && f x) l.
Proof.
  induction l as [| x l IH]; cbn; [reflexivity |].
  destruct (g x); cbn; [destruct (f x) |]; now rewrite IH.
Qed.

Lemma live_within_from k last l :
  live_within k last l
  = filter (fun it => negb (deletion it) && (key it <=? last))
           (items_from k l).
Proof.
  unfold live_within, items_from. rewrite filter_filter.
  apply filter_ext. intros it.
  destruct (deletion it), (k <=? key it), (key it <=? last); reflexivity.
Qed.

(** [next_item_node] finds, along an increasing chain, the first item
    within [last] that is not a deletion item. *)
Lemma next_item_node_in_first chain last :
  ascending chain ->
  next_item_node_in chain last
  = hd_error (filter (fun it => negb (deletion it) && (key it <=? last))
                     chain).
Proof.
  induction chain as [| x l IH]; cbn [next_item_node_in filter ascending];
    [reflexivity |].
  intros (Fx & Al). key_cases (key x) last.
  - replace (key x <=? last) with true by (symmetry; apply Z.leb_le; lia).
    destruct (deletion x); cbn [negb andb]; [now apply IH | reflexivity].
  - replace (key x <=? last) with true by (symmetry; apply Z.leb_le; lia).
    destruct (deletion x); cbn [negb andb]; [now apply IH | reflexivity].
  - replace (key x <=? last) with false by (symmetry; apply Z.leb_gt; lia).
    rewrite andb_false_r. rewrite filter_none; [reflexivity |].
    eapply Forall_impl; [| exact Fx]. cbn. intros y Hy.
    replace (key y <=? last) with false by (symmetry; apply Z.leb_gt; lia).
    apply andb_false_r.
Qed.

Lemma item_for_next_first t k range_end last :
  bst t ->
  item_for_next t k range_end last
  = hd_error (live_within k (Z.min range_end last) (tree_items t)).
Proof.
  intros B. unfold item_for_next.
  assert (El : (if scoutfs_key_compare range_end last <? 0 then range_end
                else last) = Z.min range_end last).
  { key_cases range_end last; lia. }
  rewrite El. set (m := Z.min range_end last).
  rewrite live_within_from, (next_item_first t k B).
  pose proof (bst_ascending t B) as A.
  destruct (items_from k (tree_items t)) as [| it rest] eqn:E;
    [reflexivity |].
  cbn [hd_error]. unfold next_item_node.
  assert (Hin : In (key it) (keys t)).
  { apply in_keys. assert (H : In it (items_from k (tree_items t)))
      by (rewrite E; left; reflexivity).
    apply filter_In in H. tauto. }
  rewrite (rb_next_chain_after t (key it) B Hin), app_nil_r.
  rewrite <- (items_from_rest k _ it rest A E).
  assert (Ar : ascending (it :: rest)).
  { rewrite <- E. now apply ascending_filter. }
  rewrite <- (next_item_node_in_first (it :: rest) m Ar).
  cbn [next_item_node_in]. destruct (_ >? 0); [reflexivity |].
  destruct (deletion it); reflexivity.
Qed.

Lemma lock_coverage_bounds lock k m :
  lock_coverage lock k m = true -> lock_start lock <= k <= lock_end lock.
Proof.
  unfold lock_coverage. intros H. apply andb_true_iff in H.
  destruct H as (_ & H). apply Z.eqb_eq in H.
  destruct (compare_ranges_point k (lock_start lock) (lock_end lock))
    as [(_ & E) | [(_ & _ & E) | (Hc & _)]]; [congruence | congruence | lia].
Qed.

Lemma check_range_found c k rng :
  ranges_wf (ranges c) -> In rng (range_list (ranges c)) -> covers rng k ->
  check_range c k = (true, start rng, end_ rng).
Proof.
  intros W Hin Hc. unfold check_range.
  change (fst (fst (walk_ranges (ranges c) k)))
    with (range_found (ranges c) k).
  now rewrite (ranges_wf_found _ _ _ W Hin Hc).
Qed.

(** ** Iteration *)

(** X1.  [scoutfs_item_next] over cached keys.  When a cached range
    holds every key from [key] to the end of the search, which is the
    lesser of [last] and the end of the lock, the call finds the first
    item in key order from [key] to that end that is not a deletion
    item.  With a value buffer it returns the number of bytes copied,
    the lesser of the item's length and the buffer's as an [int]; the
    key handed back is the item's; the buffer starts with that many
    bytes of the item's value, its other bytes and its length being as
    they were; and the item is moved to the tail of the lru when none
    of its dirty bits is set.  With a null buffer it returns 0 and the
    item's key and the cache is as it was.  When no such item is cached
    the call returns -ENOENT and changes nothing.  The reader is not
    called. *)
Theorem next_returns_first_live :
  forall (SCOUTFS_MAX_VAL_SIZE : Z) (turns : nat) (c : item_cache)
         (k last : scoutfs_key) (v : option kvec) (lock : scoutfs_lock)
         (fills : list fill) (rng : cached_range),
    bst (items c) -> ranges_wf (ranges c) ->
    In rng (range_list (ranges c)) -> covers rng k ->
    lock_coverage lock k SCOUTFS_LOCK_READ = true ->
    k <= last ->
    Z.min last (lock_end lock) <= end_ rng ->
    scoutfs_item_next SCOUTFS_MAX_VAL_SIZE (S turns) c k last v lock fills
    = match live_within k (Z.min last (lock_end lock))
                        (tree_items (items c)) with
      | it :: _ =>
          match v with
          | Some kv =>
              let n := to_int (Z.min (val_len it) (iov_len kv)) in
              Ret (n,
                   if dirty it =? 0
                   then set_lru c (list_del (key it) (lru_list c)
                                   ++ [key it]) (lru_nr c)
                   else c,
                   key it,
                   Some (mk_kvec (firstn (Z.to_nat n) (item_bytes it)
                                  ++ skipn (Z.to_nat n) (iov_base kv))
                                 (iov_len kv)))
          | None => Ret (0, c, key it, None)
          end
      | [] => Ret (- ENOENT, c, k, v)
      end.
Proof.
  intros M turns c k last v lock fills rng B W Hin Hc Hlock Hk Hend.
  pose proof (lock_coverage_bounds _ _ _ Hlock) as Hb.
  unfold scoutfs_item_next.
  assert (El : (if scoutfs_key_compare (lock_end lock) last <? 0
                then lock_end lock else last) = Z.min last (lock_end lock)).
  { key_cases (lock_end lock) last; lia. }
  rewrite El. set (m := Z.min last (lock_end lock)) in *.
  assert (Hkm : k <= m) by (unfold m; lia).
  key_cases k m; try lia; rewrite Hlock; cbn [negb next_loop];
    rewrite (check_range_found c _ rng W Hin) by assumption;
    cbn [negb]; rewrite (item_for_next_first _ _ _ _ B);
    replace (Z.min (end_ rng) m) with m by lia;
    (destruct (live_within _ m (tree_items (items c))) as [| it rest];
     cbn [hd_error];
     [ key_cases (end_ rng) m; try lia; reflexivity
     | destruct v as [kv |]; [| reflexivity];
       unfold copy_item_val, item_referenced, list_move_tail;
       reflexivity ]).
Qed.

Lemma copy_keys_from_spec chain nr :
  forall ret out,
    0 <= ret <= nr ->
    copy_keys_from chain nr ret out
    = (let taken :=
         firstn (Z.to_nat (nr - ret))
                (map key (filter (fun it => negb (deletion it)) chain)) in
       (ret + Z.of_nat (length taken), out ++ taken)).
Proof.
  induction chain as [| it rest IH]; intros ret out Hr;
    cbn [copy_keys_from filter map].
  - rewrite firstn_nil. cbn. now rewrite Z.add_0_r, app_nil_r.
  - destruct (Z.eqb_spec ret nr) as [-> | Hne].
    + rewrite Z.sub_diag. cbn. now rewrite Z.add_0_r, app_nil_r.
    + destruct (deletion it); cbn [negb]; [now apply IH |].
      rewrite IH by lia. cbn [map].
      replace (Z.to_nat (nr - ret)) with (S (Z.to_nat (nr - (ret + 1))))
        by lia.
      cbn [firstn length]. rewrite <- app_assoc. cbn [app].
      f_equal. lia.
Qed.

(** X2.  [scoutfs_item_copy_keys] writes, in increasing order, the keys
    of the cached items from [key] on that are not deletion items, as
    many as the array holds, and returns how many it wrote.  The array
    size is taken within [INT_MAX], so that the count is an int. *)
Theorem copy_keys_are_live_keys_from :
  forall (c : item_cache) (k : scoutfs_key) (nr : Z),
    bst (items c) -> 0 <= nr <= INT_MAX ->
    scoutfs_item_copy_keys c k nr
    = (let taken :=
         firstn (Z.to_nat nr)
           (map key (filter (fun it => negb (deletion it))
                            (items_from k (tree_items (items c))))) in
       (Z.of_nat (length taken), taken)).
Proof.
  intros c k nr B Hnr. unfold scoutfs_item_copy_keys.
  rewrite (next_item_first _ k B).
  pose proof (bst_ascending _ B) as A.
  destruct (items_from k (tree_items (items c))) as [| it rest] eqn:E.
  - cbn. now rewrite firstn_nil.
  - cbn [hd_error].
    assert (Hin : In (key it) (keys (items c))).
    { apply in_keys.
      assert (H : In it (items_from k (tree_items (items c))))
        by (rewrite E; left; reflexivity).
      apply filter_In in H. tauto. }
    rewrite (rb_next_chain_after _ (key it) B Hin), app_nil_r.
    rewrite <- (items_from_rest k _ it rest A E).
    rewrite copy_keys_from_spec by lia.
    now rewrite Z.sub_0_r.
Qed.

(** X3.  [scoutfs_item_lookup_exact] does not ask for an exact length.
    For a cached item that is not a deletion item it returns 0 whenever
    the item's value is at least as long as the caller's buffer, a
    longer value being cut to the buffer, and -EIO only when the value
    is shorter than the buffer. *)
Theorem lookup_exact_accepts_longer_values :
  forall (SCOUTFS_MAX_VAL_SIZE : Z) (c : item_cache) (k : scoutfs_key)
         (v : kvec) (lock : scoutfs_lock) (fills : list fill)
         (it : cached_item),
    cache_wf c ->
    In it (tree_items (items c)) -> key it = k -> deletion it = false ->
    lock_coverage lock k SCOUTFS_LOCK_READ = true ->
    0 <= iov_len v ->
    scoutfs_item_lookup_exact SCOUTFS_MAX_VAL_SIZE c k v lock fills
    = Ret (if iov_len v <=? val_len it then 0 else - EIO,
           item_referenced c it,
           snd (copy_item_val (Some v) it)).
Proof.
  intros M c k v lock fills it (B & L) Hin Hk Hd Hlock Hv.
  unfold scoutfs_item_lookup_exact, scoutfs_item_lookup.
  rewrite Hlock. cbn [negb]. rewrite read_through_unfold.
  unfold lookup_locked. rewrite (find_item_present _ _ _ B Hin Hk Hd).
  assert (Hl : len_ok it) by (rewrite Forall_forall in L; auto).
  destruct (copy_item_val_count (Some v) it Hl Hv) as (Ec & Hc).
  destruct (copy_item_val (Some v) it) as [ret out]. cbn [fst snd] in *.
  subst ret. unfold len_ok in Hl.
  replace (Z.min (val_len it) (iov_len v) =? - ENODATA) with false
    by (symmetry; apply Z.eqb_neq; unfold ENODATA; lia).
  f_equal. f_equal. f_equal.
  assert (Hu : to_ulong (Z.min (val_len it) (iov_len v))
               = Z.min (val_len it) (iov_len v))
    by (unfold to_ulong; apply Z.mod_small; unfold INT_MAX in Hl; lia).
  rewrite Hu.
  destruct (Z.leb_spec (iov_len v) (val_len it)) as [H | H].
  - replace (Z.min (val_len it) (iov_len v)) with (iov_len v) by lia.
    now rewrite Z.eqb_refl.
  - replace (Z.min (val_len it) (iov_len v)) with (val_len it) by lia.
    replace (val_len it =? iov_len v) with false
      by (symmetry; apply Z.eqb_neq; lia).
    replace (val_len it >=? 0) with true
      by (symmetry; apply Z.geb_le; lia).
    reflexivity.
Qed.

(** ** The item at a key and the items at the other keys *)

Lemma set_items_same c : set_items c (items c) = c.
Proof. now destruct c. Qed.

Lemma set_persistent_same it : set_persistent it (persistent it) = it.
Proof. now destruct it. Qed.

Lemma strip_clean it : dirty it = 0 -> strip it = it.
Proof. intros E. unfold strip. rewrite E. cbn. rewrite <- E. now destruct it. Qed.

Lemma bst_mark c k : bst (items c) -> bst (items (mark_item_dirty c k)).
Proof.
  intros B. unfold mark_item_dirty.
  destruct (walk_found (items c) k); [| exact B].
  destruct (item_is_dirty c0); [exact B |].
  cbn [items set_items update_dirty_item_counts set_lru].
  now apply store_item_bst.
Qed.

Lemma others_mark c k :
  bst (items c) -> others (mark_item_dirty c k) k = others c k.
Proof.
  intros B. unfold others, mark_item_dirty.
  destruct (walk_found (items c) k); [| reflexivity].
  destruct (item_is_dirty c0); [reflexivity |].
  cbn [items set_items update_dirty_item_counts set_lru].
  rewrite (store_item_contents k _ mark_dirty) by auto using strip_mark.
  now apply without_at_key.
Qed.

Lemma others_clear c k :
  bst (items c) -> others (clear_item_dirty c k) k = others c k.
Proof.
  intros B. unfold others.
  destruct (clear_item_dirty_contents c k B) as (_ & [-> | ->]);
    [reflexivity |].
  now apply without_at_key.
Qed.

Lemma others_unlink c k :
  bst (items c) -> others (unlink_item c k) k = others c k.
Proof.
  intros B. unfold others.
  rewrite (proj1 (unlink_item_contents c k B)). apply without_idem.
Qed.

Lemma absent_unlink c k :
  bst (items c) -> walk_found (items (unlink_item c k)) k = None.
Proof.
  intros B. apply walk_found_absent.
  rewrite <- keys_contents, (proj1 (unlink_item_contents c k B)).
  apply without_no_key.
Qed.

Lemma found_mark c k it :
  walk_found (items c) k = Some it ->
  walk_found (items (mark_item_dirty c k)) k
  = Some (if item_is_dirty it then it
          else set_dirty it (Z.lor (dirty it) ITEM_DIRTY)).
Proof.
  intros Ef. unfold mark_item_dirty. rewrite Ef.
  destruct (item_is_dirty it); [exact Ef |].
  cbn [items set_items update_dirty_item_counts set_lru].
  rewrite store_item_found by reflexivity. now rewrite Ef.
Qed.

Lemma others_perm_without c c' k X :
  Permutation (contents (items c')) (X :: without k (contents (items c))) ->
  key X = k -> Permutation (others c' k) (others c k).
Proof.
  intros P E. unfold others. rewrite (without_perm k _ _ P).
  rewrite without_cons_key by assumption. now rewrite without_idem.
Qed.

(** [insert_item] followed by [mark_item_dirty], as the create calls
    run them, for a fresh item. *)
Lemma insert_mark_spec c ins lo :
  bst (items c) -> dirty ins = 0 ->
  (forall old, walk_found (items c) (key ins) = Some old ->
               deletion old = true \/ lo = true) ->
  let p := match walk_found (items c) (key ins) with
           | Some old => persistent ins || persistent old
           | None => persistent ins
           end in
  exists c1,
    insert_item c ins lo false = Ret (0, c1, set_persistent ins p)
    /\ bst (items (mark_item_dirty c1 (key ins)))
    /\ item_at (mark_item_dirty c1 (key ins)) (key ins)
       = Some (mark_dirty (set_persistent ins p))
    /\ Permutation (others (mark_item_dirty c1 (key ins)) (key ins))
                   (others c (key ins))
    /\ ranges (mark_item_dirty c1 (key ins)) = ranges c.
Proof.
  intros B Hd Hold p.
  assert (Hclean : item_is_dirty ins = false)
    by (unfold item_is_dirty; now rewrite Hd).
  assert (H1 : exists c1,
             insert_item c ins lo false = Ret (0, c1, set_persistent ins p)
             /\ Permutation (contents (items c1))
                  (strip (set_persistent ins p)
                   :: without (key ins) (contents (items c)))).
  { subst p. destruct (walk_found (items c) (key ins)) as [old |] eqn:Ef.
    - pose proof (insert_item_present c ins lo false old B Hclean
                    (walk_found_in _ _ _ Ef) (walk_found_key _ _ _ Ef)) as H.
      destruct (Hold old eq_refl) as [Hx | Hx]; rewrite Hx in H;
        cbn [orb andb negb] in H; rewrite ?andb_false_r in H;
        rewrite ?Hx; exact H.
    - rewrite set_persistent_same.
      destruct (insert_item_absent c ins lo false B Hclean
                  (bst_absent _ _ B Ef)) as (c1 & E1 & P1 & _).
      exists c1. split; [exact E1 |].
      rewrite without_other; [exact P1 |].
      now apply absent_in_contents. }
  destruct H1 as (c1 & E1 & P1). exists c1. split; [exact E1 |].
  pose proof (insert_item_bst _ _ _ _ _ _ _ _ B E1) as B1.
  destruct (insert_item_success_found _ _ _ _ _ _ _ E1) as (Hw1 & _).
  assert (Hs : strip (set_persistent ins p) = set_persistent ins p)
    by (apply strip_clean; exact Hd).
  rewrite Hs in P1.
  split; [now apply bst_mark |]. split; [| split].
  - unfold item_at. rewrite (found_mark c1 _ _ Hw1).
    replace (item_is_dirty (set_persistent ins p)) with false
      by (symmetry; exact Hclean).
    cbn [option_map]. rewrite strip_mark, Hs. reflexivity.
  - rewrite (others_mark c1 _ B1).
    exact (others_perm_without c c1 _ _ P1 eq_refl).
  - rewrite ranges_mark. eapply ranges_insert_loop; eauto.
Qed.

Lemma others_store c k f g parents :
  (forall i, key (g i) = key i) ->
  (forall i, strip (f i) = g (strip i)) ->
  bst (items c) ->
  others (set_items c (fst (store_item (items c) k f parents))) k
  = others c k.
Proof.
  intros Hk Hs B. unfold others. cbn [items set_items].
  rewrite (store_item_contents k f g Hs) by assumption.
  now apply without_at_key.
Qed.

Lemma copy_item_val_strip b it :
  copy_item_val b (strip it) = copy_item_val b it.
Proof. reflexivity. Qed.

Lemma copy_item_val_same b x y :
  val x = val y -> val_len x = val_len y ->
  copy_item_val b x = copy_item_val b y.
Proof.
  intros Ev El. unfold copy_item_val, item_bytes. now rewrite Ev, El.
Qed.

Lemma item_at_found c k x :
  item_at c k = Some x ->
  exists it, walk_found (items c) k = Some it /\ strip it = x.
Proof.
  unfold item_at. destruct (walk_found (items c) k) as [it |];
    [| discriminate].
  intros [= <-]. now exists it.
Qed.

(** Point lookup of a key at which a dirty item is cached: the value is
    copied and the cache is left as it is. *)
Lemma lookup_dirty_item M c k b lock fills x :
  item_at c k = Some x -> deletion x = false -> item_is_dirty x = true ->
  len_ok x -> vec_ok b ->
  lock_coverage lock k SCOUTFS_LOCK_READ = true ->
  scoutfs_item_lookup M c k b lock fills
  = Ret (fst (copy_item_val b x), c, snd (copy_item_val b x)).
Proof.
  intros Hat Hdel Hdirty Hlen Hb Hlock.
  destruct (item_at_found c k x Hat) as (it & Ef & <-).
  unfold scoutfs_item_lookup. rewrite Hlock. cbn [negb].
  rewrite read_through_unfold. unfold lookup_locked, find_item.
  rewrite Ef. change (deletion (strip it)) with (deletion it) in Hdel.
  rewrite Hdel. rewrite item_is_dirty_strip in Hdirty.
  assert (Er : item_referenced c it = c).
  { unfold item_referenced. destruct (Z.eqb_spec (dirty it) 0) as [E |];
      [| reflexivity].
    unfold item_is_dirty in Hdirty. rewrite E in Hdirty. discriminate. }
  rewrite Er, copy_item_val_strip.
  destruct (copy_item_val_count b it Hlen Hb) as (_ & Hpos).
  destruct b as [kv |]; [| reflexivity].
  destruct (copy_item_val (Some kv) it) as [ret out]. cbn [fst snd] in *.
  replace (ret =? - ENODATA) with false
    by (symmetry; apply Z.eqb_neq; unfold ENODATA; lia).
  reflexivity.
Qed.

(** The same lookup, with the count and the bytes written out. *)
Lemma lookup_dirty_item_bytes M c k b lock fills x :
  item_at c k = Some x -> deletion x = false -> item_is_dirty x = true ->
  len_ok x -> vec_ok b ->
  lock_coverage lock k SCOUTFS_LOCK_READ = true ->
  scoutfs_item_lookup M c k b lock fills
  = Ret (match b with
         | Some kb => Z.min (val_len x) (iov_len kb)
         | None => 0
         end, c,
         match b with
         | Some kb =>
             Some (mk_kvec
                     (firstn (Z.to_nat (Z.min (val_len x) (iov_len kb)))
                             (item_bytes x)
                      ++ skipn (Z.to_nat (Z.min (val_len x) (iov_len kb)))
                               (iov_base kb))
                     (iov_len kb))
         | None => None
         end).
Proof.
  intros Hat Hdel Hdirty Hlen Hb Hlock.
  rewrite (lookup_dirty_item M c k b lock fills x) by assumption.
  destruct b as [kb |]; [| reflexivity].
  unfold copy_item_val. cbn [fst snd].
  rewrite to_int_len; [reflexivity |].
  unfold len_ok, vec_ok in *. lia.
Qed.

(** The fresh item of a call whose value passed [invalid_key_val]: the
    length is the caller's and the bytes are the caller's first
    [iov_len] bytes. *)
Lemma alloc_item_bytes M k v :
  M <= INT_MAX -> vec_ok v -> invalid_key_val M k v = false ->
  alloc_item k v
  = mk_item 0 false false k
            match v with
            | Some kv => Some (firstn (Z.to_nat (iov_len kv)) (iov_base kv))
            | None => None
            end
            match v with
            | Some kv => iov_len kv
            | None => 0
            end.
Proof.
  unfold vec_ok, invalid_key_val, alloc_item.
  destruct v as [kv |]; [| reflexivity].
  intros HM Hp Hv. rewrite Z.gtb_ltb in Hv. apply Z.ltb_ge in Hv.
  rewrite to_uint_len by lia. reflexivity.
Qed.

Lemma alloc_item_key k v : key (alloc_item k v) = k.
Proof. now destruct v. Qed.

Lemma alloc_item_dirty k v : dirty (alloc_item k v) = 0.
Proof. now destruct v. Qed.

Lemma find_item_none_old t k old :
  find_item t k = None -> walk_found t k = Some old -> deletion old = true.
Proof.
  unfold find_item. intros H E. rewrite E in H.
  destruct (deletion old); [reflexivity | discriminate].
Qed.

(** ** Writes and what a lookup sees after them *)

(** X4.  [scoutfs_item_create] and lookup.  At a key held by a cached
    range and a WRITE lock, with no item or only a deletion item cached,
    create of a value of [iov_len] bytes at [iov_base] returns 0.  The
    key then holds a dirty item that is not a deletion item, whose
    length is [iov_len] and whose value is the first [iov_len] bytes at
    [iov_base] (no value and length 0 for a null vec); its [persistent]
    bit is clear when no item was cached at the key.  The items at the
    other keys and the ranges are as before.  A lookup of the key then
    returns the lesser of [iov_len] and the buffer's length, the buffer
    starts with that many of the created bytes, its other bytes and its
    length being as they were, and the cache is as create left it. *)
Theorem create_then_lookup :
  forall (SCOUTFS_MAX_VAL_SIZE : Z) (c : item_cache) (k : scoutfs_key)
         (v : option kvec) (lock : scoutfs_lock) (fills : list fill),
    let len := match v with Some kv => iov_len kv | None => 0 end in
    let value :=
      match v with
      | Some kv => Some (firstn (Z.to_nat (iov_len kv)) (iov_base kv))
      | None => None
      end in
    let bytes := match value with Some l => l | None => [] end in
    SCOUTFS_MAX_VAL_SIZE <= INT_MAX ->
    bst (items c) ->
    vec_ok v -> invalid_key_val SCOUTFS_MAX_VAL_SIZE k v = false ->
    lock_coverage lock k SCOUTFS_LOCK_WRITE = true ->
    range_cached c k = true ->
    find_item (items c) k = None ->
    exists c' p,
      scoutfs_item_create SCOUTFS_MAX_VAL_SIZE c k v lock true fills
      = Ret (0, c', tt)
      /\ bst (items c')
      /\ item_at c' k = Some (mk_item ITEM_DIRTY false p k value len)
      /\ (walk_found (items c) k = None -> p = false)
      /\ Permutation (others c' k) (others c k)
      /\ ranges c' = ranges c
      /\ (forall b fills',
             vec_ok b ->
             scoutfs_item_lookup SCOUTFS_MAX_VAL_SIZE c' k b lock fills'
             = Ret (match b with
                    | Some kb => Z.min len (iov_len kb)
                    | None => 0
                    end, c',
                    match b with
                    | Some kb =>
                        Some (mk_kvec
                                (firstn (Z.to_nat (Z.min len (iov_len kb)))
                                        bytes
                                 ++ skipn (Z.to_nat (Z.min len (iov_len kb)))
                                          (iov_base kb))
                                (iov_len kb))
                    | None => None
                    end)).
Proof.
  intros M c k v lock fills len value bytes HM B Hv Hinv Hlock Hrange Hfind.
  destruct (insert_mark_spec c (alloc_item k v) false B
              (alloc_item_dirty k v)) as (c1 & E1 & B2 & Hat & Hp & Hr).
  { rewrite alloc_item_key. intros old Ho. left.
    eapply find_item_none_old; eauto. }
  rewrite alloc_item_key in *.
  assert (Ep : forall o : option cached_item,
             match o with
             | Some old => persistent (alloc_item k v) || persistent old
             | None => persistent (alloc_item k v)
             end
             = match o with Some old => persistent old | None => false end).
  { intros [old |]; destruct v; reflexivity. }
  rewrite Ep in E1, Hat. clear Ep.
  set (p := match walk_found (items c) k with
            | Some old => persistent old
            | None => false
            end) in *.
  assert (Hat' : item_at (mark_item_dirty c1 k) k
                 = Some (mk_item ITEM_DIRTY false p k value len)).
  { rewrite Hat. rewrite (alloc_item_bytes M k v HM Hv Hinv). reflexivity. }
  exists (mark_item_dirty c1 k), p.
  split.
  { unfold scoutfs_item_create. rewrite Hinv, Hlock. cbn [orb negb].
    rewrite read_through_unfold. unfold create_locked.
    rewrite alloc_item_key, Hrange. cbn [negb]. rewrite E1. reflexivity. }
  split; [exact B2 |]. split; [exact Hat' |].
  split; [intros E; subst p; now rewrite E |].
  split; [exact Hp |]. split; [exact Hr |].
  intros b fills' Hb.
  rewrite (lookup_dirty_item_bytes M _ k b lock fills' _ Hat');
    [reflexivity | reflexivity | reflexivity | | exact Hb
     | now apply lock_write_covers_read].
  destruct (alloc_item_enters M HM k v Hv Hinv) as (Hl & _).
  rewrite (alloc_item_bytes M k v HM Hv Hinv) in Hl. exact Hl.
Qed.

Lemma insert_descend_clean t ins x t' :
  dirty ins = 0 -> insert_descend t ins = Present x t' -> t' = t.
Proof.
  intros Hd. revert t'.
  induction t as [| l IHl it r IHr]; intros t'; cbn [insert_descend];
    [discriminate |].
  rewrite Hd. cbn [Z.eqb].
  destruct (_ <? 0).
  - intros H. apply lift_insert_present in H. destruct H as (t0 & H0 & ->).
    now rewrite (IHl _ H0).
  - destruct (_ >? 0).
    + intros H. apply lift_insert_present in H.
      destruct H as (t0 & H0 & ->). now rewrite (IHr _ H0).
    + now intros [= _ <-].
Qed.

(** X5.  [scoutfs_item_create] at a key that holds an item.  When the
    key is held by a cached range and an item that is not a deletion
    item is cached there, create returns -EEXIST and the cache is
    exactly as it was: items, ranges, counters and lru. *)
Theorem create_existing_is_eexist :
  forall (SCOUTFS_MAX_VAL_SIZE : Z) (c : item_cache) (k : scoutfs_key)
         (v : option kvec) (lock : scoutfs_lock) (fills : list fill)
         (it : cached_item),
    bst (items c) ->
    In it (tree_items (items c)) -> key it = k -> deletion it = false ->
    invalid_key_val SCOUTFS_MAX_VAL_SIZE k v = false ->
    lock_coverage lock k SCOUTFS_LOCK_WRITE = true ->
    range_cached c k = true ->
    scoutfs_item_create SCOUTFS_MAX_VAL_SIZE c k v lock true fills
    = Ret (- EEXIST, c, tt).
Proof.
  intros M c k v lock fills it B Hin Hk Hdel Hinv Hlock Hrange.
  unfold scoutfs_item_create. rewrite Hinv, Hlock. cbn [orb negb].
  rewrite read_through_unfold. unfold create_locked.
  rewrite alloc_item_key, Hrange. cbn [negb].
  unfold insert_item. cbn [insert_item_loop].
  pose proof (insert_descend_total (items c) (alloc_item k v)) as Ht.
  rewrite alloc_item_key, (bst_found _ _ _ B Hin Hk) in Ht.
  destruct Ht as (t' & Ed). rewrite Ed.
  rewrite (insert_descend_clean _ _ _ _ (alloc_item_dirty k v) Ed).
  rewrite Hdel, set_items_same. reflexivity.
Qed.

Lemma lookup_enoent M c k b lock fills :
  find_item (items c) k = None -> range_cached c k = true ->
  lock_coverage lock k SCOUTFS_LOCK_READ = true ->
  scoutfs_item_lookup M c k b lock fills = Ret (- ENOENT, c, b).
Proof.
  intros Hf Hr Hl. unfold scoutfs_item_lookup. rewrite Hl. cbn [negb].
  rewrite read_through_unfold. unfold lookup_locked. rewrite Hf, Hr.
  reflexivity.
Qed.

Lemma item_at_find c k :
  find_item (items c) k = None <->
  match item_at c k with Some x => deletion x = true | None => True end.
Proof.
  unfold find_item, item_at.
  destruct (walk_found (items c) k) as [it |]; cbn [option_map]; [| tauto].
  change (deletion (strip it)) with (deletion it).
  destruct (deletion it); split; intros; try reflexivity; discriminate.
Qed.

(** What [delete_item] leaves at the key and around it. *)
Lemma delete_item_effect c k it :
  bst (items c) -> walk_found (items c) k = Some it ->
  bst (items (delete_item c k))
  /\ others (delete_item c k) k = others c k
  /\ item_at (delete_item c k) k
     = (if persistent it then Some (tombstone k) else None).
Proof.
  intros B Ef. unfold delete_item. rewrite Ef.
  pose proof (walk_found_key _ _ _ Ef) as Ek.
  destruct (persistent it) eqn:Ep; cbn [negb].
  - destruct (clear_item_dirty_contents c k B) as (B1 & _).
    pose proof (clear_item_dirty_found_exact c k it Ef) as Ef1.
    set (it1 := if item_is_dirty it then without_self_bit it else it) in *.
    assert (Hit1 : item_is_dirty it1 = false /\ persistent it1 = true
                   /\ key it1 = k).
    { subst it1. destruct (item_is_dirty it) eqn:Ed.
      - split; [apply without_self_bit_clean | split; assumption].
      - auto. }
    destruct Hit1 as (Hd1 & Hp1 & Hk1).
    set (c1 := clear_item_dirty c k) in *.
    set (f := fun i => set_deletion (set_val i None 0) true).
    set (c2 := set_items c1 (fst (store_item (items c1) k f false))).
    assert (B2 : bst (items c2))
      by (apply store_item_bst; [reflexivity | exact B1]).
    assert (Ef2 : walk_found (items c2) k = Some (f it1)).
    { unfold c2. cbn [items set_items].
      rewrite store_item_found by reflexivity. now rewrite Ef1. }
    split; [now apply bst_mark |]. split.
    + rewrite (others_mark c2 k B2). unfold c2.
      rewrite (others_store c1 k f make_deletion false) by auto.
      apply others_clear; assumption.
    + unfold item_at. rewrite (found_mark c2 k _ Ef2).
      replace (item_is_dirty (f it1)) with false by (symmetry; exact Hd1).
      cbn [option_map]. rewrite strip_mark. f_equal.
      unfold tombstone, mark_dirty, strip, f, set_dirty, set_deletion,
        set_val; cbn.
      now rewrite Hp1, Hk1.
  - unfold erase_item. destruct (unlink_item_contents c k B) as (_ & B1).
    split; [exact B1 |]. split; [now apply others_unlink |].
    unfold item_at. now rewrite absent_unlink.
Qed.

(** X6.  [scoutfs_item_delete] and lookup.  Deleting a cached item that
    is not a deletion item returns 0.  A persistent item leaves a dirty
    deletion item without a value at the key, any other item leaves
    nothing; the items at the other keys and the ranges are as before.
    A lookup then finds no item at the key and, the key being covered
    by a cached range, returns -ENOENT. *)
Theorem delete_then_lookup :
  forall (SCOUTFS_MAX_VAL_SIZE : Z) (c : item_cache) (k : scoutfs_key)
         (lock : scoutfs_lock) (fills : list fill) (it : cached_item),
    bst (items c) ->
    In it (tree_items (items c)) -> key it = k -> deletion it = false ->
    lock_coverage lock k SCOUTFS_LOCK_WRITE = true ->
    exists c',
      scoutfs_item_delete SCOUTFS_MAX_VAL_SIZE c k lock fills
      = Ret (0, c', tt)
      /\ bst (items c')
      /\ item_at c' k = (if persistent it then Some (tombstone k) else None)
      /\ others c' k = others c k
      /\ ranges c' = ranges c
      /\ find_item (items c') k = None
      /\ (range_cached c k = true ->
          forall b fills',
            scoutfs_item_lookup SCOUTFS_MAX_VAL_SIZE c' k b lock fills'
            = Ret (- ENOENT, c', b)).
Proof.
  intros M c k lock fills it B Hin Hk Hdel Hlock.
  pose proof (bst_found _ _ _ B Hin Hk) as Ef.
  destruct (delete_item_effect c k it B Ef) as (B' & Ho & Hat).
  exists (delete_item c k).
  assert (Hf : find_item (items (delete_item c k)) k = None).
  { apply item_at_find. rewrite Hat. now destruct (persistent it). }
  split.
  { unfold scoutfs_item_delete. rewrite Hlock. cbn [negb].
    rewrite read_through_unfold. unfold delete_locked.
    now rewrite (find_item_present _ _ _ B Hin Hk Hdel). }
  repeat (split; [assumption || apply ranges_delete_item |]).
  intros Hr b fills'. apply lookup_enoent; auto.
  - rewrite <- Hr. apply range_cached_ranges, ranges_delete_item.
  - now apply lock_write_covers_read.
Qed.

(** X7.  [scoutfs_item_update] and lookup.  Updating a cached item that
    is not a deletion item with a value of [iov_len] bytes at [iov_base]
    returns 0.  The item keeps its key and its [persistent] bit, is
    dirty, has the length [iov_len] and as value the first [iov_len]
    bytes at [iov_base] (no value and length 0 for a null vec); the
    items at the other keys and the ranges are as before.  A lookup
    then returns the lesser of [iov_len] and the buffer's length, the
    buffer starts with that many of the new bytes, its other bytes and
    its length being as they were, and the cache is as update left
    it. *)
Theorem update_then_lookup :
  forall (SCOUTFS_MAX_VAL_SIZE : Z) (c : item_cache) (k : scoutfs_key)
         (v : option kvec) (lock : scoutfs_lock) (fills : list fill)
         (it : cached_item),
    let len := match v with Some kv => iov_len kv | None => 0 end in
    let value :=
      match v with
      | Some kv => Some (firstn (Z.to_nat (iov_len kv)) (iov_base kv))
      | None => None
      end in
    let bytes := match value with Some l => l | None => [] end in
    SCOUTFS_MAX_VAL_SIZE <= INT_MAX ->
    bst (items c) ->
    In it (tree_items (items c)) -> key it = k -> deletion it = false ->
    vec_ok v -> invalid_key_val SCOUTFS_MAX_VAL_SIZE k v = false ->
    lock_coverage lock k SCOUTFS_LOCK_WRITE = true ->
    exists c',
      scoutfs_item_update SCOUTFS_MAX_VAL_SIZE c k v lock true fills
      = Ret (0, c', tt)
      /\ bst (items c')
      /\ item_at c' k
         = Some (mk_item ITEM_DIRTY false (persistent it) k value len)
      /\ others c' k = others c k
      /\ ranges c' = ranges c
      /\ (forall b fills',
             vec_ok b ->
             scoutfs_item_lookup SCOUTFS_MAX_VAL_SIZE c' k b lock fills'
             = Ret (match b with
                    | Some kb => Z.min len (iov_len kb)
                    | None => 0
                    end, c',
                    match b with
                    | Some kb =>
                        Some (mk_kvec
                                (firstn (Z.to_nat (Z.min len (iov_len kb)))
                                        bytes
                                 ++ skipn (Z.to_nat (Z.min len (iov_len kb)))
                                          (iov_base kb))
                                (iov_len kb))
                    | None => None
                    end)).
Proof.
  intros M c k v lock fills it len0 value bytes HM B Hin Hk Hdel Hv Hinv
         Hlock.
  pose proof (bst_found _ _ _ B Hin Hk) as Ef.
  destruct (clear_item_dirty_contents c k B) as (B1 & _).
  pose proof (clear_item_dirty_found_exact c k it Ef) as Ef1.
  set (it1 := if item_is_dirty it then without_self_bit it else it) in *.
  assert (Hit1 : item_is_dirty it1 = false
                 /\ strip it1 = mark_clean (strip it)).
  { subst it1. destruct (item_is_dirty it) eqn:Ed.
    - split; [apply without_self_bit_clean |]. apply strip_clear.
    - split; [exact Ed |]. unfold item_is_dirty in Ed.
      apply negb_false_iff, Z.eqb_eq in Ed.
      unfold mark_clean, strip, set_dirty; cbn. now rewrite Ed. }
  destruct Hit1 as (Hd1 & Hs1).
  set (c1 := clear_item_dirty c k) in *.
  set (up_val := match v with
                 | Some kv => Some (firstn (Z.to_nat (iov_len kv)) (iov_base kv))
                 | None => None
                 end).
  set (len := match v with Some kv => to_uint (iov_len kv) | None => 0 end).
  set (f := fun i => set_val i up_val len).
  set (c2 := set_items c1 (fst (store_item (items c1) k f false))).
  assert (B2 : bst (items c2))
    by (apply store_item_bst; [reflexivity | exact B1]).
  assert (Ef2 : walk_found (items c2) k = Some (f it1)).
  { unfold c2. cbn [items set_items].
    rewrite store_item_found by reflexivity. now rewrite Ef1. }
  assert (Hat : item_at (mark_item_dirty c2 k) k
                = Some (updated (strip it) v)).
  { unfold item_at. rewrite (found_mark c2 k _ Ef2).
    replace (item_is_dirty (f it1)) with false by (symmetry; exact Hd1).
    cbn [option_map]. rewrite strip_mark. f_equal.
    change (strip (f it1)) with (f (strip it1)). rewrite Hs1.
    unfold updated, f, up_val, len. destruct v; reflexivity. }
  assert (Hat' : item_at (mark_item_dirty c2 k) k
                 = Some (mk_item ITEM_DIRTY false (persistent it) k value
                                 len0)).
  { rewrite Hat. unfold updated. change (key (strip it)) with (key it).
    rewrite Hk, (alloc_item_bytes M k v HM Hv Hinv).
    unfold mark_dirty, set_val, set_dirty, strip. cbn.
    now rewrite Hdel, Hk. }
  exists (mark_item_dirty c2 k).
  split.
  { unfold scoutfs_item_update. rewrite Hinv, Hlock. cbn [negb].
    replace (match v with Some _ => false | None => false end)
      with false by (now destruct v).
    rewrite read_through_unfold. unfold update_locked.
    rewrite (find_item_present _ _ _ B Hin Hk Hdel). reflexivity. }
  split; [now apply bst_mark |]. split; [exact Hat' |]. split.
  { rewrite (others_mark c2 k B2). unfold c2.
    rewrite (others_store c1 k f f false) by auto.
    now apply others_clear. }
  split.
  { rewrite ranges_mark. unfold c2, c1. cbn [ranges set_items].
    apply ranges_clear. }
  intros b fills' Hb.
  rewrite (lookup_dirty_item_bytes M _ k b lock fills' _ Hat');
    [reflexivity | reflexivity | reflexivity | | exact Hb
     | now apply lock_write_covers_read].
  destruct (alloc_item_enters M HM k v Hv Hinv) as (Hl & _).
  rewrite (alloc_item_bytes M k v HM Hv Hinv) in Hl. exact Hl.
Qed.

(** X8.  [scoutfs_item_create_force] and lookup.  With a WRITE_ONLY lock
    over the key, and whatever is cached at the key (nothing, an item,
    a deletion item), no range being asked for, create_force of a value
    of [iov_len] bytes at [iov_base] returns 0.  The key then holds a
    dirty persistent item that is not a deletion item, whose length is
    [iov_len] and whose value is the first [iov_len] bytes at
    [iov_base] (no value and length 0 for a null vec); the items at the
    other keys and the ranges are as before.  A lookup under a lock
    that covers the key for reading then returns the lesser of
    [iov_len] and the buffer's length, the buffer starts with that many
    of the created bytes, its other bytes and its length being as they
    were, and the cache is as create_force left it. *)
Theorem create_force_then_lookup :
  forall (SCOUTFS_MAX_VAL_SIZE : Z) (c : item_cache) (k : scoutfs_key)
         (v : option kvec) (lock rlock : scoutfs_lock),
    let len := match v with Some kv => iov_len kv | None => 0 end in
    let value :=
      match v with
      | Some kv => Some (firstn (Z.to_nat (iov_len kv)) (iov_base kv))
      | None => None
      end in
    let bytes := match value with Some l => l | None => [] end in
    SCOUTFS_MAX_VAL_SIZE <= INT_MAX ->
    bst (items c) ->
    vec_ok v -> invalid_key_val SCOUTFS_MAX_VAL_SIZE k v = false ->
    lock_coverage lock k SCOUTFS_LOCK_WRITE_ONLY = true ->
    exists c',
      scoutfs_item_create_force SCOUTFS_MAX_VAL_SIZE c k v lock true
      = Ret (0, c')
      /\ bst (items c')
      /\ item_at c' k = Some (mk_item ITEM_DIRTY false true k value len)
      /\ Permutation (others c' k) (others c k)
      /\ ranges c' = ranges c
      /\ (forall b fills',
             vec_ok b ->
             lock_coverage rlock k SCOUTFS_LOCK_READ = true ->
             scoutfs_item_lookup SCOUTFS_MAX_VAL_SIZE c' k b rlock fills'
             = Ret (match b with
                    | Some kb => Z.min len (iov_len kb)
                    | None => 0
                    end, c',
                    match b with
                    | Some kb =>
                        Some (mk_kvec
                                (firstn (Z.to_nat (Z.min len (iov_len kb)))
                                        bytes
                                 ++ skipn (Z.to_nat (Z.min len (iov_len kb)))
                                          (iov_base kb))
                                (iov_len kb))
                    | None => None
                    end)).
Proof.
  intros M c k v lock rlock len value bytes HM B Hv Hinv Hlock.
  set (ins := set_persistent (alloc_item k v) true).
  assert (Ek : key ins = k) by apply alloc_item_key.
  destruct (insert_mark_spec c ins true B (alloc_item_dirty k v))
    as (c1 & E1 & B2 & Hat & Hp & Hr); [auto |].
  rewrite Ek in *.
  assert (Ep : forall o : option cached_item,
             match o with
             | Some old => persistent ins || persistent old
             | None => persistent ins
             end = true) by (intros [old |]; reflexivity).
  rewrite Ep in E1, Hat. clear Ep.
  assert (Hat' : item_at (mark_item_dirty c1 k) k
                 = Some (mk_item ITEM_DIRTY false true k value len)).
  { rewrite Hat. unfold ins.
    rewrite (alloc_item_bytes M k v HM Hv Hinv). reflexivity. }
  exists (mark_item_dirty c1 k). split.
  { unfold scoutfs_item_create_force. rewrite Hinv, Hlock. cbn [negb].
    fold ins. rewrite E1. reflexivity. }
  split; [exact B2 |]. split; [exact Hat' |]. split; [exact Hp |].
  split; [exact Hr |].
  intros b fills' Hb Hrl.
  rewrite (lookup_dirty_item_bytes M _ k b rlock fills' _ Hat');
    [reflexivity | reflexivity | reflexivity | | exact Hb | exact Hrl].
  destruct (alloc_item_enters M HM k v Hv Hinv) as (Hl & _).
  rewrite (alloc_item_bytes M k v HM Hv Hinv) in Hl. exact Hl.
Qed.

(** X9.  [scoutfs_item_delete_force].  With a WRITE_ONLY lock over the
    key, and whatever is cached at the key, delete_force returns 0 and
    leaves a dirty persistent deletion item without a value there; the
    items at the other keys and the ranges are as before, and no item
    is found at the key afterwards. *)
Theorem delete_force_leaves_tombstone :
  forall (c : item_cache) (k : scoutfs_key) (lock : scoutfs_lock),
    bst (items c) ->
    lock_coverage lock k SCOUTFS_LOCK_WRITE_ONLY = true ->
    exists c',
      scoutfs_item_delete_force c k lock true = Ret (0, c')
      /\ bst (items c')
      /\ item_at c' k = Some (tombstone k)
      /\ Permutation (others c' k) (others c k)
      /\ ranges c' = ranges c
      /\ find_item (items c') k = None.
Proof.
  intros c k lock B Hlock.
  set (ins := set_persistent (alloc_item k None) true).
  destruct (insert_mark_spec c ins true B eq_refl)
    as (c1 & E1 & B2 & Hat & Hp & Hr); [auto |].
  change (key ins) with k in *.
  destruct (item_at_found _ _ _ Hat) as (x & Ef & Hx).
  assert (Hpx : persistent x = true).
  { change (persistent x) with (persistent (strip x)). rewrite Hx.
    cbn. destruct (walk_found (items c) k); reflexivity. }
  destruct (delete_item_effect _ k x B2 Ef) as (B3 & Ho & Hat3).
  rewrite Hpx in Hat3.
  exists (delete_item (mark_item_dirty c1 k) k). split.
  { unfold scoutfs_item_delete_force. rewrite Hlock. cbn [negb].
    fold ins. rewrite E1. reflexivity. }
  split; [exact B3 |]. split; [exact Hat3 |]. split.
  { now rewrite Ho. }
  split; [now rewrite ranges_delete_item |].
  apply item_at_find. now rewrite Hat3.
Qed.

(** ** The counters along the writes *)

Lemma op_drift M op c c' :
  M <= INT_MAX -> op_ok op -> cache_wf c -> run_op M c op = Ret c' ->
  cache_wf c'
  /\ nr_dirty_items c' - dirty_count (contents (items c'))
     = nr_dirty_items c - dirty_count (contents (items c))
  /\ dirty_val_bytes c' - dirty_bytes (contents (items c'))
     = dirty_val_bytes c - dirty_bytes (contents (items c)).
Proof.
  intros HM Hop W R.
  set (D := nr_dirty_items c - dirty_count (contents (items c))).
  set (E := dirty_val_bytes c - dirty_bytes (contents (items c))).
  assert (G : good (I_drift D E) c) by (split; [exact W | split; reflexivity]).
  destruct (run_op_good _ (drift_list_invariant D E) M HM op c c' Hop G R)
    as (W' & Hn & Hb).
  auto.
Qed.

Lemma dirty_count_cons x l :
  dirty_count (x :: l) = one_if_dirty x + dirty_count l.
Proof. now rewrite !dirty_count_total, total_cons. Qed.

Lemma dirty_bytes_cons x l :
  dirty_bytes (x :: l) = len_if_dirty x + dirty_bytes l.
Proof. now rewrite !dirty_bytes_total, total_cons. Qed.

Lemma dirty_count_perm l l' :
  Permutation l l' -> dirty_count l = dirty_count l'.
Proof. intros P. rewrite !dirty_count_total. now apply total_perm. Qed.

Lemma dirty_bytes_perm l l' :
  Permutation l l' -> dirty_bytes l = dirty_bytes l'.
Proof. intros P. rewrite !dirty_bytes_total. now apply total_perm. Qed.

Lemma contents_at_and_others c k x :
  bst (items c) -> item_at c k = Some x ->
  Permutation (contents (items c)) (x :: others c k).
Proof.
  intros B Hat. destruct (item_at_found c k x Hat) as (it & Ef & <-).
  symmetry. unfold others.
  rewrite <- (walk_found_key _ _ _ Ef), <- (strip_key it).
  apply perm_without_back; [now apply contents_nodup |].
  eapply found_in_contents; eauto.
Qed.

Lemma contents_others_absent c k :
  bst (items c) -> item_at c k = None -> others c k = contents (items c).
Proof.
  intros B Hat. unfold others. apply without_other.
  apply absent_in_contents; [exact B |].
  unfold item_at in Hat. now destruct (walk_found (items c) k).
Qed.

(** X10.  Create, then delete.  At a key that a cached range holds and
    at which nothing is cached, [scoutfs_item_create] returns 0 and
    counts one more dirty item and the bytes of its value;
    [scoutfs_item_delete] of the key then returns 0 and the cache holds
    the items, the ranges and the two dirty counters it had before the
    create: an item that was never written leaves no deletion item. *)
Theorem create_then_delete_restores :
  forall (SCOUTFS_MAX_VAL_SIZE : Z) (c : item_cache) (k : scoutfs_key)
         (v : option kvec) (lock : scoutfs_lock) (fills fills' : list fill),
    SCOUTFS_MAX_VAL_SIZE <= INT_MAX ->
    cache_wf c ->
    vec_ok v -> invalid_key_val SCOUTFS_MAX_VAL_SIZE k v = false ->
    lock_coverage lock k SCOUTFS_LOCK_WRITE = true ->
    range_cached c k = true ->
    ~ In k (keys (items c)) ->
    exists c1 c2,
      scoutfs_item_create SCOUTFS_MAX_VAL_SIZE c k v lock true fills
      = Ret (0, c1, tt)
      /\ nr_dirty_items c1 = nr_dirty_items c + 1
      /\ dirty_val_bytes c1 = dirty_val_bytes c + val_len (alloc_item k v)
      /\ scoutfs_item_delete SCOUTFS_MAX_VAL_SIZE c1 k lock fills'
         = Ret (0, c2, tt)
      /\ Permutation (contents (items c2)) (contents (items c))
      /\ ranges c2 = ranges c
      /\ nr_dirty_items c2 = nr_dirty_items c
      /\ dirty_val_bytes c2 = dirty_val_bytes c.
Proof.
  intros M c k v lock fills fills' HM W Hv Hinv Hlock Hrange Habs.
  pose proof W as (B & _).
  pose proof (walk_found_absent _ _ Habs) as Enone.
  destruct (insert_mark_spec c (alloc_item k v) false B
              (alloc_item_dirty k v)) as (c0 & E0 & B1 & Hat & Hp & Hr).
  { rewrite alloc_item_key, Enone. discriminate. }
  rewrite alloc_item_key, Enone in *.
  rewrite set_persistent_same in E0, Hat.
  set (c1 := mark_item_dirty c0 k) in *.
  assert (Ecreate : forall fs,
             scoutfs_item_create M c k v lock true fs = Ret (0, c1, tt)).
  { intros fs. unfold scoutfs_item_create. rewrite Hinv, Hlock.
    cbn [orb negb]. rewrite read_through_unfold. unfold create_locked.
    rewrite alloc_item_key, Hrange. cbn [negb]. rewrite E0. reflexivity. }
  assert (Ho : others c k = contents (items c)).
  { apply contents_others_absent; [exact B |].
    unfold item_at. now rewrite Enone. }
  assert (P1 : Permutation (contents (items c1))
                 (mark_dirty (alloc_item k v) :: contents (items c))).
  { rewrite (contents_at_and_others c1 k _ B1 Hat). now rewrite Hp, Ho. }
  destruct (op_drift M (OpCreate k v lock true []) c c1 HM) as (W1 & Hn1 & Hb1);
    [split; [exact Hv | constructor] | exact W
     | unfold run_op; now rewrite Ecreate |].
  rewrite (dirty_count_perm _ _ P1), dirty_count_cons in Hn1.
  rewrite (dirty_bytes_perm _ _ P1), dirty_bytes_cons in Hb1.
  change (one_if_dirty (mark_dirty (alloc_item k v))) with 1 in Hn1.
  change (len_if_dirty (mark_dirty (alloc_item k v)))
    with (val_len (alloc_item k v)) in Hb1.
  destruct (item_at_found c1 k _ Hat) as (x & Ef & Hx).
  assert (Hxd : deletion x = false /\ persistent x = false).
  { change (deletion x) with (deletion (strip x)).
    change (persistent x) with (persistent (strip x)).
    rewrite Hx. now destruct v. }
  destruct Hxd as (Hxd & Hxp).
  destruct (delete_item_effect c1 k x B1 Ef) as (B2 & Ho2 & Hat2).
  rewrite Hxp in Hat2.
  set (c2 := delete_item c1 k) in *.
  assert (Edelete : forall fs,
             scoutfs_item_delete M c1 k lock fs = Ret (0, c2, tt)).
  { intros fs. unfold scoutfs_item_delete. rewrite Hlock. cbn [negb].
    rewrite read_through_unfold. unfold delete_locked, find_item.
    rewrite Ef, Hxd. reflexivity. }
  assert (P2 : Permutation (contents (items c2)) (contents (items c))).
  { rewrite <- (contents_others_absent c2 k B2 Hat2), Ho2, Hp.
    now rewrite Ho. }
  destruct (op_drift M (OpDelete k lock []) c1 c2 HM) as (W2 & Hn2 & Hb2);
    [constructor | exact W1 | unfold run_op; now rewrite Edelete |].
  rewrite (dirty_count_perm _ _ P2) in Hn2.
  rewrite (dirty_bytes_perm _ _ P2) in Hb2.
  rewrite (dirty_count_perm _ _ P1), dirty_count_cons in Hn2.
  rewrite (dirty_bytes_perm _ _ P1), dirty_bytes_cons in Hb2.
  change (one_if_dirty (mark_dirty (alloc_item k v))) with 1 in Hn2.
  change (len_if_dirty (mark_dirty (alloc_item k v)))
    with (val_len (alloc_item k v)) in Hb2.
  exists c1, c2.
  split; [apply Ecreate |]. split; [lia |]. split; [lia |].
  split; [apply Edelete |]. split; [exact P2 |].
  split; [unfold c2; now rewrite ranges_delete_item |].
  split; lia.
Qed.

Lemma not_in_list_del k l : ~ In k (list_del k l).
Proof.
  unfold list_del. intros H. apply filter_In in H. destruct H as (_ & H).
  now rewrite Z.eqb_refl in H.
Qed.

(** X11.  [scoutfs_item_dirty] counts an item once.  For a cached item
    that is not a deletion item the call returns 0 and leaves the item
    dirty, everything else about it, the other items and the ranges
    being as before.  A clean item leaves the lru and is counted: one
    more dirty item, [val_len] more dirty bytes.  An item that is dirty
    already leaves the whole cache as it is, so a second call changes
    nothing. *)
Theorem dirty_counts_once :
  forall (SCOUTFS_MAX_VAL_SIZE : Z) (c : item_cache) (k : scoutfs_key)
         (lock : scoutfs_lock) (fills : list fill) (it : cached_item),
    cache_wf c ->
    In it (tree_items (items c)) -> key it = k -> deletion it = false ->
    lock_coverage lock k SCOUTFS_LOCK_WRITE = true ->
    exists c',
      scoutfs_item_dirty SCOUTFS_MAX_VAL_SIZE c k lock fills = Ret (0, c', tt)
      /\ item_at c' k = Some (mark_dirty (strip it))
      /\ others c' k = others c k
      /\ ranges c' = ranges c
      /\ (item_is_dirty it = true -> c' = c)
      /\ (item_is_dirty it = false ->
          nr_dirty_items c' = nr_dirty_items c + 1
          /\ dirty_val_bytes c' = dirty_val_bytes c + val_len it
          /\ ~ In k (lru_list c'))
      /\ (forall fills',
             scoutfs_item_dirty SCOUTFS_MAX_VAL_SIZE c' k lock fills'
             = Ret (0, c', tt)).
Proof.
  intros M c k lock fills it (B & L) Hin Hk Hdel Hlock.
  pose proof (bst_found _ _ _ B Hin Hk) as Ef.
  assert (Hlen : len_ok it) by (rewrite Forall_forall in L; auto).
  assert (Ecall : forall c0 x fs,
             walk_found (items c0) k = Some x -> deletion x = false ->
             scoutfs_item_dirty M c0 k lock fs
             = Ret (0, mark_item_dirty c0 k, tt)).
  { intros c0 x fs Ex Hx. unfold scoutfs_item_dirty. rewrite Hlock.
    cbn [negb]. rewrite read_through_unfold. unfold dirty_locked, find_item.
    rewrite Ex, Hx. reflexivity. }
  pose proof (found_mark c k it Ef) as Ef'.
  exists (mark_item_dirty c k).
  split; [now apply (Ecall c it) |].
  split.
  { unfold item_at. rewrite Ef'. cbn [option_map]. f_equal.
    destruct (item_is_dirty it) eqn:Ed.
    - unfold mark_dirty, strip, set_dirty. cbn.
      unfold item_is_dirty in Ed. apply negb_true_iff, Z.eqb_neq in Ed.
      destruct (land_item_dirty (dirty it)) as [E | E]; [contradiction |].
      now rewrite E.
    - apply strip_mark. }
  split; [now apply others_mark |]. split; [apply ranges_mark |].
  split; [| split].
  - intros Ed. unfold mark_item_dirty. now rewrite Ef, Ed.
  - intros Ed. unfold mark_item_dirty. rewrite Ef, Ed.
    cbn [nr_dirty_items dirty_val_bytes lru_list update_dirty_item_counts
         set_lru set_items].
    rewrite (to_int_len (val_len it) Hlen). change (to_int 1) with 1.
    repeat split; try reflexivity. apply not_in_list_del.
  - intros fills'.
    assert (Hx : deletion (if item_is_dirty it then it
                           else set_dirty it (Z.lor (dirty it) ITEM_DIRTY))
                 = false) by (now destruct (item_is_dirty it)).
    rewrite (Ecall _ _ fills' Ef' Hx). f_equal. f_equal. f_equal.
    unfold mark_item_dirty at 1. rewrite Ef'.
    replace (item_is_dirty (if item_is_dirty it then it
                            else set_dirty it (Z.lor (dirty it) ITEM_DIRTY)))
      with true; [reflexivity |].
    destruct (item_is_dirty it) eqn:Ed; [now rewrite Ed |].
    symmetry. unfold item_is_dirty. cbn [dirty set_dirty].
    apply negb_true_iff, Z.eqb_neq.
    rewrite Z.land_lor_distr_l. change (Z.land ITEM_DIRTY ITEM_DIRTY) with 1.
    destruct (land_item_dirty (dirty it)) as [-> | ->]; discriminate.
Qed.

(** ** The range store *)

Lemma disjoint_ascending_app l x r :
  disjoint_ascending (l ++ x :: r) <->
  disjoint_ascending l /\ disjoint_ascending r
  /\ start x <= end_ x
  /\ Forall (fun y => end_ y < start x) l
  /\ Forall (fun y => end_ x < start y) r
  /\ Forall (fun a => Forall (fun b => end_ a < start b) r) l.
Proof.
  induction l as [| a l IH]; cbn [app disjoint_ascending].
  - split.
    + intros (H1 & H2 & H3). repeat split; auto.
    + intros (_ & H3 & H1 & _ & H2 & _). auto.
  - rewrite IH. split.
    + intros (Ha & Fa & Al & Ar & Hx & Fl & Fr & Flr).
      apply Forall_app in Fa. destruct Fa as (Fa1 & Fa2).
      inversion_clear Fa2 as [| ? ? Hax Far].
      repeat split; auto.
    + intros ((Ha & Fa1 & Al) & Ar & Hx & Fl & Fr & Flr).
      inversion_clear Fl as [| ? ? Hax Fl'].
      inversion_clear Flr as [| ? ? Far Flr'].
      repeat split; auto.
      apply Forall_app. split; [exact Fa1 |]. constructor; assumption.
Qed.

Lemma ranges_wf_list t : ranges_wf t <-> disjoint_ascending (range_list t).
Proof.
  induction t as [| l IHl rng r IHr]; cbn [ranges_wf range_list];
    [cbn; tauto |].
  rewrite disjoint_ascending_app, IHl, IHr. split.
  - intros (Al & Ar & Hx & Fl & Fr). repeat split; auto.
    apply Forall_forall. intros a Ha. apply Forall_forall. intros b Hb.
    rewrite Forall_forall in Fl, Fr. specialize (Fl a Ha).
    specialize (Fr b Hb). lia.
  - intros (Al & Ar & Hx & Fl & Fr & _). auto.
Qed.

Lemma disjoint_ascending_drop l x r :
  disjoint_ascending (l ++ x :: r) -> disjoint_ascending (l ++ r).
Proof.
  rewrite disjoint_ascending_app.
  intros (Al & Ar & Hx & Fl & Fr & Flr).
  induction l as [| a l IH]; cbn [app]; [exact Ar |].
  destruct Al as (Ha & Fa & Al).
  inversion_clear Fl as [| ? ? Hax Fl'].
  inversion_clear Flr as [| ? ? Far Flr'].
  cbn [disjoint_ascending]. split; [exact Ha |]. split; [| auto].
  apply Forall_app. auto.
Qed.

Lemma range_leftmost_list l :
  forall rng r m t',
    range_leftmost l rng r = (m, t') ->
    range_list (RNode l rng r) = m :: range_list t'.
Proof.
  induction l as [| ll IHl lrng lr _]; intros rng r m t';
    cbn [range_leftmost].
  - now intros [= <- <-].
  - destruct (range_leftmost ll lrng lr) as [m0 l'] eqn:E.
    intros [= <- <-]. specialize (IHl _ _ _ _ E).
    cbn [range_list] in *. now rewrite IHl.
Qed.

Lemma rb_erase_range_list l r :
  range_list (rb_erase_range l r) = range_list l ++ range_list r.
Proof.
  unfold rb_erase_range. destruct l as [| ll lrng lr].
  - reflexivity.
  - destruct r as [| rl rrng rr]; [now rewrite app_nil_r |].
    destruct (range_leftmost rl rrng rr) as [m r'] eqn:E.
    pose proof (range_leftmost_list _ _ _ _ _ E) as H.
    cbn [range_list] in *. now rewrite H.
Qed.

Lemma range_list_length t : length (range_list t) = range_size t.
Proof.
  induction t as [| l IHl rng r IHr]; cbn [range_list range_size];
    [reflexivity |].
  rewrite length_app. cbn [length]. lia.
Qed.

Lemma disjoint_ascending_concat l1 l2 :
  disjoint_ascending (l1 ++ l2) <->
  disjoint_ascending l1 /\ disjoint_ascending l2
  /\ Forall (fun a => Forall (fun b => end_ a < start b) l2) l1.
Proof.
  induction l1 as [| a l IH]; cbn [app disjoint_ascending].
  - split; [intros H; repeat split; auto | tauto].
  - rewrite IH. split.
    + intros (Ha & Fa & Al & A2 & F).
      apply Forall_app in Fa. destruct Fa as (Fa1 & Fa2).
      repeat split; auto.
    + intros ((Ha & Fa1 & Al) & A2 & F).
      inversion_clear F as [| ? ? Fa2 F'].
      repeat split; auto. apply Forall_app. auto.
Qed.

Lemma insert_range_descend_spec t ins :
  disjoint_ascending (range_list t) -> start ins <= end_ ins ->
  match insert_range_descend t ins with
  | Settled t' =>
      (t' = t
       /\ exists x, In x (range_list t)
                    /\ start x <= start ins /\ end_ ins <= end_ x)
      \/ exists l1 l2,
           range_list t = l1 ++ l2 /\ range_list t' = l1 ++ ins :: l2
           /\ Forall (fun y => end_ y < start ins) l1
           /\ Forall (fun y => end_ ins < start y) l2
  | Restart t' ins' =>
      exists l1 x l2,
        range_list t = l1 ++ x :: l2 /\ range_list t' = l1 ++ l2
        /\ start x <= end_ ins /\ start ins <= end_ x
        /\ start ins' = Z.min (start ins) (start x)
        /\ end_ ins' = Z.max (end_ ins) (end_ x)
  end.
Proof.
  intros A Hins. induction t as [| l IHl rng r IHr].
  - cbn. right. exists [], []. repeat split; constructor.
  - cbn [range_list] in A. apply disjoint_ascending_app in A.
    destruct A as (Al & Ar & Hrng & Fl & Fr & _).
    specialize (IHl Al). specialize (IHr Ar).
    cbn [insert_range_descend range_list].
    destruct (compare_ranges_cases ins rng)
      as [(H1 & ->) | [(H1 & H2 & ->) | (H1 & H2 & ->)]];
      cbn [Z.ltb Z.gtb Z.compare].
    + destruct (insert_range_descend l ins) as [l' | l' ins'];
        cbn [lift_range range_list].
      * destruct IHl as [(-> & x & Hx & Hb) | (l1 & l2 & E & E' & F1 & F2)].
        -- left. split; [reflexivity |]. exists x.
           split; [apply in_or_app; now left | exact Hb].
        -- right. exists l1, (l2 ++ rng :: range_list r).
           rewrite E, E', <- !app_assoc. repeat split; auto.
           apply Forall_app. split; [exact F2 |].
           constructor; [exact H1 |].
           eapply Forall_impl; [| exact Fr]. cbn. intros; lia.
      * destruct IHl as (l1 & x & l2 & E & E' & Hb).
        exists l1, x, (l2 ++ rng :: range_list r).
        rewrite E, E', <- !app_assoc. auto.
    + destruct (insert_range_descend r ins) as [r' | r' ins'];
        cbn [lift_range range_list].
      * destruct IHr as [(-> & x & Hx & Hb) | (l1 & l2 & E & E' & F1 & F2)].
        -- left. split; [reflexivity |]. exists x.
           split; [apply in_or_app; right; now right | exact Hb].
        -- right. exists (range_list l ++ rng :: l1), l2.
           rewrite E, E', <- !app_assoc. repeat split; auto.
           apply Forall_app. split.
           ++ eapply Forall_impl; [| exact Fl]. cbn. intros; lia.
           ++ constructor; [lia | exact F1].
      * destruct IHr as (l1 & x & l2 & E & E' & Hb).
        exists (range_list l ++ rng :: l1), x, l2.
        rewrite E, E', <- !app_assoc. auto.
    + key_cases (start ins) (start rng); key_cases (end_ ins) (end_ rng);
        cbn [andb];
        first
          [ left; split; [reflexivity |]; exists rng;
            split; [apply in_elt | lia]
          | exists (range_list l), rng, (range_list r);
            rewrite rb_erase_range_list; cbn [start end_];
            repeat split; lia ].
Qed.

Lemma covers_hull ins x ins' k :
  start ins <= end_ ins -> start x <= end_ x ->
  start x <= end_ ins -> start ins <= end_ x ->
  start ins' = Z.min (start ins) (start x) ->
  end_ ins' = Z.max (end_ ins) (end_ x) ->
  covers ins' k <-> covers ins k \/ covers x k.
Proof. unfold covers. lia. Qed.

Lemma insert_range_loop_spec fuel :
  forall t ins,
    (range_size t < fuel)%nat ->
    disjoint_ascending (range_list t) -> start ins <= end_ ins ->
    exists t',
      insert_range_loop fuel t ins = Ret t'
      /\ disjoint_ascending (range_list t')
      /\ forall k, covered t' k <-> covered t k \/ covers ins k.
Proof.
  induction fuel as [| fuel IH]; intros t ins Hf A Hins; [lia |].
  cbn [insert_range_loop].
  pose proof (insert_range_descend_spec t ins A Hins) as S.
  destruct (insert_range_descend t ins) as [t' | t' ins'].
  - exists t'. split; [reflexivity |].
    destruct S as [(-> & x & Hx & Hb) | (l1 & l2 & E & E' & F1 & F2)].
    + split; [exact A |]. intros k. split; [auto |].
      intros [H | H]; [exact H |]. exists x. split; [exact Hx |].
      unfold covers in *. lia.
    + rewrite E in A. apply disjoint_ascending_concat in A.
      destruct A as (A1 & A2 & F12). split.
      * rewrite E'. apply disjoint_ascending_app. repeat split; auto.
      * intros k. unfold covered. rewrite E, E'. split.
        -- intros (x & Hx & Hc). apply in_app_or in Hx.
           destruct Hx as [Hx | [<- | Hx]]; [left | right | left]; auto;
             exists x; (split; [apply in_or_app; auto | exact Hc]).
        -- intros [(x & Hx & Hc) | Hc].
           ++ exists x. split; [| exact Hc]. apply in_app_or in Hx.
              apply in_or_app. destruct Hx; [left | right; right]; auto.
           ++ exists ins. split; [apply in_elt | exact Hc].
  - destruct S as (l1 & x & l2 & E & E' & H1 & H2 & Hs & He).
    assert (Hx : start x <= end_ x).
    { rewrite E in A. apply disjoint_ascending_app in A. tauto. }
    assert (A' : disjoint_ascending (range_list t')).
    { rewrite E'. apply (disjoint_ascending_drop l1 x l2). now rewrite <- E. }
    assert (Hsize : (range_size t' < fuel)%nat).
    { rewrite <- range_list_length in *. rewrite E in Hf. rewrite E'.
      rewrite length_app in *. cbn [length] in Hf. lia. }
    destruct (IH t' ins' Hsize A') as (t2 & E2 & A2 & C2); [lia |].
    exists t2. split; [exact E2 |]. split; [exact A2 |].
    intros k. rewrite C2, (covers_hull ins x ins' k) by assumption.
    unfold covered. rewrite E, E'. split.
    + intros [(y & Hy & Hc) | [Hc | Hc]]; [left | right | left]; auto.
      * exists y. split; [| exact Hc]. apply in_app_or in Hy.
        apply in_or_app. destruct Hy; [left | right; right]; auto.
      * exists x. split; [apply in_elt | exact Hc].
    + intros [(y & Hy & Hc) | Hc]; [| auto].
      apply in_app_or in Hy. destruct Hy as [Hy | [<- | Hy]]; auto;
        left; exists y; (split; [apply in_or_app; auto | exact Hc]).
Qed.

(** X12.  [insert_range] keeps the range store in order and adds
    exactly the new range.  On a store of ordered, non-empty ranges no
    two of which meet, inserting a non-empty range returns such a store
    again, however many old ranges the new one overlaps, and a key is
    covered afterwards exactly when it was covered before or lies in
    the new range. *)
Theorem insert_range_covers_union :
  forall (t : range_tree) (ins : cached_range),
    ranges_wf t -> start ins <= end_ ins ->
    exists t',
      insert_range t ins = Ret t'
      /\ ranges_wf t'
      /\ forall k, covered t' k <-> covered t k \/ covers ins k.
Proof.
  intros t ins W Hins. apply ranges_wf_list in W.
  destruct (insert_range_loop_spec (S (range_size t)) t ins) as
    (t' & E & A & C); auto.
  exists t'. split; [exact E |]. split; [now apply ranges_wf_list | exact C].
Qed.

Lemma da_node l x r :
  disjoint_ascending l -> disjoint_ascending r -> start x <= end_ x ->
  Forall (fun y => end_ y < start x) l ->
  Forall (fun y => end_ x < start y) r ->
  disjoint_ascending (l ++ x :: r).
Proof.
  intros Al Ar Hx Fl Fr. apply disjoint_ascending_app. repeat split; auto.
  apply Forall_forall. intros a Ha. apply Forall_forall. intros b Hb.
  rewrite Forall_forall in Fl, Fr. specialize (Fl a Ha).
  specialize (Fr b Hb). lia.
Qed.

Lemma da_bounds l :
  disjoint_ascending l -> Forall (fun y => start y <= end_ y) l.
Proof.
  induction l as [| x l IH]; cbn [disjoint_ascending]; [constructor |].
  intros (Hx & _ & Al). constructor; auto.
Qed.

Lemma covered_node l x r k :
  covered (RNode l x r) k <-> covered l k \/ covers x k \/ covered r k.
Proof.
  unfold covered. cbn [range_list]. split.
  - intros (y & Hy & Hc). apply in_app_or in Hy.
    destruct Hy as [Hy | [<- | Hy]]; [left | right; left | right; right];
      eauto.
  - intros [(y & Hy & Hc) | [Hc | (y & Hy & Hc)]].
    + exists y. split; [apply in_or_app; now left | exact Hc].
    + exists x. split; [apply in_elt | exact Hc].
    + exists y. split; [apply in_or_app; right; now right | exact Hc].
Qed.

Lemma covered_nil k : ~ covered RNil k.
Proof. intros (y & [] & _). Qed.

Lemma covered_lt t b k :
  Forall (fun y => end_ y < b) (range_list t) -> covered t k -> k < b.
Proof.
  intros F (y & Hy & Hc). rewrite Forall_forall in F. specialize (F y Hy).
  unfold covers in Hc. lia.
Qed.

Lemma covered_gt t b k :
  Forall (fun y => b < start y) (range_list t) -> covered t k -> b < k.
Proof.
  intros F (y & Hy & Hc). rewrite Forall_forall in F. specialize (F y Hy).
  unfold covers in Hc. lia.
Qed.

Lemma cov_upper t t' b :
  disjoint_ascending (range_list t') ->
  (forall k, covered t' k -> covered t k) ->
  Forall (fun y => end_ y < b) (range_list t) ->
  Forall (fun y => end_ y < b) (range_list t').
Proof.
  intros A C F. pose proof (da_bounds _ A) as Hb.
  rewrite Forall_forall in *. intros y Hy. specialize (Hb y Hy).
  apply (covered_lt t b (end_ y)); [now apply Forall_forall |].
  apply C. exists y. split; [exact Hy | unfold covers; lia].
Qed.

Lemma cov_lower t t' b :
  disjoint_ascending (range_list t') ->
  (forall k, covered t' k -> covered t k) ->
  Forall (fun y => b < start y) (range_list t) ->
  Forall (fun y => b < start y) (range_list t').
Proof.
  intros A C F. pose proof (da_bounds _ A) as Hb.
  rewrite Forall_forall in *. intros y Hy. specialize (Hb y Hy).
  apply (covered_gt t b (start y)); [now apply Forall_forall |].
  apply C. exists y. split; [exact Hy | unfold covers; lia].
Qed.

Lemma no_strict_sub (l : list cached_range) rem rem' :
  start rem <= start rem' -> end_ rem' <= end_ rem ->
  start rem' <= end_ rem' ->
  Forall (fun y => end_ rem < start y \/ end_ y < start rem) l ->
  no_strict l rem'.
Proof.
  intros H1 H2 H3 F. unfold no_strict. eapply Forall_impl; [| exact F].
  cbn. intros; lia.
Qed.

Ltac done_parts := unfold removal_done; split; [| split; [| split; [| split]]].
Ltac step_parts :=
  unfold removal_step;
  split; [| split; [| split; [| split; [| split; [| split; [| split;
                                                             [| split]]]]]]].

(** A range of [l ++ rng :: r] that is apart from the interval is still
    there afterwards: [tl], [tx] and [tr] settle the three places. *)
Ltac keep_parts tl tx tr :=
  let y := fresh "y" in
  let Hy := fresh "Hy" in
  let Hd := fresh "Hd" in
  intros y Hy Hd; unfold apart in *; cbn [range_list] in Hy |- *;
  rewrite ?rb_erase_range_list;
  apply in_app_or in Hy; apply in_or_app;
  destruct Hy as [Hy | [Hy | Hy]];
  [ tl y Hy Hd | tx y Hy Hd | tr y Hy Hd ].

Ltac keep_left y Hy Hd := left; exact Hy.
Ltac keep_right y Hy Hd := right; right; exact Hy.
Ltac keep_here y Hy Hd := right; left; exact Hy.
Ltac keep_never y Hy Hd := exfalso; subst y; cbn in *; lia.
Ltac keep_erased_left y Hy Hd := left; exact Hy.
Ltac keep_erased_right y Hy Hd := right; exact Hy.

Lemma remove_descend_spec t :
  forall fuel rem,
    (2 * range_size t < fuel)%nat ->
    disjoint_ascending (range_list t) ->
    start rem <= end_ rem ->
    no_strict (range_list t) rem ->
    match remove_range_descend fuel t rem false with
    | Bottom t' => removal_done t rem t'
    | Again t' rem' ins => ins = false /\ removal_step t rem t' rem'
    | Stuck => False
    end.
Proof.
  induction t as [| l IHl rng r IHr]; intros fuel rem Hf A Hrem NS.
  - destruct fuel as [| fuel]; [lia |]. cbn [remove_range_descend].
    done_parts; [exact I | auto | intros k _; apply covered_nil | lia | auto].
  - destruct fuel as [| fuel]; [cbn in Hf; lia |].
    cbn [range_size] in Hf. cbn [remove_range_descend].
    cbn [range_list] in A, NS. apply disjoint_ascending_app in A.
    destruct A as (Al & Ar & Hrng & Fl & Fr & _).
    unfold no_strict in NS. apply Forall_app in NS.
    destruct NS as (NSl & NS'). inversion_clear NS' as [| ? ? NSx NSr].
    destruct (compare_ranges_cases rem rng)
      as [(H1 & ->) | [(H1 & H2 & ->) | (H1 & H2 & ->)]];
      cbn [Z.ltb Z.gtb Z.compare].
    + (* the interval lies before the range *)
      specialize (IHl fuel rem ltac:(lia) Al Hrem NSl).
      destruct (remove_range_descend fuel l rem false) as [l' | l' rem' i |];
        cbn [lift_remove]; [| | exact IHl].
      * destruct IHl as (A' & C & N & S & Kp). done_parts.
        -- cbn [range_list]. apply da_node; auto.
           apply (cov_upper l l'); auto.
        -- intros k. rewrite !covered_node. intuition.
        -- intros k Hk. rewrite covered_node. intros [H | [H | H]].
           ++ exact (N k Hk H).
           ++ unfold covers in *. lia.
           ++ apply (covered_gt r (end_ rng) k Fr) in H.
              unfold covers in *. lia.
        -- cbn [range_size]. lia.
        -- keep_parts ltac:(fun y Hy Hd => left; apply Kp; assumption)
                      keep_here keep_right.
      * destruct IHl as (-> & A' & Hr' & NS' & C & K & S1 & S2 & S & Kp).
        split; [reflexivity |]. step_parts; try assumption.
        -- cbn [range_list]. apply da_node; auto.
           apply (cov_upper l l'); auto.
        -- cbn [range_list]. apply Forall_app. split; [exact NS' |].
           constructor; [lia |].
           eapply Forall_impl; [| exact Fr]. cbn. intros; lia.
        -- intros k. rewrite !covered_node. intuition.
        -- intros k Hk. rewrite covered_node. intros [H | [H | H]].
           ++ exact (K k Hk H).
           ++ unfold covers in *. lia.
           ++ apply (covered_gt r (end_ rng) k Fr) in H.
              unfold covers in *. lia.
        -- cbn [range_size]. lia.
        -- keep_parts ltac:(fun y Hy Hd => left; apply Kp; assumption)
                      keep_here keep_right.
    + (* the interval lies after the range *)
      specialize (IHr fuel rem ltac:(lia) Ar Hrem NSr).
      destruct (remove_range_descend fuel r rem false) as [r' | r' rem' i |];
        cbn [lift_remove]; [| | exact IHr].
      * destruct IHr as (A' & C & N & S & Kp). done_parts.
        -- cbn [range_list]. apply da_node; auto.
           apply (cov_lower r r'); auto.
        -- intros k. rewrite !covered_node. intuition.
        -- intros k Hk. rewrite covered_node. intros [H | [H | H]].
           ++ apply (covered_lt l (start rng) k Fl) in H.
              unfold covers in *. lia.
           ++ unfold covers in *. lia.
           ++ exact (N k Hk H).
        -- cbn [range_size]. lia.
        -- keep_parts keep_left keep_here
                      ltac:(fun y Hy Hd => right; right; apply Kp;
                                           assumption).
      * destruct IHr as (-> & A' & Hr' & NS' & C & K & S1 & S2 & S & Kp).
        split; [reflexivity |]. step_parts; try assumption.
        -- cbn [range_list]. apply da_node; auto.
           apply (cov_lower r r'); auto.
        -- cbn [range_list]. apply Forall_app. split.
           ++ eapply Forall_impl; [| exact Fl]. cbn. intros; lia.
           ++ constructor; [lia | exact NS'].
        -- intros k. rewrite !covered_node. intuition.
        -- intros k Hk. rewrite covered_node. intros [H | [H | H]].
           ++ apply (covered_lt l (start rng) k Fl) in H.
              unfold covers in *. lia.
           ++ unfold covers in *. lia.
           ++ exact (K k Hk H).
        -- cbn [range_size]. lia.
        -- keep_parts keep_left keep_here
                      ltac:(fun y Hy Hd => right; right; apply Kp;
                                           assumption).
    + (* the interval and the range overlap *)
      assert (Erase : removal_step (RNode l rng r) rem
                                   (rb_erase_range l r) rem).
      { step_parts; try lia.
        - rewrite rb_erase_range_list.
          apply (disjoint_ascending_drop _ rng). apply da_node; auto.
        - rewrite rb_erase_range_list. apply Forall_app.
          split; assumption.
        - intros k (y & Hy & Hc). rewrite rb_erase_range_list in Hy.
          exists y. split; [| exact Hc]. cbn [range_list].
          apply in_app_or in Hy. apply in_or_app.
          destruct Hy; [left | right; right]; assumption.
        - auto.
        - rewrite <- !range_list_length, rb_erase_range_list.
          cbn [range_list]. rewrite !length_app. cbn [length]. lia.
        - keep_parts keep_erased_left keep_never keep_erased_right. }
      key_cases (start rem) (start rng); key_cases (end_ rem) (end_ rng);
        cbn [andb]; try (split; [reflexivity | exact Erase]).
      * (* the interval ends inside the range: its start is cut off *)
        destruct fuel as [| fuel]; [lia |]. cbn [remove_range_descend].
        cbn [start end_]. unfold scoutfs_key_inc.
        destruct (compare_ranges_cases
                    (mk_range (start rem) (start rng))
                    (mk_range (end_ rem + 1) (end_ rng)))
          as [(G1 & G) | [(G1 & G2 & G) | (G1 & G2 & G)]];
          cbn [start end_] in *; try lia.
        rewrite G. cbn [Z.ltb Z.compare].
        assert (NSl' : no_strict (range_list l) (mk_range (start rem) (start rng))).
        { eapply Forall_impl; [| exact Fl]. cbn. intros; lia. }
        specialize (IHl fuel (mk_range (start rem) (start rng)) ltac:(lia) Al ltac:(cbn; lia) NSl').
        destruct (remove_range_descend fuel l (mk_range (start rem) (start rng)) false)
          as [l' | l' rem2 i |]; cbn [lift_remove]; [| | exact IHl].
        -- destruct IHl as (A' & C & N & S & Kp).
           assert (Fl' := cov_upper l l' _ A' C Fl). done_parts.
           ++ cbn [range_list]. apply da_node; auto; cbn; try lia.
              eapply Forall_impl; [| exact Fl']. cbn. intros; lia.
           ++ intros k. rewrite !covered_node. unfold covers. cbn.
              pose proof (C k). intuition lia.
           ++ intros k Hc. rewrite covered_node. intros [H | [H | H]].
              ** pose proof (covered_lt l' _ k Fl' H).
                 apply (N k); [unfold covers in *; cbn in *; lia | exact H].
              ** unfold covers in *. cbn in *. lia.
              ** apply (covered_gt r (end_ rng) k Fr) in H.
                 unfold covers in *. lia.
           ++ cbn [range_size]. lia.
           ++ keep_parts
                ltac:(fun y Hy Hd => left; apply Kp;
                                     [exact Hy | unfold apart; cbn; lia])
                keep_never keep_right.
        -- destruct IHl as (-> & A' & Hr' & NS' & C & K & S1 & S2 & S & Kp).
           cbn [start end_] in S1, S2.
           assert (Fl' := cov_upper l l' _ A' C Fl).
           split; [reflexivity |]. step_parts; try assumption; try lia.
           ++ cbn [range_list]. apply da_node; auto; cbn; try lia.
              eapply Forall_impl; [| exact Fl']. cbn. intros; lia.
           ++ cbn [range_list]. apply Forall_app. split; [exact NS' |].
              constructor; [cbn; lia |].
              eapply Forall_impl; [| exact Fr]. cbn. intros; lia.
           ++ intros k. rewrite !covered_node. unfold covers. cbn.
              pose proof (C k). intuition lia.
           ++ intros k Hc. rewrite covered_node. intros [H | [H | H]].
              ** pose proof (covered_lt l' _ k Fl' H).
                 apply (K k); [unfold covers in *; cbn in *; lia | exact H].
              ** unfold covers in *. cbn in *. lia.
              ** apply (covered_gt r (end_ rng) k Fr) in H.
                 unfold covers in *. lia.
           ++ cbn [range_size]. lia.
           ++ keep_parts
                ltac:(fun y Hy Hd => left; apply Kp;
                                     [exact Hy | unfold apart; cbn; lia])
                keep_never keep_right.
      * (* the interval lies strictly inside the range *)
        exfalso. apply NSx. lia.
      * (* the interval starts inside the range: its end is cut off *)
        destruct fuel as [| fuel]; [lia |]. cbn [remove_range_descend].
        cbn [start end_]. unfold scoutfs_key_dec.
        destruct (compare_ranges_cases
                    (mk_range (end_ rng) (end_ rem))
                    (mk_range (start rng) (start rem - 1)))
          as [(G1 & G) | [(G1 & G2 & G) | (G1 & G2 & G)]];
          cbn [start end_] in *; try lia.
        rewrite G. cbn [Z.ltb Z.gtb Z.compare].
        assert (NSr' : no_strict (range_list r) (mk_range (end_ rng) (end_ rem))).
        { eapply Forall_impl; [| exact Fr]. cbn. intros; lia. }
        specialize (IHr fuel (mk_range (end_ rng) (end_ rem)) ltac:(lia) Ar ltac:(cbn; lia) NSr').
        destruct (remove_range_descend fuel r (mk_range (end_ rng) (end_ rem)) false)
          as [r' | r' rem2 i |]; cbn [lift_remove]; [| | exact IHr].
        -- destruct IHr as (A' & C & N & S & Kp).
           assert (Fr' := cov_lower r r' _ A' C Fr). done_parts.
           ++ cbn [range_list]. apply da_node; auto; cbn; try lia.
              eapply Forall_impl; [| exact Fr']. cbn. intros; lia.
           ++ intros k. rewrite !covered_node. unfold covers. cbn.
              pose proof (C k). intuition lia.
           ++ intros k Hc. rewrite covered_node. intros [H | [H | H]].
              ** apply (covered_lt l (start rng) k Fl) in H.
                 unfold covers in *. lia.
              ** unfold covers in *. cbn in *. lia.
              ** pose proof (covered_gt r' _ k Fr' H).
                 apply (N k); [unfold covers in *; cbn in *; lia | exact H].
           ++ cbn [range_size]. lia.
           ++ keep_parts
                keep_left keep_never
                ltac:(fun y Hy Hd => right; right; apply Kp;
                                     [exact Hy | unfold apart; cbn; lia]).
        -- destruct IHr as (-> & A' & Hr' & NS' & C & K & S1 & S2 & S & Kp).
           cbn [start end_] in S1, S2.
           assert (Fr' := cov_lower r r' _ A' C Fr).
           split; [reflexivity |]. step_parts; try assumption; try lia.
           ++ cbn [range_list]. apply da_node; auto; cbn; try lia.
              eapply Forall_impl; [| exact Fr']. cbn. intros; lia.
           ++ cbn [range_list]. apply Forall_app. split.
              ** eapply Forall_impl; [| exact Fl]. cbn. intros; lia.
              ** constructor; [cbn; lia | exact NS'].
           ++ intros k. rewrite !covered_node. unfold covers. cbn.
              pose proof (C k). intuition lia.
           ++ intros k Hc. rewrite covered_node. intros [H | [H | H]].
              ** apply (covered_lt l (start rng) k Fl) in H.
                 unfold covers in *. lia.
              ** unfold covers in *. cbn in *. lia.
              ** pose proof (covered_gt r' _ k Fr' H).
                 apply (K k); [unfold covers in *; cbn in *; lia | exact H].
           ++ cbn [range_size]. lia.
           ++ keep_parts
                keep_left keep_never
                ltac:(fun y Hy Hd => right; right; apply Kp;
                                     [exact Hy | unfold apart; cbn; lia]).
Qed.

Lemma remove_loop_spec fuel :
  forall walk_fuel t rem,
    (range_size t < fuel)%nat ->
    (2 * range_size t < walk_fuel)%nat ->
    disjoint_ascending (range_list t) ->
    start rem <= end_ rem ->
    no_strict (range_list t) rem ->
    exists t',
      remove_range_loop fuel walk_fuel t rem false = Ret t'
      /\ removal_done t rem t'.
Proof.
  induction fuel as [| fuel IH]; intros wf t rem Hf Hw A Hrem NS; [lia |].
  cbn [remove_range_loop].
  pose proof (remove_descend_spec t wf rem Hw A Hrem NS) as S.
  destruct (remove_range_descend wf t rem false) as [t1 | t1 rem1 i |];
    [| | contradiction].
  - exists t1. split; [reflexivity | exact S].
  - destruct S as (-> & A1 & Hr1 & NS1 & C1 & K1 & S1 & S2 & Sz & Kp1).
    destruct (IH wf t1 rem1 ltac:(lia) ltac:(lia) A1 Hr1 NS1)
      as (t' & E & A' & C' & N' & Sz' & Kp').
    exists t'. split; [exact E |]. done_parts.
    + exact A'.
    + auto.
    + intros k Hk Hc. apply (N' k); [| exact Hc].
      apply (K1 k Hk). now apply C'.
    + lia.
    + intros y Hy Hd. apply Kp'; [now apply Kp1 |].
      unfold apart in *. lia.
Qed.

Lemma no_strict_or_inside (l : list cached_range) rem :
  no_strict l rem
  \/ exists l1 rng l2,
       l = l1 ++ rng :: l2 /\ start rng < start rem /\ end_ rem < end_ rng.
Proof.
  induction l as [| x l IH]; [left; constructor |].
  destruct (Z_lt_dec (start x) (start rem)) as [H1 | H1].
  - destruct (Z_lt_dec (end_ rem) (end_ x)) as [H2 | H2].
    + right. exists [], x, l. auto.
    + destruct IH as [IH | (l1 & rng & l2 & -> & H)].
      * left. constructor; [lia | exact IH].
      * right. exists (x :: l1), rng, l2. auto.
  - destruct IH as [IH | (l1 & rng & l2 & -> & H)].
    + left. constructor; [lia | exact IH].
    + right. exists (x :: l1), rng, l2. auto.
Qed.

(** The removal of the inside of one range, as a list. *)
Lemma remove_range_middle t rem rng l1 l2 :
  ranges_wf t ->
  range_list t = l1 ++ rng :: l2 ->
  start rng < start rem -> start rem <= end_ rem -> end_ rem < end_ rng ->
  exists t',
    remove_range t rem = Ret t'
    /\ range_list t'
       = l1 ++ mk_range (start rng) (start rem - 1)
            :: mk_range (end_ rem + 1) (end_ rng) :: l2.
Proof.
  intros W E H1 H2 H3. unfold remove_range.
  change (2 + range_size t)%nat with (S (S (range_size t))).
  cbn [remove_range_loop].
  destruct (remove_descend_middle t (2 + 2 * range_size t) rem rng l1 l2 false
              W ltac:(lia) E H1 H2 H3) as (t1 & -> & E1 & S1).
  destruct (ranges_wf_sorted t W l1 rng l2 E) as (F1 & F2).
  pose proof (ranges_wf_bounds t W) as Hb. rewrite E in Hb.
  apply Forall_app in Hb. destruct Hb as (Hb1 & Hb2).
  inversion_clear Hb2 as [| ? ? Hrng Hb2'].
  unfold scoutfs_key_inc, scoutfs_key_dec in *.
  destruct (remove_descend_link t1 (2 + 2 * range_size t)
              (mk_range (end_ rem + 1) (end_ rng))
              (l1 ++ [mk_range (start rng) (start rem - 1)]) l2)
    as (t2 & -> & E2).
  - lia.
  - cbn. lia.
  - rewrite E1, <- app_assoc. reflexivity.
  - rewrite E1. apply Forall_app. split; [assumption |].
    constructor; [cbn; lia | assumption].
  - apply Forall_app. split.
    + revert F1. apply Forall_impl. intros y Hy. cbn. lia.
    + constructor; [cbn; lia | constructor].
  - revert F2. apply Forall_impl. intros y Hy. cbn. lia.
  - eexists; split; [reflexivity |].
    rewrite E2, <- app_assoc. reflexivity.
Qed.

(** Both cases of [remove_range] together: the interval lies strictly
    inside one range, which is split, or it does not, and the ranges it
    meets are trimmed or erased one descent at a time. *)
Lemma remove_range_total (t : range_tree) (rem : cached_range) :
  ranges_wf t -> start rem <= end_ rem ->
  exists t',
    remove_range t rem = Ret t'
    /\ ranges_wf t'
    /\ (forall k, covered t' k -> covered t k)
    /\ (forall k, covers rem k -> ~ covered t' k)
    /\ (forall y, In y (range_list t) -> apart y rem ->
                  In y (range_list t')).
Proof.
  intros W Hrem. pose proof (proj1 (ranges_wf_list t) W) as A.
  destruct (no_strict_or_inside (range_list t) rem)
    as [NS | (l1 & rng & l2 & E & H1 & H3)].
  - destruct (remove_loop_spec (2 + range_size t) (2 + 2 * range_size t)
                t rem ltac:(lia) ltac:(lia) A Hrem NS)
      as (t' & Er & A' & C & N & _ & Kp).
    exists t'. split; [exact Er |].
    split; [now apply ranges_wf_list |]. auto.
  - destruct (remove_range_middle t rem rng l1 l2 W E H1 Hrem H3)
      as (t' & Er & El).
    exists t'. split; [exact Er |].
    rewrite E in A. apply disjoint_ascending_app in A.
    destruct A as (A1 & A2 & Hrng & F1 & F2 & F12).
    split; [| split; [| split]].
    + apply ranges_wf_list. rewrite El. apply da_node; auto.
      * cbn [disjoint_ascending]. split; [cbn; lia |]. split; auto.
      * cbn. lia.
      * constructor; [cbn; lia |].
        eapply Forall_impl; [| exact F2]. cbn. intros; lia.
    + intros k (y & Hy & Hc). rewrite El in Hy. unfold covered.
      rewrite E. apply in_app_or in Hy.
      destruct Hy as [Hy | [<- | [<- | Hy]]].
      * exists y. split; [apply in_or_app; now left | exact Hc].
      * exists rng. split; [apply in_elt |]. unfold covers in *.
        cbn in Hc. lia.
      * exists rng. split; [apply in_elt |]. unfold covers in *.
        cbn in Hc. lia.
      * exists y. split; [apply in_or_app; right; now right | exact Hc].
    + intros k Hk (y & Hy & Hc). rewrite El in Hy. apply in_app_or in Hy.
      rewrite Forall_forall in F1, F2. unfold covers in *.
      destruct Hy as [Hy | [<- | [<- | Hy]]].
      * specialize (F1 y Hy). lia.
      * cbn in Hc. lia.
      * cbn in Hc. lia.
      * specialize (F2 y Hy). lia.
    + intros y Hy Hd. rewrite E in Hy. rewrite El.
      apply in_app_or in Hy. apply in_or_app. unfold apart in Hd.
      destruct Hy as [Hy | [<- | Hy]]; [now left | lia |].
      right. right. now right.
Qed.

(** X13.  [remove_range] uncovers the whole interval and nothing that
    lies outside it.  On a store of ordered, non-empty ranges no two of
    which meet, removing a non-empty interval returns such a store
    again; no key of the interval is covered afterwards, no key is
    covered that was not covered before, and every range that does not
    meet the interval is still there. *)
Theorem remove_range_uncovers :
  forall (t : range_tree) (rem : cached_range),
    ranges_wf t -> start rem <= end_ rem ->
    exists t',
      remove_range t rem = Ret t'
      /\ ranges_wf t'
      /\ (forall k, covered t' k -> covered t k)
      /\ (forall k, covers rem k -> ~ covered t' k)
      /\ (forall y, In y (range_list t) -> apart y rem ->
                    In y (range_list t')).
Proof. intros t rem. apply remove_range_total. Qed.

(** ** Invalidation *)

Lemma to_uint_to_int x : to_uint (to_int x) = to_uint x.
Proof.
  unfold to_int, to_uint.
  destruct (x mod 4294967296 <? 2147483648).
  - apply Z.mod_mod. lia.
  - replace (x mod 4294967296 - 4294967296)
      with (x mod 4294967296 + (-1) * 4294967296) by lia.
    rewrite Z.mod_add by lia. apply Z.mod_mod. lia.
Qed.

Lemma to_int_add x y : to_int (to_int x + y) = to_int (x + y).
Proof.
  assert (E : to_uint (to_int x + y) = to_uint (x + y)).
  { unfold to_uint at 1. rewrite <- Zplus_mod_idemp_l.
    change ((to_int x) mod 4294967296) with (to_uint (to_int x)).
    rewrite to_uint_to_int. unfold to_uint. apply Zplus_mod_idemp_l. }
  unfold to_int at 1 3. now rewrite E.
Qed.

Lemma to_int_idem x : to_int (to_int x) = to_int x.
Proof.
  replace (to_int x) with (to_int x + 0) at 1 by lia.
  rewrite to_int_add. f_equal. lia.
Qed.

Lemma ascending_contents t : bst t -> ascending (contents t).
Proof.
  intros B. apply bst_ascending in B. unfold contents.
  induction (tree_items t) as [| x l IH]; cbn [map ascending]; [auto |].
  destruct B as (Fx & Al). split; [| auto].
  apply Forall_map. eapply Forall_impl; [| exact Fx]. cbn. auto.
Qed.

Lemma filter_strip (p : scoutfs_key -> bool) (l : list cached_item) :
  filter (fun x => p (key x)) (map strip l)
  = map strip (filter (fun x => p (key x)) l).
Proof.
  induction l as [| x l IH]; cbn [map filter]; [reflexivity |].
  change (key (strip x)) with (key x).
  destruct (p (key x)); cbn [map]; now rewrite IH.
Qed.

Lemma hd_key_strip (l : list cached_item) :
  option_map key (hd_error (map strip l)) = option_map key (hd_error l).
Proof. destruct l; reflexivity. Qed.

Lemma in_contents_found t x :
  bst t -> In x (contents t) ->
  exists it, walk_found t (key x) = Some it /\ strip it = x.
Proof.
  intros B Hin. apply in_map_iff in Hin. destruct Hin as (it & E & Hin).
  exists it. split; [| exact E]. apply bst_found; auto.
  now rewrite <- E.
Qed.

(** The first item from a key on is the least one: every item from
    the key on is that one or has a larger key. *)
Lemma items_from_least a l x0 rest :
  ascending l -> items_from a l = x0 :: rest ->
  a <= key x0 /\ In x0 l
  /\ forall x, In x l -> a <= key x -> x = x0 \/ key x0 < key x.
Proof.
  intros A E. pose proof (items_from_rest a l x0 rest A E) as R.
  assert (H0 : In x0 (items_from a l)) by (rewrite E; now left).
  apply filter_In in H0. destruct H0 as (H0 & Ha). apply Z.leb_le in Ha.
  split; [exact Ha |]. split; [exact H0 |]. intros x Hx Hk.
  assert (Hin : In x (items_from a l)).
  { apply filter_In. split; [exact Hx |]. now apply Z.leb_le. }
  rewrite E in Hin. destruct Hin as [<- | Hin]; [now left |].
  right. rewrite R in Hin. apply filter_In in Hin.
  now apply Z.ltb_lt.
Qed.

Lemma items_from_after a l x0 rest :
  ascending l -> items_from a l = x0 :: rest ->
  items_from (key x0 + 1) (without (key x0) l) = rest.
Proof.
  intros A E. rewrite (items_from_rest a l x0 rest A E).
  unfold items_from, without. rewrite filter_filter.
  apply filter_ext. intros x.
  destruct (Z.eqb_spec (key x) (key x0)), (Z.leb_spec (key x0 + 1) (key x)),
    (Z.ltb_spec (key x0) (key x)); cbn; try reflexivity; lia.
Qed.

Lemma invalidate_items_spec turns :
  forall c item a e count,
    bst (items c) ->
    option_map key item
    = option_map key (hd_error (items_from a (contents (items c)))) ->
    (tree_size (items c) <= turns)%nat ->
    to_int count = count ->
    exists c',
      invalidate_items turns c item e count
      = (c', to_int (count
                     + Z.of_nat
                         (length (filter (fun x => key x <=? e)
                                    (items_from a (contents (items c)))))))
      /\ bst (items c')
      /\ ranges c' = ranges c
      /\ contents (items c')
         = filter (fun x => negb ((a <=? key x) && (key x <=? e)))
                  (contents (items c)).
Proof.
  induction turns as [| turns IH]; intros c item a e count B Hhd Hsz Hc.
  - assert (E : contents (items c) = []).
    { apply length_zero_iff_nil. rewrite tree_size_contents. lia. }
    exists c. rewrite E. cbn. rewrite Z.add_0_r, Hc.
    split; [now destruct item |]. auto.
  - pose proof (ascending_contents _ B) as A.
    destruct (items_from a (contents (items c))) as [| x0 rest] eqn:E.
    + destruct item as [it |]; [discriminate |]. exists c.
      cbn. rewrite Z.add_0_r, Hc. split; [reflexivity |].
      split; [exact B |]. split; [reflexivity |].
      symmetry. apply filter_all. apply Forall_forall. intros x Hx.
      destruct (Z.leb_spec a (key x)) as [H | H]; [| reflexivity].
      assert (Hin : In x (items_from a (contents (items c)))).
      { apply filter_In. split; [exact Hx |]. now apply Z.leb_le. }
      rewrite E in Hin. destruct Hin.
    + destruct item as [it |]; [| discriminate].
      cbn [option_map hd_error] in Hhd. injection Hhd as Hk.
      destruct (items_from_least _ _ _ _ A E) as (Ha & H0 & Hmin).
      cbn [invalidate_items]. rewrite Hk.
      destruct (Z.leb_spec (scoutfs_key_compare (key x0) e) 0) as [Hle | Hgt].
      * assert (Hke : key x0 <= e) by (key_cases (key x0) e; lia).
        destruct (in_contents_found _ _ B H0) as (it0 & Hf & Hs).
        destruct (unlink_item_contents c (key x0) B) as (Ec & B1).
        pose proof (unlink_item_size c (key x0) it0 Hf) as Sz.
        assert (Hnext :
                  option_map key (rb_next_item (items c) (key x0))
                  = option_map key
                      (hd_error (items_from (key x0 + 1)
                                   (contents (items (unlink_item c (key x0))))))).
        { rewrite Ec, (items_from_after _ _ _ _ A E).
          unfold rb_next_item.
          rewrite rb_next_chain_after, app_nil_r;
            [| exact B
             | rewrite <- (walk_found_key _ _ _ Hf); apply in_keys;
               eapply walk_found_in; exact Hf].
          rewrite (items_from_rest _ _ _ _ A E). unfold contents.
          rewrite (filter_strip (fun k => key x0 <? k)).
          now rewrite hd_key_strip. }
        destruct (IH (unlink_item c (key x0))
                     (rb_next_item (items c) (key x0)) (key x0 + 1) e
                     (to_int (count + 1)) B1 Hnext ltac:(lia)
                     (to_int_idem _))
          as (c' & Er & B' & Rg & Ct).
        exists c'. unfold erase_item. rewrite Er.
        rewrite Ec, (items_from_after _ _ _ _ A E) in *.
        split; [| split; [exact B' |
                  split; [now rewrite Rg, ranges_unlink |]]].
        -- f_equal. cbn [filter].
           replace (key x0 <=? e) with true by (symmetry; apply Z.leb_le; lia).
           cbn [length]. rewrite to_int_add. f_equal. lia.
        -- rewrite Ct. unfold without. rewrite filter_filter.
           apply filter_ext_in. intros x Hx.
           destruct (Z.leb_spec a (key x)) as [H | H].
           ++ destruct (Hmin x Hx H) as [-> | Hx0].
              ** rewrite Z.eqb_refl.
                 replace (key x0 <=? e) with true
                   by (symmetry; apply Z.leb_le; lia).
                 reflexivity.
              ** replace (key x =? key x0) with false
                   by (symmetry; apply Z.eqb_neq; lia).
                 replace (key x0 + 1 <=? key x) with true
                   by (symmetry; apply Z.leb_le; lia).
                 reflexivity.
           ++ replace (key x =? key x0) with false
                by (symmetry; apply Z.eqb_neq; lia).
              replace (key x0 + 1 <=? key x) with false
                by (symmetry; apply Z.leb_gt; lia).
              reflexivity.
      * assert (Hke : e < key x0) by (key_cases (key x0) e; lia).
        exists c.
        assert (R := items_from_rest _ _ _ _ A E).
        split; [| split; [exact B | split; [reflexivity |]]].
        -- f_equal. rewrite filter_none.
           ++ cbn. now rewrite Z.add_0_r, Hc.
           ++ constructor; [apply Z.leb_gt; lia |].
              rewrite R. apply Forall_forall. intros x Hx.
              apply filter_In in Hx. destruct Hx as (_ & Hx).
              apply Z.ltb_lt in Hx. apply Z.leb_gt. lia.
        -- symmetry. apply filter_all. apply Forall_forall. intros x Hx.
           destruct (Z.leb_spec a (key x)) as [H | H]; [| reflexivity].
           replace (key x <=? e) with false; [reflexivity |].
           symmetry. apply Z.leb_gt.
           destruct (Hmin x Hx H) as [-> | Hx0]; lia.
Qed.

Lemma find_unique (l : list cached_item) (x : cached_item) :
  NoDup (map key l) -> In x l ->
  find (fun y => key y =? key x) l = Some x.
Proof.
  induction l as [| y l IH]; cbn [map find In]; [intros _ [] |].
  intros N Hin. inversion_clear N as [| ? ? Hy N'].
  destruct (Z.eqb_spec (key y) (key x)) as [E | E].
  - destruct Hin as [-> | Hin]; [reflexivity |].
    exfalso. apply Hy. rewrite E. now apply in_map.
  - destruct Hin as [-> | Hin]; [contradiction | auto].
Qed.

(** The item cached at a key is the item of the contents with the
    key. *)
Lemma item_at_contents c k :
  bst (items c) ->
  item_at c k = find (fun x => key x =? k) (contents (items c)).
Proof.
  intros B. unfold item_at.
  destruct (walk_found (items c) k) as [it |] eqn:E; cbn [option_map].
  - pose proof (walk_found_key _ _ _ E) as Hk.
    pose proof (found_in_contents _ _ _ E) as Hin.
    symmetry. rewrite <- Hk. change (key it) with (key (strip it)).
    apply find_unique; [now apply contents_nodup | exact Hin].
  - pose proof (absent_in_contents _ _ B E) as F.
    induction (contents (items c)) as [| x l IH]; [reflexivity |].
    cbn [map] in F. inversion_clear F as [| ? ? Hx Hl]. cbn [find].
    destruct (Z.eqb_spec (key x) k); [contradiction | auto].
Qed.

Lemma find_filter_key (p : scoutfs_key -> bool) (k : scoutfs_key)
    (l : list cached_item) :
  find (fun x => key x =? k) (filter (fun x => p (key x)) l)
  = if p k then find (fun x => key x =? k) l else None.
Proof.
  induction l as [| x l IH]; cbn [filter find]; [now destruct (p k) |].
  destruct (Z.eqb_spec (key x) k) as [E | E].
  - rewrite E. destruct (p k) eqn:P.
    + cbn [find]. rewrite E, Z.eqb_refl. reflexivity.
    + exact IH.
  - destruct (p (key x)); [| exact IH].
    cbn [find]. destruct (Z.eqb_spec (key x) k); [contradiction | exact IH].
Qed.

(** X14.  [scoutfs_item_invalidate] empties the interval.  On a cache
    whose items and ranges are in order, invalidating a non-empty
    interval returns the number of cached items with a key in it (as an
    int); afterwards no item is cached at a key of the interval, dirty
    or not, the items at all other keys are as they were, no key of the
    interval is held by a cached range, no key is newly covered, and
    the ranges that do not meet the interval are kept. *)
Theorem invalidate_empties_interval :
  forall (c : item_cache) (s e : scoutfs_key),
    bst (items c) -> ranges_wf (ranges c) -> s <= e ->
    exists c',
      scoutfs_item_invalidate c s e true
      = Ret (to_int (Z.of_nat
                       (length (filter (fun x => (s <=? key x) && (key x <=? e))
                                       (contents (items c))))), c')
      /\ bst (items c')
      /\ (forall k, item_at c' k
                    = if (s <=? k) && (k <=? e) then None else item_at c k)
      /\ ranges_wf (ranges c')
      /\ (forall k, covered (ranges c') k -> covered (ranges c) k)
      /\ (forall k, s <= k <= e -> ~ covered (ranges c') k)
      /\ (forall y, In y (range_list (ranges c)) ->
                    end_ y < s \/ e < start y ->
                    In y (range_list (ranges c'))).
Proof.
  intros c s e B W Hse. unfold scoutfs_item_invalidate. cbn [negb].
  destruct (invalidate_items_spec (tree_size (items c)) c
              (next_item (items c) s) s e 0 B) as (c1 & E1 & B1 & R1 & C1).
  - rewrite (next_item_first _ _ B). unfold contents, items_from.
    rewrite (filter_strip (fun k => s <=? k)).
    now rewrite hd_key_strip.
  - lia.
  - reflexivity.
  - rewrite E1.
    destruct (remove_range_total (ranges c1) (mk_range s e))
      as (t' & Er & W' & Cv & Nc & Kp).
    + now rewrite R1.
    + exact Hse.
    + rewrite Er. exists (set_ranges c1 t'). rewrite R1 in *.
      split; [| split; [exact B1 | split; [| split; [exact W' |
                split; [exact Cv | split; [exact Nc | exact Kp]]]]]].
      * f_equal. f_equal. unfold items_from. rewrite filter_filter.
        reflexivity.
      * intros k. rewrite !item_at_contents by assumption.
        change (items (set_ranges c1 t')) with (items c1). rewrite C1.
        rewrite (find_filter_key (fun x => negb ((s <=? x) && (x <=? e)))).
        now destruct ((s <=? k) && (k <=? e)).
Qed.

(** ** Populating the cache *)

Lemma item_at_iff c k x :
  bst (items c) ->
  item_at c k = Some x <-> In x (contents (items c)) /\ key x = k.
Proof.
  intros B. rewrite (item_at_contents c k B). split.
  - intros H. apply find_some in H. destruct H as (Hin & Hk).
    split; [exact Hin | now apply Z.eqb_eq].
  - intros (Hin & <-). apply find_unique; [now apply contents_nodup | exact Hin].
Qed.

(** An item that joins the contents leaves the items at the other keys
    as they are. *)
Lemma item_at_perm_other c c' X k :
  bst (items c) -> bst (items c') ->
  Permutation (contents (items c')) (X :: contents (items c)) ->
  key X <> k -> item_at c' k = item_at c k.
Proof.
  intros B B' P Hk.
  destruct (item_at c k) as [x |] eqn:E.
  - apply (item_at_iff c k x B) in E. destruct E as (Hin & Hx).
    apply (item_at_iff c' k x B'). split; [| exact Hx].
    eapply Permutation_in; [symmetry; exact P |]. now right.
  - destruct (item_at c' k) as [x' |] eqn:E'; [| reflexivity].
    apply (item_at_iff c' k x' B') in E'. destruct E' as (Hin & Hx).
    apply (Permutation_in _ P) in Hin. destruct Hin as [<- | Hin];
      [contradiction |].
    assert (E2 : item_at c k = Some x') by (now apply item_at_iff).
    rewrite E in E2. discriminate.
Qed.

Lemma item_is_dirty_clean it : dirty it = 0 -> item_is_dirty it = false.
Proof. intros E. unfold item_is_dirty. now rewrite E. Qed.

(** [insert_item] for a reader's item: an item cached at the key stays
    and the new item is refused; otherwise the new item is cached. *)
Lemma insert_populate_spec c ins :
  bst (items c) -> dirty ins = 0 ->
  exists ret c',
    insert_item c ins false true = Ret (ret, c', ins)
    /\ bst (items c')
    /\ ranges c' = ranges c
    /\ nr_dirty_items c' = nr_dirty_items c
    /\ dirty_val_bytes c' = dirty_val_bytes c
    /\ (forall k, item_at c' k
                  = match item_at c k with
                    | Some x => Some x
                    | None => if key ins =? k then Some ins else None
                    end).
Proof.
  intros B Hd.
  destruct (walk_found (items c) (key ins)) as [old |] eqn:E.
  - pose proof (insert_descend_total (items c) ins) as Ht.
    rewrite E in Ht. destruct Ht as (t' & Ed).
    exists (- EEXIST), c. unfold insert_item. cbn [insert_item_loop].
    rewrite Ed. cbn [orb].
    rewrite (insert_descend_clean _ _ _ _ Hd Ed), set_items_same.
    split; [reflexivity |]. repeat (split; [auto; fail |]).
    intros k. destruct (item_at c k) eqn:Ek; [reflexivity |].
    destruct (Z.eqb_spec (key ins) k) as [<- |]; [| reflexivity].
    unfold item_at in Ek. rewrite E in Ek. discriminate.
  - destruct (insert_item_absent c ins false true B
                (item_is_dirty_clean _ Hd) (bst_absent _ _ B E))
      as (c' & Ei & P & B' & Ef & Rg & Hn & Hb).
    exists 0, c'. split; [exact Ei |]. repeat (split; [auto; fail |]).
    intros k. destruct (Z.eqb_spec (key ins) k) as [<- | Hk].
    + unfold item_at. rewrite Ef, E. cbn [option_map].
      now rewrite (strip_clean _ Hd).
    + rewrite (item_at_perm_other c c' (strip ins) k B B' P Hk).
      now destruct (item_at c k).
Qed.

Lemma insert_batch_items_spec batch :
  forall c,
    bst (items c) -> Forall (fun it => dirty it = 0) batch ->
    exists c',
      insert_batch_items c batch = Ret c'
      /\ bst (items c')
      /\ ranges c' = ranges c
      /\ nr_dirty_items c' = nr_dirty_items c
      /\ dirty_val_bytes c' = dirty_val_bytes c
      /\ (forall k, item_at c' k
                    = match item_at c k with
                      | Some x => Some x
                      | None =>
                          option_map (fun it => set_persistent it true)
                                     (find (fun it => key it =? k) batch)
                      end).
Proof.
  induction batch as [| it rest IH]; intros c B F.
  - exists c. repeat (split; [auto; fail |]). intros k. cbn.
    now destruct (item_at c k).
  - inversion_clear F as [| ? ? Hd F'].
    destruct (insert_populate_spec c (set_persistent it true) B Hd)
      as (ret & c1 & E1 & B1 & R1 & N1 & V1 & A1).
    destruct (IH c1 B1 F') as (c' & E' & B' & R' & N' & V' & A').
    exists c'. cbn [insert_batch_items]. rewrite E1.
    split; [exact E' |]. split; [exact B' |].
    split; [congruence |]. split; [congruence |]. split; [congruence |].
    intros k. rewrite A', A1. cbn [find].
    change (key (set_persistent it true)) with (key it).
    destruct (item_at c k); [reflexivity |].
    now destruct (key it =? k).
Qed.

(** The whole of [scoutfs_item_insert_batch] on a cache in order. *)
Lemma insert_batch_spec c batch s e :
  bst (items c) -> ranges_wf (ranges c) -> s <= e ->
  Forall (fun it => dirty it = 0) batch ->
  exists c',
    scoutfs_item_insert_batch c batch s e true = Ret (0, c')
    /\ bst (items c')
    /\ ranges_wf (ranges c')
    /\ (forall k, covered (ranges c') k
                  <-> covered (ranges c) k \/ s <= k <= e)
    /\ (forall k, item_at c' k
                  = match item_at c k with
                    | Some x => Some x
                    | None =>
                        option_map (fun it => set_persistent it true)
                                   (find (fun it => key it =? k) batch)
                    end)
    /\ nr_dirty_items c' = nr_dirty_items c
    /\ dirty_val_bytes c' = dirty_val_bytes c.
Proof.
  intros B W Hse F. unfold scoutfs_item_insert_batch.
  replace (scoutfs_key_compare s e >? 0) with false
    by (key_cases s e; lia).
  cbn [negb]. apply ranges_wf_list in W.
  destruct (insert_range_loop_spec (S (range_size (ranges c))) (ranges c)
              (mk_range s e)) as (t' & Er & A & C); auto.
  unfold insert_range. rewrite Er.
  destruct (insert_batch_items_spec batch (set_ranges c t') B F)
    as (c' & Eb & B' & R' & N' & V' & A').
  rewrite Eb. exists c'. split; [reflexivity |]. split; [exact B' |].
  rewrite R'. cbn [ranges set_ranges].
  split; [now apply ranges_wf_list |]. split; [exact C |].
  split; [exact A' | split; [exact N' | exact V']].
Qed.

(** X15.  [scoutfs_item_insert_batch] fills the gaps and nothing else.
    On a cache in order, a batch of clean items inserted with a
    non-empty range returns 0; a key is covered afterwards exactly when
    it was covered before or lies in the range; an item that was cached
    at a key, a deletion item included, is still the item there; at a
    key without a cached item the first item of the batch with that key
    is cached, marked persistent; the dirty counters do not move. *)
Theorem insert_batch_fills_gaps :
  forall (c : item_cache) (batch : list cached_item) (s e : scoutfs_key),
    bst (items c) -> ranges_wf (ranges c) -> s <= e ->
    Forall (fun it => dirty it = 0) batch ->
    exists c',
      scoutfs_item_insert_batch c batch s e true = Ret (0, c')
      /\ bst (items c')
      /\ ranges_wf (ranges c')
      /\ (forall k, covered (ranges c') k
                    <-> covered (ranges c) k \/ s <= k <= e)
      /\ (forall k, item_at c' k
                    = match item_at c k with
                      | Some x => Some x
                      | None =>
                          option_map (fun it => set_persistent it true)
                                     (find (fun it => key it =? k) batch)
                      end)
      /\ nr_dirty_items c' = nr_dirty_items c
      /\ dirty_val_bytes c' = dirty_val_bytes c.
Proof. intros c batch s e. apply insert_batch_spec. Qed.

(** X16.  A key of an inserted range that has no item is known to be
    absent.  After [scoutfs_item_insert_batch] with the range [s, e], a
    lookup of a key of the range at which nothing was cached and for
    which the batch has no item returns -ENOENT under any lock that
    covers the key, without a call of the segment reader and without a
    change to the cache. *)
Theorem insert_batch_then_lookup_enoent :
  forall (SCOUTFS_MAX_VAL_SIZE : Z) (c c' : item_cache)
         (batch : list cached_item) (s e k : scoutfs_key)
         (v : option kvec) (lock : scoutfs_lock) (fills : list fill),
    bst (items c) -> ranges_wf (ranges c) -> s <= e ->
    Forall (fun it => dirty it = 0) batch ->
    scoutfs_item_insert_batch c batch s e true = Ret (0, c') ->
    s <= k <= e ->
    item_at c k = None ->
    find (fun it => key it =? k) batch = None ->
    lock_coverage lock k SCOUTFS_LOCK_READ = true ->
    scoutfs_item_lookup SCOUTFS_MAX_VAL_SIZE c' k v lock fills
    = Ret (- ENOENT, c', v).
Proof.
  intros M c c' batch s e k v lock fills B W Hse F Eb Hk Hat Hfind Hlock.
  destruct (insert_batch_spec c batch s e B W Hse F)
    as (c2 & E2 & B2 & W2 & C2 & A2 & _).
  rewrite Eb in E2. injection E2 as <-.
  apply lookup_enoent; [| | exact Hlock].
  - apply item_at_find. rewrite A2, Hat, Hfind. exact I.
  - destruct (proj2 (C2 k) (or_intror Hk)) as (rng & Hin & Hc).
    exact (range_cached_true c' k rng W2 Hin Hc).
Qed.

(** ** Asking what is cached *)

Lemma disjoint_ascending_filter f l :
  disjoint_ascending l -> disjoint_ascending (filter f l).
Proof.
  induction l as [| x l IH]; cbn [filter disjoint_ascending]; [auto |].
  intros (Hx & Fx & Al). destruct (f x); cbn [disjoint_ascending]; auto.
  split; [exact Hx |]. split; [| auto]. apply Forall_forall. intros y Hy.
  apply filter_In in Hy. rewrite Forall_forall in Fx. now apply Fx.
Qed.

(** When no range holds the key, [walk_ranges] leaves in [next] the
    first range that starts after the key. *)
Lemma walk_ranges_next t k :
  ranges_wf t ->
  forall prev next,
    fst (fst (walk_ranges_from t k prev next)) = None ->
    snd (walk_ranges_from t k prev next)
    = match filter (fun r => k <? start r) (range_list t) with
      | x :: _ => Some x
      | [] => next
      end.
Proof.
  induction t as [| l IHl rng r IHr]; intros W prev next; [reflexivity |].
  pose proof (ranges_wf_bounds _ W) as Hb.
  destruct W as (Wl & Wr & Hrng & Fl & Fr).
  cbn [range_list] in Hb. apply Forall_app in Hb. destruct Hb as (Hbl & _).
  cbn [walk_ranges_from range_list]. rewrite filter_app. cbn [filter].
  destruct (compare_ranges_point k (start rng) (end_ rng))
    as [(H & ->) | [(H1 & H2 & ->) | (H & ->)]]; cbn.
  - intros Hn. rewrite (IHl Wl _ _ Hn).
    replace (k <? start rng) with true by (symmetry; apply Z.ltb_lt; lia).
    now destruct (filter _ (range_list l)).
  - intros Hn. rewrite (IHr Wr _ _ Hn).
    replace (k <? start rng) with false by (symmetry; apply Z.ltb_ge; lia).
    rewrite (filter_none _ _ (range_list l)); [reflexivity |].
    rewrite Forall_forall in *. intros y Hy.
    specialize (Fl y Hy). specialize (Hbl y Hy). cbn in Hbl.
    apply Z.ltb_ge. lia.
  - discriminate.
Qed.

Lemma disjoint_ascending_head x l y :
  disjoint_ascending (x :: l) -> In y (x :: l) -> start x <= start y.
Proof.
  cbn [disjoint_ascending]. intros (Hx & Fx & _) [<- | Hy]; [lia |].
  rewrite Forall_forall in Fx. specialize (Fx y Hy). lia.
Qed.

(** X17.  [scoutfs_item_range_cached] without the dirty flag tests for
    an overlap.  On ordered ranges and for a non-empty interval it
    returns true exactly when some key of the interval is held by a
    cached range; the interval as a whole need not be cached. *)
Theorem range_cached_is_overlap :
  forall (c : item_cache) (s e : scoutfs_key),
    ranges_wf (ranges c) -> s <= e ->
    scoutfs_item_range_cached c s e false = true
    <-> exists k, s <= k <= e /\ covered (ranges c) k.
Proof.
  intros c s e W Hse. unfold scoutfs_item_range_cached, walk_ranges.
  pose proof (walk_ranges_next (ranges c) s W None None) as Hn.
  pose proof (range_found_covers (ranges c) s) as Hf.
  pose proof (ranges_wf_found (ranges c) s) as Hw.
  unfold range_found, walk_ranges in Hf, Hw.
  pose proof (proj1 (ranges_wf_list _) W) as A.
  pose proof (ranges_wf_bounds _ W) as Hb.
  destruct (walk_ranges_from (ranges c) s None None) as [[f p] n].
  cbn [fst snd] in *. destruct f as [rng |].
  - split; [intros _ | reflexivity].
    destruct (Hf rng eq_refl) as (Hin & Hc).
    exists s. split; [lia |]. exists rng. auto.
  - specialize (Hn eq_refl). subst n.
    assert (Hafter : forall k y, s <= k <= e -> In y (range_list (ranges c)) ->
                                 covers y k ->
                                 In y (filter (fun r => s <? start r)
                                              (range_list (ranges c)))
                                 /\ start y <= e).
    { intros k y Hk Hy Hc. unfold covers in Hc.
      assert (Hs : ~ covers y s).
      { intros Hcs. specialize (Hw y W Hy Hcs). discriminate. }
      unfold covers in Hs. split; [| lia].
      apply filter_In. split; [exact Hy |]. apply Z.ltb_lt. lia. }
    pose proof (disjoint_ascending_filter (fun r => s <? start r) _ A) as Af.
    destruct (filter (fun r => s <? start r) (range_list (ranges c)))
      as [| x rest] eqn:E.
    + split; [discriminate |]. intros (k & Hk & y & Hy & Hc).
      destruct (Hafter k y Hk Hy Hc) as ([] & _).
    + assert (Hx : In x (filter (fun r => s <? start r)
                                (range_list (ranges c))))
        by (rewrite E; now left).
      apply filter_In in Hx. destruct Hx as (Hx & Hsx).
      apply Z.ltb_lt in Hsx.
      rewrite Forall_forall in Hb. specialize (Hb x Hx). cbn in Hb.
      split.
      * intros Hle.
        assert (start x <= e).
        { apply Z.leb_le in Hle. key_cases (start x) e; lia. }
        exists (start x). split; [lia |]. exists x.
        split; [exact Hx | unfold covers; lia].
      * intros (k & Hk & y & Hy & Hc).
        destruct (Hafter k y Hk Hy Hc) as (Hin & Hle).
        pose proof (disjoint_ascending_head x rest y Af Hin).
        apply Z.leb_le. key_cases (start x) e; lia.
Qed.

(** ** The ranges in key order *)

Lemma first_range_from_spec t k :
  ranges_wf t ->
  forall next,
    first_range_from t k next
    = match filter (fun r => k <=? end_ r) (range_list t) with
      | x :: _ => Some x
      | [] => next
      end.
Proof.
  induction t as [| l IHl rng r IHr]; intros W next; [reflexivity |].
  destruct W as (Wl & Wr & Hrng & Fl & Fr).
  cbn [first_range_from range_list]. rewrite filter_app. cbn [filter].
  assert (Hl : k >= start rng ->
               filter (fun r => k <=? end_ r) (range_list l) = []).
  { intros H. apply filter_none. eapply Forall_impl; [| exact Fl].
    cbn. intros y Hy. apply Z.leb_gt. lia. }
  destruct (compare_ranges_point k (start rng) (end_ rng))
    as [(H & ->) | [(H1 & H2 & ->) | (H & ->)]]; cbn.
  - rewrite (IHl Wl).
    replace (k <=? end_ rng) with true by (symmetry; apply Z.leb_le; lia).
    now destruct (filter _ (range_list l)).
  - rewrite (IHr Wr), Hl by lia.
    replace (k <=? end_ rng) with false by (symmetry; apply Z.leb_gt; lia).
    reflexivity.
  - rewrite Hl by lia.
    replace (k <=? end_ rng) with true by (symmetry; apply Z.leb_le; lia).
    reflexivity.
Qed.

Lemma rb_next_rng_chain_after t q x :
  ranges_wf t -> In x (range_list t) -> covers x q ->
  forall above,
    rb_next_rng_chain t q above
    = filter (fun r => q <? start r) (range_list t) ++ above.
Proof.
  unfold covers.
  induction t as [| l IHl rng r IHr]; intros W Hin Hc above; [destruct Hin |].
  pose proof (ranges_wf_bounds _ W) as Hb.
  destruct W as (Wl & Wr & Hrng & Fl & Fr).
  cbn [range_list] in Hb, Hin. apply Forall_app in Hb.
  destruct Hb as (Hbl & _). apply in_app_or in Hin.
  cbn [rb_next_rng_chain range_list]. rewrite filter_app. cbn [filter].
  assert (Hr : q <= end_ rng ->
               filter (fun y => q <? start y) (range_list r) = range_list r).
  { intros H. apply filter_all. eapply Forall_impl; [| exact Fr].
    cbn. intros y Hy. apply Z.ltb_lt. lia. }
  assert (Hl : start rng <= q ->
               filter (fun y => q <? start y) (range_list l) = []).
  { intros H. apply filter_none. rewrite Forall_forall in *.
    intros y Hy. specialize (Fl y Hy). specialize (Hbl y Hy). cbn in Hbl.
    apply Z.ltb_ge. lia. }
  rewrite Forall_forall in Fl, Fr.
  destruct (compare_ranges_point q (start rng) (end_ rng))
    as [(H & ->) | [(H1 & H2 & ->) | (H & ->)]]; cbn.
  - assert (Hx : In x (range_list l)).
    { destruct Hin as [Hx | [<- | Hx]]; [exact Hx | lia |].
      specialize (Fr x Hx). lia. }
    rewrite (IHl Wl Hx Hc), Hr by lia.
    replace (q <? start rng) with true by (symmetry; apply Z.ltb_lt; lia).
    rewrite <- app_assoc. reflexivity.
  - assert (Hx : In x (range_list r)).
    { destruct Hin as [Hx | [<- | Hx]]; [| lia | exact Hx].
      specialize (Fl x Hx). lia. }
    rewrite (IHr Wr Hx Hc), Hl by lia.
    replace (q <? start rng) with false by (symmetry; apply Z.ltb_ge; lia).
    reflexivity.
  - rewrite Hl, Hr by lia.
    replace (q <? start rng) with false by (symmetry; apply Z.ltb_ge; lia).
    reflexivity.
Qed.

Lemma ranges_from_rest k l x rest :
  disjoint_ascending l ->
  filter (fun r => k <=? end_ r) l = x :: rest ->
  rest = filter (fun r => start x <? start r) l.
Proof.
  induction l as [| y l IH]; cbn [filter disjoint_ascending];
    [discriminate |].
  intros (Hy & Fy & Al). destruct (Z.leb_spec k (end_ y)) as [H | H].
  - intros [= <- <-]. rewrite Z.ltb_irrefl.
    rewrite !filter_all; [reflexivity | |].
    + eapply Forall_impl; [| exact Fy]. cbn. intros z Hz.
      apply Z.ltb_lt. lia.
    + apply Forall_forall. intros z Hz.
      rewrite Forall_forall in Fy. specialize (Fy z Hz).
      pose proof (da_bounds _ Al) as Hb.
      rewrite Forall_forall in Hb. specialize (Hb z Hz). cbn in Hb.
      apply Z.leb_le. lia.
  - intros E.
    assert (Hin : In x (filter (fun r => k <=? end_ r) l))
      by (rewrite E; now left).
    apply filter_In in Hin. destruct Hin as (Hin & Hk).
    apply Z.leb_le in Hk.
    rewrite Forall_forall in Fy. specialize (Fy x Hin).
    replace (start x <? start y) with false by (symmetry; apply Z.ltb_ge; lia).
    now apply IH.
Qed.

Lemma copy_range_keys_from_spec chain nr :
  forall ret out,
    copy_range_keys_from chain nr ret out
    = (let taken := firstn (Z.to_nat ((nr - ret) / 2)) chain in
       (ret + 2 * Z.of_nat (length taken),
        out ++ flat_map (fun r => [start r; end_ r]) taken)).
Proof.
  induction chain as [| rng rest IH]; intros ret out;
    cbn [copy_range_keys_from].
  - rewrite firstn_nil. cbn. now rewrite Z.add_0_r, app_nil_r.
  - destruct (Z.gtb_spec (ret + 2) nr) as [H | H].
    + replace (Z.to_nat ((nr - ret) / 2)) with O.
      * cbn. now rewrite Z.add_0_r, app_nil_r.
      * assert ((nr - ret) / 2 <= 0); [| lia].
        destruct (Z_le_gt_dec 0 (nr - ret)) as [Hp | Hn].
        -- rewrite Z.div_small; lia.
        -- pose proof (Z.div_lt_upper_bound (nr - ret) 2 0 ltac:(lia)
                         ltac:(lia)). lia.
    + rewrite IH.
      replace (nr - ret) with (nr - (ret + 2) + 1 * 2) by lia.
      rewrite Z.div_add by lia.
      assert (0 <= (nr - (ret + 2)) / 2) by (apply Z.div_pos; lia).
      replace (Z.to_nat ((nr - (ret + 2)) / 2 + 1))
        with (S (Z.to_nat ((nr - (ret + 2)) / 2))) by lia.
      cbn [firstn length flat_map]. rewrite <- app_assoc. cbn [app].
      f_equal. lia.
Qed.

(** X18.  [scoutfs_item_copy_range_keys] writes the two ends of the
    cached ranges in increasing order, from the range that holds [key]
    or else the first range after it, as many whole ranges as the array
    holds, and returns the number of keys written, which is even.  The
    array size is taken small enough for the count plus two to be an
    int. *)
Theorem copy_range_keys_are_ranges_from :
  forall (c : item_cache) (k : scoutfs_key) (nr : Z),
    ranges_wf (ranges c) -> 0 <= nr <= INT_MAX - 2 ->
    scoutfs_item_copy_range_keys c k nr
    = (let taken :=
         firstn (Z.to_nat (nr / 2))
                (filter (fun r => k <=? end_ r) (range_list (ranges c))) in
       (2 * Z.of_nat (length taken),
        flat_map (fun r => [start r; end_ r]) taken)).
Proof.
  intros c k nr W Hnr. unfold scoutfs_item_copy_range_keys.
  rewrite (first_range_from_spec _ k W).
  pose proof (proj1 (ranges_wf_list _) W) as A.
  destruct (filter (fun r => k <=? end_ r) (range_list (ranges c)))
    as [| x rest] eqn:E.
  - cbn. now rewrite firstn_nil.
  - assert (Hin : In x (filter (fun r => k <=? end_ r)
                               (range_list (ranges c))))
      by (rewrite E; now left).
    apply filter_In in Hin. destruct Hin as (Hin & _).
    pose proof (ranges_wf_bounds _ W) as Hb.
    rewrite Forall_forall in Hb. specialize (Hb x Hin). cbn in Hb.
    rewrite (rb_next_rng_chain_after _ (start x) x W Hin), app_nil_r
      by (unfold covers; lia).
    rewrite <- (ranges_from_rest k _ x rest A E).
    rewrite copy_range_keys_from_spec.
    now rewrite Z.sub_0_r.
Qed.

(** ** Updating in place *)

(** X19.  [scoutfs_item_update_dirty] overwrites in place.  For a dirty
    cached item that is not a deletion item and a value no longer than
    the item's, the call returns: the first bytes of the item's value
    are the caller's, the rest of the old bytes stay behind them, the
    length is the caller's (0 for a null value, whose bytes are left
    alone); the item stays dirty, the other items and the ranges are as
    before, the dirty item count is unchanged and the dirty byte count
    goes down by the difference of the lengths. *)
Theorem update_dirty_in_place :
  forall (c : item_cache) (k : scoutfs_key) (v : option kvec)
         (it : cached_item),
    let new_len := match v with Some kv => iov_len kv | None => 0 end in
    let bytes :=
      match v with
      | Some kv =>
          option_map (fun old => firstn (Z.to_nat new_len) (iov_base kv)
                                 ++ skipn (Z.to_nat new_len) old) (val it)
      | None => val it
      end in
    bst (items c) ->
    In it (tree_items (items c)) -> key it = k -> deletion it = false ->
    item_is_dirty it = true -> len_ok it ->
    0 <= new_len <= val_len it ->
    exists c',
      scoutfs_item_update_dirty c k v = Ret c'
      /\ bst (items c')
      /\ item_at c' k = Some (set_val (strip it) bytes new_len)
      /\ others c' k = others c k
      /\ ranges c' = ranges c
      /\ nr_dirty_items c' = nr_dirty_items c
      /\ dirty_val_bytes c' = dirty_val_bytes c - (val_len it - new_len).
Proof.
  intros c k v it new_len bytes B Hin Hk Hdel Hd Hlen Hnew.
  pose proof (bst_found _ _ _ B Hin Hk) as Ef.
  unfold len_ok, INT_MAX in Hlen.
  assert (Eu : match v with Some kv => to_uint (iov_len kv) | None => 0 end
               = new_len).
  { subst new_len. destruct v as [kv |]; [| reflexivity].
    unfold to_uint. apply Z.mod_small. lia. }
  unfold scoutfs_item_update_dirty, find_item. rewrite Ef, Hdel, Hd, Eu.
  replace (new_len >? val_len it) with false
    by (symmetry; rewrite Z.gtb_ltb; apply Z.ltb_ge; lia).
  cbn [negb orb]. fold bytes.
  set (f := fun i => set_val i bytes new_len).
  eexists. split; [reflexivity |].
  cbn [items ranges nr_dirty_items dirty_val_bytes update_dirty_item_counts
       set_items].
  split; [apply store_item_bst; [reflexivity | exact B] |]. split.
  { unfold item_at. cbn [items update_dirty_item_counts set_items].
    rewrite store_item_found by reflexivity. now rewrite Ef. }
  split.
  { unfold others. cbn [items update_dirty_item_counts set_items].
    rewrite (store_item_contents k f f) by (auto; reflexivity).
    now apply without_at_key. }
  split; [reflexivity |]. split; [cbn; lia |].
  rewrite to_int_small; [lia |]. unfold INT_MAX. lia.
Qed.

(** ** The subtree bits *)

Lemma any_dirty_node l it r :
  any_dirty (INode l it r) = any_dirty l || (item_is_dirty it || any_dirty r).
Proof. unfold any_dirty. cbn [tree_items]. now rewrite existsb_app. Qed.

(** The three bits of a consistent item, one by one. *)
Lemma compute_bits l it r :
  let s := item_is_dirty it in
  let a := negb (node_dirty_bit l LEFT_DIRTY =? 0) in
  let b := negb (node_dirty_bit r RIGHT_DIRTY =? 0) in
  compute_item_dirty l it r
  = (if s then 1 else 0) + (if a then 2 else 0) + (if b then 4 else 0).
Proof.
  unfold compute_item_dirty, item_is_dirty.
  destruct (land_item_dirty (dirty it)) as [-> | ->];
    destruct l as [| ? x ?], r as [| ? y ?]; cbn [node_dirty_bit];
    try destruct (dirty x =? 0); try destruct (dirty y =? 0); reflexivity.
Qed.

Lemma node_bit_any t b :
  bits_ok t -> node_dirty_bit t b = if any_dirty t then b else 0.
Proof.
  revert b. induction t as [| l IHl it r IHr]; intros b; [reflexivity |].
  intros (Bl & Br & E). rewrite any_dirty_node. cbn [node_dirty_bit].
  pose proof (compute_bits l it r) as C. cbn zeta in C.
  rewrite (IHl _ Bl), (IHr _ Br) in C. rewrite E, C.
  destruct (item_is_dirty it), (any_dirty l), (any_dirty r); reflexivity.
Qed.

Lemma bits_of_node l it r :
  bits_ok (INode l it r) ->
  has_bit (dirty it) LEFT_DIRTY = any_dirty l
  /\ has_bit (dirty it) RIGHT_DIRTY = any_dirty r.
Proof.
  intros (Bl & Br & E). pose proof (compute_bits l it r) as C.
  cbn zeta in C. rewrite (node_bit_any l _ Bl), (node_bit_any r _ Br) in C.
  rewrite E, C. unfold has_bit.
  destruct (item_is_dirty it), (any_dirty l), (any_dirty r);
    split; reflexivity.
Qed.

Lemma any_dirty_filter t :
  any_dirty t = false -> filter item_is_dirty (tree_items t) = [].
Proof.
  unfold any_dirty. intros H. apply filter_none. apply Forall_forall.
  intros x Hx. destruct (item_is_dirty x) eqn:E; [| reflexivity].
  assert (existsb item_is_dirty (tree_items t) = true)
    by (apply existsb_exists; eauto).
  congruence.
Qed.

Lemma any_dirty_head t :
  any_dirty t = true ->
  exists x rest, filter item_is_dirty (tree_items t) = x :: rest.
Proof.
  unfold any_dirty. intros H. apply existsb_exists in H.
  destruct H as (x & Hx & Hd).
  destruct (filter item_is_dirty (tree_items t)) as [| y rest] eqn:E; eauto.
  assert (Hin : In x (filter item_is_dirty (tree_items t)))
    by (apply filter_In; auto).
  rewrite E in Hin. destruct Hin.
Qed.

(** [first_dirty] finds the first dirty item in key order. *)
Lemma first_dirty_spec t :
  bits_ok t ->
  first_dirty t = hd_error (filter item_is_dirty (tree_items t)).
Proof.
  induction t as [| l IHl it r IHr]; [reflexivity |].
  intros B. destruct (bits_of_node l it r B) as (HL & HR).
  destruct B as (Bl & Br & _).
  cbn [first_dirty tree_items]. rewrite HL, HR, filter_app. cbn [filter].
  destruct (any_dirty l) eqn:Al.
  - rewrite (IHl Bl). destruct (any_dirty_head l Al) as (x & rest & ->).
    reflexivity.
  - rewrite (any_dirty_filter l Al). cbn [app].
    destruct (item_is_dirty it); [reflexivity |].
    destruct (any_dirty r) eqn:Ar; [exact (IHr Br) |].
    now rewrite (any_dirty_filter r Ar).
Qed.

Lemma next_dirty_climb_spec above :
  above_ok above ->
  next_dirty_climb above = hd_error (filter item_is_dirty (after above)).
Proof.
  induction above as [| [[fr p] pr] above IH]; [reflexivity |].
  cbn [above_ok next_dirty_climb after]. intros (Hp & Ha).
  destruct fr; [exact (IH Ha) |].
  destruct (Hp eq_refl) as (Bp & HR). cbn [filter]. rewrite filter_app.
  destruct (item_is_dirty p); [reflexivity |]. rewrite HR.
  destruct (any_dirty pr) eqn:A.
  - rewrite (first_dirty_spec pr Bp).
    destruct (any_dirty_head pr A) as (x & rest & ->). reflexivity.
  - rewrite (any_dirty_filter pr A). exact (IH Ha).
Qed.

Lemma path_to_spec t k :
  forall above it r above',
    bst t -> bits_ok t -> above_ok above ->
    path_to t k above = Some (it, r, above') ->
    above_ok above' /\ bits_ok r
    /\ has_bit (dirty it) RIGHT_DIRTY = any_dirty r
    /\ filter (fun x => k <? key x) (tree_items t) ++ after above
       = tree_items r ++ after above'.
Proof.
  induction t as [| l IHl x r0 IHr]; intros above it r above' B Bt Ha;
    [discriminate |].
  destruct (bits_of_node l x r0 Bt) as (HL & HR).
  destruct Bt as (Bl & Br & _). destruct B as (Sl & Sr & Fl & Fr).
  apply Forall_keys in Fl, Fr.
  cbn [path_to tree_items]. rewrite filter_app. cbn [filter].
  key_cases k (key x).
  - intros H.
    assert (Ha1 : above_ok ((false, x, r0) :: above)).
    { split; [intros _; split; assumption | exact Ha]. }
    destruct (IHl _ _ _ _ Sl Bl Ha1 H) as (Ha' & Bo & Hb & E).
    split; [exact Ha' |]. split; [exact Bo |]. split; [exact Hb |].
    cbn [after] in E. rewrite <- E.
    replace (k <? key x) with true by (symmetry; apply Z.ltb_lt; lia).
    rewrite (filter_all _ _ (tree_items r0)).
    + rewrite <- !app_assoc. reflexivity.
    + eapply Forall_impl; [| exact Fr]. cbn. intros y Hy.
      apply Z.ltb_lt. lia.
  - intros [= <- <- <-]. split; [exact Ha |]. split; [exact Br |].
    split; [exact HR |]. subst k. rewrite Z.ltb_irrefl.
    rewrite (filter_none _ _ (tree_items l)).
    + cbn [app]. f_equal. apply filter_all.
      eapply Forall_impl; [| exact Fr]. cbn. intros y Hy.
      apply Z.ltb_lt. lia.
    + eapply Forall_impl; [| exact Fl]. cbn. intros y Hy.
      apply Z.ltb_ge. lia.
  - intros H.
    assert (Ha1 : above_ok ((true, x, r0) :: above)).
    { split; [discriminate | exact Ha]. }
    destruct (IHr _ _ _ _ Sr Br Ha1 H) as (Ha' & Bo & Hb & E).
    split; [exact Ha' |]. split; [exact Bo |]. split; [exact Hb |].
    cbn [after] in E. rewrite <- E.
    replace (k <? key x) with false by (symmetry; apply Z.ltb_ge; lia).
    rewrite (filter_none _ _ (tree_items l)); [reflexivity |].
    eapply Forall_impl; [| exact Fl]. cbn. intros y Hy.
    apply Z.ltb_ge. lia.
Qed.

Lemma path_to_found t k :
  forall above x,
    walk_found t k = Some x ->
    exists r above', path_to t k above = Some (x, r, above').
Proof.
  induction t as [| l IHl y r0 IHr]; intros above x.
  - rewrite walk_found_nil. discriminate.
  - rewrite walk_found_node. cbn [path_to].
    destruct (scoutfs_key_compare k (key y) <? 0); [apply IHl |].
    destruct (scoutfs_key_compare k (key y) >? 0); [apply IHr |].
    intros [= <-]. eauto.
Qed.

(** [next_dirty] finds the first dirty item after the item in key
    order. *)
Lemma next_dirty_spec t k x :
  bst t -> bits_ok t -> walk_found t k = Some x ->
  next_dirty t k
  = hd_error (filter item_is_dirty
                (filter (fun y => k <? key y) (tree_items t))).
Proof.
  intros B Bt Hf. unfold next_dirty.
  destruct (path_to_found t k [] x Hf) as (r & above' & Hp). rewrite Hp.
  destruct (path_to_spec t k [] x r above' B Bt I Hp) as (Ha & Br & HR & E).
  cbn [after] in E. rewrite app_nil_r in E. rewrite E, HR, filter_app.
  destruct (any_dirty r) eqn:A.
  - rewrite (first_dirty_spec r Br).
    destruct (any_dirty_head r A) as (y & rest & ->). reflexivity.
  - rewrite (any_dirty_filter r A). now apply next_dirty_climb_spec.
Qed.

(** ** The callbacks keep the subtree bits *)

Lemma compute_set_dirty l it r d :
  Z.land d ITEM_DIRTY = Z.land (dirty it) ITEM_DIRTY ->
  compute_item_dirty l (set_dirty it d) r = compute_item_dirty l it r.
Proof. unfold compute_item_dirty. cbn. intros ->. reflexivity. Qed.

Lemma compute_same_bits l l' it r r' :
  (forall b, node_dirty_bit l' b = node_dirty_bit l b) ->
  (forall b, node_dirty_bit r' b = node_dirty_bit r b) ->
  compute_item_dirty l' it r' = compute_item_dirty l it r.
Proof. unfold compute_item_dirty. intros -> ->. reflexivity. Qed.

(** One turn of the propagation: the node comes out consistent, and
    when the walk stops there its augmented value is the old one. *)
Lemma propagate_step_bits going l it r :
  bits_ok l -> bits_ok r ->
  (going = false -> dirty it = compute_item_dirty l it r) ->
  bits_ok (fst (propagate_step going l it r))
  /\ (snd (propagate_step going l it r) = false ->
      forall l0 r0 b,
        node_dirty_bit (fst (propagate_step going l it r)) b
        = node_dirty_bit (INode l0 it r0) b).
Proof.
  intros Bl Br H. unfold propagate_step. destruct going.
  - destruct (Z.eqb_spec (dirty it) (compute_item_dirty l it r)) as [E | E];
      cbn [fst snd].
    + split; [cbn; auto | reflexivity].
    + split; [| discriminate]. cbn [bits_ok].
      split; [exact Bl |]. split; [exact Br |].
      rewrite compute_set_dirty by apply self_bit_compute. reflexivity.
  - cbn [fst snd]. split; [cbn; auto | reflexivity].
Qed.

Section StoreBits.

Variable k : scoutfs_key.
Variable f : cached_item -> cached_item.
Variable parents : bool.
Hypothesis f_bits :
  forall l it r,
    dirty it = compute_item_dirty l it r ->
    dirty (f it) = compute_item_dirty l (f it) r.
Hypothesis f_quiet : parents = false -> forall it, dirty (f it) = dirty it.

Lemma store_item_bits t :
  bits_ok t ->
  bits_ok (fst (store_item t k f parents))
  /\ (snd (store_item t k f parents) = false ->
      forall b, node_dirty_bit (fst (store_item t k f parents)) b
                = node_dirty_bit t b).
Proof.
  induction t as [| l IHl it r IHr]; [cbn; auto |].
  intros (Bl & Br & E). cbn [store_item].
  destruct (scoutfs_key_compare k (key it) <? 0).
  - destruct (IHl Bl) as (Bl' & Hq).
    destruct (store_item l k f parents) as [l' going]. cbn [fst snd] in *.
    destruct (propagate_step_bits going l' it r Bl' Br) as (Bn & Hn).
    + intros ->. rewrite E. symmetry. apply compute_same_bits; auto.
    + split; [exact Bn |]. intros Hs b. apply (Hn Hs).
  - destruct (scoutfs_key_compare k (key it) >? 0).
    + destruct (IHr Br) as (Br' & Hq).
      destruct (store_item r k f parents) as [r' going]. cbn [fst snd] in *.
      destruct (propagate_step_bits going l it r' Bl Br') as (Bn & Hn).
      * intros ->. rewrite E. symmetry. apply compute_same_bits; auto.
      * split; [exact Bn |]. intros Hs b. apply (Hn Hs).
    + cbn [fst snd bits_ok]. split; [auto using f_bits |].
      intros Hp b. cbn [node_dirty_bit]. now rewrite (f_quiet Hp).
Qed.

End StoreBits.

Lemma clear_bit_bits l it r :
  dirty it = compute_item_dirty l it r ->
  dirty (set_dirty it (Z.land (dirty it) (Z.lnot ITEM_DIRTY)))
  = compute_item_dirty l
      (set_dirty it (Z.land (dirty it) (Z.lnot ITEM_DIRTY))) r.
Proof.
  intros E. rewrite (compute_bits l _ r).
  assert (Hc : item_is_dirty
                 (set_dirty it (Z.land (dirty it) (Z.lnot ITEM_DIRTY)))
               = false).
  { rewrite <- item_is_dirty_strip, strip_clear. reflexivity. }
  rewrite Hc. cbn [dirty set_dirty]. rewrite E at 1.
  rewrite (compute_bits l it r).
  destruct (item_is_dirty it), (negb (node_dirty_bit l LEFT_DIRTY =? 0)),
    (negb (node_dirty_bit r RIGHT_DIRTY =? 0)); reflexivity.
Qed.

Lemma clear_item_dirty_bits c k :
  bits_ok (items c) -> bits_ok (items (clear_item_dirty c k)).
Proof.
  intros B. unfold clear_item_dirty.
  destruct (walk_found (items c) k) as [it |]; [| exact B].
  destruct (negb (item_is_dirty it)); [exact B |].
  cbn [items update_dirty_item_counts set_lru set_items].
  apply store_item_bits; [exact clear_bit_bits | discriminate | exact B].
Qed.

Lemma persist_bits t k :
  bits_ok t ->
  bits_ok (fst (store_item t k (fun i => set_persistent i true) false)).
Proof.
  intros B. apply store_item_bits; [| reflexivity | exact B].
  intros l it r E. exact E.
Qed.

Lemma any_dirty_contents t :
  any_dirty t = existsb item_is_dirty (contents t).
Proof.
  unfold any_dirty, contents.
  induction (tree_items t) as [| x l IH]; cbn [map existsb]; [reflexivity |].
  now rewrite item_is_dirty_strip, IH.
Qed.

Lemma erase_leftmost_bits l :
  forall it r m t' going,
    bits_ok (INode l it r) ->
    erase_leftmost l it r = (m, t', going) ->
    bits_ok t'
    /\ (going = false ->
        forall b, node_dirty_bit t' b = node_dirty_bit (INode l it r) b).
Proof.
  induction l as [| ll IHll lit lr _]; intros it r m t' going (Bl & Br & E).
  - cbn [erase_leftmost]. intros [= <- <- <-]. split; [exact Br | discriminate].
  - cbn [erase_leftmost].
    destruct (erase_leftmost ll lit lr) as [[m0 l'] g] eqn:El.
    destruct (IHll lit lr m0 l' g Bl El) as (Bl' & Hq).
    destruct (propagate_step_bits g l' it r Bl' Br) as (Bn & Hn).
    + intros ->. rewrite E. symmetry. apply compute_same_bits; auto.
    + destruct (propagate_step g l' it r) as [n going'] eqn:Ep.
      intros [= <- <- <-]. cbn [fst snd] in *.
      split; [exact Bn |]. intros Hs b. apply (Hn Hs).
Qed.

Lemma erase_leftmost_any l it r m t' going :
  erase_leftmost l it r = (m, t', going) ->
  any_dirty (INode l it r) = item_is_dirty m || any_dirty t'.
Proof.
  intros H. destruct (erase_leftmost_spec l it r m t' going H) as (E & _).
  rewrite !any_dirty_contents, E. cbn [existsb].
  now rewrite item_is_dirty_strip.
Qed.

(** The erase of a clean item. *)
Lemma erase_node_bits l it r :
  bits_ok (INode l it r) -> item_is_dirty it = false ->
  bits_ok (fst (erase_node l it r))
  /\ (snd (erase_node l it r) = false ->
      forall b, node_dirty_bit (fst (erase_node l it r)) b
                = node_dirty_bit (INode l it r) b).
Proof.
  intros B Hc. pose proof B as (Bl & Br & E). unfold erase_node.
  destruct l as [| ll lit lr]; [split; [exact Br | discriminate] |].
  destruct r as [| rl rit rr]; [split; [exact Bl | discriminate] |].
  destruct (erase_leftmost rl rit rr) as [[succ r'] g] eqn:Er.
  destruct (erase_leftmost_bits rl rit rr succ r' g Br Er) as (Br' & _).
  pose proof (erase_leftmost_any rl rit rr succ r' g Er) as Ha.
  set (copied := scoutfs_item_rb_copy INil succ _).
  set (l := INode ll lit lr) in *. set (r := INode rl rit rr) in *.
  assert (Hs : item_is_dirty copied = item_is_dirty succ).
  { subst copied. unfold scoutfs_item_rb_copy.
    rewrite <- item_is_dirty_strip, strip_compute.
    apply item_is_dirty_strip. }
  cbn [fst snd]. split.
  - cbn [bits_ok]. split; [exact Bl |]. split; [exact Br' |].
    rewrite compute_set_dirty by apply self_bit_compute. reflexivity.
  - intros _ b. cbn [node_dirty_bit dirty set_dirty].
    rewrite E, (compute_bits l copied r'), (compute_bits l it r).
    rewrite !(node_bit_any l _ Bl), (node_bit_any r' _ Br'),
      (node_bit_any r _ Br), Ha, Hs, Hc.
    destruct (item_is_dirty succ), (any_dirty l), (any_dirty r');
      reflexivity.
Qed.

Lemma rb_erase_bits t k :
  bits_ok t ->
  (forall x, walk_found t k = Some x -> item_is_dirty x = false) ->
  bits_ok (fst (rb_erase_augmented t k))
  /\ (snd (rb_erase_augmented t k) = false ->
      forall b, node_dirty_bit (fst (rb_erase_augmented t k)) b
                = node_dirty_bit t b).
Proof.
  induction t as [| l IHl it r IHr]; [cbn; auto |].
  intros B Hc. pose proof B as (Bl & Br & E).
  rewrite walk_found_node in Hc. cbn [rb_erase_augmented].
  destruct (scoutfs_key_compare k (key it) <? 0).
  - destruct (IHl Bl Hc) as (Bl' & Hq).
    destruct (rb_erase_augmented l k) as [l' going]. cbn [fst snd] in *.
    destruct (propagate_step_bits going l' it r Bl' Br) as (Bn & Hn).
    + intros ->. rewrite E. symmetry. apply compute_same_bits; auto.
    + split; [exact Bn |]. intros Hs b. apply (Hn Hs).
  - destruct (scoutfs_key_compare k (key it) >? 0).
    + destruct (IHr Br Hc) as (Br' & Hq).
      destruct (rb_erase_augmented r k) as [r' going]. cbn [fst snd] in *.
      destruct (propagate_step_bits going l it r' Bl Br') as (Bn & Hn).
      * intros ->. rewrite E. symmetry. apply compute_same_bits; auto.
      * split; [exact Bn |]. intros Hs b. apply (Hn Hs).
    + apply erase_node_bits; auto.
Qed.

Lemma unlink_item_bits c k :
  bst (items c) -> bits_ok (items c) -> bits_ok (items (unlink_item c k)).
Proof.
  intros S B. unfold unlink_item.
  pose proof (clear_item_dirty_bits c k B) as B1.
  pose proof (clear_item_dirty_clean c k S) as Hc.
  assert (B2 : bits_ok (fst (rb_erase_augmented
                               (items (clear_item_dirty c k)) k))).
  { apply rb_erase_bits; [exact B1 |]. intros x Hx.
    now rewrite Hx in Hc. }
  destruct (on_list k _); exact B2.
Qed.

(** ** The flush *)

Lemma filter_strip_dirty (l : list cached_item) :
  filter item_is_dirty (map strip l) = map strip (filter item_is_dirty l).
Proof.
  induction l as [| x l IH]; cbn [map filter]; [reflexivity |].
  rewrite item_is_dirty_strip.
  destruct (item_is_dirty x); cbn [map]; now rewrite IH.
Qed.

Lemma hd_strip (l : list cached_item) :
  hd_error (map strip l) = option_map strip (hd_error l).
Proof. destruct l; reflexivity. Qed.

Lemma first_dirty_contents t :
  bits_ok t ->
  option_map strip (first_dirty t) = hd_error (dirty_contents t).
Proof.
  intros B. rewrite (first_dirty_spec t B). unfold dirty_contents, contents.
  now rewrite filter_strip_dirty, hd_strip.
Qed.

Lemma next_dirty_contents t k x :
  bst t -> bits_ok t -> walk_found t k = Some x ->
  option_map strip (next_dirty t k)
  = hd_error (filter item_is_dirty
                (filter (fun y => k <? key y) (contents t))).
Proof.
  intros S B Hf. rewrite (next_dirty_spec t k x S B Hf). unfold contents.
  rewrite (filter_strip (fun y => k <? y)).
  now rewrite filter_strip_dirty, hd_strip.
Qed.

(** The list around its first dirty item. *)
Lemma split_first_dirty (l : list cached_item) x rest :
  filter item_is_dirty l = x :: rest ->
  exists pre post,
    l = pre ++ x :: post
    /\ filter item_is_dirty pre = []
    /\ item_is_dirty x = true
    /\ filter item_is_dirty post = rest.
Proof.
  induction l as [| y l IH]; cbn [filter]; [discriminate |].
  destruct (item_is_dirty y) eqn:Ey.
  - intros [= <- <-]. exists [], l. auto.
  - intros H. destruct (IH H) as (pre & post & -> & Hp & Hx & Hr).
    exists (y :: pre), post. cbn [filter app]. rewrite Ey. auto.
Qed.

Lemma ascending_split pre x post :
  ascending (pre ++ x :: post) ->
  Forall (fun y => key y < key x) pre
  /\ Forall (fun y => key x < key y) post.
Proof.
  induction pre as [| a pre IH]; cbn [app ascending].
  - intros (F & _). auto.
  - intros (Fa & A). destruct (IH A) as (Fp & Fq). split; [| exact Fq].
    constructor; [| exact Fp].
    rewrite Forall_forall in Fa. apply Fa. apply in_elt.
Qed.

Section AroundFirstDirty.

Variables (pre post : list cached_item) (x : cached_item).
Variable g : cached_item -> cached_item.
Hypothesis g_key : forall i, key (g i) = key i.
Hypothesis pre_lt : Forall (fun y => key y < key x) pre.
Hypothesis post_gt : Forall (fun y => key x < key y) post.

Lemma at_key_around :
  map (at_key (key x) g) (pre ++ x :: post) = pre ++ g x :: post.
Proof.
  rewrite map_app. cbn [map]. rewrite (at_key_eq (key x) g x eq_refl).
  rewrite !at_key_other; [reflexivity | |].
  - apply Forall_map. eapply Forall_impl; [| exact post_gt]. cbn. lia.
  - apply Forall_map. eapply Forall_impl; [| exact pre_lt]. cbn. lia.
Qed.

Lemma without_around : without (key x) (pre ++ x :: post) = pre ++ post.
Proof.
  rewrite without_app, (without_cons_key (key x) x post eq_refl).
  rewrite !without_other; [reflexivity | |].
  - apply Forall_map. eapply Forall_impl; [| exact post_gt]. cbn. lia.
  - apply Forall_map. eapply Forall_impl; [| exact pre_lt]. cbn. lia.
Qed.

Lemma after_around :
  filter (fun y => key x <? key y) (pre ++ g x :: post) = post.
Proof.
  rewrite filter_app. cbn [filter]. rewrite g_key, Z.ltb_irrefl.
  rewrite filter_none, filter_all; [reflexivity | |].
  - eapply Forall_impl; [| exact post_gt]. cbn. intros y Hy.
    apply Z.ltb_lt. lia.
  - eapply Forall_impl; [| exact pre_lt]. cbn. intros y Hy.
    apply Z.ltb_ge. lia.
Qed.

End AroundFirstDirty.

Lemma clear_item_dirty_contents_dirty c k it :
  bst (items c) -> walk_found (items c) k = Some it ->
  item_is_dirty it = true ->
  contents (items (clear_item_dirty c k))
  = map (at_key k mark_clean) (contents (items c)).
Proof.
  intros B Hf Hd. unfold clear_item_dirty. rewrite Hf, Hd. cbn [negb].
  cbn [items set_items update_dirty_item_counts set_lru].
  apply store_item_contents; [apply strip_clear | assumption].
Qed.

Lemma flushed_clean x : item_is_dirty x = false -> flushed x = x.
Proof. unfold flushed. now intros ->. Qed.

Lemma survives_clean x : item_is_dirty x = false -> survives_flush x = true.
Proof. unfold survives_flush. now intros ->. Qed.

Lemma flush_clean_list (l : list cached_item) :
  filter item_is_dirty l = [] ->
  map flushed (filter survives_flush l) = l.
Proof.
  induction l as [| y l IH]; cbn [filter map]; [reflexivity |].
  destruct (item_is_dirty y) eqn:E; [discriminate |]. intros H.
  rewrite (survives_clean y E). cbn [map].
  now rewrite (flushed_clean y E), IH.
Qed.

Lemma seg_item_of_strip it : seg_item_of (strip it) = seg_item_of it.
Proof. reflexivity. Qed.

(** ** The rotations keep the subtree bits *)

Lemma rotate_left_contents t : contents (rotate_left t) = contents t.
Proof.
  destruct t as [| a x [| b y c]]; try reflexivity.
  unfold rotate_left, scoutfs_item_rb_rotate. cbv beta iota zeta.
  rewrite !contents_node, !strip_compute, <- app_assoc. reflexivity.
Qed.

Lemma rotate_right_contents t : contents (rotate_right t) = contents t.
Proof.
  destruct t as [| [| a x b] y c]; try reflexivity.
  unfold rotate_right, scoutfs_item_rb_rotate. cbv beta iota zeta.
  rewrite !contents_node, !strip_compute, <- app_assoc. reflexivity.
Qed.

Lemma rotate_left_local_bits t : bits_ok t -> bits_ok (rotate_left t).
Proof.
  destruct t as [| a x [| b y c]]; try (intros H; exact H).
  intros (Ba & (Bb & Bc & _) & _).
  unfold rotate_left, scoutfs_item_rb_rotate. cbv beta iota zeta.
  cbn [bits_ok dirty set_dirty].
  repeat split; try assumption.
  - rewrite compute_set_dirty by apply self_bit_compute. reflexivity.
  - rewrite compute_set_dirty by apply self_bit_compute. reflexivity.
Qed.

Lemma rotate_right_local_bits t : bits_ok t -> bits_ok (rotate_right t).
Proof.
  destruct t as [| [| a x b] y c]; try (intros H; exact H).
  intros ((Ba & Bb & _) & Bc & _).
  unfold rotate_right, scoutfs_item_rb_rotate. cbv beta iota zeta.
  cbn [bits_ok dirty set_dirty].
  repeat split; try assumption.
  - rewrite compute_set_dirty by apply self_bit_compute. reflexivity.
  - rewrite compute_set_dirty by apply self_bit_compute. reflexivity.
Qed.

(** Two consistent trees with the same items show their parent the same
    bit. *)
Lemma node_bit_contents t t' b :
  bits_ok t -> bits_ok t' -> contents t' = contents t ->
  node_dirty_bit t' b = node_dirty_bit t b.
Proof.
  intros B B' E. rewrite (node_bit_any t b B), (node_bit_any t' b B').
  now rewrite !any_dirty_contents, E.
Qed.

Lemma rotate_at_spec path to_left :
  forall t,
    bits_ok t ->
    bits_ok (rotate_at path to_left t)
    /\ contents (rotate_at path to_left t) = contents t.
Proof.
  induction path as [| step path IH]; intros t B; cbn [rotate_at].
  - destruct to_left.
    + split; [now apply rotate_left_local_bits | apply rotate_left_contents].
    + split; [now apply rotate_right_local_bits
             | apply rotate_right_contents].
  - destruct t as [| l it r]; [split; [exact I | reflexivity] |].
    destruct B as (Bl & Br & E).
    destruct step.
    + destruct (IH l Bl) as (Bl' & El).
      split; [| now rewrite !contents_node, El].
      cbn [bits_ok]. split; [exact Bl' |]. split; [exact Br |].
      rewrite E. symmetry. apply compute_same_bits; [| reflexivity].
      intros b. now apply node_bit_contents.
    + destruct (IH r Br) as (Br' & Er).
      split; [| now rewrite !contents_node, Er].
      cbn [bits_ok]. split; [exact Bl |]. split; [exact Br' |].
      rewrite E. symmetry. apply compute_same_bits; [reflexivity |].
      intros b. now apply node_bit_contents.
Qed.

Lemma rebalance_spec moves :
  forall t,
    bits_ok t ->
    bits_ok (rebalance moves t) /\ contents (rebalance moves t) = contents t.
Proof.
  unfold rebalance.
  induction moves as [| m moves IH]; intros t B; cbn [fold_left];
    [split; [exact B | reflexivity] |].
  destruct (rotate_at_spec (rot_path m) (rot_left m) t B) as (B1 & E1).
  destruct (IH _ B1) as (B2 & E2).
  split; [exact B2 | now rewrite E2, E1].
Qed.

(** A tree that holds the items of a search tree in the same order is
    a search tree. *)
Lemma ascending_bst t : ascending (tree_items t) -> bst t.
Proof.
  induction t as [| l IHl it r IHr]; [intros _; exact I |].
  cbn [tree_items bst]. intros A.
  destruct (ascending_split _ _ _ A) as (Fl & Fr).
  assert (Al : ascending (tree_items l) /\ ascending (it :: tree_items r)).
  { clear - A. induction (tree_items l) as [| x xs IHx]; cbn [app] in *.
    - split; [exact I | exact A].
    - destruct A as (F & A). destruct (IHx A) as (A1 & A2).
      split; [| exact A2]. split; [| exact A1].
      apply Forall_app in F. tauto. }
  destruct Al as (Al & (_ & Ar)).
  split; [now apply IHl |]. split; [now apply IHr |].
  unfold keys. split; apply Forall_map; assumption.
Qed.

Lemma ascending_strip l : ascending (map strip l) -> ascending l.
Proof.
  induction l as [| x l IH]; cbn [map ascending]; [auto |].
  intros (F & A). split; [| now apply IH].
  exact (proj1 (Forall_map _ _ _) F).
Qed.

Lemma rebalance_bst moves t :
  bits_ok t -> bst t -> bst (rebalance moves t).
Proof.
  intros B S. apply ascending_bst, ascending_strip.
  fold (contents (rebalance moves t)).
  rewrite (proj2 (rebalance_spec moves t B)).
  now apply ascending_contents.
Qed.

Lemma erase_item_rebalanced_items moves c k :
  erase_item_rebalanced moves c k
  = set_items (erase_item c k) (rebalance moves (items (erase_item c k))).
Proof.
  unfold erase_item_rebalanced, erase_item, unlink_item.
  cbn [lru_list set_items lru_nr].
  destruct (on_list k (lru_list (clear_item_dirty c k))); reflexivity.
Qed.

Lemma erase_item_rebalanced_none c k :
  erase_item_rebalanced [] c k = erase_item c k.
Proof.
  rewrite erase_item_rebalanced_items. unfold rebalance. cbn [fold_left].
  apply set_items_same.
Qed.

Lemma dirty_seg_loop_rebalanced_none turns :
  forall c seg item,
    dirty_seg_loop_rebalanced [] turns c seg item
    = dirty_seg_loop turns c seg item.
Proof.
  induction turns as [| turns IH]; intros c seg item;
    cbn [dirty_seg_loop_rebalanced dirty_seg_loop];
    destruct item as [it |]; try reflexivity.
  destruct (scoutfs_seg_append_item _ _ _ _) as [seg' |]; [| reflexivity].
  cbn [hd tl]. rewrite erase_item_rebalanced_none.
  destruct (deletion it); apply IH.
Qed.

Section Rebalanced.

Variable I : list cached_item -> Z -> Z -> Prop.
Hypothesis HI : list_invariant I.

Lemma good_rebalance moves c :
  bits_ok (items c) -> good I c ->
  good I (set_items c (rebalance moves (items c))).
Proof.
  intros B ((S & L) & H).
  destruct (rebalance_spec moves (items c) B) as (_ & E).
  split; [split |].
  - cbn [items set_items]. now apply rebalance_bst.
  - cbn [items set_items].
    assert (Lc : Forall len_ok (contents (items c)))
      by (apply Forall_map; exact L).
    rewrite <- E in Lc. exact (proj1 (Forall_map _ _ _) Lc).
  - unfold holds in *. cbn [items set_items nr_dirty_items dirty_val_bytes].
    now rewrite E.
Qed.

End Rebalanced.

Lemma dirty_seg_loop_rebalanced_spec turns :
  forall moves c seg item,
    bst (items c) -> bits_ok (items c) ->
    option_map strip item = hd_error (dirty_contents (items c)) ->
    (length (dirty_contents (items c)) <= turns)%nat ->
    (length (dirty_contents (items c)) <= seg_room seg)%nat ->
    exists c',
      dirty_seg_loop_rebalanced moves turns c seg item
      = Ret (c',
             mk_segment
               (seg_items seg ++ map seg_item_of (dirty_contents (items c)))
               (seg_room seg - length (dirty_contents (items c))))
      /\ bst (items c')
      /\ bits_ok (items c')
      /\ contents (items c')
         = map flushed (filter survives_flush (contents (items c)))
      /\ ranges c' = ranges c.
Proof.
  induction turns as [| turns IH]; intros moves c seg item S B Hhd Ht Hroom;
    destruct (dirty_contents (items c)) as [| x rest] eqn:E;
    try (cbn [length] in Ht; lia).
  - destruct item as [it |]; [discriminate |]. exists c.
    cbn [dirty_seg_loop_rebalanced map length]. rewrite app_nil_r, Nat.sub_0_r.
    split; [now destruct seg |]. split; [exact S |]. split; [exact B |].
    split; [| reflexivity]. symmetry. now apply flush_clean_list.
  - destruct item as [it |]; [discriminate |]. exists c.
    cbn [dirty_seg_loop_rebalanced map length]. rewrite app_nil_r, Nat.sub_0_r.
    split; [now destruct seg |]. split; [exact S |]. split; [exact B |].
    split; [| reflexivity]. symmetry. now apply flush_clean_list.
  - destruct item as [it |]; [| discriminate].
    cbn [option_map hd_error] in Hhd. injection Hhd as Hit.
    cbn [length] in Ht, Hroom.
    destruct (split_first_dirty _ x rest E)
      as (pre & post & EL & Hpre & Hx & Hpost).
    pose proof (ascending_contents _ S) as A. rewrite EL in A.
    destruct (ascending_split pre x post A) as (Fpre & Fpost).
    assert (Hk : key it = key x) by (now rewrite <- Hit).
    assert (Hdel : deletion it = deletion x) by (now rewrite <- Hit).
    assert (Hin : In x (contents (items c)))
      by (rewrite EL; apply in_elt).
    destruct (in_contents_found _ _ S Hin) as (it0 & Hf0 & Hs0).
    assert (Hd0 : item_is_dirty it0 = true).
    { rewrite <- item_is_dirty_strip, Hs0. exact Hx. }
    set (G := fun i => set_persistent (mark_clean i) true).
    (* the cache after the item is cleaned and made persistent *)
    set (c1 := clear_item_dirty c (key x)).
    set (c2 := set_items c1
                 (fst (store_item (items c1) (key x)
                         (fun i => set_persistent i true) false))).
    destruct (clear_item_dirty_contents c (key x) S) as (S1 & _).
    pose proof (clear_item_dirty_bits c (key x) B) as B1.
    pose proof (clear_item_dirty_contents_dirty c (key x) it0 S Hf0 Hd0)
      as C1.
    fold c1 in S1, B1, C1.
    assert (S2 : bst (items c2))
      by (apply store_item_bst; [reflexivity | exact S1]).
    assert (B2 : bits_ok (items c2)) by (apply persist_bits; exact B1).
    assert (C2 : contents (items c2) = pre ++ G x :: post).
    { unfold c2. cbn [items set_items].
      rewrite (store_item_contents (key x) (fun i => set_persistent i true)
                 (fun i => set_persistent i true))
        by (auto; reflexivity).
      rewrite C1, EL.
      rewrite (at_key_around pre post x mark_clean) by auto.
      assert (Fpre' : Forall (fun y => key y < key (mark_clean x)) pre)
        by exact Fpre.
      assert (Fpost' : Forall (fun y => key (mark_clean x) < key y) post)
        by exact Fpost.
      exact (at_key_around pre post (mark_clean x)
               (fun i => set_persistent i true) Fpre' Fpost'). }
    assert (HG : item_is_dirty (G x) = false) by reflexivity.
    assert (Hf2 : exists y, walk_found (items c2) (key x) = Some y).
    { assert (Hin2 : In (G x) (contents (items c2)))
        by (rewrite C2; apply in_elt).
      destruct (in_contents_found _ _ S2 Hin2) as (y & Hy & _). eauto. }
    destruct Hf2 as (y2 & Hf2).
    pose proof (next_dirty_contents _ _ _ S2 B2 Hf2) as Hnext.
    rewrite C2 in Hnext.
    rewrite (after_around pre post x G (fun _ => eq_refl) Fpre Fpost)
      in Hnext.
    rewrite Hpost in Hnext.
    (* the cache the loop goes on with *)
    set (c3 := if deletion x
               then erase_item_rebalanced (hd [] moves) c2 (key x)
               else c2).
    assert (H3 : bst (items c3) /\ bits_ok (items c3)
                 /\ ranges c3 = ranges c
                 /\ contents (items c3)
                    = (if deletion x then pre ++ post
                       else pre ++ G x :: post)).
    { assert (R2 : ranges c2 = ranges c) by apply ranges_clear.
      unfold c3. destruct (deletion x).
      - rewrite erase_item_rebalanced_items. unfold erase_item.
        destruct (unlink_item_contents c2 (key x) S2) as (Ec & S3).
        pose proof (unlink_item_bits c2 (key x) S2 B2) as Bu.
        destruct (rebalance_spec (hd [] moves) _ Bu) as (Br & Er).
        cbn [items set_items ranges].
        split; [now apply rebalance_bst |]. split; [exact Br |].
        split; [now rewrite ranges_unlink |].
        rewrite Er, Ec, C2.
        assert (Fpre' : Forall (fun y => key y < key (G x)) pre)
          by exact Fpre.
        assert (Fpost' : Forall (fun y => key (G x) < key y) post)
          by exact Fpost.
        exact (without_around pre post (G x) Fpre' Fpost').
      - auto. }
    destruct H3 as (S3 & B3 & R3 & C3).
    assert (D3 : dirty_contents (items c3) = rest).
    { unfold dirty_contents. rewrite C3.
      destruct (deletion x); rewrite filter_app; cbn [filter];
        rewrite ?HG, Hpre, Hpost; reflexivity. }
    destruct (seg_room seg) as [| room] eqn:Eroom; [lia |].
    destruct (IH (if deletion x then tl moves else moves) c3
                 (mk_segment (seg_items seg ++ [seg_item_of it]) room)
                 (next_dirty (items c2) (key x)) S3 B3)
      as (c' & El & S' & B' & C' & R').
    + now rewrite D3.
    + rewrite D3. lia.
    + rewrite D3. cbn [seg_room]. lia.
    + exists c'. split; [| split; [exact S' | split; [exact B' |
                              split; [| now rewrite R', R3]]]].
      * cbn [dirty_seg_loop_rebalanced]. unfold scoutfs_seg_append_item.
        rewrite Eroom.
        change (mk_seg_item (key it)
                  (firstn (Z.to_nat (val_len it)) (item_bytes it))
                  (item_flags it))
          with (seg_item_of it).
        rewrite Hk, Hdel. fold c1. fold c2.
        replace (if deletion x
                 then dirty_seg_loop_rebalanced (tl moves) turns
                        (erase_item_rebalanced (hd [] moves) c2 (key x))
                        (mk_segment (seg_items seg ++ [seg_item_of it]) room)
                        (next_dirty (items c2) (key x))
                 else dirty_seg_loop_rebalanced moves turns c2
                        (mk_segment (seg_items seg ++ [seg_item_of it]) room)
                        (next_dirty (items c2) (key x)))
          with (dirty_seg_loop_rebalanced
                  (if deletion x then tl moves else moves) turns c3
                  (mk_segment (seg_items seg ++ [seg_item_of it]) room)
                  (next_dirty (items c2) (key x)))
          by (unfold c3; now destruct (deletion x)).
        rewrite El, D3. cbn [seg_items seg_room map length].
        rewrite <- app_assoc. cbn [app].
        rewrite <- Hit, seg_item_of_strip. reflexivity.
      * assert (Hsx : survives_flush x = negb (deletion x))
          by (unfold survives_flush; now rewrite Hx).
        assert (Hfx : flushed x = G x)
          by (unfold flushed; now rewrite Hx).
        rewrite C', C3, EL. rewrite filter_app. cbn [filter]. rewrite Hsx.
        destruct (deletion x); cbn [negb]; [now rewrite filter_app |].
        rewrite filter_app. cbn [filter].
        rewrite (survives_clean (G x) HG). rewrite !map_app. cbn [map].
        now rewrite (flushed_clean (G x) HG), Hfx.
Qed.

Lemma good_dirty_seg_loop_rebalanced
    (I : list cached_item -> Z -> Z -> Prop) (HI : list_invariant I) turns :
  forall moves c seg item c' seg',
    bits_ok (items c) -> good I c ->
    dirty_seg_loop_rebalanced moves turns c seg item = Ret (c', seg') ->
    good I c'.
Proof.
  induction turns as [| turns IH]; intros moves c seg item c' seg' B G;
    cbn [dirty_seg_loop_rebalanced]; destruct item as [it |];
    try discriminate; try (intros [= <- <-]; exact G).
  destruct (scoutfs_seg_append_item _ _ _ _) as [seg1 |]; [| discriminate].
  set (c1 := clear_item_dirty c (key it)).
  set (c2 := set_items c1
               (fst (store_item (items c1) (key it)
                       (fun i => set_persistent i true) false))).
  assert (G2 : good I c2)
    by (apply good_persist; [assumption | now apply good_clear]).
  assert (B2 : bits_ok (items c2))
    by (apply persist_bits; now apply clear_item_dirty_bits).
  destruct (deletion it); [| now apply IH].
  rewrite erase_item_rebalanced_items.
  assert (Bu : bits_ok (items (erase_item c2 (key it))))
    by (apply unlink_item_bits; [exact (proj1 (proj1 G2)) | exact B2]).
  apply IH.
  - cbn [items set_items]. exact (proj1 (rebalance_spec _ _ Bu)).
  - apply good_rebalance; [exact Bu | now apply good_erase].
Qed.

Lemma flushed_is_clean x : item_is_dirty (flushed x) = false.
Proof.
  unfold flushed. destruct (item_is_dirty x) eqn:E; [reflexivity | exact E].
Qed.

Lemma dirty_count_contents t :
  dirty_count (contents t) = Z.of_nat (length (dirty_contents t)).
Proof. reflexivity. Qed.

(** X20.  [scoutfs_item_dirty_seg] writes every dirty item, in key
    order, whatever rotations the rebalancing makes once a deletion
    item is erased.  On a well-formed cache whose subtree bits are
    consistent, and with room in the segment for the dirty items, the
    flush returns 0 and has appended one record per dirty item, in
    increasing key order, with the item's key, value and deletion flag;
    afterwards no item is dirty: the dirty deletion items are gone, the
    other dirty items are clean and persistent, and the clean items are
    as before.  The ranges are unchanged, both dirty counters have gone
    down by what was written, the subtree bits are consistent again,
    and a second flush writes nothing.  Without rotations the flush is
    [scoutfs_item_dirty_seg] as embedded. *)
Theorem flush_writes_dirty_items :
  forall (moves : list (list rotation)) (c : item_cache)
         (seg : scoutfs_segment),
    cache_wf c -> bits_ok (items c) ->
    (length (dirty_contents (items c)) <= seg_room seg)%nat ->
    scoutfs_item_dirty_seg_rebalanced [] c seg = scoutfs_item_dirty_seg c seg
    /\ exists c',
      scoutfs_item_dirty_seg_rebalanced moves c seg
      = Ret (0, c',
             mk_segment
               (seg_items seg ++ map seg_item_of (dirty_contents (items c)))
               (seg_room seg - length (dirty_contents (items c))))
      /\ bst (items c')
      /\ bits_ok (items c')
      /\ contents (items c')
         = map flushed (filter survives_flush (contents (items c)))
      /\ dirty_contents (items c') = []
      /\ ranges c' = ranges c
      /\ nr_dirty_items c'
         = nr_dirty_items c - dirty_count (contents (items c))
      /\ dirty_val_bytes c'
         = dirty_val_bytes c - dirty_bytes (contents (items c))
      /\ (forall moves2 seg2,
             scoutfs_item_dirty_seg_rebalanced moves2 c' seg2
             = Ret (0, c', seg2)).
Proof.
  intros moves c seg W B Hroom. pose proof W as (S & _).
  split.
  { unfold scoutfs_item_dirty_seg_rebalanced, scoutfs_item_dirty_seg.
    now rewrite dirty_seg_loop_rebalanced_none. }
  destruct (dirty_seg_loop_rebalanced_spec (tree_size (items c)) moves c seg
              (first_dirty (items c)) S B (first_dirty_contents _ B))
    as (c' & El & S' & B' & C' & R'); [| exact Hroom |].
  { unfold dirty_contents. rewrite <- tree_size_contents.
    apply filter_length_le. }
  assert (D' : dirty_contents (items c') = []).
  { unfold dirty_contents. rewrite C'. apply filter_none.
    apply Forall_map, Forall_forall. intros x _. apply flushed_is_clean. }
  exists c'. split.
  { unfold scoutfs_item_dirty_seg_rebalanced. now rewrite El. }
  split; [exact S' |]. split; [exact B' |]. split; [exact C' |].
  split; [exact D' |]. split; [exact R' |].
  set (D := nr_dirty_items c - dirty_count (contents (items c))).
  set (E := dirty_val_bytes c - dirty_bytes (contents (items c))).
  assert (G : good (I_drift D E) c).
  { split; [exact W |]. split; reflexivity. }
  pose proof (good_dirty_seg_loop_rebalanced (I_drift D E)
                (drift_list_invariant D E) _ moves c seg _ _ _ B G El)
    as (_ & Hn & Hb).
  unfold dirty_count, dirty_bytes in Hn, Hb.
  fold (dirty_contents (items c')) in Hn, Hb. rewrite D' in Hn, Hb.
  cbn in Hn, Hb.
  split; [unfold D in Hn; lia |]. split; [unfold E in Hb; lia |].
  intros moves2 seg2. unfold scoutfs_item_dirty_seg_rebalanced.
  pose proof (first_dirty_contents _ B') as Hfd. rewrite D' in Hfd.
  destruct (first_dirty (items c')); [discriminate |].
  now destruct (tree_size (items c')).
Qed.


(** ** The subtree bits under the rebalancing *)

(** The descent of [insert_item] with an item that has no dirty bit. *)
Lemma insert_descend_bits t ins :
  dirty ins = 0 -> bits_ok t ->
  match insert_descend t ins with
  | Linked t' =>
      bits_ok t' /\ forall b, node_dirty_bit t' b = node_dirty_bit t b
  | Present _ t' => t' = t
  end.
Proof.
  intros Hd. induction t as [| l IHl it r IHr]; cbn [insert_descend].
  - intros _. cbn [bits_ok node_dirty_bit]. unfold compute_item_dirty.
    cbn [node_dirty_bit]. rewrite !Hd. cbn. auto.
  - intros (Bl & Br & E). rewrite Hd. cbn [Z.eqb].
    destruct (scoutfs_key_compare (key ins) (key it) <? 0).
    + specialize (IHl Bl).
      destruct (insert_descend l ins) as [l' | x l']; cbn [lift_insert].
      * destruct IHl as (Bl' & Hq). split; [| reflexivity].
        cbn [bits_ok]. split; [exact Bl' |]. split; [exact Br |].
        rewrite E. symmetry. apply compute_same_bits; auto.
      * now rewrite IHl.
    + destruct (scoutfs_key_compare (key ins) (key it) >? 0);
        [| reflexivity].
      specialize (IHr Br).
      destruct (insert_descend r ins) as [r' | x r']; cbn [lift_insert].
      * destruct IHr as (Br' & Hq). split; [| reflexivity].
        cbn [bits_ok]. split; [exact Bl |]. split; [exact Br' |].
        rewrite E. symmetry. apply compute_same_bits; auto.
      * now rewrite IHr.
Qed.

Lemma fill_batch_clean SCOUTFS_MAX_VAL_SIZE pairs acc :
  Forall (fun it => dirty it = 0) acc ->
  Forall (fun it => dirty it = 0)
    (fold_left
       (fun l kv => snd (scoutfs_item_add_batch SCOUTFS_MAX_VAL_SIZE l (fst kv)
                                                (snd kv) true))
       pairs acc).
Proof.
  revert acc. induction pairs as [| [k v] pairs IH]; intros acc Ha;
    cbn [fold_left]; [assumption |].
  apply IH. unfold scoutfs_item_add_batch; cbn [fst snd].
  destruct (invalid_key_val SCOUTFS_MAX_VAL_SIZE k v); cbn [snd];
    [assumption |].
  apply Forall_app. split; [assumption |].
  constructor; [apply alloc_item_dirty | constructor].
Qed.

(** X21.  The rotate callback keeps the subtree bits.  Take a tree
    whose subtree bits are consistent and any sequence of rotations,
    each followed by [scoutfs_item_rb_rotate] on the two rotated items.
    The tree they leave has consistent subtree bits and holds the same
    items in the same order, each with its own dirty bit, and it is a
    search tree when the first one was.  The same holds when the
    rotations follow the unlinking of an item that is not dirty by
    [rb_erase_augmented], or the linking of a new item that has no
    dirty bit by [insert_item]: the bits are consistent after them. *)
Theorem rotations_keep_subtree_bits :
  forall (moves : list rotation) (t : item_tree),
    bits_ok t ->
    bits_ok (rebalance moves t)
    /\ contents (rebalance moves t) = contents t
    /\ (bst t -> bst (rebalance moves t))
    /\ (forall k,
           (forall x, walk_found t k = Some x -> item_is_dirty x = false) ->
           bits_ok (rebalance moves (fst (rb_erase_augmented t k))))
    /\ (forall ins t',
           dirty ins = 0 -> insert_descend t ins = Linked t' ->
           bits_ok (rebalance moves t')).
Proof.
  intros moves t B.
  destruct (rebalance_spec moves t B) as (B1 & E1).
  split; [exact B1 |]. split; [exact E1 |].
  split; [now apply rebalance_bst |]. split.
  - intros k Hk.
    destruct (rb_erase_bits t k B Hk) as (Be & _).
    exact (proj1 (rebalance_spec moves _ Be)).
  - intros ins t' Hd Hi.
    pose proof (insert_descend_bits t ins Hd B) as Hb. rewrite Hi in Hb.
    exact (proj1 (rebalance_spec moves _ (proj1 Hb))).
Qed.

(** ** Iteration towards smaller keys *)

Lemma items_upto_node l it r k :
  bst (INode l it r) ->
  items_upto k (tree_items (INode l it r))
  = if key it <? k then tree_items l ++ it :: items_upto k (tree_items r)
    else if k <? key it then items_upto k (tree_items l)
    else tree_items l ++ [it].
Proof.
  intros (_ & _ & Fl & Fr). apply Forall_keys in Fl, Fr.
  unfold items_upto. cbn [tree_items]. rewrite filter_app. cbn [filter].
  destruct (Z.ltb_spec (key it) k) as [H | H].
  - replace (key it <=? k) with true by (symmetry; apply Z.leb_le; lia).
    f_equal. apply filter_all.
    eapply Forall_impl; [| exact Fl]. cbn. intros x Hx. apply Z.leb_le. lia.
  - destruct (Z.ltb_spec k (key it)) as [H' | H'].
    + replace (key it <=? k) with false by (symmetry; apply Z.leb_gt; lia).
      rewrite (filter_none _ _ (tree_items r)); [apply app_nil_r |].
      eapply Forall_impl; [| exact Fr]. cbn. intros x Hx. apply Z.leb_gt. lia.
    + replace (key it <=? k) with true by (symmetry; apply Z.leb_le; lia).
      rewrite (filter_none _ _ (tree_items r)).
      * f_equal. apply filter_all.
        eapply Forall_impl; [| exact Fl]. cbn. intros x Hx.
        apply Z.leb_le. lia.
      * eapply Forall_impl; [| exact Fr]. cbn. intros x Hx.
        apply Z.leb_gt. lia.
Qed.

Lemma prev_item_from t k :
  bst t ->
  forall prev next,
    match walk_items_from t k prev next with
    | (Some it, _, _) => Some it
    | (None, pv, _) => pv
    end
    = match rev (items_upto k (tree_items t)) with
      | x :: _ => Some x
      | [] => prev
      end.
Proof.
  induction t as [| l IHl it r IHr]; intros B prev next; [reflexivity |].
  rewrite (items_upto_node l it r k B). destruct B as (Bl & Br & _).
  cbn [walk_items_from]. key_cases k (key it).
  - replace (key it <? k) with false by (symmetry; apply Z.ltb_ge; lia).
    replace (k <? key it) with true by (symmetry; apply Z.ltb_lt; lia).
    apply (IHl Bl).
  - subst k. rewrite Z.ltb_irrefl. rewrite rev_app_distr. reflexivity.
  - replace (key it <? k) with true by (symmetry; apply Z.ltb_lt; lia).
    rewrite (IHr Br). rewrite rev_app_distr. cbn [rev].
    destruct (rev (items_upto k (tree_items r))); reflexivity.
Qed.

Lemma prev_item_last t k :
  bst t -> prev_item t k = hd_error (rev (items_upto k (tree_items t))).
Proof.
  intros B. unfold prev_item, walk_items.
  pose proof (prev_item_from t k B None None) as H.
  destruct (walk_items_from t k None None) as [[[f |] p] n];
    rewrite H; destruct (rev (items_upto k (tree_items t))); reflexivity.
Qed.

Lemma rb_prev_chain_before t k :
  bst t -> In k (keys t) ->
  forall above,
    rb_prev_chain_from t k above
    = rev (filter (fun it => key it <? k) (tree_items t)) ++ above.
Proof.
  induction t as [| l IHl it r IHr]; intros B Hin above; [destruct Hin |].
  pose proof B as (Bl & Br & Fl & Fr).
  rewrite keys_node in Hin. apply in_app_or in Hin.
  assert (Fl' := Forall_keys _ _ Fl). assert (Fr' := Forall_keys _ _ Fr).
  cbn [rb_prev_chain_from tree_items]. rewrite filter_app. cbn [filter].
  key_cases k (key it).
  - assert (Hl : In k (keys l)).
    { destruct Hin as [H | [H | H]]; [exact H | lia |].
      rewrite Forall_forall in Fr. specialize (Fr _ H). lia. }
    rewrite (IHl Bl Hl).
    replace (key it <? k) with false by (symmetry; apply Z.ltb_ge; lia).
    rewrite (filter_none _ _ (tree_items r)); [now rewrite app_nil_r |].
    eapply Forall_impl; [| exact Fr']. cbn. intros x Hx.
    apply Z.ltb_ge. lia.
  - subst k. rewrite Z.ltb_irrefl.
    rewrite (filter_none _ _ (tree_items r)).
    + rewrite app_nil_r. f_equal. f_equal. symmetry. apply filter_all.
      eapply Forall_impl; [| exact Fl']. cbn. intros x Hx.
      apply Z.ltb_lt. lia.
    + eapply Forall_impl; [| exact Fr']. cbn. intros x Hx.
      apply Z.ltb_ge. lia.
  - assert (Hr : In k (keys r)).
    { destruct Hin as [H | [H | H]]; [| lia | exact H].
      rewrite Forall_forall in Fl. specialize (Fl _ H). lia. }
    rewrite (IHr Br Hr).
    replace (key it <? k) with true by (symmetry; apply Z.ltb_lt; lia).
    rewrite (filter_all _ _ (tree_items l)).
    + rewrite rev_app_distr. cbn [rev]. rewrite <- !app_assoc. reflexivity.
    + eapply Forall_impl; [| exact Fl']. cbn. intros x Hx.
      apply Z.ltb_lt. lia.
Qed.

Lemma items_upto_before k l it rest :
  ascending l -> rev (items_upto k l) = it :: rest ->
  rest = rev (filter (fun x => key x <? key it) l).
Proof.
  intros A E.
  assert (Eu : items_upto k l = rev rest ++ [it]).
  { rewrite <- (rev_involutive (items_upto k l)), E. reflexivity. }
  assert (Au : ascending (rev rest ++ [it])).
  { rewrite <- Eu. now apply ascending_filter. }
  destruct (ascending_split _ _ _ Au) as (Fp & _).
  assert (Hk : key it <= k).
  { assert (Hin : In it (items_upto k l))
      by (rewrite Eu; apply in_elt).
    apply filter_In in Hin. destruct Hin as (_ & H). now apply Z.leb_le. }
  assert (Ef : filter (fun x => key x <? key it) l
               = filter (fun x => key x <? key it) (items_upto k l)).
  { unfold items_upto. rewrite filter_filter. apply filter_ext. intros x.
    destruct (Z.ltb_spec (key x) (key it)), (Z.leb_spec (key x) k);
      cbn; try reflexivity; lia. }
  rewrite Ef, Eu, filter_app. cbn [filter]. rewrite Z.ltb_irrefl.
  rewrite app_nil_r, filter_all.
  - now rewrite rev_involutive.
  - eapply Forall_impl; [| exact Fp]. cbn. intros x Hx.
    now apply Z.ltb_lt.
Qed.

Lemma descending_rev l : ascending l -> descending (rev l).
Proof.
  induction l as [| x l IH]; cbn [rev ascending]; [auto |].
  intros (Fx & A). specialize (IH A).
  assert (Fr : Forall (fun y => key x < key y) (rev l)).
  { apply Forall_forall. intros y Hy. apply in_rev in Hy.
    rewrite Forall_forall in Fx. now apply Fx. }
  clear Fx A. induction (rev l) as [| a m IHm]; cbn [app descending].
  - auto.
  - destruct IH as (Fa & Dm). inversion_clear Fr as [| ? ? Ha Fm].
    split; [| auto]. apply Forall_app. split; [exact Fa |].
    constructor; [exact Ha | constructor].
Qed.

Lemma descending_filter f l : descending l -> descending (filter f l).
Proof.
  induction l as [| x l IH]; cbn [filter descending]; [auto |].
  intros (Fx & Al). destruct (f x); cbn [descending]; auto.
  split; [| auto]. apply Forall_forall. intros y Hy.
  apply filter_In in Hy. rewrite Forall_forall in Fx. now apply Fx.
Qed.

(** [prev_item_node] finds, along a decreasing chain, the first item
    from [first] on that is not a deletion item. *)
Lemma prev_item_node_in_first chain first :
  descending chain ->
  prev_item_node_in chain first
  = hd_error (filter (fun it => negb (deletion it) && (first <=? key it))
                     chain).
Proof.
  induction chain as [| x l IH]; cbn [prev_item_node_in filter descending];
    [reflexivity |].
  intros (Fx & Al). key_cases (key x) first.
  - replace (first <=? key x) with false by (symmetry; apply Z.leb_gt; lia).
    rewrite andb_false_r. rewrite filter_none; [reflexivity |].
    eapply Forall_impl; [| exact Fx]. cbn. intros y Hy.
    replace (first <=? key y) with false by (symmetry; apply Z.leb_gt; lia).
    apply andb_false_r.
  - replace (first <=? key x) with true by (symmetry; apply Z.leb_le; lia).
    destruct (deletion x); cbn [negb andb]; [now apply IH | reflexivity].
  - replace (first <=? key x) with true by (symmetry; apply Z.leb_le; lia).
    destruct (deletion x); cbn [negb andb]; [now apply IH | reflexivity].
Qed.

Lemma live_within_upto first k l :
  live_within first k l
  = filter (fun it => negb (deletion it) && (first <=? key it))
           (items_upto k l).
Proof.
  unfold live_within, items_upto. rewrite filter_filter.
  apply filter_ext. intros it.
  destruct (deletion it), (first <=? key it), (key it <=? k); reflexivity.
Qed.

Lemma item_for_prev_last t k range_start first :
  bst t ->
  item_for_prev t k range_start first
  = hd_error (rev (live_within (Z.max range_start first) k (tree_items t))).
Proof.
  intros B. unfold item_for_prev.
  assert (El : (if scoutfs_key_compare range_start first >? 0
                then range_start else first) = Z.max range_start first).
  { key_cases range_start first; lia. }
  rewrite El. set (m := Z.max range_start first).
  rewrite live_within_upto, <- filter_rev, (prev_item_last t k B).
  pose proof (bst_ascending t B) as A.
  assert (D : descending (rev (items_upto k (tree_items t)))).
  { apply descending_rev. now apply ascending_filter. }
  destruct (rev (items_upto k (tree_items t))) as [| it rest] eqn:E;
    [reflexivity |].
  cbn [hd_error]. unfold prev_item_node.
  assert (Hin : In (key it) (keys t)).
  { apply in_keys.
    assert (H : In it (rev (items_upto k (tree_items t))))
      by (rewrite E; left; reflexivity).
    apply in_rev in H. apply filter_In in H. tauto. }
  rewrite (rb_prev_chain_before t (key it) B Hin), app_nil_r.
  rewrite <- (items_upto_before k _ it rest A E).
  rewrite <- (prev_item_node_in_first (it :: rest) m D).
  cbn [prev_item_node_in]. destruct (_ <? 0); [reflexivity |].
  destruct (deletion it); reflexivity.
Qed.

(** X22.  [scoutfs_item_prev] over cached keys.  When a cached range
    holds every key from the start of the search, which is the greater
    of [first] and the start of the lock, to [key], the call returns
    the last item in key order from that start to [key] that is not a
    deletion item: its key, and its value cut to the caller's buffer.
    When no such item is cached the call returns -ENOENT and changes
    nothing.  The reader is not called. *)
Theorem prev_returns_last_live :
  forall (SCOUTFS_MAX_VAL_SIZE : Z) (turns : nat) (c : item_cache)
         (k first : scoutfs_key) (v : option kvec) (lock : scoutfs_lock)
         (fills : list fill) (rng : cached_range),
    bst (items c) -> ranges_wf (ranges c) ->
    In rng (range_list (ranges c)) -> covers rng k ->
    lock_coverage lock k SCOUTFS_LOCK_READ = true ->
    first <= k ->
    start rng <= Z.max first (lock_start lock) ->
    scoutfs_item_prev SCOUTFS_MAX_VAL_SIZE (S turns) c k first v lock fills
    = match rev (live_within (Z.max first (lock_start lock)) k
                             (tree_items (items c))) with
      | it :: _ => iteration_answer c v it
      | [] => Ret (- ENOENT, c, k, v)
      end.
Proof.
  intros M turns c k first v lock fills rng B W Hin Hc Hlock Hk Hstart.
  pose proof (lock_coverage_bounds _ _ _ Hlock) as Hb.
  unfold scoutfs_item_prev.
  assert (El : (if scoutfs_key_compare (lock_start lock) first >? 0
                then lock_start lock else first)
               = Z.max first (lock_start lock)).
  { key_cases (lock_start lock) first; lia. }
  rewrite El. set (m := Z.max first (lock_start lock)) in *.
  assert (Hkm : m <= k) by (unfold m; lia).
  key_cases k m; try lia; rewrite Hlock; cbn [negb prev_loop];
    rewrite (check_range_found c _ rng W Hin) by assumption;
    cbn [negb]; rewrite (item_for_prev_last _ _ _ _ B);
    replace (Z.max (start rng) m) with m by lia;
    (destruct (rev (live_within m _ (tree_items (items c)))) as [| it rest];
     cbn [hd_error];
     [ key_cases (start rng) m; try lia; reflexivity
     | unfold iteration_answer; destruct v as [kv |]; [| reflexivity];
       destruct (copy_item_val (Some kv) it); reflexivity ]).
Qed.

(** ** Asking for dirty items *)

Lemma ascending_head x l y :
  ascending (x :: l) -> In y (x :: l) -> key x <= key y.
Proof.
  cbn [ascending]. intros (Fx & _) [<- | Hy]; [lia |].
  rewrite Forall_forall in Fx. specialize (Fx y Hy). lia.
Qed.

(** [dirty_item_within] looks at the first dirty item from [from] on. *)
Lemma dirty_item_within_first t from e :
  bst t -> bits_ok t ->
  dirty_item_within t from e
  = match filter item_is_dirty (items_from from (tree_items t)) with
    | x :: _ => key x <=? e
    | [] => false
    end.
Proof.
  intros S B. unfold dirty_item_within. rewrite (next_item_first t from S).
  pose proof (bst_ascending t S) as A.
  destruct (items_from from (tree_items t)) as [| it rest] eqn:E;
    [reflexivity |].
  cbn [hd_error filter]. destruct (item_is_dirty it) eqn:Ed.
  - key_cases (key it) e;
      [ replace (key it <=? e) with true by (symmetry; apply Z.leb_le; lia)
      | replace (key it <=? e) with true by (symmetry; apply Z.leb_le; lia)
      | replace (key it <=? e) with false by (symmetry; apply Z.leb_gt; lia) ];
      reflexivity.
  - assert (Hin : In it (tree_items t)).
    { assert (H : In it (items_from from (tree_items t)))
        by (rewrite E; now left).
      apply filter_In in H. tauto. }
    rewrite (next_dirty_spec t (key it) it S B (bst_found _ _ _ S Hin eq_refl)).
    rewrite <- (items_from_rest from _ it rest A E).
    destruct (filter item_is_dirty rest) as [| x rest']; [reflexivity |].
    cbn [hd_error].
    key_cases (key x) e;
      [ replace (key x <=? e) with true by (symmetry; apply Z.leb_le; lia)
      | replace (key x <=? e) with true by (symmetry; apply Z.leb_le; lia)
      | replace (key x <=? e) with false by (symmetry; apply Z.leb_gt; lia) ];
      reflexivity.
Qed.

(** X23.  [scoutfs_item_range_cached] with the dirty flag finds dirty
    items.  On a search tree with consistent subtree bits it returns
    true exactly when some cached item with a key from [start] to [end]
    is dirty. *)
Theorem range_cached_dirty_finds_dirty :
  forall (c : item_cache) (s e : scoutfs_key),
    bst (items c) -> bits_ok (items c) ->
    scoutfs_item_range_cached c s e true = true
    <-> exists it, In it (tree_items (items c))
                   /\ item_is_dirty it = true /\ s <= key it <= e.
Proof.
  intros c s e S B. unfold scoutfs_item_range_cached.
  rewrite (dirty_item_within_first _ _ _ S B).
  pose proof (bst_ascending _ S) as A.
  assert (Ad : ascending (filter item_is_dirty
                            (items_from s (tree_items (items c)))))
    by (now apply ascending_filter, ascending_filter).
  assert (Hmem : forall y,
             In y (filter item_is_dirty (items_from s (tree_items (items c))))
             <-> In y (tree_items (items c))
                 /\ item_is_dirty y = true /\ s <= key y).
  { intros y. unfold items_from. rewrite !filter_In, Z.leb_le. tauto. }
  destruct (filter item_is_dirty (items_from s (tree_items (items c))))
    as [| x rest].
  - split; [discriminate |]. intros (it & Hin & Hd & Hs & He).
    destruct (proj2 (Hmem it) (conj Hin (conj Hd Hs))).
  - split.
    + intros H. apply Z.leb_le in H.
      destruct (proj1 (Hmem x) (or_introl eq_refl)) as (Hin & Hd & Hs).
      exists x. auto.
    + intros (it & Hin & Hd & Hs & He).
      pose proof (proj2 (Hmem it) (conj Hin (conj Hd Hs))) as Hy.
      pose proof (ascending_head x rest it Ad Hy). apply Z.leb_le. lia.
Qed.

(** ** The shrinker *)

(** [rb_next_item] and [rb_prev_item] of a cached item are its
    neighbours in key order. *)
Lemma rb_next_item_spec t k :
  bst t -> In k (keys t) ->
  match rb_next_item t k with
  | Some nx =>
      In nx (tree_items t) /\ k < key nx
      /\ forall x, In x (tree_items t) -> k < key x -> key nx <= key x
  | None => forall x, In x (tree_items t) -> key x <= k
  end.
Proof.
  intros B Hk. unfold rb_next_item.
  rewrite (rb_next_chain_after t k B Hk []), app_nil_r.
  pose proof (bst_ascending t B) as A.
  assert (E : filter (fun it => k <? key it) (tree_items t)
              = items_from (k + 1) (tree_items t)).
  { unfold items_from. apply filter_ext. intros x.
    destruct (Z.ltb_spec k (key x)), (Z.leb_spec (k + 1) (key x));
      lia || reflexivity. }
  rewrite E.
  destruct (items_from (k + 1) (tree_items t)) as [| nx rest] eqn:F;
    cbn [hd_error].
  - intros x Hx. destruct (Z.le_gt_cases (key x) k) as [? | G]; [assumption |].
    assert (Hin : In x (items_from (k + 1) (tree_items t)))
      by (apply filter_In; split; [assumption | apply Z.leb_le; lia]).
    rewrite F in Hin. destruct Hin.
  - destruct (items_from_least _ _ _ _ A F) as (H1 & H2 & H3).
    split; [assumption |]. split; [lia |].
    intros x Hx Hk'. destruct (H3 x Hx ltac:(lia)) as [-> | ?]; lia.
Qed.

Lemma rb_prev_item_spec t k :
  bst t -> In k (keys t) ->
  match rb_prev_item t k with
  | Some p =>
      In p (tree_items t) /\ key p < k
      /\ forall x, In x (tree_items t) -> key x < k -> key x <= key p
  | None => forall x, In x (tree_items t) -> k <= key x
  end.
Proof.
  intros B Hk. unfold rb_prev_item.
  rewrite (rb_prev_chain_before t k B Hk []), app_nil_r.
  pose proof (bst_ascending t B) as A.
  pose proof (ascending_filter (fun it => key it <? k) _ A) as Af.
  destruct (rev (filter (fun it => key it <? k) (tree_items t)))
    as [| p rest] eqn:F; cbn [hd_error].
  - intros x Hx. destruct (Z.le_gt_cases k (key x)) as [? | G]; [assumption |].
    assert (Hin : In x (filter (fun it => key it <? k) (tree_items t)))
      by (apply filter_In; split; [assumption | apply Z.ltb_lt; lia]).
    apply in_rev in Hin. rewrite F in Hin. destruct Hin.
  - assert (F' : filter (fun it => key it <? k) (tree_items t)
                 = rev rest ++ [p])
      by (rewrite <- (rev_involutive (filter _ _)), F; reflexivity).
    assert (Hp : In p (filter (fun it => key it <? k) (tree_items t)))
      by (rewrite F'; apply in_or_app; right; now left).
    apply filter_In in Hp. destruct Hp as (Hp1 & Hp2). apply Z.ltb_lt in Hp2.
    split; [assumption |]. split; [assumption |].
    intros x Hx Hxk.
    assert (Hin : In x (filter (fun it => key it <? k) (tree_items t)))
      by (apply filter_In; split; [assumption | apply Z.ltb_lt; lia]).
    rewrite F' in Af, Hin. destruct (ascending_split _ _ _ Af) as (Fl & _).
    apply in_app_or in Hin. destruct Hin as [Hin | [<- | []]]; [| lia].
    rewrite Forall_forall in Fl. specialize (Fl x Hin). lia.
Qed.

Lemma compare_gtb a b : (scoutfs_key_compare a b >? 0) = (b <? a).
Proof.
  key_cases a b; symmetry; (apply Z.ltb_lt; lia) || (apply Z.ltb_ge; lia).
Qed.

Lemma compare_ltb a b : (scoutfs_key_compare a b <? 0) = (a <? b).
Proof.
  key_cases a b; symmetry; (apply Z.ltb_lt; lia) || (apply Z.ltb_ge; lia).
Qed.

(** The walk of [shrink_boundary] to the right. *)
Lemma shrink_boundary_right root item0 e :
  bst root ->
  forall left i item found next_ret la nxo,
    In item (tree_items root) -> key item0 <= key item <= e ->
    (forall x, In x (tree_items root) -> key item0 <= key x <= key item ->
               item_is_dirty x = false) ->
    (forall f, found = Some f ->
               boundary_right (tree_items root) item0 e f next_ret) ->
    shrink_boundary_loop left i root item e true found next_ret
    = (Some la, nxo) ->
    boundary_right (tree_items root) item0 e la nxo.
Proof.
  intros B. induction left as [| left IH];
    intros i item found next_ret la nxo Hin Hk Hc Hf E;
    cbn [shrink_boundary_loop] in E.
  - injection E as E1 E2. subst. now apply Hf.
  - pose proof (rb_next_item_spec root (key item) B (in_keys _ _ Hin)) as N.
    destruct (rb_next_item root (key item)) as [nx |].
    + destruct N as (N1 & N2 & N3). rewrite compare_gtb in E.
      destruct (Z.ltb_spec e (key nx)) as [Hb | Hb].
      * injection E as E1 E2. subst la nxo.
        repeat split; try assumption; try lia.
        intros x Hx Hlt. specialize (N3 x Hx Hlt). lia.
      * assert (Hhere : boundary_right (tree_items root) item0 e item
                          (Some nx)).
        { repeat split; try assumption; try lia. }
        assert (Hf' : forall f,
                   (if scoutfs_key_compare (scoutfs_key_inc (key item))
                         (key nx) <=? 0
                    then Some item else found) = Some f ->
                   boundary_right (tree_items root) item0 e f
                     (if scoutfs_key_compare (scoutfs_key_inc (key item))
                           (key nx) <=? 0
                      then Some nx else next_ret)).
        { intros f.
          destruct (scoutfs_key_compare (scoutfs_key_inc (key item))
                      (key nx) <=? 0).
          - intros [= <-]. exact Hhere.
          - apply Hf. }
        destruct ((scoutfs_key_compare (scoutfs_key_inc (key item))
                     (key nx) <=? 0) && (i >=? BOUNDARY_MIN)).
        { injection E as E1 E2. subst nxo. now apply Hf'. }
        destruct (item_is_dirty nx) eqn:Ed.
        { injection E as E1 E2. subst nxo. now apply Hf'. }
        apply (IH _ _ _ _ _ _ N1 ltac:(lia)) in E; [exact E | | exact Hf'].
        intros x Hx Hr.
        destruct (Z.le_gt_cases (key x) (key item)) as [Hle | Hgt].
        -- apply Hc; [assumption | lia].
        -- specialize (N3 x Hx Hgt).
           assert (x = nx)
             by (apply (key_unique (tree_items root));
                 [apply (bst_nodup _ B) | assumption | assumption | lia]).
           now subst x.
    + injection E as E1 E2. subst la nxo.
      repeat split; try assumption; try lia.
      intros x Hx Hlt. specialize (N x Hx). lia.
Qed.

(** The walk of [shrink_boundary] to the left. *)
Lemma shrink_boundary_left root item0 e :
  bst root ->
  forall left i item found next_ret fi pvo,
    In item (tree_items root) -> e <= key item <= key item0 ->
    (forall x, In x (tree_items root) -> key item <= key x <= key item0 ->
               item_is_dirty x = false) ->
    (forall f, found = Some f ->
               boundary_left (tree_items root) item0 e f next_ret) ->
    shrink_boundary_loop left i root item e false found next_ret
    = (Some fi, pvo) ->
    boundary_left (tree_items root) item0 e fi pvo.
Proof.
  intros B. induction left as [| left IH];
    intros i item found next_ret fi pvo Hin Hk Hc Hf E;
    cbn [shrink_boundary_loop] in E.
  - injection E as E1 E2. subst. now apply Hf.
  - pose proof (rb_prev_item_spec root (key item) B (in_keys _ _ Hin)) as N.
    destruct (rb_prev_item root (key item)) as [nx |].
    + destruct N as (N1 & N2 & N3). rewrite compare_ltb in E.
      destruct (Z.ltb_spec (key nx) e) as [Hb | Hb].
      * injection E as E1 E2. subst fi pvo.
        repeat split; try assumption; try lia.
        intros x Hx Hlt. specialize (N3 x Hx Hlt). lia.
      * assert (Hhere : boundary_left (tree_items root) item0 e item
                          (Some nx)).
        { repeat split; try assumption; try lia. }
        assert (Hf' : forall f,
                   (if scoutfs_key_compare (scoutfs_key_dec (key item))
                         (key nx) >=? 0
                    then Some item else found) = Some f ->
                   boundary_left (tree_items root) item0 e f
                     (if scoutfs_key_compare (scoutfs_key_dec (key item))
                           (key nx) >=? 0
                      then Some nx else next_ret)).
        { intros f.
          destruct (scoutfs_key_compare (scoutfs_key_dec (key item))
                      (key nx) >=? 0).
          - intros [= <-]. exact Hhere.
          - apply Hf. }
        destruct ((scoutfs_key_compare (scoutfs_key_dec (key item))
                     (key nx) >=? 0) && (i >=? BOUNDARY_MIN)).
        { injection E as E1 E2. subst pvo. now apply Hf'. }
        destruct (item_is_dirty nx) eqn:Ed.
        { injection E as E1 E2. subst pvo. now apply Hf'. }
        apply (IH _ _ _ _ _ _ N1 ltac:(lia)) in E; [exact E | | exact Hf'].
        intros x Hx Hr.
        destruct (Z.le_gt_cases (key item) (key x)) as [Hle | Hgt].
        -- apply Hc; [assumption | lia].
        -- specialize (N3 x Hx ltac:(lia)).
           assert (x = nx)
             by (apply (key_unique (tree_items root));
                 [apply (bst_nodup _ B) | assumption | assumption | lia]).
           now subst x.
    + injection E as E1 E2. subst fi pvo.
      repeat split; try assumption; try lia.
      intros x Hx Hlt. specialize (N x Hx). lia.
Qed.

(** A store through the pointer to the range that holds a key changes
    that range only, and [rb_erase] of it takes that range only. *)
Lemma map_same (A : Type) (g : A -> A) (l : list A) :
  Forall (fun y => g y = y) l -> map g l = l.
Proof.
  induction 1 as [| y l Hy _ IH]; cbn; [reflexivity |]. now rewrite Hy, IH.
Qed.

Lemma store_range_list t k f :
  ranges_wf t ->
  range_list (store_range t k f)
  = map (fun y => if (start y <=? k) && (k <=? end_ y) then f y else y)
        (range_list t).
Proof.
  induction t as [| l IHl rng r IHr]; [reflexivity |].
  intros (Wl & Wr & Hb & Fl & Fr). cbn [store_range range_list].
  assert (Ml : k <= end_ rng ->
               map (fun y => if (start y <=? k) && (k <=? end_ y)
                             then f y else y) (range_list r)
               = range_list r).
  { intros Hk. apply map_same. eapply Forall_impl; [| exact Fr].
    cbn beta. intros y Hy.
    replace (start y <=? k) with false by (symmetry; apply Z.leb_gt; lia).
    reflexivity. }
  assert (Mr : start rng <= k ->
               map (fun y => if (start y <=? k) && (k <=? end_ y)
                             then f y else y) (range_list l)
               = range_list l).
  { intros Hk. apply map_same. eapply Forall_impl; [| exact Fl].
    cbn beta. intros y Hy.
    replace (k <=? end_ y) with false by (symmetry; apply Z.leb_gt; lia).
    now rewrite andb_false_r. }
  destruct (compare_ranges_point k (start rng) (end_ rng))
    as [(H1 & E) | [(H1 & H2 & E) | (H1 & E)]]; rewrite E;
    cbn [Z.ltb Z.gtb Z.compare]; cbn [range_list];
    rewrite map_app; cbn [map].
  - rewrite (IHl Wl), (Ml ltac:(lia)).
    replace (start rng <=? k) with false by (symmetry; apply Z.leb_gt; lia).
    reflexivity.
  - rewrite (IHr Wr), (Mr ltac:(lia)).
    replace (k <=? end_ rng) with false by (symmetry; apply Z.leb_gt; lia).
    now rewrite andb_false_r.
  - rewrite (Ml ltac:(lia)), (Mr ltac:(lia)).
    replace (start rng <=? k) with true by (symmetry; apply Z.leb_le; lia).
    replace (k <=? end_ rng) with true by (symmetry; apply Z.leb_le; lia).
    reflexivity.
Qed.

Lemma erase_range_at_list t k :
  ranges_wf t ->
  range_list (erase_range_at t k)
  = filter (fun y => negb ((start y <=? k) && (k <=? end_ y)))
           (range_list t).
Proof.
  induction t as [| l IHl rng r IHr]; [reflexivity |].
  intros (Wl & Wr & Hb & Fl & Fr). cbn [erase_range_at range_list].
  assert (Ml : k <= end_ rng ->
               filter (fun y => negb ((start y <=? k) && (k <=? end_ y)))
                      (range_list r)
               = range_list r).
  { intros Hk. apply filter_all. eapply Forall_impl; [| exact Fr].
    cbn beta. intros y Hy.
    replace (start y <=? k) with false by (symmetry; apply Z.leb_gt; lia).
    reflexivity. }
  assert (Mr : start rng <= k ->
               filter (fun y => negb ((start y <=? k) && (k <=? end_ y)))
                      (range_list l)
               = range_list l).
  { intros Hk. apply filter_all. eapply Forall_impl; [| exact Fl].
    cbn beta. intros y Hy.
    replace (k <=? end_ y) with false by (symmetry; apply Z.leb_gt; lia).
    now rewrite andb_false_r. }
  destruct (compare_ranges_point k (start rng) (end_ rng))
    as [(H1 & E) | [(H1 & H2 & E) | (H1 & E)]]; rewrite E;
    cbn [Z.ltb Z.gtb Z.compare]; rewrite ?rb_erase_range_list;
    cbn [range_list]; rewrite filter_app; cbn [filter].
  - rewrite (IHl Wl), (Ml ltac:(lia)).
    replace (start rng <=? k) with false by (symmetry; apply Z.leb_gt; lia).
    reflexivity.
  - rewrite (IHr Wr), (Mr ltac:(lia)).
    replace (k <=? end_ rng) with false by (symmetry; apply Z.leb_gt; lia).
    now rewrite andb_false_r.
  - rewrite (Ml ltac:(lia)), (Mr ltac:(lia)).
    replace (start rng <=? k) with true by (symmetry; apply Z.leb_le; lia).
    replace (k <=? end_ rng) with true by (symmetry; apply Z.leb_le; lia).
    reflexivity.
Qed.

Lemma range_unique t a b q :
  ranges_wf t -> In a (range_list t) -> In b (range_list t) ->
  covers a q -> covers b q -> a = b.
Proof.
  intros W Ha Hb Ca Cb.
  pose proof (ranges_wf_found t q a W Ha Ca) as E1.
  pose proof (ranges_wf_found t q b W Hb Cb) as E2. congruence.
Qed.

Lemma covers_test y k :
  (start y <=? k) && (k <=? end_ y) = true <-> covers y k.
Proof. unfold covers. rewrite andb_true_iff, !Z.leb_le. tauto. Qed.

Lemma disjoint_ascending_within (g : cached_range -> cached_range) l :
  disjoint_ascending l ->
  Forall (fun y => start y <= start (g y) /\ start (g y) <= end_ (g y)
                   /\ end_ (g y) <= end_ y) l ->
  disjoint_ascending (map g l).
Proof.
  induction l as [| x l IH]; [constructor |].
  cbn [disjoint_ascending map]. intros (Hx & Fx & D) Hg.
  inversion Hg as [| ? ? Gx Gl]; subst.
  split; [lia |]. split; [| now apply IH].
  rewrite Forall_map. rewrite Forall_forall in *.
  intros y Hy. specialize (Fx y Hy). specialize (Gl y Hy). cbn beta in *. lia.
Qed.

Lemma covered_store t k f rng :
  ranges_wf t -> range_found t k = Some rng ->
  start rng <= start (f rng) -> start (f rng) <= end_ (f rng) ->
  end_ (f rng) <= end_ rng ->
  ranges_wf (store_range t k f)
  /\ forall q, covered (store_range t k f) q
               <-> covered t q /\ (covers rng q -> covers (f rng) q).
Proof.
  intros W Hf H1 H2 H3.
  destruct (range_found_covers t k rng Hf) as (Hin & Hc).
  assert (Hu : forall y, In y (range_list t) -> covers y k -> y = rng)
    by (intros y Hy Cy; exact (range_unique t y rng k W Hy Hin Cy Hc)).
  split.
  - apply ranges_wf_list. rewrite (store_range_list t k f W).
    apply disjoint_ascending_within; [now apply ranges_wf_list |].
    pose proof (ranges_wf_bounds t W) as Bd.
    rewrite Forall_forall in *. intros y Hy. specialize (Bd y Hy).
    destruct ((start y <=? k) && (k <=? end_ y)) eqn:E.
    + apply covers_test in E. rewrite (Hu y Hy E). lia.
    + lia.
  - intros q. unfold covered. rewrite (store_range_list t k f W). split.
    + intros (y' & Hy' & Cq). apply in_map_iff in Hy'.
      destruct Hy' as (y & <- & Hy).
      destruct ((start y <=? k) && (k <=? end_ y)) eqn:E.
      * apply covers_test in E. rewrite (Hu y Hy E) in *.
        split; [| tauto]. exists rng. split; [assumption |].
        unfold covers in *. lia.
      * split; [exists y; tauto |]. intros Cr.
        rewrite (range_unique t y rng q W Hy Hin Cq Cr) in E.
        apply covers_test in Hc. congruence.
    + intros ((y & Hy & Cq) & Himp).
      destruct ((start y <=? k) && (k <=? end_ y)) eqn:E.
      * exists (f rng). split.
        -- apply in_map_iff. exists y. rewrite E. split; [| assumption].
           apply covers_test in E. now rewrite (Hu y Hy E).
        -- apply Himp. apply covers_test in E. now rewrite <- (Hu y Hy E).
      * exists y. split; [| assumption].
        apply in_map_iff. exists y. now rewrite E.
Qed.

Lemma covered_erase_at t k rng :
  ranges_wf t -> range_found t k = Some rng ->
  ranges_wf (erase_range_at t k)
  /\ forall q, covered (erase_range_at t k) q
               <-> covered t q /\ ~ covers rng q.
Proof.
  intros W Hf.
  destruct (range_found_covers t k rng Hf) as (Hin & Hc).
  split.
  - apply ranges_wf_list. rewrite (erase_range_at_list t k W).
    apply disjoint_ascending_filter. now apply ranges_wf_list.
  - intros q. unfold covered. rewrite (erase_range_at_list t k W). split.
    + intros (y & Hy & Cq). apply filter_In in Hy. destruct Hy as (Hy & E).
      split; [exists y; tauto |]. intros Cr.
      rewrite (range_unique t y rng q W Hy Hin Cq Cr) in E.
      apply covers_test in Hc. rewrite Hc in E. discriminate.
    + intros ((y & Hy & Cq) & Hn). exists y. split; [| assumption].
      apply filter_In. split; [assumption |].
      destruct ((start y <=? k) && (k <=? end_ y)) eqn:E; [| reflexivity].
      apply covers_test in E.
      rewrite (range_unique t y rng k W Hy Hin E Hc) in Cq. contradiction.
Qed.

Lemma insert_range_total t ins :
  ranges_wf t -> start ins <= end_ ins ->
  exists t',
    insert_range t ins = Ret t'
    /\ ranges_wf t'
    /\ forall k, covered t' k <-> covered t k \/ covers ins k.
Proof.
  intros W Hi. unfold insert_range.
  destruct (insert_range_loop_spec (S (range_size t)) t ins ltac:(lia)
              (proj1 (ranges_wf_list t) W) Hi) as (t' & E & D & C).
  exists t'. split; [assumption |]. split; [now apply ranges_wf_list | exact C].
Qed.

(** The loop of [shrink_around] that frees the items from [first] to
    [last] is the loop of [scoutfs_item_invalidate] up to the key of
    [last]. *)
Lemma compare_leb a b : (scoutfs_key_compare a b <=? 0) = (a <=? b).
Proof.
  key_cases a b; symmetry; (apply Z.leb_le; lia) || (apply Z.leb_gt; lia).
Qed.

Lemma keys_erase c k q :
  bst (items c) ->
  In q (keys (items (erase_item c k))) <-> In q (keys (items c)) /\ q <> k.
Proof.
  intros B. unfold erase_item.
  destruct (unlink_item_contents c k B) as (E & _).
  rewrite <- !keys_contents, E. unfold without. rewrite !in_map_iff. split.
  - intros (x & <- & Hx). apply filter_In in Hx. destruct Hx as (Hx & Hk).
    split; [now exists x |].
    destruct (Z.eqb_spec (key x) k); [discriminate | assumption].
  - intros ((x & <- & Hx) & Hk). exists x. split; [reflexivity |].
    apply filter_In. split; [assumption |].
    destruct (Z.eqb_spec (key x) k); [contradiction | reflexivity].
Qed.

Lemma in_keys_item t q :
  In q (keys t) -> exists x, In x (tree_items t) /\ key x = q.
Proof.
  unfold keys. rewrite in_map_iff. intros (x & E & Hx). now exists x.
Qed.

Lemma shrink_erase_invalidate turns :
  forall c it la nr,
    bst (items c) ->
    In (key it) (keys (items c)) -> In (key la) (keys (items c)) ->
    key it <= key la ->
    shrink_erase turns c (Some it) (Some la) nr
    = invalidate_items turns c (Some it) (key la) nr.
Proof.
  induction turns as [| turns IH]; intros c it la nr B Hit Hla Hle;
    [reflexivity |].
  cbn [shrink_erase invalidate_items]. rewrite compare_leb.
  replace (key it <=? key la) with true by (symmetry; apply Z.leb_le; lia).
  pose proof (rb_next_item_spec (items c) (key it) B Hit) as N.
  destruct (in_keys_item _ _ Hla) as (xl & Hxl & Exl).
  destruct (Z.eqb_spec (key it) (key la)) as [Heq | Hne].
  - destruct (rb_next_item (items c) (key it)) as [nx |], turns as [| turns];
      try reflexivity.
    destruct N as (_ & N2 & _). cbn [shrink_erase invalidate_items].
    rewrite compare_leb.
    replace (key nx <=? key la) with false
      by (symmetry; apply Z.leb_gt; lia).
    reflexivity.
  - destruct (rb_next_item (items c) (key it)) as [nx |].
    + destruct N as (N1 & N2 & N3).
      apply IH.
      * unfold erase_item. now apply unlink_item_contents.
      * apply keys_erase; [assumption |]. split; [now apply in_keys | lia].
      * apply keys_erase; [assumption |]. split; [assumption | lia].
      * rewrite <- Exl. apply N3; [assumption | lia].
    + specialize (N xl Hxl). lia.
Qed.

Lemma hd_items_from_key (l : list cached_item) (k : scoutfs_key) :
  ascending l -> In k (map key l) ->
  option_map key (hd_error (items_from k l)) = Some k.
Proof.
  intros A Hk. apply in_map_iff in Hk. destruct Hk as (x & Ex & Hx).
  destruct (items_from k l) as [| x0 rest] eqn:E.
  - assert (Hin : In x (items_from k l))
      by (apply filter_In; split; [assumption | apply Z.leb_le; lia]).
    rewrite E in Hin. destruct Hin.
  - destruct (items_from_least _ _ _ _ A E) as (H1 & _ & H3).
    cbn. f_equal. destruct (H3 x Hx ltac:(lia)) as [-> | ?]; lia.
Qed.

Lemma shrink_erase_spec c fi la nr :
  bst (items c) ->
  In (key fi) (keys (items c)) -> In (key la) (keys (items c)) ->
  key fi <= key la -> to_int nr = nr ->
  exists c',
    shrink_erase (tree_size (items c)) c (Some fi) (Some la) nr
    = (c', to_int (nr + Z.of_nat
                          (length
                             (filter (fun x => (key fi <=? key x)
                                               && (key x <=? key la))
                                     (contents (items c))))))
    /\ bst (items c')
    /\ ranges c' = ranges c
    /\ contents (items c')
       = filter (fun x => negb ((key fi <=? key x) && (key x <=? key la)))
                (contents (items c)).
Proof.
  intros B Hfi Hla Hle Hnr.
  rewrite (shrink_erase_invalidate _ c fi la nr B Hfi Hla Hle).
  destruct (invalidate_items_spec (tree_size (items c)) c (Some fi) (key fi)
              (key la) nr B) as (c' & E & B' & R & C).
  - cbn [option_map]. symmetry. apply hd_items_from_key.
    + now apply ascending_contents.
    + now rewrite keys_contents.
  - lia.
  - assumption.
  - exists c'. unfold items_from in E. rewrite filter_filter in E. auto.
Qed.

Lemma filter_in_same (l : list cached_item) lo hi lo' hi' :
  (forall x, In x l -> (lo <= key x <= hi <-> lo' <= key x <= hi')) ->
  filter (fun x => (lo <=? key x) && (key x <=? hi)) l
  = filter (fun x => (lo' <=? key x) && (key x <=? hi')) l.
Proof.
  intros H. apply filter_ext_in. intros x Hx. specialize (H x Hx).
  destruct (Z.leb_spec lo (key x)), (Z.leb_spec (key x) hi),
    (Z.leb_spec lo' (key x)), (Z.leb_spec (key x) hi');
    cbn; try reflexivity; lia.
Qed.

Lemma filter_out_same (l : list cached_item) lo hi lo' hi' :
  (forall x, In x l -> (lo <= key x <= hi <-> lo' <= key x <= hi')) ->
  filter (fun x => negb ((lo <=? key x) && (key x <=? hi))) l
  = filter (fun x => negb ((lo' <=? key x) && (key x <=? hi'))) l.
Proof.
  intros H. apply filter_ext_in. intros x Hx. specialize (H x Hx).
  destruct (Z.leb_spec lo (key x)), (Z.leb_spec (key x) hi),
    (Z.leb_spec lo' (key x)), (Z.leb_spec (key x) hi');
    cbn; try reflexivity; lia.
Qed.

(** One item of a list without two items of a key, counted apart. *)
Lemma length_filter_one (p : cached_item -> bool) (l : list cached_item)
    (x : cached_item) :
  NoDup (map key l) -> In x l -> p x = true ->
  length (filter p l)
  = S (length (filter (fun y => negb (key y =? key x) && p y) l)).
Proof.
  induction l as [| y l IH]; intros N Hx Px; [destruct Hx |].
  cbn [map] in N. inversion N as [| ? ? Hy Nl]; subst.
  cbn [filter]. destruct Hx as [-> | Hx].
  - rewrite Z.eqb_refl, Px. cbn. f_equal. f_equal.
    apply filter_ext_in. intros z Hz.
    destruct (Z.eqb_spec (key z) (key x)) as [E | _]; [| reflexivity].
    exfalso. apply Hy. rewrite <- E. now apply in_map.
  - destruct (Z.eqb_spec (key y) (key x)) as [E | _].
    + exfalso. apply Hy. rewrite E. now apply in_map.
    + cbn. destruct (p y); cbn; now rewrite (IH Nl Hx Px).
Qed.

(** What [shrink_around] does: nothing, or it frees the items of an
    interval of keys around the item and uncovers that interval. *)
Lemma shrink_around_spec c rng item :
  bst (items c) -> ranges_wf (ranges c) ->
  range_found (ranges c) (key item) = Some rng ->
  In item (tree_items (items c)) ->
  item_is_dirty item = false ->
  exists nr c',
    shrink_around c rng item = Ret (nr, c')
    /\ ((nr = 0 /\ c' = c)
        \/ exists lo hi,
             start rng <= lo /\ lo <= key item <= hi /\ hi <= end_ rng
             /\ bst (items c') /\ ranges_wf (ranges c')
             /\ contents (items c')
                = filter (fun x => negb ((lo <=? key x) && (key x <=? hi)))
                         (contents (items c))
             /\ (forall k, covered (ranges c') k
                           <-> covered (ranges c) k /\ ~ lo <= k <= hi)
             /\ (forall x, In x (contents (items c)) -> lo <= key x <= hi ->
                           item_is_dirty x = false)
             /\ nr = to_int (Z.of_nat
                               (length
                                  (filter (fun x => (lo <=? key x)
                                                    && (key x <=? hi))
                                          (contents (items c)))))).
Proof.
  intros B W Hf Hin Hd.
  destruct (range_found_covers _ _ _ Hf) as (Hrin & Hcov). unfold covers in Hcov.
  pose proof (bst_nodup _ B) as ND.
  assert (Hself : forall x, In x (tree_items (items c)) ->
                            key item <= key x <= key item ->
                            item_is_dirty x = false).
  { intros x Hx Hk.
    assert (x = item)
      by (apply (key_unique (tree_items (items c)));
          [exact ND | assumption | assumption | lia]).
    now subst x. }
  unfold shrink_around, shrink_boundary.
  destruct (shrink_boundary_loop BOUNDARY_MAX 0 (items c) item (start rng)
              false None None) as [fo pvo] eqn:EL.
  destruct (shrink_boundary_loop BOUNDARY_MAX 0 (items c) item (end_ rng)
              true None None) as [lo_ nxo] eqn:ER.
  destruct fo as [fi |]; [| exists 0, c; auto].
  destruct lo_ as [la |]; [| exists 0, c; auto].
  assert (BL : boundary_left (tree_items (items c)) item (start rng) fi pvo).
  { eapply (shrink_boundary_left (items c) item (start rng) B);
      [exact Hin | lia | exact Hself | | exact EL]. intros; discriminate. }
  assert (BR : boundary_right (tree_items (items c)) item (end_ rng) la nxo).
  { eapply (shrink_boundary_right (items c) item (end_ rng) B);
      [exact Hin | lia | exact Hself | | exact ER]. intros; discriminate. }
  destruct BL as (L1 & L2 & L3 & L4). destruct BR as (R1 & R2 & R3 & R4).
  assert (Hclean : forall x, In x (contents (items c)) ->
                             key fi <= key x <= key la ->
                             item_is_dirty x = false).
  { intros x Hx Hk. unfold contents in Hx. apply in_map_iff in Hx.
    destruct Hx as (y & <- & Hy). rewrite item_is_dirty_strip.
    rewrite strip_key in Hk.
    destruct (Z.le_gt_cases (key y) (key item)).
    - apply L3; [assumption | lia].
    - apply R3; [assumption | lia]. }
  assert (Hcont : forall x, In x (contents (items c)) ->
                            exists y, In y (tree_items (items c))
                                      /\ key y = key x).
  { intros x Hx. unfold contents in Hx. apply in_map_iff in Hx.
    destruct Hx as (y & <- & Hy). exists y. now rewrite strip_key. }
  assert (Hto1 : to_int 1 = 1) by reflexivity.
  assert (Hto0 : to_int 0 = 0) by reflexivity.
  destruct pvo as [p |], nxo as [n |]; cbn [is_some andb negb].
  - (* items remain on both sides: the range is split *)
    destruct L4 as (P1 & P2 & P3). destruct R4 as (N1 & N2 & N3).
    destruct (Z.eqb_spec (key fi) (key la)) as [Heq | Hne];
      [exists 0, c; auto |].
    destruct (covered_store (ranges c) (key item)
                (fun r => mk_range (start r) (scoutfs_key_dec (key fi)))
                rng W Hf) as (W1 & C1);
      cbn [start end_]; unfold scoutfs_key_dec; try lia.
    cbn [start end_] in C1. unfold scoutfs_key_dec in C1.
    set (t1 := store_range (ranges c) (key item)
                 (fun r => mk_range (start r) (key fi - 1))) in *.
    destruct (insert_range_total t1
                (mk_range (scoutfs_key_inc (key la)) (end_ rng)) W1)
      as (t2 & E2 & W2 & C2); [cbn; unfold scoutfs_key_inc; lia |].
    rewrite ranges_unlink. cbn [ranges set_ranges items]. rewrite E2.
    cbn [bind items set_ranges].
    pose proof (rb_prev_item_spec (items c) (key la) B (in_keys _ _ R1)) as PV.
    destruct (rb_prev_item (items c) (key la)) as [p' |];
      [| specialize (PV fi L1); lia].
    destruct PV as (V1 & V2 & V3).
    destruct (unlink_item_contents (set_ranges c t1) (key la) B)
      as (C4 & B4).
    cbn [items set_ranges] in C4.
    set (c4 := set_ranges (unlink_item (set_ranges c t1) (key la)) t2).
    assert (K4 : forall q, In q (keys (items c)) -> q <> key la ->
                           In q (keys (items c4))).
    { intros q Hq Hn.
      apply (keys_erase (set_ranges c t1) (key la) q B). now split. }
    destruct (shrink_erase_spec c4 fi p' 1 B4) as (c5 & E5 & B5 & Rg5 & C5);
      [ apply K4; [now apply in_keys | lia]
      | apply K4; [now apply in_keys | lia]
      | apply V3; [assumption | lia]
      | assumption |].
    change (items (unlink_item (set_ranges c t1) (key la))) with (items c4).
    rewrite E5. eexists _, c5. split; [reflexivity |]. right.
    exists (key fi), (key la).
    assert (Hx : forall x, In x (contents (items c)) ->
                   negb (key x =? key la)
                   && ((key fi <=? key x) && (key x <=? key p'))
                   = negb (key x =? key la)
                     && ((key fi <=? key x) && (key x <=? key la))).
    { intros x Hx. destruct (Hcont x Hx) as (y & Hy & Ey).
      destruct (Z.eqb_spec (key x) (key la)); [reflexivity |]. cbn.
      f_equal.
      destruct (Z.leb_spec (key x) (key p')), (Z.leb_spec (key x) (key la));
        try reflexivity; try lia.
      specialize (V3 y Hy ltac:(lia)). lia. }
    split; [lia |]. split; [lia |]. split; [lia |].
    split; [assumption |]. split; [now rewrite Rg5 |].
    split; [| split; [| split; [exact Hclean |]]].
    + rewrite C5. change (items c4)
        with (items (unlink_item (set_ranges c t1) (key la))).
      rewrite C4. unfold without. rewrite filter_filter.
      apply filter_ext_in. intros x Hx'. specialize (Hx x Hx').
      destruct (Z.eqb_spec (key x) (key la)) as [E | _].
      * cbn. rewrite E.
        replace (key fi <=? key la) with true
          by (symmetry; apply Z.leb_le; lia).
        now rewrite Z.leb_refl.
      * cbn in *. now rewrite Hx.
    + intros k. rewrite Rg5. cbn [ranges set_ranges c4]. rewrite C2, C1.
      unfold covers; cbn [start end_]; unfold scoutfs_key_inc. split.
      * intros [(Hc & Himp) | Hr].
        -- split; [assumption |]. intros Hk. specialize (Himp ltac:(lia)). lia.
        -- split; [exists rng; split; [assumption | unfold covers; lia] | lia].
      * intros (Hc & Hn).
        destruct (Z.le_gt_cases k (key la)) as [? | Hgt].
        -- left. split; [assumption |]. intros Hr. lia.
        -- destruct (Z.le_gt_cases k (end_ rng)); [right; lia | left].
           split; [assumption |]. intros Hr. lia.
    + f_equal.
      rewrite (length_filter_one _ (contents (items c)) (strip la)).
      * rewrite Nat2Z.inj_succ. change (items c4)
          with (items (unlink_item (set_ranges c t1) (key la))).
        rewrite C4. unfold without. rewrite filter_filter, strip_key.
        rewrite (filter_ext_in _ _ _ Hx). lia.
      * now apply contents_nodup.
      * unfold contents. now apply in_map.
      * rewrite strip_key.
        replace (key fi <=? key la) with true
          by (symmetry; apply Z.leb_le; lia).
        now rewrite Z.leb_refl.
  - (* items remain before the first only: the range ends there *)
    destruct L4 as (P1 & P2 & P3).
    destruct (covered_store (ranges c) (key item)
                (fun r => mk_range (start r) (scoutfs_key_dec (key fi)))
                rng W Hf) as (W1 & C1);
      cbn [start end_]; unfold scoutfs_key_dec; try lia.
    cbn [start end_] in C1. unfold scoutfs_key_dec in C1.
    set (t1 := store_range (ranges c) (key item)
                 (fun r => mk_range (start r) (key fi - 1))) in *.
    cbn [bind].
    destruct (shrink_erase_spec (set_ranges c t1) fi la 0 B
                (in_keys _ _ L1) (in_keys _ _ R1) ltac:(lia) Hto0)
      as (c5 & E5 & B5 & Rg5 & C5).
    rewrite E5. eexists _, c5. split; [reflexivity |]. right.
    exists (key fi), (end_ rng).
    assert (Hw : forall x, In x (contents (items c)) ->
                   (key fi <= key x <= key la
                    <-> key fi <= key x <= end_ rng)).
    { intros x Hx. destruct (Hcont x Hx) as (y & Hy & Ey). split; [lia |].
      intros Hk. destruct (Z.le_gt_cases (key x) (key la)); [lia |].
      specialize (R4 y Hy ltac:(lia)). lia. }
    split; [lia |]. split; [lia |]. split; [lia |].
    split; [assumption |]. split; [now rewrite Rg5 |].
    split; [| split; [| split]].
    + rewrite C5. now apply filter_out_same.
    + intros k. rewrite Rg5. cbn [ranges set_ranges]. rewrite C1.
      unfold covers; cbn [start end_]. split.
      * intros (Hc & Himp). split; [assumption |]. intros Hk.
        specialize (Himp ltac:(lia)). lia.
      * intros (Hc & Hn). split; [assumption |]. intros Hr. lia.
    + intros x Hx Hk. apply Hclean; [assumption |]. now apply Hw.
    + cbn [items set_ranges]. rewrite Z.add_0_l. do 3 f_equal.
      now apply filter_in_same.
  - (* items remain after the last only: the range starts there *)
    destruct R4 as (N1 & N2 & N3).
    destruct (covered_store (ranges c) (key item)
                (fun r => mk_range (scoutfs_key_inc (key la)) (end_ r))
                rng W Hf) as (W1 & C1);
      cbn [start end_]; unfold scoutfs_key_inc; try lia.
    cbn [start end_] in C1. unfold scoutfs_key_inc in C1.
    set (t1 := store_range (ranges c) (key item)
                 (fun r => mk_range (key la + 1) (end_ r))) in *.
    cbn [bind].
    destruct (shrink_erase_spec (set_ranges c t1) fi la 0 B
                (in_keys _ _ L1) (in_keys _ _ R1) ltac:(lia) Hto0)
      as (c5 & E5 & B5 & Rg5 & C5).
    rewrite E5. eexists _, c5. split; [reflexivity |]. right.
    exists (start rng), (key la).
    assert (Hw : forall x, In x (contents (items c)) ->
                   (key fi <= key x <= key la
                    <-> start rng <= key x <= key la)).
    { intros x Hx. destruct (Hcont x Hx) as (y & Hy & Ey). split; [lia |].
      intros Hk. destruct (Z.le_gt_cases (key fi) (key x)); [lia |].
      specialize (L4 y Hy ltac:(lia)). lia. }
    split; [lia |]. split; [lia |]. split; [lia |].
    split; [assumption |]. split; [now rewrite Rg5 |].
    split; [| split; [| split]].
    + rewrite C5. now apply filter_out_same.
    + intros k. rewrite Rg5. cbn [ranges set_ranges]. rewrite C1.
      unfold covers; cbn [start end_]. split.
      * intros (Hc & Himp). split; [assumption |]. intros Hk.
        specialize (Himp ltac:(lia)). lia.
      * intros (Hc & Hn). split; [assumption |]. intros Hr. lia.
    + intros x Hx Hk. apply Hclean; [assumption |]. now apply Hw.
    + cbn [items set_ranges]. rewrite Z.add_0_l. do 3 f_equal.
      now apply filter_in_same.
  - (* no item remains: the range goes *)
    destruct (covered_erase_at (ranges c) (key item) rng W Hf) as (W1 & C1).
    cbn [bind].
    set (t1 := erase_range_at (ranges c) (key item)) in *.
    destruct (shrink_erase_spec (set_ranges c t1) fi la 0 B
                (in_keys _ _ L1) (in_keys _ _ R1) ltac:(lia) Hto0)
      as (c5 & E5 & B5 & Rg5 & C5).
    rewrite E5. eexists _, c5. split; [reflexivity |]. right.
    exists (start rng), (end_ rng).
    assert (Hw : forall x, In x (contents (items c)) ->
                   (key fi <= key x <= key la
                    <-> start rng <= key x <= end_ rng)).
    { intros x Hx. destruct (Hcont x Hx) as (y & Hy & Ey). split; [lia |].
      intros Hk.
      destruct (Z.le_gt_cases (key fi) (key x));
        [| specialize (L4 y Hy ltac:(lia)); lia].
      destruct (Z.le_gt_cases (key x) (key la)); [lia |].
      specialize (R4 y Hy ltac:(lia)). lia. }
    split; [lia |]. split; [lia |]. split; [lia |].
    split; [assumption |]. split; [now rewrite Rg5 |].
    split; [| split; [| split]].
    + rewrite C5. now apply filter_out_same.
    + intros k. rewrite Rg5. cbn [ranges set_ranges]. rewrite C1.
      unfold covers. tauto.
    + intros x Hx Hk. apply Hclean; [assumption |]. now apply Hw.
    + cbn [items set_ranges]. rewrite Z.add_0_l. do 3 f_equal.
      now apply filter_in_same.
Qed.

Lemma item_at_filter c c' (p : scoutfs_key -> bool) :
  bst (items c) -> bst (items c') ->
  contents (items c') = filter (fun x => negb (p (key x))) (contents (items c)) ->
  forall k, item_at c' k = if p k then None else item_at c k.
Proof.
  intros B B' E k. rewrite (item_at_contents c' k B'), (item_at_contents c k B), E.
  rewrite (find_filter_key (fun q => negb (p q))). now destruct (p k).
Qed.

(** X24.  [shrink_around], called for a clean cached item and the range
    that holds its key, returns.  Either it returns 0 and leaves the
    cache as it is, or there is an interval of keys inside the range,
    around the item's key, such that the items with a key in the
    interval are gone and all others are as they were, the keys of the
    interval are the keys that are no longer covered, every item that
    went was clean, and the count returned is the number of items that
    went. *)
Theorem shrink_around_frees_an_interval :
  forall (c : item_cache) (rng : cached_range) (item : cached_item),
    bst (items c) -> ranges_wf (ranges c) ->
    range_found (ranges c) (key item) = Some rng ->
    walk_found (items c) (key item) = Some item ->
    item_is_dirty item = false ->
    exists nr c',
      shrink_around c rng item = Ret (nr, c')
      /\ ((nr = 0 /\ c' = c)
          \/ exists lo hi,
               start rng <= lo /\ lo <= key item <= hi /\ hi <= end_ rng
               /\ bst (items c') /\ ranges_wf (ranges c')
               /\ (forall k, item_at c' k
                             = if (lo <=? k) && (k <=? hi) then None
                               else item_at c k)
               /\ (forall k, covered (ranges c') k
                             <-> covered (ranges c) k /\ ~ lo <= k <= hi)
               /\ (forall k x, lo <= k <= hi -> item_at c k = Some x ->
                               item_is_dirty x = false)
               /\ nr = to_int (Z.of_nat
                                 (length
                                    (filter (fun x => (lo <=? key x)
                                                      && (key x <=? hi))
                                            (contents (items c)))))).
Proof.
  intros c rng item B W Hf Hw Hd.
  destruct (shrink_around_spec c rng item B W Hf (walk_found_in _ _ _ Hw) Hd)
    as (nr & c' & E & [H0 | (lo & hi & H1 & H2 & H3 & B' & W' & C & Cv & Cl & N)]).
  - exists nr, c'. auto.
  - exists nr, c'. split; [assumption |]. right. exists lo, hi.
    repeat (split; [assumption |]).
    split; [| split; [exact Cv | split; [| exact N]]].
    + exact (item_at_filter c c' (fun q => (lo <=? q) && (q <=? hi)) B B' C).
    + intros k x Hk Hx. apply (item_at_iff c k x B) in Hx.
      destruct Hx as (Hx & <-). now apply Cl.
Qed.

(** The steps of [item_lru_shrink]. *)
Lemma shrunk_refl c : shrunk c c.
Proof. repeat split; auto. Qed.

Lemma shrunk_trans c1 c2 c3 : shrunk c1 c2 -> shrunk c2 c3 -> shrunk c1 c3.
Proof.
  intros (A1 & A2 & A3) (B1 & B2 & B3). repeat split.
  - now apply A1, B1.
  - destruct (B1 k H) as (H2 & ->). now apply A1.
  - intros k x Hx Hd. apply B2; [| assumption]. now apply A2.
  - intros k x Hx. now apply A3, B3.
Qed.

Lemma shrunk_filter c c' (p : scoutfs_key -> bool) :
  (forall k, item_at c' k = if p k then None else item_at c k) ->
  (forall k, covered (ranges c') k -> covered (ranges c) k /\ p k = false) ->
  (forall k x, p k = true -> item_at c k = Some x ->
               item_is_dirty x = false) ->
  shrunk c c'.
Proof.
  intros Hi Hc Hd. repeat split.
  - now apply Hc.
  - rewrite Hi. destruct (Hc k H) as (_ & ->). reflexivity.
  - intros k x Hx Hdx. rewrite Hi. destruct (p k) eqn:E; [| assumption].
    rewrite (Hd k x E Hx) in Hdx. discriminate.
  - intros k x. rewrite Hi. destruct (p k); [discriminate | auto].
Qed.

Lemma range_found_none t k :
  ranges_wf t -> range_found t k = None -> ~ covered t k.
Proof.
  intros W E (r & Hr & Hc). rewrite (ranges_wf_found t k r W Hr Hc) in E.
  discriminate.
Qed.

Lemma shrunk_around c rng item nr c' :
  bst (items c) -> ranges_wf (ranges c) ->
  range_found (ranges c) (key item) = Some rng ->
  walk_found (items c) (key item) = Some item ->
  item_is_dirty item = false ->
  shrink_around c rng item = Ret (nr, c') ->
  bst (items c') /\ ranges_wf (ranges c') /\ shrunk c c'.
Proof.
  intros B W Hf Hw Hd E.
  destruct (shrink_around_spec c rng item B W Hf (walk_found_in _ _ _ Hw) Hd)
    as (nr1 & c1 & E1 & H).
  rewrite E in E1. injection E1 as <- <-.
  destruct H as [(_ & ->) | (lo & hi & H1 & H2 & H3 & B' & W' & C & Cv & Cl & N)].
  - split; [assumption |]. split; [assumption | apply shrunk_refl].
  - split; [assumption |]. split; [assumption |].
    apply (shrunk_filter c c' (fun q => (lo <=? q) && (q <=? hi))).
    + exact (item_at_filter c c' (fun q => (lo <=? q) && (q <=? hi)) B B' C).
    + intros k Hk. apply Cv in Hk. destruct Hk as (Hk & Hn).
      split; [assumption |].
      destruct ((lo <=? k) && (k <=? hi)) eqn:Eb; [| reflexivity].
      apply andb_true_iff in Eb. rewrite !Z.leb_le in Eb. contradiction.
    + intros k x Hk Hx. apply andb_true_iff in Hk. rewrite !Z.leb_le in Hk.
      apply (item_at_iff c k x B) in Hx. destruct Hx as (Hx & <-).
      now apply Cl.
Qed.

Lemma shrunk_erase_outside c k it :
  bst (items c) -> ranges_wf (ranges c) ->
  walk_found (items c) k = Some it -> item_is_dirty it = false ->
  range_found (ranges c) k = None ->
  bst (items (erase_item c k)) /\ ranges_wf (ranges (erase_item c k))
  /\ shrunk c (erase_item c k).
Proof.
  intros B W Hw Hd Hn. unfold erase_item.
  destruct (unlink_item_contents c k B) as (C & B').
  split; [assumption |]. split; [now rewrite ranges_unlink |].
  apply (shrunk_filter c _ (fun q => q =? k)).
  - apply (item_at_filter c _ (fun q => q =? k) B B'). exact C.
  - intros q. rewrite ranges_unlink. intros Hq. split; [assumption |].
    destruct (Z.eqb_spec q k) as [-> | _]; [| reflexivity].
    destruct (range_found_none _ _ W Hn Hq).
  - intros q x Hq Hx. apply Z.eqb_eq in Hq. subst q.
    unfold item_at in Hx. rewrite Hw in Hx. injection Hx as <-.
    now rewrite item_is_dirty_strip.
Qed.

Lemma lru_shrink_loop_shrunk turns :
  forall c nr first_moved c',
    bst (items c) -> ranges_wf (ranges c) ->
    lru_shrink_loop turns c nr first_moved = Ret c' ->
    bst (items c') /\ ranges_wf (ranges c') /\ shrunk c c'.
Proof.
  induction turns as [| turns IH]; intros c nr fm c' B W E;
    cbn [lru_shrink_loop] in E; [discriminate |].
  destruct (nr =? 0);
    [injection E as <-; auto using shrunk_refl |].
  destruct (lru_list c) as [| k lru];
    [injection E as <-; auto using shrunk_refl |].
  destruct (walk_found (items c) k) as [it |] eqn:Hw; [| discriminate].
  destruct (item_is_dirty it) eqn:Hd; [discriminate |].
  pose proof (walk_found_key _ _ _ Hw) as Hk.
  destruct (fst (fst (walk_ranges (ranges c) k))) as [rng |] eqn:Hr.
  - destruct (shrink_around c rng it) as [[ret c1] | |] eqn:Es;
      cbn [bind] in E; try discriminate.
    rewrite <- Hk in Hw, Hr.
    destruct (shrunk_around c rng it ret c1 B W Hr Hw Hd Es)
      as (B1 & W1 & S1).
    destruct (ret =? 0).
    + destruct (match fm with Some m => m =? k | None => false end).
      * injection E as <-. auto.
      * apply IH in E; [| exact B1 | exact W1].
        destruct E as (B2 & W2 & S2). split; [assumption |].
        split; [assumption |]. exact (shrunk_trans _ _ _ S1 S2).
    + apply IH in E; [| exact B1 | exact W1].
      destruct E as (B2 & W2 & S2). split; [assumption |].
      split; [assumption |]. exact (shrunk_trans _ _ _ S1 S2).
  - destruct (shrunk_erase_outside c k it B W Hw Hd Hr) as (B1 & W1 & S1).
    apply IH in E; [| exact B1 | exact W1].
    destruct E as (B2 & W2 & S2). split; [assumption |].
    split; [assumption |]. exact (shrunk_trans _ _ _ S1 S2).
Qed.

Lemma erase_empty_ranges_sub turns :
  forall t,
    ranges_wf t ->
    ranges_wf (erase_empty_ranges turns t)
    /\ forall y, In y (range_list (erase_empty_ranges turns t)) ->
                 In y (range_list t).
Proof.
  induction turns as [| turns IH]; intros t W; [cbn; auto |].
  destruct t as [| l rng r]; [cbn; auto |]. cbn [erase_empty_ranges].
  destruct (range_leftmost l rng r) as [m t'] eqn:E. cbn [snd].
  pose proof (range_leftmost_list l rng r m t' E) as L.
  assert (W' : ranges_wf t').
  { apply ranges_wf_list. apply ranges_wf_list in W. rewrite L in W.
    cbn [disjoint_ascending] in W. tauto. }
  destruct (IH t' W') as (W2 & S2). split; [assumption |].
  intros y Hy. rewrite L. right. now apply S2.
Qed.

(** X25.  When [item_lru_shrink] returns, the cache is still coherent:
    the item tree and the ranges are in order, every key that a range
    covers was covered before and has the item it had (or none, as
    before), every dirty item is still cached, no item is new, and the
    count returned is the length of the lru capped at [INT_MAX]. *)
Theorem shrinker_keeps_covered_items :
  forall (turns : nat) (c : item_cache) (nr_to_scan n : Z) (c' : item_cache),
    bst (items c) -> ranges_wf (ranges c) ->
    item_lru_shrink turns c nr_to_scan = Ret (n, c') ->
    bst (items c') /\ ranges_wf (ranges c')
    /\ (forall k, covered (ranges c') k ->
                  covered (ranges c) k /\ item_at c' k = item_at c k)
    /\ (forall k x, item_at c k = Some x -> item_is_dirty x = true ->
                    item_at c' k = Some x)
    /\ (forall k x, item_at c' k = Some x -> item_at c k = Some x)
    /\ n = to_int (Z.min (lru_nr c') INT_MAX).
Proof.
  intros turns c nr n c' B W E. unfold item_lru_shrink in E.
  destruct (to_ulong nr =? 0).
  { injection E as <- <-. repeat split; auto. }
  destruct (lru_shrink_loop turns c (to_ulong nr) None) as [c1 | |] eqn:El;
    cbn [bind] in E; try discriminate.
  destruct (lru_shrink_loop_shrunk _ _ _ _ _ B W El) as (B1 & W1 & S1).
  injection E as <- <-.
  destruct (items c1) eqn:Ei.
  - destruct (erase_empty_ranges_sub (range_size (ranges c1)) (ranges c1) W1)
      as (W2 & Sub).
    cbn [items ranges set_ranges lru_nr]. rewrite Ei.
    split; [exact I |]. split; [assumption |].
    destruct S1 as (S11 & S12 & S13).
    assert (Hsame : forall k, item_at (set_ranges c1
                      (erase_empty_ranges (range_size (ranges c1))
                         (ranges c1))) k = item_at c1 k) by reflexivity.
    split; [| split; [| split; [| reflexivity]]].
    + intros k (y & Hy & Hc). rewrite Hsame. apply S11.
      exists y. split; [now apply Sub | assumption].
    + intros k x Hx Hd. rewrite Hsame. now apply S12.
    + intros k x. rewrite Hsame. apply S13.
  - rewrite <- Ei in B1. destruct S1 as (S11 & S12 & S13).
    repeat (split; [assumption |]).
    reflexivity.
Qed.

(** ** Which calls keep the ranges in order *)

Lemma ordered_same c c' : ranges c' = ranges c -> ordered c -> ordered c'.
Proof. unfold ordered. now intros ->. Qed.

Lemma ordered_mark c k : ordered c -> ordered (mark_item_dirty c k).
Proof. apply ordered_same, ranges_mark. Qed.

Lemma ordered_clear c k : ordered c -> ordered (clear_item_dirty c k).
Proof. apply ordered_same, ranges_clear. Qed.

Lemma ordered_unlink c k : ordered c -> ordered (unlink_item c k).
Proof. apply ordered_same, ranges_unlink. Qed.

Lemma ordered_delete c k : ordered c -> ordered (delete_item c k).
Proof. apply ordered_same, ranges_delete_item. Qed.

Lemma ordered_insert c ins lo cp ret c' ins' :
  ordered c -> insert_item c ins lo cp = Ret (ret, c', ins') -> ordered c'.
Proof.
  intros T E. eapply ordered_same; [| exact T].
  exact (ranges_insert_loop _ _ _ _ _ _ _ _ E).
Qed.

Lemma ordered_insert_batch_items batch :
  forall c c', ordered c -> insert_batch_items c batch = Ret c' -> ordered c'.
Proof.
  induction batch as [| it rest IH]; intros c c' T; cbn [insert_batch_items].
  - intros [= <-]; assumption.
  - destruct (insert_item c (set_persistent it true) false true)
      as [[[ret c1] ins1] | |] eqn:Ei; try discriminate.
    apply IH. exact (ordered_insert _ _ _ _ _ _ _ T Ei).
Qed.

Lemma ordered_insert_batch c batch s e mem ret c' :
  ordered c ->
  scoutfs_item_insert_batch c batch s e mem = Ret (ret, c') -> ordered c'.
Proof.
  intros T. unfold scoutfs_item_insert_batch. rewrite compare_gtb.
  destruct (Z.ltb_spec e s) as [| Hse]; [intros [= <- <-]; assumption |].
  destruct mem; cbn [negb]; [| intros [= <- <-]; assumption].
  destruct (insert_range_total (ranges c) (mk_range s e) T Hse)
    as (t & -> & Wt & _).
  destruct (insert_batch_items (set_ranges c t) batch) as [c1 | |] eqn:Eb;
    try discriminate.
  intros [= <- <-].
  eapply ordered_insert_batch_items; [| eassumption]. exact Wt.
Qed.

Lemma ordered_shrink_loop turns c nr first_moved c' :
  bst (items c) -> ordered c ->
  lru_shrink_loop turns c nr first_moved = Ret c' -> ordered c'.
Proof.
  intros B T E.
  exact (proj1 (proj2 (lru_shrink_loop_shrunk _ _ _ _ _ B T E))).
Qed.

Section OrderedOperations.

Variable SCOUTFS_MAX_VAL_SIZE : Z.

Lemma ordered_read_items c f ret c' :
  ordered c ->
  scoutfs_manifest_read_items SCOUTFS_MAX_VAL_SIZE c f = Ret (ret, c') ->
  ordered c'.
Proof.
  intros T. unfold scoutfs_manifest_read_items.
  destruct (fill_range f) as [[s e] |]; [| intros [= <- <-]; assumption].
  destruct (scoutfs_item_insert_batch _ _ _ _ _) as [[r c1] | |] eqn:Eb;
    try discriminate.
  intros [= <- <-]. eapply ordered_insert_batch; eassumption.
Qed.

Lemma ordered_read_through (A : Type)
    (body : item_cache -> outcome (Z * item_cache * A)) :
  (forall c r c1 a, ordered c -> body c = Ret (r, c1, a) -> ordered c1) ->
  forall fills c ret c' a,
    ordered c ->
    read_through SCOUTFS_MAX_VAL_SIZE body c fills = Ret (ret, c', a) ->
    ordered c'.
Proof.
  intros Hbody fills.
  induction fills as [| f fills IH]; intros c ret c' a T;
    cbn [read_through];
    destruct (body c) as [[[r c1] a1] | |] eqn:Eb; try discriminate;
    pose proof (Hbody _ _ _ _ T Eb) as T1;
    destruct (r =? - ENODATA); try discriminate;
    try (intros [= <- <- <-]; assumption).
  destruct (scoutfs_manifest_read_items _ c1 f) as [[r2 c2] | |] eqn:Er;
    try discriminate.
  pose proof (ordered_read_items _ _ _ _ T1 Er) as T2.
  destruct (r2 =? 0); [now apply IH | intros [= <- <- <-]; assumption].
Qed.

Lemma ordered_item_referenced c it :
  ordered c -> ordered (item_referenced c it).
Proof. intros T. unfold item_referenced. destruct (_ =? _); exact T. Qed.

Lemma ordered_lookup_locked k v c ret c' out :
  ordered c -> lookup_locked k v c = Ret (ret, c', out) -> ordered c'.
Proof.
  intros T. unfold lookup_locked.
  destruct (find_item (items c) k) as [it |].
  - destruct v as [kv |].
    + destruct (copy_item_val (Some kv) it) as [r o].
      intros [= <- <- <-]. now apply ordered_item_referenced.
    + intros [= <- <- <-]. now apply ordered_item_referenced.
  - destruct (range_cached c k); intros [= <- <- <-]; exact T.
Qed.

Lemma ordered_next_loop turns :
  forall c k pos last v fills ret c' k' out,
    ordered c ->
    next_loop SCOUTFS_MAX_VAL_SIZE turns c k pos last v fills
    = Ret (ret, c', k', out) ->
    ordered c'.
Proof.
  induction turns as [| turns IH]; intros c k pos last v fills ret c' k' out
    T; cbn [next_loop]; [discriminate |].
  destruct (check_range c pos) as [[cached rs] range_end].
  destruct cached; cbn [negb].
  - destruct (item_for_next (items c) pos range_end last) as [it |].
    + destruct v as [kv |].
      * destruct (copy_item_val (Some kv) it) as [r o].
        intros [= <- <- <- <-]. now apply ordered_item_referenced.
      * intros [= <- <- <- <-]. exact T.
    + destruct (_ <? 0); [now apply IH |].
      intros [= <- <- <- <-]. exact T.
  - destruct fills as [| f fills]; [discriminate |].
    destruct (scoutfs_manifest_read_items _ c f) as [[r2 c2] | |] eqn:Er;
      try discriminate.
    pose proof (ordered_read_items _ _ _ _ T Er) as T2.
    destruct (r2 =? 0); [now apply IH |].
    intros [= <- <- <- <-]. exact T2.
Qed.

Lemma ordered_prev_loop turns :
  forall c k pos first v fills ret c' k' out,
    ordered c ->
    prev_loop SCOUTFS_MAX_VAL_SIZE turns c k pos first v fills
    = Ret (ret, c', k', out) ->
    ordered c'.
Proof.
  induction turns as [| turns IH]; intros c k pos first v fills ret c' k' out
    T; cbn [prev_loop]; [discriminate |].
  destruct (check_range c pos) as [[cached range_start] re].
  destruct cached; cbn [negb].
  - destruct (item_for_prev (items c) pos range_start first) as [it |].
    + destruct v as [kv |].
      * destruct (copy_item_val (Some kv) it) as [r o].
        intros [= <- <- <- <-]. now apply ordered_item_referenced.
      * intros [= <- <- <- <-]. exact T.
    + destruct (_ >? 0); [now apply IH |].
      intros [= <- <- <- <-]. exact T.
  - destruct fills as [| f fills]; [discriminate |].
    destruct (scoutfs_manifest_read_items _ c f) as [[r2 c2] | |] eqn:Er;
      try discriminate.
    pose proof (ordered_read_items _ _ _ _ T Er) as T2.
    destruct (r2 =? 0); [now apply IH |].
    intros [= <- <- <- <-]. exact T2.
Qed.

Lemma ordered_create_locked item c ret c' u :
  ordered c -> create_locked item c = Ret (ret, c', u) -> ordered c'.
Proof.
  intros T. unfold create_locked.
  destruct (range_cached c (key item)); cbn [negb];
    [| intros [= <- <- <-]; exact T].
  destruct (insert_item c item false false) as [[[r c1] ins1] | |] eqn:Ei;
    try discriminate.
  pose proof (ordered_insert _ _ _ _ _ _ _ T Ei) as T1.
  destruct (r =? 0); intros [= <- <- <-]; [now apply ordered_mark | exact T1].
Qed.

Lemma ordered_dirty_locked k c ret c' u :
  ordered c -> dirty_locked k c = Ret (ret, c', u) -> ordered c'.
Proof.
  intros T. unfold dirty_locked.
  destruct (find_item (items c) k).
  - intros [= <- <- <-]. now apply ordered_mark.
  - destruct (range_cached c k); intros [= <- <- <-]; exact T.
Qed.

Lemma ordered_update_locked k v c ret c' u :
  ordered c -> update_locked k v c = Ret (ret, c', u) -> ordered c'.
Proof.
  intros T. unfold update_locked.
  destruct (find_item (items c) k).
  - intros [= <- <- <-]. apply ordered_mark.
    exact (ordered_clear c k T).
  - destruct (range_cached c k); intros [= <- <- <-]; exact T.
Qed.

Lemma ordered_delete_locked k c ret c' u :
  ordered c -> delete_locked k c = Ret (ret, c', u) -> ordered c'.
Proof.
  intros T. unfold delete_locked.
  destruct (find_item (items c) k).
  - intros [= <- <- <-]. now apply ordered_delete.
  - destruct (range_cached c k); intros [= <- <- <-]; exact T.
Qed.

Lemma ordered_delete_save_locked k saved c ret c' out :
  ordered c -> delete_save_locked k saved c = Ret (ret, c', out) ->
  ordered c'.
Proof.
  intros T. unfold delete_save_locked.
  destruct (find_item (items c) k) as [it |].
  2: { destruct (range_cached c k); intros [= <- <- <-]; exact T. }
  match goal with
  | |- context [insert_item ?c1 ?del false false] =>
      destruct (insert_item c1 del false false) as [[[r c2] ins2] | |] eqn:Ei;
        try discriminate;
        assert (T2 : ordered c2)
          by (eapply ordered_insert; [| exact Ei]; now apply ordered_unlink)
  end.
  destruct (r =? 0); [| discriminate].
  intros [= <- <- <-]. now apply ordered_delete.
Qed.

Lemma ordered_restore_items saved :
  forall c c', ordered c -> restore_items c saved = Ret c' -> ordered c'.
Proof.
  induction saved as [| it rest IH]; intros c c' T; cbn [restore_items].
  - intros [= <-]; assumption.
  - match goal with
    | |- context [insert_item ?c1 ?item false false] =>
        assert (T1 : ordered c1)
          by (destruct (find_item _ _);
              [unfold erase_item; now apply ordered_unlink | exact T]);
        destruct (insert_item c1 item false false)
          as [[[ret c2] ins2] | |] eqn:Ei; try discriminate;
        pose proof (ordered_insert _ _ _ _ _ _ _ T1 Ei) as T2
    end.
    apply IH. destruct ((ret =? 0) && _); [now apply ordered_mark | exact T2].
Qed.

Lemma ordered_update_dirty c k v c' :
  ordered c -> scoutfs_item_update_dirty c k v = Ret c' -> ordered c'.
Proof.
  intros T. unfold scoutfs_item_update_dirty.
  destruct (find_item (items c) k) as [it |]; [| discriminate].
  destruct (negb (item_is_dirty it) || _); [discriminate |].
  intros [= <-]. exact T.
Qed.

Lemma ordered_dirty_seg_loop turns :
  forall c seg item c' seg',
    ordered c -> dirty_seg_loop turns c seg item = Ret (c', seg') ->
    ordered c'.
Proof.
  induction turns as [| turns IH]; intros c seg item c' seg' T;
    cbn [dirty_seg_loop]; destruct item as [it |];
    try discriminate; try (intros [= <- <-]; exact T).
  destruct (scoutfs_seg_append_item _ _ _ _) as [seg1 |]; [| discriminate].
  apply IH.
  assert (T2 : ordered (clear_item_dirty c (key it)))
    by now apply ordered_clear.
  destruct (deletion it); [now apply ordered_unlink | exact T2].
Qed.

Lemma ordered_invalidate_items turns :
  forall c item e count c' count',
    ordered c -> invalidate_items turns c item e count = (c', count') ->
    ordered c'.
Proof.
  induction turns as [| turns IH]; intros c item e count c' count' T;
    cbn [invalidate_items]; destruct item as [it |];
    try (intros [= <- <-]; exact T).
  destruct (_ <=? 0); [| intros [= <- <-]; exact T].
  apply IH. unfold erase_item. now apply ordered_unlink.
Qed.

Lemma run_op_ordered op c c' :
  interval_ok op -> bst (items c) -> ordered c ->
  run_op SCOUTFS_MAX_VAL_SIZE c op = Ret c' -> ordered c'.
Proof.
  intros Hop B T.
  destruct op; cbn [run_op interval_ok] in *.
  - (* lookup *)
    unfold scoutfs_item_lookup.
    destruct (negb _); cbn [cache_of]; [intros [= <-]; exact T |].
    destruct (read_through _ _ _ _) as [[[r c1] a] | |] eqn:E;
      cbn [cache_of]; try discriminate.
    intros [= <-]; cbn [fst snd].
    eapply (ordered_read_through _ (lookup_locked k v)); eauto.
    intros; eapply ordered_lookup_locked; eauto.
  - (* next *)
    unfold scoutfs_item_next.
    destruct (_ >? 0); cbn [cache_of]; [intros [= <-]; exact T |].
    destruct (negb _); cbn [cache_of]; [intros [= <-]; exact T |].
    destruct (next_loop _ _ _ _ _ _ _ _) as [[[[r c1] k1] a] | |] eqn:E;
      cbn [cache_of]; try discriminate.
    intros [= <-]; cbn [fst snd]. eapply ordered_next_loop; eauto.
  - (* prev *)
    unfold scoutfs_item_prev.
    destruct (_ <? 0); cbn [cache_of]; [intros [= <-]; exact T |].
    destruct (negb _); cbn [cache_of]; [intros [= <-]; exact T |].
    destruct (prev_loop _ _ _ _ _ _ _ _) as [[[[r c1] k1] a] | |] eqn:E;
      cbn [cache_of]; try discriminate.
    intros [= <-]; cbn [fst snd]. eapply ordered_prev_loop; eauto.
  - (* create *)
    unfold scoutfs_item_create.
    destruct (invalid_key_val _ k v); cbn [orb cache_of];
      [intros [= <-]; exact T |].
    destruct (negb (lock_coverage _ _ _)); cbn [cache_of];
      [intros [= <-]; exact T |].
    destruct mem; cbn [negb cache_of]; [| intros [= <-]; exact T].
    destruct (read_through _ _ _ _) as [[[r c1] a] | |] eqn:E;
      cbn [cache_of]; try discriminate.
    intros [= <-]; cbn [fst snd].
    eapply (ordered_read_through _ (create_locked (alloc_item k v))); eauto.
    intros; eapply ordered_create_locked; eauto.
  - (* create_force *)
    unfold scoutfs_item_create_force.
    destruct (invalid_key_val _ k v); cbn [cache_of];
      [intros [= <-]; exact T |].
    destruct (negb _); cbn [cache_of]; [intros [= <-]; exact T |].
    destruct mem; cbn [negb cache_of]; [| intros [= <-]; exact T].
    destruct (insert_item _ _ _ _) as [[[r c1] i1] | |] eqn:Ei;
      cbn [cache_of]; try discriminate.
    pose proof (ordered_insert _ _ _ _ _ _ _ T Ei) as T1.
    destruct (r =? 0); cbn [cache_of]; [| discriminate].
    intros [= <-]; cbn [snd]. now apply ordered_mark.
  - (* insert_batch *)
    destruct (scoutfs_item_insert_batch _ _ _ _ _) as [[r c1] | |] eqn:E;
      cbn [cache_of]; try discriminate.
    intros [= <-]; cbn [snd]. eapply ordered_insert_batch; eassumption.
  - (* dirty *)
    unfold scoutfs_item_dirty.
    destruct (negb _); cbn [cache_of]; [intros [= <-]; exact T |].
    destruct (read_through _ _ _ _) as [[[r c1] a] | |] eqn:E;
      cbn [cache_of]; try discriminate.
    intros [= <-]; cbn [fst snd].
    eapply (ordered_read_through _ (dirty_locked k)); eauto.
    intros; eapply ordered_dirty_locked; eauto.
  - (* update *)
    unfold scoutfs_item_update.
    destruct (invalid_key_val _ k v); cbn [cache_of];
      [intros [= <-]; exact T |].
    destruct (negb _); cbn [cache_of]; [intros [= <-]; exact T |].
    destruct (match v with Some _ => negb mem | None => false end);
      cbn [cache_of]; [intros [= <-]; exact T |].
    destruct (read_through _ _ _ _) as [[[r c1] a] | |] eqn:E;
      cbn [cache_of]; try discriminate.
    intros [= <-]; cbn [fst snd].
    eapply (ordered_read_through _ (update_locked k v)); eauto.
    intros; eapply ordered_update_locked; eauto.
  - (* delete *)
    unfold scoutfs_item_delete.
    destruct (negb _); cbn [cache_of]; [intros [= <-]; exact T |].
    destruct (read_through _ _ _ _) as [[[r c1] a] | |] eqn:E;
      cbn [cache_of]; try discriminate.
    intros [= <-]; cbn [fst snd].
    eapply (ordered_read_through _ (delete_locked k)); eauto.
    intros; eapply ordered_delete_locked; eauto.
  - (* delete_force *)
    unfold scoutfs_item_delete_force.
    destruct (negb _); cbn [cache_of]; [intros [= <-]; exact T |].
    destruct mem; cbn [negb cache_of]; [| intros [= <-]; exact T].
    destruct (insert_item _ _ _ _) as [[[r c1] i1] | |] eqn:Ei;
      cbn [cache_of]; try discriminate.
    pose proof (ordered_insert _ _ _ _ _ _ _ T Ei) as T1.
    destruct (r =? 0); cbn [cache_of]; [| discriminate].
    intros [= <-]; cbn [snd]. apply ordered_delete. now apply ordered_mark.
  - (* delete_save *)
    unfold scoutfs_item_delete_save.
    destruct (negb _); cbn [cache_of]; [intros [= <-]; exact T |].
    destruct mem; cbn [negb cache_of]; [| intros [= <-]; exact T].
    destruct (read_through _ _ _ _) as [[[r c1] a] | |] eqn:E;
      cbn [cache_of]; try discriminate.
    intros [= <-]; cbn [fst snd].
    eapply (ordered_read_through _ (delete_save_locked k saved)); eauto.
    intros; eapply ordered_delete_save_locked; eauto.
  - (* restore *)
    unfold scoutfs_item_restore.
    destruct saved as [| s0 saved]; cbn [cache_of]; [intros [= <-]; exact T |].
    destruct (forallb _ _); cbn [cache_of]; [| intros [= <-]; exact T].
    destruct (restore_items c (s0 :: saved)) as [c1 | |] eqn:E;
      cbn [cache_of]; try discriminate.
    intros [= <-]; cbn [snd]. eapply ordered_restore_items; eauto.
  - (* delete_dirty *)
    intros [= <-]. unfold scoutfs_item_delete_dirty.
    destruct (find_item _ _); [now apply ordered_delete | exact T].
  - (* update_dirty *)
    apply ordered_update_dirty; exact T.
  - (* dirty_seg *)
    unfold scoutfs_item_dirty_seg.
    destruct (dirty_seg_loop _ _ _ _) as [[c1 seg1] | |] eqn:E;
      cbn [cache_of]; try discriminate.
    intros [= <-]; cbn [fst snd]. eapply ordered_dirty_seg_loop; eauto.
  - (* invalidate *)
    unfold scoutfs_item_invalidate.
    destruct mem; cbn [negb cache_of]; [| intros [= <-]; exact T].
    destruct (invalidate_items _ _ _ _ _) as [c1 count] eqn:E.
    pose proof (ordered_invalidate_items _ _ _ _ _ _ _ T E) as T1.
    destruct (remove_range_total (ranges c1) (mk_range s e) T1 Hop)
      as (t & -> & Wt & _).
    cbn [cache_of]. intros [= <-]; cbn [snd]. exact Wt.
  - (* shrink *)
    unfold item_lru_shrink.
    destruct (_ =? 0); cbn [cache_of]; [intros [= <-]; exact T |].
    destruct (lru_shrink_loop _ _ _ _) as [c1 | |] eqn:E; cbn [bind cache_of];
      try discriminate.
    pose proof (ordered_shrink_loop _ _ _ _ _ B T E) as T1.
    intros [= <-]; cbn [snd].
    destruct (items c1); [| exact T1].
    exact (proj1 (erase_empty_ranges_sub _ _ T1)).
Qed.

End OrderedOperations.

(** X26.  Every call keeps the cache in order.  In a well-formed cache
    whose cached ranges are non-empty, apart from each other and in
    order in their tree, any call of item.c that returns leaves a
    well-formed cache whose ranges are so again; for
    [scoutfs_item_invalidate] this is for a start key that is not
    after the end key. *)
Theorem calls_keep_ranges_in_order :
  forall (SCOUTFS_MAX_VAL_SIZE : Z) (op : cache_op) (c c' : item_cache),
    SCOUTFS_MAX_VAL_SIZE <= INT_MAX ->
    op_ok op ->
    match op with OpInvalidate s e _ => s <= e | _ => True end ->
    cache_wf c ->
    ranges_wf (ranges c) ->
    run_op SCOUTFS_MAX_VAL_SIZE c op = Ret c' ->
    cache_wf c' /\ ranges_wf (ranges c').
Proof.
  intros M op c c' HM Hop Hint W R E. split.
  - apply good_any.
    apply (run_op_good I_any any_list_invariant M HM op c c' Hop);
      [now apply good_any | exact E].
  - exact (run_op_ordered M op c c' Hint (proj1 W) R E).
Qed.

(** ** A lookup that misses *)

(** X27.  A lookup that misses reads through.  When the key has no
    live item and no cached range holds it, [scoutfs_item_lookup] calls
    the reader once; if the reader returns 0 with items and a range
    that holds the key, the answer is the one of the lookup under the
    lock on the cache after [scoutfs_item_insert_batch] of what was
    read.  That cache covers the key, and at the key it has what was
    there before or else the first item read for the key, persistent;
    the reader is not called again. *)
Theorem lookup_miss_reads_through :
  forall (SCOUTFS_MAX_VAL_SIZE : Z) (c : item_cache) (k : scoutfs_key)
         (v : option kvec) (lock : scoutfs_lock) (f : fill)
         (rest : list fill) (s e : scoutfs_key),
    SCOUTFS_MAX_VAL_SIZE <= INT_MAX ->
    cache_wf c -> ranges_wf (ranges c) -> vec_ok v -> fill_ok f ->
    lock_coverage lock k SCOUTFS_LOCK_READ = true ->
    find_item (items c) k = None -> range_cached c k = false ->
    fill_ret f = 0 -> fill_range f = Some (s, e) -> s <= k <= e ->
    exists c1,
      scoutfs_item_insert_batch c (fill_batch SCOUTFS_MAX_VAL_SIZE f) s e true
      = Ret (0, c1)
      /\ scoutfs_item_lookup SCOUTFS_MAX_VAL_SIZE c k v lock (f :: rest)
         = lookup_locked k v c1
      /\ range_cached c1 k = true
      /\ item_at c1 k
         = match item_at c k with
           | Some x => Some x
           | None =>
               option_map (fun it => set_persistent it true)
                 (find (fun it => key it =? k)
                       (fill_batch SCOUTFS_MAX_VAL_SIZE f))
           end.
Proof.
  intros M c k v lock f rest s e HM W R Hv Hf Hlock Hfind Hrc Hret Hrng Hk.
  destruct (insert_batch_spec c (fill_batch M f) s e (proj1 W) R ltac:(lia))
    as (c1 & Eb & B1 & W1 & C1 & A1 & _).
  { apply fill_batch_clean. constructor. }
  exists c1. split; [exact Eb |].
  assert (Hc1 : range_cached c1 k = true).
  { destruct (proj2 (C1 k) (or_intror Hk)) as (rng & Hin & Hc).
    exact (range_cached_true c1 k rng W1 Hin Hc). }
  assert (Wc1 : cache_wf c1).
  { apply good_any.
    apply (good_insert_batch I_any any_list_invariant c (fill_batch M f)
             s e true 0 c1); [| now apply good_any | exact Eb].
    apply fill_batch_enters; [exact HM | exact Hf | constructor]. }
  split; [| split; [exact Hc1 | exact (A1 k)]].
  unfold scoutfs_item_lookup. rewrite Hlock. cbn [negb].
  rewrite read_through_unfold.
  unfold lookup_locked at 1. rewrite Hfind, Hrc. rewrite Z.eqb_refl.
  unfold scoutfs_manifest_read_items. rewrite Hrng, Eb, Hret. cbn [Z.eqb].
  rewrite read_through_unfold.
  destruct (lookup_locked k v c1) as [[[r c2] out] | |] eqn:El;
    try reflexivity.
  destruct (Z.eqb_spec r (- ENODATA)) as [Hr | _]; [| reflexivity].
  destruct (lookup_locked_not_enodata k v c1 r c2 out Wc1 Hv El Hr)
    as (_ & _ & _ & Hn).
  rewrite Hc1 in Hn. discriminate.
Qed.

(** ** The further properties at sample inputs *)

Lemma cache_3_5_7_bst : bst (items cache_3_5_7).
Proof. cbn. repeat split; repeat constructor; lia. Defined.

Lemma cache_3_5_7_ranges : ranges_wf (ranges cache_3_5_7).
Proof. cbn. repeat split; repeat constructor; lia. Defined.

Lemma cache_clean_5_ranges : ranges_wf (ranges cache_clean_5).
Proof. cbn. repeat split; repeat constructor; lia. Defined.

Lemma sample_value_ok : vec_ok (Some value_de).
Proof. cbn. lia. Defined.

Lemma next_returns_first_live_witness :
  bst (items cache_5_7)
  /\ ranges_wf (ranges cache_5_7)
  /\ In (mk_range 0 10) (range_list (ranges cache_5_7))
  /\ covers (mk_range 0 10) 4
  /\ lock_coverage read_lock 4 SCOUTFS_LOCK_READ = true
  /\ 4 <= 9
  /\ Z.min 9 (lock_end read_lock) <= end_ (mk_range 0 10)
  /\ lru_list cache_5_7 = [5; 7]
  /\ scoutfs_item_next sample_max_val_size 1 cache_5_7 4 9 (Some value_de)
                       read_lock []
     = Ret (2, set_lru cache_5_7 [7; 5] 2, 5,
            Some (mk_kvec ["a"%byte; "b"%byte] 2)).
Proof.
  assert (B : bst (items cache_5_7))
    by (cbn; repeat split; repeat constructor; lia).
  assert (R : ranges_wf (ranges cache_5_7))
    by (cbn; repeat split; repeat constructor; lia).
  assert (H1 : In (mk_range 0 10) (range_list (ranges cache_5_7)))
    by (left; reflexivity).
  assert (H2 : covers (mk_range 0 10) 4) by (unfold covers; cbn; lia).
  assert (H3 : 4 <= 9) by lia.
  assert (H4 : Z.min 9 (lock_end read_lock) <= end_ (mk_range 0 10))
    by (cbn; lia).
  split; [exact B |]. split; [exact R |].
  split; [exact H1 |]. split; [exact H2 |]. split; [reflexivity |].
  split; [exact H3 |]. split; [exact H4 |]. split; [reflexivity |].
  exact (next_returns_first_live sample_max_val_size 0 cache_5_7 4 9
           (Some value_de) read_lock [] (mk_range 0 10) B R
           H1 H2 eq_refl H3 H4).
Defined.

Lemma copy_keys_are_live_keys_from_witness :
  bst (items cache_3_5_7)
  /\ 0 <= 1 <= INT_MAX
  /\ scoutfs_item_copy_keys cache_3_5_7 4 1 = (1, [5]).
Proof.
  assert (H : 0 <= 1 <= INT_MAX) by (unfold INT_MAX; lia).
  split; [exact cache_3_5_7_bst |]. split; [exact H |].
  exact (copy_keys_are_live_keys_from cache_3_5_7 4 1 cache_3_5_7_bst H).
Defined.

Lemma lookup_exact_accepts_longer_values_witness :
  cache_wf cache_clean_5
  /\ In item_clean_5 (tree_items (items cache_clean_5))
  /\ key item_clean_5 = 5
  /\ deletion item_clean_5 = false
  /\ lock_coverage read_lock 5 SCOUTFS_LOCK_READ = true
  /\ 0 <= iov_len value_de
  /\ val_len item_clean_5 = 3
  /\ iov_len value_de = 2
  /\ scoutfs_item_lookup_exact sample_max_val_size cache_clean_5 5 value_de
                               read_lock []
     = Ret (0, item_referenced cache_clean_5 item_clean_5,
            snd (copy_item_val (Some value_de) item_clean_5)).
Proof.
  assert (H : 0 <= iov_len value_de) by (cbn; lia).
  split; [exact cache_clean_5_wf |]. split; [left; reflexivity |].
  split; [reflexivity |]. split; [reflexivity |]. split; [reflexivity |].
  split; [exact H |]. split; [reflexivity |]. split; [reflexivity |].
  exact (lookup_exact_accepts_longer_values sample_max_val_size cache_clean_5
           5 value_de read_lock [] item_clean_5 cache_clean_5_wf
           (or_introl eq_refl) eq_refl eq_refl eq_refl H).
Defined.

Lemma create_then_lookup_witness :
  sample_max_val_size <= INT_MAX
  /\ bst (items cache_clean_5)
  /\ vec_ok (Some value_de)
  /\ invalid_key_val sample_max_val_size 7 (Some value_de) = false
  /\ lock_coverage write_lock 7 SCOUTFS_LOCK_WRITE = true
  /\ range_cached cache_clean_5 7 = true
  /\ find_item (items cache_clean_5) 7 = None
  /\ exists c' p,
      scoutfs_item_create sample_max_val_size cache_clean_5 7
                          (Some value_de) write_lock true []
      = Ret (0, c', tt)
      /\ bst (items c')
      /\ item_at c' 7
         = Some (mk_item ITEM_DIRTY false p 7 (Some ["d"%byte; "e"%byte]) 2)
      /\ (walk_found (items cache_clean_5) 7 = None -> p = false)
      /\ Permutation (others c' 7) (others cache_clean_5 7)
      /\ ranges c' = ranges cache_clean_5
      /\ (forall b fills',
             vec_ok b ->
             scoutfs_item_lookup sample_max_val_size c' 7 b write_lock fills'
             = Ret (match b with
                    | Some kb => Z.min 2 (iov_len kb)
                    | None => 0
                    end, c',
                    match b with
                    | Some kb =>
                        Some (mk_kvec
                                (firstn (Z.to_nat (Z.min 2 (iov_len kb)))
                                        ["d"%byte; "e"%byte]
                                 ++ skipn (Z.to_nat (Z.min 2 (iov_len kb)))
                                          (iov_base kb))
                                (iov_len kb))
                    | None => None
                    end)).
Proof.
  split; [exact sample_max_val_size_fits |].
  split; [exact (proj1 cache_clean_5_wf) |].
  split; [exact sample_value_ok |]. split; [reflexivity |].
  split; [reflexivity |]. split; [reflexivity |]. split; [reflexivity |].
  exact (create_then_lookup sample_max_val_size cache_clean_5 7
           (Some value_de) write_lock [] sample_max_val_size_fits
           (proj1 cache_clean_5_wf) sample_value_ok eq_refl eq_refl eq_refl
           eq_refl).
Defined.

Lemma create_existing_is_eexist_witness :
  bst (items cache_clean_5)
  /\ In item_clean_5 (tree_items (items cache_clean_5))
  /\ key item_clean_5 = 5
  /\ deletion item_clean_5 = false
  /\ invalid_key_val sample_max_val_size 5 (Some value_de) = false
  /\ lock_coverage write_lock 5 SCOUTFS_LOCK_WRITE = true
  /\ range_cached cache_clean_5 5 = true
  /\ scoutfs_item_create sample_max_val_size cache_clean_5 5 (Some value_de)
                         write_lock true []
     = Ret (- EEXIST, cache_clean_5, tt).
Proof.
  split; [exact (proj1 cache_clean_5_wf) |]. split; [left; reflexivity |].
  split; [reflexivity |]. split; [reflexivity |]. split; [reflexivity |].
  split; [reflexivity |]. split; [reflexivity |].
  exact (create_existing_is_eexist sample_max_val_size cache_clean_5 5
           (Some value_de) write_lock [] item_clean_5
           (proj1 cache_clean_5_wf) (or_introl eq_refl) eq_refl eq_refl
           eq_refl eq_refl eq_refl).
Defined.

Lemma delete_then_lookup_witness :
  bst (items cache_clean_5)
  /\ In item_clean_5 (tree_items (items cache_clean_5))
  /\ key item_clean_5 = 5
  /\ deletion item_clean_5 = false
  /\ lock_coverage write_lock 5 SCOUTFS_LOCK_WRITE = true
  /\ exists c',
      scoutfs_item_delete sample_max_val_size cache_clean_5 5 write_lock []
      = Ret (0, c', tt)
      /\ bst (items c')
      /\ item_at c' 5 = Some (tombstone 5)
      /\ others c' 5 = others cache_clean_5 5
      /\ ranges c' = ranges cache_clean_5
      /\ find_item (items c') 5 = None
      /\ (range_cached cache_clean_5 5 = true ->
          forall b fills',
            scoutfs_item_lookup sample_max_val_size c' 5 b write_lock fills'
            = Ret (- ENOENT, c', b)).
Proof.
  split; [exact (proj1 cache_clean_5_wf) |]. split; [left; reflexivity |].
  split; [reflexivity |]. split; [reflexivity |]. split; [reflexivity |].
  exact (delete_then_lookup sample_max_val_size cache_clean_5 5 write_lock []
           item_clean_5 (proj1 cache_clean_5_wf) (or_introl eq_refl) eq_refl
           eq_refl eq_refl).
Defined.

Lemma update_then_lookup_witness :
  sample_max_val_size <= INT_MAX
  /\ bst (items cache_clean_5)
  /\ In item_clean_5 (tree_items (items cache_clean_5))
  /\ key item_clean_5 = 5
  /\ deletion item_clean_5 = false
  /\ vec_ok (Some value_de)
  /\ invalid_key_val sample_max_val_size 5 (Some value_de) = false
  /\ lock_coverage write_lock 5 SCOUTFS_LOCK_WRITE = true
  /\ exists c',
      scoutfs_item_update sample_max_val_size cache_clean_5 5 (Some value_de)
                          write_lock true []
      = Ret (0, c', tt)
      /\ bst (items c')
      /\ item_at c' 5
         = Some (mk_item ITEM_DIRTY false true 5 (Some ["d"%byte; "e"%byte]) 2)
      /\ others c' 5 = others cache_clean_5 5
      /\ ranges c' = ranges cache_clean_5
      /\ (forall b fills',
             vec_ok b ->
             scoutfs_item_lookup sample_max_val_size c' 5 b write_lock fills'
             = Ret (match b with
                    | Some kb => Z.min 2 (iov_len kb)
                    | None => 0
                    end, c',
                    match b with
                    | Some kb =>
                        Some (mk_kvec
                                (firstn (Z.to_nat (Z.min 2 (iov_len kb)))
                                        ["d"%byte; "e"%byte]
                                 ++ skipn (Z.to_nat (Z.min 2 (iov_len kb)))
                                          (iov_base kb))
                                (iov_len kb))
                    | None => None
                    end)).
Proof.
  split; [exact sample_max_val_size_fits |].
  split; [exact (proj1 cache_clean_5_wf) |]. split; [left; reflexivity |].
  split; [reflexivity |]. split; [reflexivity |].
  split; [exact sample_value_ok |]. split; [reflexivity |].
  split; [reflexivity |].
  exact (update_then_lookup sample_max_val_size cache_clean_5 5
           (Some value_de) write_lock [] item_clean_5
           sample_max_val_size_fits (proj1 cache_clean_5_wf)
           (or_introl eq_refl) eq_refl eq_refl sample_value_ok eq_refl
           eq_refl).
Defined.

Lemma create_force_then_lookup_witness :
  sample_max_val_size <= INT_MAX
  /\ bst (items cache_clean_5)
  /\ vec_ok (Some value_de)
  /\ invalid_key_val sample_max_val_size 7 (Some value_de) = false
  /\ lock_coverage write_only_lock 7 SCOUTFS_LOCK_WRITE_ONLY = true
  /\ exists c',
      scoutfs_item_create_force sample_max_val_size cache_clean_5 7
                                (Some value_de) write_only_lock true
      = Ret (0, c')
      /\ bst (items c')
      /\ item_at c' 7
         = Some (mk_item ITEM_DIRTY false true 7 (Some ["d"%byte; "e"%byte]) 2)
      /\ Permutation (others c' 7) (others cache_clean_5 7)
      /\ ranges c' = ranges cache_clean_5
      /\ (forall b fills',
             vec_ok b ->
             lock_coverage read_lock 7 SCOUTFS_LOCK_READ = true ->
             scoutfs_item_lookup sample_max_val_size c' 7 b read_lock fills'
             = Ret (match b with
                    | Some kb => Z.min 2 (iov_len kb)
                    | None => 0
                    end, c',
                    match b with
                    | Some kb =>
                        Some (mk_kvec
                                (firstn (Z.to_nat (Z.min 2 (iov_len kb)))
                                        ["d"%byte; "e"%byte]
                                 ++ skipn (Z.to_nat (Z.min 2 (iov_len kb)))
                                          (iov_base kb))
                                (iov_len kb))
                    | None => None
                    end)).
Proof.
  split; [exact sample_max_val_size_fits |].
  split; [exact (proj1 cache_clean_5_wf) |].
  split; [exact sample_value_ok |]. split; [reflexivity |].
  split; [reflexivity |].
  exact (create_force_then_lookup sample_max_val_size cache_clean_5 7
           (Some value_de) write_only_lock read_lock
           sample_max_val_size_fits (proj1 cache_clean_5_wf) sample_value_ok
           eq_refl eq_refl).
Defined.

Lemma delete_force_leaves_tombstone_witness :
  bst (items cache_clean_5)
  /\ lock_coverage write_only_lock 5 SCOUTFS_LOCK_WRITE_ONLY = true
  /\ exists c',
      scoutfs_item_delete_force cache_clean_5 5 write_only_lock true
      = Ret (0, c')
      /\ bst (items c')
      /\ item_at c' 5 = Some (tombstone 5)
      /\ Permutation (others c' 5) (others cache_clean_5 5)
      /\ ranges c' = ranges cache_clean_5
      /\ find_item (items c') 5 = None.
Proof.
  split; [exact (proj1 cache_clean_5_wf) |]. split; [reflexivity |].
  exact (delete_force_leaves_tombstone cache_clean_5 5 write_only_lock
           (proj1 cache_clean_5_wf) eq_refl).
Defined.

Lemma create_then_delete_restores_witness :
  sample_max_val_size <= INT_MAX
  /\ cache_wf cache_clean_5
  /\ vec_ok (Some value_de)
  /\ invalid_key_val sample_max_val_size 7 (Some value_de) = false
  /\ lock_coverage write_lock 7 SCOUTFS_LOCK_WRITE = true
  /\ range_cached cache_clean_5 7 = true
  /\ ~ In 7 (keys (items cache_clean_5))
  /\ exists c1 c2,
      scoutfs_item_create sample_max_val_size cache_clean_5 7
                          (Some value_de) write_lock true []
      = Ret (0, c1, tt)
      /\ nr_dirty_items c1 = nr_dirty_items cache_clean_5 + 1
      /\ dirty_val_bytes c1
         = dirty_val_bytes cache_clean_5
           + val_len (alloc_item 7 (Some value_de))
      /\ scoutfs_item_delete sample_max_val_size c1 7 write_lock []
         = Ret (0, c2, tt)
      /\ Permutation (contents (items c2)) (contents (items cache_clean_5))
      /\ ranges c2 = ranges cache_clean_5
      /\ nr_dirty_items c2 = nr_dirty_items cache_clean_5
      /\ dirty_val_bytes c2 = dirty_val_bytes cache_clean_5.
Proof.
  assert (H : ~ In 7 (keys (items cache_clean_5))) by (cbn; lia).
  split; [exact sample_max_val_size_fits |].
  split; [exact cache_clean_5_wf |]. split; [exact sample_value_ok |].
  split; [reflexivity |]. split; [reflexivity |]. split; [reflexivity |].
  split; [exact H |].
  exact (create_then_delete_restores sample_max_val_size cache_clean_5 7
           (Some value_de) write_lock [] [] sample_max_val_size_fits
           cache_clean_5_wf sample_value_ok eq_refl eq_refl eq_refl H).
Defined.

Lemma dirty_counts_once_witness :
  cache_wf cache_clean_5
  /\ In item_clean_5 (tree_items (items cache_clean_5))
  /\ key item_clean_5 = 5
  /\ deletion item_clean_5 = false
  /\ lock_coverage write_lock 5 SCOUTFS_LOCK_WRITE = true
  /\ exists c',
      scoutfs_item_dirty sample_max_val_size cache_clean_5 5 write_lock []
      = Ret (0, c', tt)
      /\ item_at c' 5 = Some (mark_dirty (strip item_clean_5))
      /\ others c' 5 = others cache_clean_5 5
      /\ ranges c' = ranges cache_clean_5
      /\ (item_is_dirty item_clean_5 = true -> c' = cache_clean_5)
      /\ (item_is_dirty item_clean_5 = false ->
          nr_dirty_items c' = nr_dirty_items cache_clean_5 + 1
          /\ dirty_val_bytes c'
             = dirty_val_bytes cache_clean_5 + val_len item_clean_5
          /\ ~ In 5 (lru_list c'))
      /\ (forall fills',
             scoutfs_item_dirty sample_max_val_size c' 5 write_lock fills'
             = Ret (0, c', tt)).
Proof.
  split; [exact cache_clean_5_wf |]. split; [left; reflexivity |].
  split; [reflexivity |]. split; [reflexivity |]. split; [reflexivity |].
  exact (dirty_counts_once sample_max_val_size cache_clean_5 5 write_lock []
           item_clean_5 cache_clean_5_wf (or_introl eq_refl) eq_refl eq_refl
           eq_refl).
Defined.

Lemma insert_range_covers_union_witness :
  ranges_wf (ranges cache_clean_5)
  /\ start (mk_range 5 20) <= end_ (mk_range 5 20)
  /\ exists t',
      insert_range (ranges cache_clean_5) (mk_range 5 20) = Ret t'
      /\ ranges_wf t'
      /\ forall k, covered t' k
                   <-> covered (ranges cache_clean_5) k
                       \/ covers (mk_range 5 20) k.
Proof.
  assert (H : start (mk_range 5 20) <= end_ (mk_range 5 20)) by (cbn; lia).
  split; [exact cache_clean_5_ranges |]. split; [exact H |].
  exact (insert_range_covers_union (ranges cache_clean_5) (mk_range 5 20)
           cache_clean_5_ranges H).
Defined.

Lemma remove_range_uncovers_witness :
  ranges_wf (ranges cache_clean_5)
  /\ start (mk_range 3 6) <= end_ (mk_range 3 6)
  /\ exists t',
      remove_range (ranges cache_clean_5) (mk_range 3 6) = Ret t'
      /\ ranges_wf t'
      /\ (forall k, covered t' k -> covered (ranges cache_clean_5) k)
      /\ (forall k, covers (mk_range 3 6) k -> ~ covered t' k)
      /\ (forall y, In y (range_list (ranges cache_clean_5)) ->
                    apart y (mk_range 3 6) -> In y (range_list t')).
Proof.
  assert (H : start (mk_range 3 6) <= end_ (mk_range 3 6)) by (cbn; lia).
  split; [exact cache_clean_5_ranges |]. split; [exact H |].
  exact (remove_range_uncovers (ranges cache_clean_5) (mk_range 3 6)
           cache_clean_5_ranges H).
Defined.

Lemma invalidate_empties_interval_witness :
  bst (items cache_3_5_7)
  /\ ranges_wf (ranges cache_3_5_7)
  /\ 4 <= 6
  /\ exists c',
      scoutfs_item_invalidate cache_3_5_7 4 6 true = Ret (1, c')
      /\ bst (items c')
      /\ (forall k, item_at c' k
                    = if (4 <=? k) && (k <=? 6) then None
                      else item_at cache_3_5_7 k)
      /\ ranges_wf (ranges c')
      /\ (forall k, covered (ranges c') k -> covered (ranges cache_3_5_7) k)
      /\ (forall k, 4 <= k <= 6 -> ~ covered (ranges c') k)
      /\ (forall y, In y (range_list (ranges cache_3_5_7)) ->
                    end_ y < 4 \/ 6 < start y ->
                    In y (range_list (ranges c'))).
Proof.
  assert (H : 4 <= 6) by lia.
  split; [exact cache_3_5_7_bst |]. split; [exact cache_3_5_7_ranges |].
  split; [exact H |].
  exact (invalidate_empties_interval cache_3_5_7 4 6 cache_3_5_7_bst
           cache_3_5_7_ranges H).
Defined.

Lemma insert_batch_fills_gaps_witness :
  bst (items cache_clean_5)
  /\ ranges_wf (ranges cache_clean_5)
  /\ 0 <= 20
  /\ Forall (fun it => dirty it = 0) [item_new_5; item_new_7]
  /\ exists c',
      scoutfs_item_insert_batch cache_clean_5 [item_new_5; item_new_7]
                                0 20 true
      = Ret (0, c')
      /\ bst (items c')
      /\ ranges_wf (ranges c')
      /\ (forall k, covered (ranges c') k
                    <-> covered (ranges cache_clean_5) k \/ 0 <= k <= 20)
      /\ (forall k, item_at c' k
                    = match item_at cache_clean_5 k with
                      | Some x => Some x
                      | None =>
                          option_map (fun it => set_persistent it true)
                            (find (fun it => key it =? k)
                                  [item_new_5; item_new_7])
                      end)
      /\ nr_dirty_items c' = nr_dirty_items cache_clean_5
      /\ dirty_val_bytes c' = dirty_val_bytes cache_clean_5.
Proof.
  assert (H : 0 <= 20) by lia.
  assert (F : Forall (fun it => dirty it = 0) [item_new_5; item_new_7])
    by (repeat constructor).
  split; [exact (proj1 cache_clean_5_wf) |].
  split; [exact cache_clean_5_ranges |]. split; [exact H |].
  split; [exact F |].
  exact (insert_batch_fills_gaps cache_clean_5 [item_new_5; item_new_7] 0 20
           (proj1 cache_clean_5_wf) cache_clean_5_ranges H F).
Defined.

Lemma insert_batch_then_lookup_enoent_witness :
  bst (items cache_clean_5)
  /\ ranges_wf (ranges cache_clean_5)
  /\ 0 <= 20
  /\ Forall (fun it => dirty it = 0) [item_new_5]
  /\ scoutfs_item_insert_batch cache_clean_5 [item_new_5] 0 20 true
     = Ret (0, cache_clean_5_to_20)
  /\ 0 <= 15 <= 20
  /\ item_at cache_clean_5 15 = None
  /\ find (fun it => key it =? 15) [item_new_5] = None
  /\ lock_coverage read_lock 15 SCOUTFS_LOCK_READ = true
  /\ scoutfs_item_lookup sample_max_val_size cache_clean_5_to_20 15
                         (Some value_de) read_lock []
     = Ret (- ENOENT, cache_clean_5_to_20, Some value_de).
Proof.
  assert (H : 0 <= 20) by lia.
  assert (F : Forall (fun it => dirty it = 0) [item_new_5])
    by (repeat constructor).
  assert (K : 0 <= 15 <= 20) by lia.
  split; [exact (proj1 cache_clean_5_wf) |].
  split; [exact cache_clean_5_ranges |]. split; [exact H |].
  split; [exact F |]. split; [reflexivity |]. split; [exact K |].
  split; [reflexivity |]. split; [reflexivity |]. split; [reflexivity |].
  exact (insert_batch_then_lookup_enoent sample_max_val_size cache_clean_5
           cache_clean_5_to_20 [item_new_5] 0 20 15 (Some value_de)
           read_lock [] (proj1 cache_clean_5_wf) cache_clean_5_ranges H F
           eq_refl K eq_refl eq_refl eq_refl).
Defined.

Lemma range_cached_is_overlap_witness :
  ranges_wf (ranges cache_clean_5)
  /\ 8 <= 15
  /\ (scoutfs_item_range_cached cache_clean_5 8 15 false = true
      <-> exists k, 8 <= k <= 15 /\ covered (ranges cache_clean_5) k).
Proof.
  assert (H : 8 <= 15) by lia.
  split; [exact cache_clean_5_ranges |]. split; [exact H |].
  exact (range_cached_is_overlap cache_clean_5 8 15 cache_clean_5_ranges H).
Defined.

Lemma copy_range_keys_are_ranges_from_witness :
  ranges_wf (ranges cache_clean_5)
  /\ 0 <= 5 <= INT_MAX - 2
  /\ scoutfs_item_copy_range_keys cache_clean_5 3 5 = (2, [0; 10]).
Proof.
  assert (H : 0 <= 5 <= INT_MAX - 2) by (unfold INT_MAX; lia).
  split; [exact cache_clean_5_ranges |]. split; [exact H |].
  exact (copy_range_keys_are_ranges_from cache_clean_5 3 5
           cache_clean_5_ranges H).
Defined.

Lemma update_dirty_in_place_witness :
  bst (items cache_dirty_5)
  /\ In item_dirty_5 (tree_items (items cache_dirty_5))
  /\ key item_dirty_5 = 5
  /\ deletion item_dirty_5 = false
  /\ item_is_dirty item_dirty_5 = true
  /\ len_ok item_dirty_5
  /\ 0 <= iov_len value_de <= val_len item_dirty_5
  /\ exists c',
      scoutfs_item_update_dirty cache_dirty_5 5 (Some value_de) = Ret c'
      /\ bst (items c')
      /\ item_at c' 5
         = Some (mk_item 1 false true 5
                         (Some ["d"%byte; "e"%byte; "c"%byte]) 2)
      /\ others c' 5 = others cache_dirty_5 5
      /\ ranges c' = ranges cache_dirty_5
      /\ nr_dirty_items c' = nr_dirty_items cache_dirty_5
      /\ dirty_val_bytes c' = dirty_val_bytes cache_dirty_5 - (3 - 2).
Proof.
  assert (L : len_ok item_dirty_5) by (unfold len_ok, INT_MAX; cbn; lia).
  assert (H : 0 <= iov_len value_de <= val_len item_dirty_5) by (cbn; lia).
  split; [exact (proj1 cache_dirty_5_wf) |]. split; [left; reflexivity |].
  split; [reflexivity |]. split; [reflexivity |]. split; [reflexivity |].
  split; [exact L |]. split; [exact H |].
  exact (update_dirty_in_place cache_dirty_5 5 (Some value_de) item_dirty_5
           (proj1 cache_dirty_5_wf) (or_introl eq_refl) eq_refl eq_refl
           eq_refl L H).
Defined.

Lemma cache_3_5_7_wf : cache_wf cache_3_5_7.
Proof.
  split; [exact cache_3_5_7_bst |].
  cbn. repeat constructor; unfold INT_MAX; cbn; lia.
Defined.

Lemma cache_3_5_7_bits : bits_ok (items cache_3_5_7).
Proof. cbn. repeat split. Defined.

Lemma cache_deleted_3_reached :
  (c <- run_op sample_max_val_size scoutfs_item_setup
          (OpInsertBatch [(5, Some value_abc); (3, Some value_de);
                          (7, Some value_de)] 0 10 true) ;;
   c1 <- run_op sample_max_val_size c (OpDelete 3 write_lock []) ;;
   run_op sample_max_val_size c1 (OpDirty 7 write_lock []))
  = Ret cache_deleted_3.
Proof. reflexivity. Qed.

Lemma cache_deleted_3_wf : cache_wf cache_deleted_3.
Proof.
  split; cbn; [repeat split; repeat constructor; lia |].
  repeat constructor; unfold len_ok, INT_MAX; cbn; lia.
Defined.

Lemma cache_deleted_3_bits : bits_ok (items cache_deleted_3).
Proof. cbn. repeat split. Defined.

Lemma flush_writes_dirty_items_witness :
  cache_wf cache_deleted_3
  /\ bits_ok (items cache_deleted_3)
  /\ (length (dirty_contents (items cache_deleted_3))
      <= seg_room (mk_segment [] 10))%nat
  /\ scoutfs_item_dirty_seg_rebalanced [[mk_rotation [] true]]
                                       cache_deleted_3 (mk_segment [] 10)
     = Ret (0, cache_flushed_5_7,
            mk_segment [mk_seg_item 3 [] 1;
                        mk_seg_item 7 ["d"%byte; "e"%byte] 0] 8)
  /\ scoutfs_item_dirty_seg_rebalanced [] cache_deleted_3 (mk_segment [] 10)
     = scoutfs_item_dirty_seg cache_deleted_3 (mk_segment [] 10)
  /\ exists c',
      scoutfs_item_dirty_seg_rebalanced [[mk_rotation [] true]]
                                        cache_deleted_3 (mk_segment [] 10)
      = Ret (0, c',
             mk_segment [mk_seg_item 3 [] 1;
                         mk_seg_item 7 ["d"%byte; "e"%byte] 0] 8)
      /\ bst (items c')
      /\ bits_ok (items c')
      /\ contents (items c')
         = [mk_item 0 false true 5 (Some ["a"%byte; "b"%byte; "c"%byte]) 3;
            mk_item 0 false true 7 (Some ["d"%byte; "e"%byte]) 2]
      /\ dirty_contents (items c') = []
      /\ ranges c' = ranges cache_deleted_3
      /\ nr_dirty_items c' = 2 - 2
      /\ dirty_val_bytes c' = 2 - 2
      /\ (forall moves2 seg2,
             scoutfs_item_dirty_seg_rebalanced moves2 c' seg2
             = Ret (0, c', seg2)).
Proof.
  assert (H : (length (dirty_contents (items cache_deleted_3))
               <= seg_room (mk_segment [] 10))%nat) by (cbn; lia).
  split; [exact cache_deleted_3_wf |].
  split; [exact cache_deleted_3_bits |].
  split; [exact H |]. split; [reflexivity |].
  exact (flush_writes_dirty_items [[mk_rotation [] true]] cache_deleted_3
           (mk_segment [] 10) cache_deleted_3_wf cache_deleted_3_bits H).
Defined.

Lemma rotations_keep_subtree_bits_witness :
  bits_ok (items cache_3_5_7)
  /\ rebalance [mk_rotation [] false] (items cache_3_5_7)
     = INode INil
             (mk_item 1 false false 3 (Some ["d"%byte; "e"%byte]) 2)
             (INode INil
                (mk_item 0 false true 5
                         (Some ["a"%byte; "b"%byte; "c"%byte]) 3)
                (INode INil
                   (mk_item 0 false true 7 (Some ["d"%byte; "e"%byte]) 2)
                   INil))
  /\ bits_ok (rebalance [mk_rotation [] false] (items cache_3_5_7))
  /\ contents (rebalance [mk_rotation [] false] (items cache_3_5_7))
     = contents (items cache_3_5_7)
  /\ (bst (items cache_3_5_7) ->
      bst (rebalance [mk_rotation [] false] (items cache_3_5_7)))
  /\ (forall k,
         (forall x, walk_found (items cache_3_5_7) k = Some x ->
                    item_is_dirty x = false) ->
         bits_ok (rebalance [mk_rotation [] false]
                    (fst (rb_erase_augmented (items cache_3_5_7) k))))
  /\ (forall ins t',
         dirty ins = 0 ->
         insert_descend (items cache_3_5_7) ins = Linked t' ->
         bits_ok (rebalance [mk_rotation [] false] t')).
Proof.
  split; [exact cache_3_5_7_bits |]. split; [reflexivity |].
  exact (rotations_keep_subtree_bits [mk_rotation [] false]
           (items cache_3_5_7) cache_3_5_7_bits).
Defined.

Lemma prev_returns_last_live_witness :
  bst (items cache_3_5_7)
  /\ ranges_wf (ranges cache_3_5_7)
  /\ In (mk_range 0 10) (range_list (ranges cache_3_5_7))
  /\ covers (mk_range 0 10) 6
  /\ lock_coverage read_lock 6 SCOUTFS_LOCK_READ = true
  /\ 1 <= 6
  /\ start (mk_range 0 10) <= Z.max 1 (lock_start read_lock)
  /\ scoutfs_item_prev sample_max_val_size 1 cache_3_5_7 6 1 None
                       read_lock []
     = Ret (0, cache_3_5_7, 5, None).
Proof.
  assert (H1 : In (mk_range 0 10) (range_list (ranges cache_3_5_7)))
    by (left; reflexivity).
  assert (H2 : covers (mk_range 0 10) 6) by (unfold covers; cbn; lia).
  assert (H3 : 1 <= 6) by lia.
  assert (H4 : start (mk_range 0 10) <= Z.max 1 (lock_start read_lock))
    by (cbn; lia).
  split; [exact cache_3_5_7_bst |]. split; [exact cache_3_5_7_ranges |].
  split; [exact H1 |]. split; [exact H2 |]. split; [reflexivity |].
  split; [exact H3 |]. split; [exact H4 |].
  exact (prev_returns_last_live sample_max_val_size 0 cache_3_5_7 6 1 None
           read_lock [] (mk_range 0 10) cache_3_5_7_bst cache_3_5_7_ranges
           H1 H2 eq_refl H3 H4).
Defined.

Lemma range_cached_dirty_finds_dirty_witness :
  bst (items cache_3_5_7)
  /\ bits_ok (items cache_3_5_7)
  /\ (scoutfs_item_range_cached cache_3_5_7 0 4 true = true
      <-> exists it, In it (tree_items (items cache_3_5_7))
                     /\ item_is_dirty it = true /\ 0 <= key it <= 4).
Proof.
  split; [exact cache_3_5_7_bst |]. split; [exact cache_3_5_7_bits |].
  exact (range_cached_dirty_finds_dirty cache_3_5_7 0 4
           cache_3_5_7_bst cache_3_5_7_bits).
Defined.

Lemma shrink_around_frees_an_interval_witness :
  bst (items cache_3_5_7)
  /\ ranges_wf (ranges cache_3_5_7)
  /\ range_found (ranges cache_3_5_7) (key item_5_above_3)
     = Some (mk_range 0 10)
  /\ walk_found (items cache_3_5_7) (key item_5_above_3)
     = Some item_5_above_3
  /\ item_is_dirty item_5_above_3 = false
  /\ shrink_around cache_3_5_7 (mk_range 0 10) item_5_above_3
     = Ret (2, cache_3_to_4)
  /\ exists nr c',
       shrink_around cache_3_5_7 (mk_range 0 10) item_5_above_3
       = Ret (nr, c')
       /\ ((nr = 0 /\ c' = cache_3_5_7)
           \/ exists lo hi,
                start (mk_range 0 10) <= lo
                /\ lo <= key item_5_above_3 <= hi
                /\ hi <= end_ (mk_range 0 10)
                /\ bst (items c') /\ ranges_wf (ranges c')
                /\ (forall k, item_at c' k
                              = if (lo <=? k) && (k <=? hi) then None
                                else item_at cache_3_5_7 k)
                /\ (forall k, covered (ranges c') k
                              <-> covered (ranges cache_3_5_7) k
                                  /\ ~ lo <= k <= hi)
                /\ (forall k x, lo <= k <= hi ->
                                item_at cache_3_5_7 k = Some x ->
                                item_is_dirty x = false)
                /\ nr = to_int
                          (Z.of_nat
                             (length
                                (filter (fun x => (lo <=? key x)
                                                  && (key x <=? hi))
                                        (contents (items cache_3_5_7)))))).
Proof.
  split; [exact cache_3_5_7_bst |]. split; [exact cache_3_5_7_ranges |].
  split; [reflexivity |]. split; [reflexivity |]. split; [reflexivity |].
  split; [reflexivity |].
  exact (shrink_around_frees_an_interval cache_3_5_7 (mk_range 0 10)
           item_5_above_3 cache_3_5_7_bst cache_3_5_7_ranges
           eq_refl eq_refl eq_refl).
Defined.

Lemma shrinker_keeps_covered_items_witness :
  bst (items cache_3_5_7)
  /\ ranges_wf (ranges cache_3_5_7)
  /\ item_lru_shrink 3 cache_3_5_7 2 = Ret (0, cache_3_to_4)
  /\ bst (items cache_3_to_4) /\ ranges_wf (ranges cache_3_to_4)
  /\ (forall k, covered (ranges cache_3_to_4) k ->
                covered (ranges cache_3_5_7) k
                /\ item_at cache_3_to_4 k = item_at cache_3_5_7 k)
  /\ (forall k x, item_at cache_3_5_7 k = Some x ->
                  item_is_dirty x = true ->
                  item_at cache_3_to_4 k = Some x)
  /\ (forall k x, item_at cache_3_to_4 k = Some x ->
                  item_at cache_3_5_7 k = Some x)
  /\ 0 = to_int (Z.min (lru_nr cache_3_to_4) INT_MAX).
Proof.
  split; [exact cache_3_5_7_bst |]. split; [exact cache_3_5_7_ranges |].
  split; [reflexivity |].
  exact (shrinker_keeps_covered_items 3 cache_3_5_7 2 0 cache_3_to_4
           cache_3_5_7_bst cache_3_5_7_ranges eq_refl).
Defined.

Lemma calls_keep_ranges_in_order_witness :
  sample_max_val_size <= INT_MAX
  /\ op_ok (OpInvalidate 4 6 true)
  /\ 4 <= 6
  /\ cache_wf cache_clean_5
  /\ ranges_wf (ranges cache_clean_5)
  /\ run_op sample_max_val_size cache_clean_5 (OpInvalidate 4 6 true)
     = Ret cache_0_3_and_7_10
  /\ cache_wf cache_0_3_and_7_10
  /\ ranges_wf (ranges cache_0_3_and_7_10).
Proof.
  assert (H : 4 <= 6) by lia.
  split; [exact sample_max_val_size_fits |]. split; [exact I |].
  split; [exact H |]. split; [exact cache_clean_5_wf |].
  split; [exact cache_clean_5_ranges |]. split; [reflexivity |].
  exact (calls_keep_ranges_in_order sample_max_val_size
           (OpInvalidate 4 6 true) cache_clean_5 cache_0_3_and_7_10
           sample_max_val_size_fits I H cache_clean_5_wf
           cache_clean_5_ranges eq_refl).
Defined.

Lemma lookup_miss_reads_through_witness :
  sample_max_val_size <= INT_MAX
  /\ cache_wf cache_clean_5
  /\ ranges_wf (ranges cache_clean_5)
  /\ vec_ok (Some value_de)
  /\ fill_ok fill_15
  /\ lock_coverage read_lock 15 SCOUTFS_LOCK_READ = true
  /\ find_item (items cache_clean_5) 15 = None
  /\ range_cached cache_clean_5 15 = false
  /\ fill_ret fill_15 = 0
  /\ fill_range fill_15 = Some (11, 20)
  /\ 11 <= 15 <= 20
  /\ exists c1,
       scoutfs_item_insert_batch cache_clean_5
         (fill_batch sample_max_val_size fill_15) 11 20 true
       = Ret (0, c1)
       /\ scoutfs_item_lookup sample_max_val_size cache_clean_5 15
            (Some value_de) read_lock [fill_15]
          = lookup_locked 15 (Some value_de) c1
       /\ range_cached c1 15 = true
       /\ item_at c1 15
          = match item_at cache_clean_5 15 with
            | Some x => Some x
            | None =>
                option_map (fun it => set_persistent it true)
                  (find (fun it => key it =? 15)
                        (fill_batch sample_max_val_size fill_15))
            end.
Proof.
  assert (Hv : vec_ok (Some value_de)) by (cbn; lia).
  assert (Hf : fill_ok fill_15) by (repeat constructor; cbn; lia).
  assert (Hk : 11 <= 15 <= 20) by lia.
  split; [exact sample_max_val_size_fits |]. split; [exact cache_clean_5_wf |].
  split; [exact cache_clean_5_ranges |]. split; [exact Hv |].
  split; [exact Hf |]. split; [reflexivity |]. split; [reflexivity |].
  split; [reflexivity |]. split; [reflexivity |]. split; [reflexivity |].
  split; [exact Hk |].
  exact (lookup_miss_reads_through sample_max_val_size cache_clean_5 15
           (Some value_de) read_lock fill_15 [] 11 20
           sample_max_val_size_fits cache_clean_5_wf cache_clean_5_ranges
           Hv Hf eq_refl eq_refl eq_refl eq_refl eq_refl Hk).
Defined.
